(** * A shallow embedding of the typechecker's core

    The development follows the TypeScript sources:
    - [expression.ts]: terms, the symbol registry and its scratch layer,
      the pattern matcher, the normaliser ([Expander]) and substitution
      ([Replacer]);
    - [solver.ts]: the constraint solver;
    - [parser.ts]: the elaborator entry point [analyse];
    - [util.ts]: the stack helpers.

    Conventions.  A JavaScript [number] used as a handle or a level is a
    [Z].  Arrays are lists; an array used as a stack ([push]/[pop]) keeps
    its top at the head of the list.  A [Map] is a [gmap]; a [Set] that is
    only queried is a [gset], a [Set] that is iterated is a duplicate-free
    list in insertion order.  Mutable objects reachable from several
    places (the registry, its entries) live in one state record that is
    passed along.  A thrown error is a [Failure]. *)

From Stdlib Require Import ZArith Lia List Bool.
From stdpp Require Import base option list gmap strings pretty.

Local Open Scope Z_scope.

(** ** Failures *)

(** [Panic] is [panic()] or a failed [assert] of [util.ts]; [Undefined]
    is a run-time [undefined] that the source would dereference or store
    into a term; [NotIterable] is the [TypeError] of the run time for an
    object taken apart as an array; [OutOfFuel] belongs to the model
    only. *)
Inductive Failure := Panic | Undefined | NotIterable | OutOfFuel.

Inductive Result (A : Type) :=
| Ok (a : A)
| Err (f : Failure).
Arguments Ok {A} a.
Arguments Err {A} f.

#[global] Instance Result_ret : MRet Result := fun A a => Ok a.
#[global] Instance Result_bind : MBind Result := fun A B k m =>
  match m with
  | Ok a => k a
  | Err f => Err f
  end.

Definition isOk {A} (r : Result A) : bool :=
  match r with Ok _ => true | Err _ => false end.

(** ** Numbers

    The numbers of the program are IEEE 754 doubles.  Handles, counts
    and positions are bounded by the length of an array or of the text
    and stay below [2^53], where the doubles are the integers.  A
    universe level is what the text of the program says: a double that
    holds a natural number, or [Infinity] for a literal of more than
    308 digits.  The model keeps such a number in [Z], with [2 ^ 1024]
    standing for [Infinity], and [number z] is the double nearest to the
    integer [z], a tie going to the even significand, and [Infinity]
    from [2 ^ 1024 - 2 ^ 970] on: what the run time returns for a sum, a
    difference or a product whose exact value is [z]. *)
Definition number (z : Z) : Z :=
  let a := Z.abs z in
  if a <=? 2 ^ 53 then z
  else
    let ulp := 2 ^ (Z.log2 a - 52) in
    let q := a / ulp in
    let r := a mod ulp in
    let q := if 2 * r <? ulp then q
             else if ulp <? 2 * r then q + 1
             else if Z.even q then q else q + 1 in
    Z.sgn z * (if q * ulp <? 2 ^ 1024 then q * ulp else 2 ^ 1024).

(** ** Terms ([expression.ts], [Expression]) *)

Abbreviation Symbol := Z (only parsing).

Inductive Expression : Type :=
| SYMBOL (symbol : Symbol)
| LAMBDA (arg : Symbol) (body : Expression)
| CALL (fn : Expression) (args : list Expression)
| FN_TYPE (inputType outputType : Expression) (arg : option Symbol)
| PATTERN (variable : option Symbol)
| PLACEHOLDER
| UNIVERSE (subscript : Expression)
| LEVEL_TYPE
| LEVEL (value : Z)
| LEVEL_SUCC (expr : Expression)
| LEVEL_MAX (lhs rhs : Expression).

(** [symbolExpression(symbol, loc)]: source ranges are not modelled. *)
Definition symbolExpression (symbol : Symbol) : Expression := SYMBOL symbol.

(** Rewrite rules as [parser.ts] builds and [solver.ts] reads them:
    the objects [{lhs, rhs, patterns}].  No code of the sources stores
    a rule of another shape. *)
Record Rule := mkRule {
  r_patterns : list Symbol;
  r_lhs : Expression;
  r_rhs : Expression }.

Record SymbolEntry := mkEntry {
  e_name : string;
  e_parent : option Symbol;
  e_isLocal : bool;
  e_subSymbols : option (gmap string Symbol);
  e_type : option Expression;
  e_ownValue : option Expression;
  e_downValue : option (list Rule) }.

Definition newEntry (parent : option Symbol) (name : string) (isLocal : bool)
  : SymbolEntry :=
  mkEntry name parent isLocal None None None None.

Definition set_subSymbols (m : gmap string Symbol) (e : SymbolEntry) :=
  mkEntry (e_name e) (e_parent e) (e_isLocal e) (Some m)
          (e_type e) (e_ownValue e) (e_downValue e).
Definition set_type (t : Expression) (e : SymbolEntry) :=
  mkEntry (e_name e) (e_parent e) (e_isLocal e) (e_subSymbols e)
          (Some t) (e_ownValue e) (e_downValue e).
Definition set_ownValue (v : Expression) (e : SymbolEntry) :=
  mkEntry (e_name e) (e_parent e) (e_isLocal e) (e_subSymbols e)
          (e_type e) (Some v) (e_downValue e).
Definition set_downValue (d : list Rule) (e : SymbolEntry) :=
  mkEntry (e_name e) (e_parent e) (e_isLocal e) (e_subSymbols e)
          (e_type e) (e_ownValue e) (Some d).

(** ** Arrays indexed by a JavaScript number *)

(** [a[i]]: [undefined] outside the array. *)
Definition arrayGet {A} (a : list A) (i : Z) : option A :=
  if (0 <=? i) && (i <? Z.of_nat (length a)) then a !! Z.to_nat i else None.

(** [a[i] = x] for an index inside the array.  Outside it JavaScript
    would grow the array with holes; no caller reaches that case and the
    model reports it as [Undefined]. *)
Definition arraySet {A} (a : list A) (i : Z) (x : A) : Result (list A) :=
  if (0 <=? i) && (i <? Z.of_nat (length a))
  then Ok (<[Z.to_nat i := x]> a)
  else Err Undefined.

(** ** The permanent registry ([class SymbolRegistry]) *)

Module SymbolRegistry.

Record t := mk {
  entriesById : list SymbolEntry;
  entriesByName : gmap string Symbol;
  removedSymbols : list Symbol (* a stack, top first *) }.

Definition empty : t := mk [] ∅ [].

Definition getSymbolCount (reg : t) : Z := Z.of_nat (length (entriesById reg)).

Definition tryGetSymbolEntry (reg : t) (s : Symbol) : option SymbolEntry :=
  if (0 <=? s) && (s <? Z.of_nat (length (entriesById reg)))
  then entriesById reg !! Z.to_nat s
  else None.

Definition getSymbolEntry (reg : t) (s : Symbol) : Result SymbolEntry :=
  match tryGetSymbolEntry reg s with
  | Some e => Ok e
  | None => Err Panic
  end.

(** Write back a mutated entry object. *)
Definition setEntry (reg : t) (s : Symbol) (e : SymbolEntry) : Result t :=
  a ← arraySet (entriesById reg) s e;
  Ok (mk a (entriesByName reg) (removedSymbols reg)).

Definition createSymbol (reg : t) (parent : option Symbol) (name : string)
    (isLocal : bool) : Result (t * Symbol) :=
  '(reg1, ret) ←
    match removedSymbols reg with
    | ret :: rest =>
        a ← arraySet (entriesById reg) ret (newEntry parent name isLocal);
        Ok (mk a (entriesByName reg) rest, ret)
    | [] =>
        Ok (mk (entriesById reg ++ [newEntry parent name isLocal])
               (entriesByName reg) [],
            Z.of_nat (length (entriesById reg)))
    end;
  match parent with
  | Some p =>
      match arrayGet (entriesById reg1) p with
      | None => Err Undefined
      | Some entry =>
          let m := default ∅ (e_subSymbols entry) in
          reg2 ← setEntry reg1 p (set_subSymbols (<[name := ret]> m) entry);
          Ok (reg2, ret)
      end
  | None =>
      Ok (mk (entriesById reg1) (<[name := ret]> (entriesByName reg1))
             (removedSymbols reg1), ret)
  end.

(** The child map consulted by [addNewSymbol] and [getSymbol]:
    [parent === null ? entriesByName : entriesById[parent].subSymbols]. *)
Definition childMap (reg : t) (parent : option Symbol)
  : Result (option (gmap string Symbol)) :=
  match parent with
  | None => Ok (Some (entriesByName reg))
  | Some p =>
      match arrayGet (entriesById reg) p with
      | None => Err Undefined
      | Some entry => Ok (e_subSymbols entry)
      end
  end.

Definition addNewSymbol (reg : t) (parent : option Symbol) (name : string)
    (isLocal : bool) : Result (t * (Symbol * bool)) :=
  map ← childMap reg parent;
  match map ≫= (.!! name) with
  | Some s => Ok (reg, (s, false))
  | None =>
      '(reg', ret) ← createSymbol reg parent name isLocal;
      Ok (reg', (ret, true))
  end.

Definition getSymbol (reg : t) (parent : option Symbol) (name : string)
    (create : bool) : Result (t * option Symbol) :=
  map ← childMap reg parent;
  match map ≫= (.!! name) with
  | Some s => Ok (reg, Some s)
  | None =>
      if create then
        '(reg', (s, _)) ← addNewSymbol reg parent name false;
        Ok (reg', Some s)
      else Ok (reg, None)
  end.

Definition removeSymbol (reg : t) (symbol : Symbol) : Result t :=
  entry ← getSymbolEntry reg symbol;
  reg1 ←
    match e_parent entry with
    | Some p =>
        parent ← getSymbolEntry reg p;
        match e_subSymbols parent with
        | None => Err Panic
        | Some m => setEntry reg p (set_subSymbols (delete (e_name entry) m) parent)
        end
    | None => Ok reg
    end;
  Ok (mk (entriesById reg1) (entriesByName reg1) (symbol :: removedSymbols reg1)).

Definition defineInternalSymbols (reg : t) : Result t :=
  '(reg1, (builtin, _)) ← addNewSymbol reg None "builtin" false;
  '(reg2, (level, _)) ← addNewSymbol reg1 (Some builtin) "Level" false;
  entry ← getSymbolEntry reg2 level;
  setEntry reg2 level (set_ownValue LEVEL_TYPE entry).

End SymbolRegistry.

(** ** The scratch layer ([class TempSymbolRegistry]) *)

Module TempSymbolRegistry.

Record t := mk {
  tempSymbols : list SymbolEntry;
  parent : SymbolRegistry.t }.

Definition create (parent : SymbolRegistry.t) : t := mk [] parent.

(** The [count] that every method computes first. *)
Definition count (reg : t) : Z := SymbolRegistry.getSymbolCount (parent reg).

(** The lookup returns [undefined] (here [Err Undefined]) past the end
    of [tempSymbols]; it panics through the parent below zero. *)
Definition getSymbolEntry (reg : t) (s : Symbol) : Result SymbolEntry :=
  let count := SymbolRegistry.getSymbolCount (parent reg) in
  if s <? count then SymbolRegistry.getSymbolEntry (parent reg) s
  else match arrayGet (tempSymbols reg) (s - count) with
       | Some e => Ok e
       | None => Err Undefined
       end.

Definition isTempSymbol (reg : t) (s : Symbol) : bool :=
  SymbolRegistry.getSymbolCount (parent reg) <=? s.

Definition createTempSymbol (reg : t) (isLocal : bool)
    (type : option Expression) : t * Symbol :=
  let ret := Z.of_nat (length (tempSymbols reg))
             + SymbolRegistry.getSymbolCount (parent reg) in
  let entry := mkEntry EmptyString None isLocal None type None None in
  (mk (tempSymbols reg ++ [entry]) (parent reg), ret).

(** Write back a mutated entry object obtained from [getSymbolEntry]. *)
Definition setEntry (reg : t) (s : Symbol) (e : SymbolEntry) : Result t :=
  let count := SymbolRegistry.getSymbolCount (parent reg) in
  if s <? count then
    p ← SymbolRegistry.setEntry (parent reg) s e;
    Ok (mk (tempSymbols reg) p)
  else
    a ← arraySet (tempSymbols reg) (s - count) e;
    Ok (mk a (parent reg)).

End TempSymbolRegistry.

(** ** Substitution ([class Replacer])

    The source walks the term with a stack of continuations; every
    [_replace] action leaves exactly one result on the value stack, so
    the walk is the left-to-right recursion below.  The substitution
    [maps] is a field that the binder cases mutate while the walk is in
    progress, hence it is threaded through as state. *)

Module Replacer.

Fixpoint _replace (maps : gmap Z Expression) (expr : Expression) {struct expr}
  : Expression * gmap Z Expression :=
  match expr with
  | SYMBOL symbol =>
      match maps !! symbol with
      | Some value => (value, maps)
      | None => (expr, maps)
      end
  | FN_TYPE inputType outputType arg =>
      match arg, arg ≫= (maps !!.) with
      | Some a, Some old =>
          let '(inputType', m1) := _replace maps inputType in
          let m2 := delete a m1 in
          let '(outputType', m3) := _replace m2 outputType in
          (FN_TYPE inputType' outputType' arg, <[a := old]> m3)
      | _, _ =>
          let '(inputType', m1) := _replace maps inputType in
          let '(outputType', m2) := _replace m1 outputType in
          (FN_TYPE inputType' outputType' arg, m2)
      end
  | LAMBDA arg body =>
      match maps !! arg with
      | None =>
          let '(body', m1) := _replace maps body in
          (LAMBDA arg body', m1)
      | Some old =>
          (* no [maps.delete(arg)] before the body is visited *)
          let '(body', m1) := _replace maps body in
          (LAMBDA arg body', <[arg := old]> m1)
      end
  | CALL fn args =>
      let '(fn', m1) := _replace maps fn in
      let '(args', m2) :=
        (fix go (m : gmap Z Expression) (l : list Expression) {struct l} :=
           match l with
           | [] => ([], m)
           | x :: r =>
               let '(x', m') := _replace m x in
               let '(r', m'') := go m' r in
               (x' :: r', m'')
           end) m1 args in
      (CALL fn' args', m2)
  | UNIVERSE subscript =>
      let '(subscript', m1) := _replace maps subscript in
      (UNIVERSE subscript', m1)
  | _ => (expr, maps)
  end.

Definition doReplace (maps : gmap Z Expression) (expr : Expression) : Expression :=
  fst (_replace maps expr).

Definition replaceOne (expr : Expression) (source : Symbol)
    (replacement : Expression) : Expression :=
  doReplace {[ source := replacement ]} expr.

Definition replaceMany (expr : Expression) (map : gmap Z Expression) : Expression :=
  doReplace map expr.

End Replacer.

Definition replaceOneSymbol (expr : Expression) (source : Symbol)
    (replacement : Expression) : Expression :=
  Replacer.replaceOne expr source replacement.

Definition replaceSymbols (expr : Expression) (map : gmap Z Expression) : Expression :=
  Replacer.replaceMany expr map.

(** [replaceOneSymbol(expr, source, undefined)], the call that the
    solver makes with [con.args[0]] of an empty argument list.  With
    [source] bound to [undefined] the test [maps.get(symbol) !== void 0]
    fails for every symbol, so nothing is replaced, while a [LAMBDA] or
    a dependent [FN_TYPE] that binds [source] finds [maps.has(arg)] and
    stops at [maps.get(arg) ?? panic()]. *)
Fixpoint replaceOneUndefined (expr : Expression) (source : Symbol) {struct expr}
  : Result Expression :=
  match expr with
  | FN_TYPE inputType outputType arg =>
      if bool_decide (arg = Some source) then Err Panic
      else
        inputType' ← replaceOneUndefined inputType source;
        outputType' ← replaceOneUndefined outputType source;
        Ok (FN_TYPE inputType' outputType' arg)
  | LAMBDA arg body =>
      if bool_decide (arg = source) then Err Panic
      else
        body' ← replaceOneUndefined body source;
        Ok (LAMBDA arg body')
  | CALL fn args =>
      fn' ← replaceOneUndefined fn source;
      args' ←
        (fix go (l : list Expression) {struct l} : Result (list Expression) :=
           match l with
           | [] => Ok []
           | x :: r =>
               x' ← replaceOneUndefined x source;
               r' ← go r;
               Ok (x' :: r')
           end) args;
      Ok (CALL fn' args')
  | UNIVERSE subscript =>
      subscript' ← replaceOneUndefined subscript source;
      Ok (UNIVERSE subscript')
  | _ => Ok expr
  end.

(** ** The pattern matcher ([matchPattern])

    [Ok None] is the source's [null]; the work list [todo] is the
    source's stack of pairs [[pattern, expr]]. *)

Fixpoint matchLoop (fuel : nat) (substitues : gmap Z Expression)
    (todo : list (Expression * Expression))
  : Result (option (gmap Z Expression)) :=
  match fuel with
  | O => Err OutOfFuel
  | S fuel =>
    match todo with
    | [] => Ok (Some substitues)
    | (pattern, expr) :: todo =>
      match pattern with
      | SYMBOL psym =>
          match expr with
          | SYMBOL esym =>
              if decide (psym = esym) then matchLoop fuel substitues todo
              else Ok None
          | _ => Ok None
          end
      | PATTERN (Some variable) =>
          match substitues !! variable with
          | Some old => matchLoop fuel substitues ((old, expr) :: todo)
          | None => matchLoop fuel (<[variable := expr]> substitues) todo
          end
      | PATTERN None => matchLoop fuel substitues todo
      | CALL pfn pargs =>
          match expr with
          | CALL efn eargs =>
              if decide (length eargs = length pargs) then
                matchLoop fuel substitues
                  ((pfn, efn) :: zip pargs eargs ++ todo)
              else Ok None
          | _ => Ok None
          end
      | LAMBDA parg pbody =>
          match expr with
          | LAMBDA earg ebody =>
              matchLoop fuel substitues
                ((pbody,
                  if decide (earg = parg) then ebody
                  else replaceOneSymbol ebody earg (symbolExpression parg))
                 :: todo)
          | _ => Ok None
          end
      | FN_TYPE pin pout parg =>
          match expr with
          | FN_TYPE ein eout earg =>
              let out :=
                match parg, earg with
                | Some pa, Some ea =>
                    if decide (pa = ea) then eout
                    else replaceOneSymbol eout ea pattern
                | _, _ => eout
                end in
              matchLoop fuel substitues ((pin, ein) :: (pout, out) :: todo)
          | _ => Ok None
          end
      | UNIVERSE psub =>
          match expr with
          | UNIVERSE esub => matchLoop fuel substitues ((psub, esub) :: todo)
          | _ => Ok None
          end
      | LEVEL_TYPE =>
          match expr with
          | LEVEL_TYPE => matchLoop fuel substitues todo
          | _ => Ok None
          end
      | LEVEL_SUCC pexpr =>
          match expr with
          | LEVEL_SUCC eexpr => matchLoop fuel substitues ((pexpr, eexpr) :: todo)
          | LEVEL value =>
              if 0 <? value
              then matchLoop fuel substitues
                     ((pexpr, LEVEL (number (value - 1))) :: todo)
              else Ok None
          | _ => matchLoop fuel substitues todo
          end
      | PLACEHOLDER | LEVEL _ | LEVEL_MAX _ _ => Err Panic
      end
    end
  end.

Definition matchPattern (fuel : nat) (expr pattern : Expression)
  : Result (option (gmap Z Expression)) :=
  matchLoop fuel ∅ [(pattern, expr)].

(** ** The normaliser ([class Expander])

    Every closure pushed on [todo] by the source is one constructor of
    [ExpanderAction], carrying the variables the closure captures. *)

Module Expander.

Inductive ExpanderAction :=
| A_expand (expr : Expression)                        (* [_expand(expr)] *)
| A_expandCall (fn : Expression) (args : list Expression) (* [_expandCall(fn, args)] *)
| K_lambda (arg : Symbol) (expr : Expression)
| K_fnType (arg : option Symbol)
| K_universe
| K_levelSucc
| K_levelMax
| K_call                       (* continuation of a one-argument call *)
| K_callRest (lastArg : option Expression). (* continuation of a longer call *)

Record t := mk {
  todo : list ExpanderAction;
  stack : list Expression;
  changed : bool }.

(** [pushReversed(this.todo, actions)]: the first action runs first. *)
Definition doActions (actions : list ExpanderAction) (st : t) : t :=
  mk (actions ++ todo st) (stack st) (changed st).

Definition push (e : Expression) (st : t) : t :=
  mk (todo st) (e :: stack st) (changed st).

(** [this.stack.pop()!] whose result is used as a term. *)
Definition pop (st : t) : Result (Expression * t) :=
  match stack st with
  | e :: rest => Ok (e, mk (todo st) rest (changed st))
  | [] => Err Undefined
  end.

Definition setChanged (st : t) : t := mk (todo st) (stack st) true.

(** The loop over [entry.downValue] in [_expandCall],
    [for (const [lhs, rhs] of entry.downValue)].  [expression.ts]
    declares the elements as pairs [[lhs, rhs]], but what an entry holds
    are the objects [{lhs, rhs, patterns}] that [parser.ts] stores and
    [solver.ts] reads.  Taking the first of them apart as an array
    throws a [TypeError], before [matchPattern] is called on it; an
    empty list is passed over. *)
Definition tryRules (result : Expression) (rules : list Rule)
  : Result (option Expression) :=
  match rules with
  | [] => Ok None
  | _ :: _ => Err NotIterable
  end.

Definition last1 (args : list Expression) : list Expression :=
  match last args with Some a => [a] | None => [] end.

Definition step (registry : TempSymbolRegistry.t)
    (action : ExpanderAction) (st : t) : Result t :=
  match action with
  | A_expand expr =>
      match expr with
      | SYMBOL symbol =>
          entry ← TempSymbolRegistry.getSymbolEntry registry symbol;
          match e_ownValue entry with
          | Some ownValue => Ok (doActions [A_expand ownValue] st)
          | None => Ok (push expr st)
          end
      | CALL fn args => Ok (doActions [A_expandCall fn args] st)
      | LAMBDA arg body => Ok (doActions [A_expand body; K_lambda arg expr] st)
      | FN_TYPE inputType outputType arg =>
          Ok (doActions [A_expand inputType; A_expand outputType; K_fnType arg] st)
      | UNIVERSE subscript => Ok (doActions [A_expand subscript; K_universe] st)
      | LEVEL_SUCC e => Ok (doActions [A_expand e; K_levelSucc] st)
      | LEVEL_MAX lhs rhs =>
          Ok (doActions [A_expand lhs; A_expand rhs; K_levelMax] st)
      | PATTERN _ | LEVEL_TYPE | LEVEL _ | PLACEHOLDER => Ok (push expr st)
      end
  | K_lambda arg expr =>
      if changed st then
        '(body, st) ← pop st;
        Ok (push (LAMBDA arg body) st)
      else Ok (push expr st)
  | K_fnType arg =>
      '(outputType, st) ← pop st;
      '(inputType, st) ← pop st;
      Ok (push (FN_TYPE inputType outputType arg) st)
  | K_universe =>
      '(subscript, st) ← pop st;
      Ok (push (UNIVERSE subscript) st)
  | K_levelSucc =>
      '(expr, st) ← pop st;
      match expr with
      | LEVEL value => Ok (push (LEVEL (number (value + 1))) (setChanged st))
      | _ => Ok (push (LEVEL_SUCC expr) st)
      end
  | K_levelMax =>
      '(rhs, st) ← pop st;
      '(lhs, st) ← pop st;
      match lhs, rhs with
      | LEVEL a, LEVEL b => Ok (push (LEVEL (Z.max a b)) (setChanged st))
      | _, _ => Ok (push (LEVEL_MAX lhs rhs) st)
      end
  | A_expandCall fn args =>
      match args with
      | [arg0] => Ok (doActions [A_expand fn; A_expand arg0; K_call] st)
      | _ =>
          (* [args.slice(-1)] keeps the last argument only *)
          Ok (doActions [A_expandCall fn (last1 args); K_callRest (last args)] st)
      end
  | K_callRest lastArg =>
      (* [self._expandCall(self.stack.pop()!, [lastArg])] builds an action
         and drops it: only the [pop] has an effect *)
      Ok (mk (todo st) (tail (stack st)) (changed st))
  | K_call =>
      '(arg, st) ← pop st;
      '(fn, st) ← pop st;
      let '(result, st) :=
        match fn with
        | LAMBDA farg _ => (replaceOneSymbol fn farg arg, setChanged st)
        | CALL ffn fargs => (CALL ffn (fargs ++ [arg]), st)
        | _ => (CALL fn [arg], st)
        end in
      match result with
      | CALL (SYMBOL head) _ =>
          entry ← TempSymbolRegistry.getSymbolEntry registry head;
          match e_downValue entry with
          | Some rules =>
              r ← tryRules result rules;
              match r with
              | Some result' => Ok (doActions [A_expand result'] (setChanged st))
              | None => Ok (push result st)
              end
          | None => Ok (push result st)
          end
      | _ => Ok (push result st)
      end
  end.

(** [while (this.todo.length > 0) this.todo.pop()!(this)] *)
Fixpoint loop (registry : TempSymbolRegistry.t) (n : nat) (st : t)
  : Result t :=
  match todo st with
  | [] => Ok st
  | action :: rest =>
      match n with
      | O => Err OutOfFuel
      | S n =>
          st' ← step registry action (mk rest (stack st) (changed st));
          loop registry n st'
      end
  end.

Definition expand (fuel : nat) (registry : TempSymbolRegistry.t)
    (expr : Expression) : Result (Expression * bool) :=
  st ← loop registry fuel (mk [A_expand expr] [] false);
  match stack st with
  | [e] => Ok (e, changed st)
  | _ => Err Panic
  end.

End Expander.

(** ** The constraint solver ([solver.ts]) *)

Inductive Constraint :=
| TYPE (expr type : Expression)
| FN (expr : Expression) (args : list Expression) (outputType : Expression)
| EQUAL (expr1 expr2 : Expression)
| FN_TYPE_EQUAL (fnType : Expression) (args : list Expression)
                (outputType : Expression)
| TYPE_UNDEFINED (type : Expression).
  (* the [TYPE] constraint whose [expr] is [undefined]: what
     [addTypeConstraint(con.args[0], ...)] queues for an empty [con.args] *)

Inductive Diagnostic :=
| UNTYPED_EXPRESSION (expr : Expression)
| UNEQUAL (expr1 expr2 : Expression)
| UNMET_SUBSCRIPT_CONSTRAINT (smaller larger : Z)
| UNRESOLVED_CONSTRAINT (constraint : Constraint)
| UNINFERED_VAR (symbols : list Symbol)
| FN_TYPE_EXPECTED (type : Expression).

(** The two shapes of a [TypeConstraint] once its [expr] is taken out. *)
Inductive TypeConstraintKind :=
| AsTYPE (type : Expression)
| AsFN (args : list Expression) (outputType : Expression).

(** [Set.add] on a set that is iterated later. *)
Definition setAdd (s : Symbol) (l : list Symbol) : list Symbol :=
  if decide (s ∈ l) then l else l ++ [s].

Module ConstraintSolver.

Record t := mk {
  registry : TempSymbolRegistry.t;
  diagnostics : list Diagnostic;
  constraints : list Constraint;
  unlockedSymbols : gset Z;
  affectedSymbols : list Symbol }.

(** [new ConstraintSolver(context, logger)] *)
Definition create (context : SymbolRegistry.t) : t :=
  mk (TempSymbolRegistry.create context) [] [] ∅ [].

Definition context (st : t) : SymbolRegistry.t :=
  TempSymbolRegistry.parent (registry st).

Definition withRegistry (r : TempSymbolRegistry.t) (st : t) : t :=
  mk r (diagnostics st) (constraints st) (unlockedSymbols st) (affectedSymbols st).
Definition pushDiagnostic (d : Diagnostic) (st : t) : t :=
  mk (registry st) (diagnostics st ++ [d]) (constraints st)
     (unlockedSymbols st) (affectedSymbols st).
Definition pushConstraint (c : Constraint) (st : t) : t :=
  mk (registry st) (diagnostics st) (constraints st ++ [c])
     (unlockedSymbols st) (affectedSymbols st).
Definition withConstraints (cs : list Constraint) (st : t) : t :=
  mk (registry st) (diagnostics st) cs (unlockedSymbols st) (affectedSymbols st).
Definition withDiagnostics (ds : list Diagnostic) (st : t) : t :=
  mk (registry st) ds (constraints st) (unlockedSymbols st) (affectedSymbols st).
Definition addAffected (s : Symbol) (st : t) : t :=
  mk (registry st) (diagnostics st) (constraints st) (unlockedSymbols st)
     (setAdd s (affectedSymbols st)).

Definition unlockSymbol (s : Symbol) (st : t) : t :=
  mk (registry st) (diagnostics st) (constraints st)
     ({[ s ]} ∪ unlockedSymbols st) (affectedSymbols st).

Definition addTypeConstraint (expr type : Expression) (st : t) : t :=
  pushConstraint (TYPE expr type) st.
Definition addEqualConstraint (smallerType largerType : Expression) (st : t) : t :=
  pushConstraint (EQUAL smallerType largerType) st.
Definition addFnTypeConstraint (expr : Expression) (args : list Expression)
    (outputType : Expression) (st : t) : t :=
  pushConstraint (FN expr args outputType) st.
Definition addFnTypeEqualConstraint (fnType : Expression) (args : list Expression)
    (outputType : Expression) (st : t) : t :=
  pushConstraint (FN_TYPE_EQUAL fnType args outputType) st.

Definition createTempSymbol (isLocal : bool) (type : option Expression) (st : t)
  : t * Symbol :=
  let '(r, s) := TempSymbolRegistry.createTempSymbol (registry st) isLocal type in
  (withRegistry r st, s).

Definition addTypeTypeConstraint (type : Expression) (st : t) : t :=
  let '(st, sub) := createTempSymbol false (Some LEVEL_TYPE) st in
  addTypeConstraint type (UNIVERSE (symbolExpression sub)) st.

Definition createTypeSymbol (isLocal : bool) (st : t) : t * Symbol :=
  let '(st, level) := createTempSymbol false (Some LEVEL_TYPE) st in
  createTempSymbol isLocal (Some (UNIVERSE (symbolExpression level))) st.

Definition setEntry (s : Symbol) (e : SymbolEntry) (st : t) : Result t :=
  r ← TempSymbolRegistry.setEntry (registry st) s e;
  Ok (withRegistry r st).

Section Solver.

(** Imported by [solver.ts] but defined in no source file at hand:
    [checkOwnValueCycle] from [expression.ts] ([true] when the assignment
    is accepted) and [complement] from [util.ts]. *)
Variable checkOwnValueCycle : Symbol -> Expression -> bool.
Variable complement : gmap Z Expression -> list Symbol -> gmap Z Expression.

(** Fuel handed to every run of the normaliser. *)
Variable fuel : nat.

Definition expand (st : t) (expr : Expression) : Result (Expression * bool) :=
  Expander.expand fuel (registry st) expr.

Definition trySetOwnValue (symbol : Symbol) (value : Expression) (st : t)
  : Result (t * bool) :=
  entry ← TempSymbolRegistry.getSymbolEntry (registry st) symbol;
  if bool_decide (is_Some (e_ownValue entry)) then Ok (st, false)
  else if negb (TempSymbolRegistry.isTempSymbol (registry st) symbol)
  then Ok (st, false)
  else if negb (checkOwnValueCycle symbol value)
  then Ok (pushDiagnostic (UNEQUAL (symbolExpression symbol) value) st, false)
  else
    st ← setEntry symbol (set_ownValue value entry) st;
    let st := match e_type entry with
              | Some type => addTypeConstraint value type st
              | None => st
              end in
    let st := if negb (TempSymbolRegistry.isTempSymbol (registry st) symbol)
              then addAffected symbol st else st in
    Ok (st, true).

Definition isLEVEL_SUCC (e : Expression) : bool :=
  match e with LEVEL_SUCC _ => true | _ => false end.

Definition matchLevelSucc (expr1 expr2 : Expression) (st : t) : t * bool :=
  (* [const tmp = expr1; expr2 = expr1; expr1 = tmp;] *)
  let expr2 := if isLEVEL_SUCC expr2 && negb (isLEVEL_SUCC expr1)
               then expr1 else expr2 in
  match expr1 with
  | LEVEL_SUCC e1 =>
      match expr2 with
      | LEVEL_SUCC e2 => (addEqualConstraint e1 e2 st, true)
      | LEVEL value =>
          if 0 <? value
          then (addEqualConstraint e1 (LEVEL (number (value - 1))) st, true)
          else (pushDiagnostic (UNEQUAL expr1 expr2) st, true)
      | _ => (st, false)
      end
  | _ => (st, false)
  end.

Definition isSYMBOL (e : Expression) : bool :=
  match e with SYMBOL _ => true | _ => false end.

(** The two swaps at the head of [evaluateEqualConstraint]. *)
Definition orient (r : TempSymbolRegistry.t) (expr1 expr2 : Expression)
  : Expression * Expression :=
  let '(expr1, expr2) :=
    if negb (isSYMBOL expr1) && isSYMBOL expr2 then (expr2, expr1)
    else (expr1, expr2) in
  match expr1, expr2 with
  | SYMBOL s1, SYMBOL s2 =>
      if negb (TempSymbolRegistry.isTempSymbol r s1)
         && TempSymbolRegistry.isTempSymbol r s2
      then (expr2, expr1) else (expr1, expr2)
  | _, _ => (expr1, expr2)
  end.

(** The part of [evaluateEqualConstraint] after the symbol case. *)
Definition evaluateEqualStructural (con1 con2 : Expression)
    (expr1 expr2 : Expression) (changed1 changed2 previouslyNoChange : bool)
    (st : t) : Result (t * bool) :=
  match expr1, expr2 with
  | LAMBDA a1 body1, LAMBDA a2 body2 =>
      let '(st, arg1) := createTempSymbol true None st in
      let '(st, arg2) := createTempSymbol true None st in
      Ok (addEqualConstraint
            (replaceOneSymbol body1 a1 (symbolExpression arg1))
            (replaceOneSymbol body2 a2 (symbolExpression arg2)) st, true)
  | FN_TYPE in1 out1 a1, FN_TYPE in2 out2 a2 =>
      let st := addEqualConstraint in1 in2 st in
      let '(st, output1) :=
        match a1 with
        | Some a =>
            let '(st, arg) := createTempSymbol true (Some in1) st in
            (st, replaceOneSymbol out1 a (symbolExpression arg))
        | None => (st, out1)
        end in
      let '(st, output2) :=
        match a2 with
        | Some a =>
            let '(st, arg) := createTempSymbol true (Some in2) st in
            (st, replaceOneSymbol out2 a (symbolExpression arg))
        | None => (st, out2)
        end in
      Ok (addEqualConstraint output1 output2 st, true)
  | UNIVERSE s1, UNIVERSE s2 => Ok (addEqualConstraint s1 s2 st, true)
  | LEVEL_TYPE, LEVEL_TYPE => Ok (st, true)
  | LEVEL v1, LEVEL v2 =>
      if decide (v1 = v2) then Ok (st, true)
      else Ok (pushDiagnostic (UNEQUAL expr1 expr2) st, true)
  | _, _ =>
      let '(st', matched) := matchLevelSucc expr1 expr2 st in
      if matched then Ok (st', true)
      else
        match previouslyNoChange, expr1, expr2 with
        | true, CALL fn1 args1, CALL fn2 args2 =>
            if decide (length args1 = length args2) then
              let st := addEqualConstraint fn1 fn2 st in
              Ok (foldl (fun st (ab : Expression * Expression) =>
                           addEqualConstraint ab.1 ab.2 st) st
                        (zip args1 args2), true)
            else Ok (pushDiagnostic (UNEQUAL expr1 expr2) st, false)
        | _, _, _ =>
            if changed1 || changed2
            then Ok (addEqualConstraint expr1 expr2 st, true)
            else Ok (pushConstraint (EQUAL con1 con2) st, false)
        end
  end.

Definition evaluateEqualConstraint (con1 con2 : Expression)
    (previouslyNoChange : bool) (st : t) : Result (t * bool) :=
  '(expr1, changed1) ← expand st con1;
  '(expr2, changed2) ← expand st con2;
  let '(expr1, expr2) := orient (registry st) expr1 expr2 in
  let continue st :=
    evaluateEqualStructural con1 con2 expr1 expr2 changed1 changed2
                            previouslyNoChange st in
  match expr1 with
  | SYMBOL s1 =>
      if match expr2 with SYMBOL s2 => bool_decide (s1 = s2) | _ => false end
      then Ok (st, true)
      else
        '(st, ok) ← trySetOwnValue s1 expr2 st;
        if ok : bool then Ok (st, true) else continue st
  | _ => continue st
  end.

(** [makeInferedFnType]: the arguments are visited from the last one. *)
Fixpoint makeInferedFnTypeLoop (revArgs : list Expression) (ret : Expression)
    (st : t) : t * Expression :=
  match revArgs with
  | [] => (st, ret)
  | arg :: revArgs =>
      let '(st, sub) := createTempSymbol false None st in
      let '(st, inputType) :=
        createTempSymbol false (Some (UNIVERSE (symbolExpression sub))) st in
      let st := addTypeConstraint arg (symbolExpression inputType) st in
      makeInferedFnTypeLoop revArgs
        (FN_TYPE (symbolExpression inputType) ret None) st
  end.

Definition makeInferedFnType (args : list Expression) (outputType : Expression)
    (st : t) : t * Expression :=
  makeInferedFnTypeLoop (rev args) outputType st.

Definition evaluateTypeConstraint (expr : Expression) (con : TypeConstraintKind)
    (st : t) : Result (t * bool) :=
  match expr with
  | SYMBOL symbol =>
      entry ← TempSymbolRegistry.getSymbolEntry (registry st) symbol;
      match e_type entry with
      | Some symbolType =>
          match con with
          | AsTYPE type => Ok (addEqualConstraint symbolType type st, true)
          | AsFN args outputType =>
              Ok (addFnTypeEqualConstraint symbolType args outputType st, true)
          end
      | None =>
          if TempSymbolRegistry.isTempSymbol (registry st) symbol
             || bool_decide (symbol ∈ unlockedSymbols st)
          then
            let st := addAffected symbol st in
            let '(st, type) :=
              match con with
              | AsTYPE type => (st, type)
              | AsFN args outputType => makeInferedFnType args outputType st
              end in
            st ← setEntry symbol (set_type type entry) st;
            match e_ownValue entry with
            | Some ownValue => Ok (addTypeConstraint ownValue type st, true)
            | None => Ok (st, true)
            end
          else Ok (pushDiagnostic (UNTYPED_EXPRESSION expr) st, true)
      end
  | CALL fn args =>
      match con with
      | AsTYPE type => Ok (addFnTypeConstraint fn args type st, true)
      | AsFN cargs outputType =>
          Ok (addFnTypeConstraint fn (cargs ++ args) outputType st, true)
      end
  | LAMBDA arg body =>
      match con with
      | AsTYPE type =>
          let '(st, inputType) := createTempSymbol false None st in
          let '(st, outputType) := createTempSymbol false None st in
          let '(st, arg') :=
            createTempSymbol true (Some (symbolExpression inputType)) st in
          let st := addTypeTypeConstraint (symbolExpression inputType) st in
          let st := addTypeTypeConstraint (symbolExpression outputType) st in
          let st := addTypeConstraint
                      (replaceOneSymbol body arg (symbolExpression arg'))
                      (symbolExpression outputType) st in
          Ok (addEqualConstraint
                (FN_TYPE (symbolExpression inputType)
                         (symbolExpression outputType) (Some arg'))
                type st, true)
      | AsFN [] outputType =>
          (* [con.args[0]] is [undefined] and [con.args.slice(1)] is empty *)
          body' ← replaceOneUndefined body arg;
          Ok (addFnTypeConstraint body' [] outputType st, true)
      | AsFN [a0] outputType =>
          Ok (addTypeConstraint (replaceOneSymbol body arg a0) outputType st, true)
      | AsFN (a0 :: rest) outputType =>
          Ok (addFnTypeConstraint (replaceOneSymbol body arg a0) rest
                                  outputType st, true)
      end
  | FN_TYPE inputType outputType arg =>
      let '(st, inputTypeLevel) := createTempSymbol false (Some LEVEL_TYPE) st in
      let '(st, outputTypeLevel) := createTempSymbol false (Some LEVEL_TYPE) st in
      let st := addTypeConstraint inputType
                  (UNIVERSE (symbolExpression inputTypeLevel)) st in
      let '(st, outputType) :=
        match arg with
        | Some a =>
            let '(st, arg') := createTempSymbol true (Some inputType) st in
            (st, replaceOneSymbol outputType a (symbolExpression arg'))
        | None => (st, outputType)
        end in
      let st := addTypeConstraint outputType
                  (UNIVERSE (symbolExpression outputTypeLevel)) st in
      let type := UNIVERSE (LEVEL_MAX (symbolExpression inputTypeLevel)
                                      (symbolExpression outputTypeLevel)) in
      match con with
      | AsTYPE ctype => Ok (addEqualConstraint ctype type st, true)
      | AsFN _ _ => Ok (pushDiagnostic (FN_TYPE_EXPECTED type) st, true)
      end
  | PLACEHOLDER => Ok (st, true)
  | UNIVERSE subscript =>
      let type := UNIVERSE (LEVEL_SUCC subscript) in
      match con with
      | AsTYPE ctype => Ok (addEqualConstraint type ctype st, true)
      | AsFN _ _ => Ok (pushDiagnostic (FN_TYPE_EXPECTED type) st, true)
      end
  | LEVEL _ | LEVEL_SUCC _ | LEVEL_MAX _ _ =>
      match con with
      | AsTYPE ctype => Ok (addEqualConstraint ctype LEVEL_TYPE st, true)
      | AsFN _ _ => Ok (pushDiagnostic (FN_TYPE_EXPECTED LEVEL_TYPE) st, true)
      end
  | LEVEL_TYPE =>
      let type := UNIVERSE (LEVEL 0) in
      match con with
      | AsTYPE ctype => Ok (addEqualConstraint type ctype st, true)
      | AsFN _ _ => Ok (pushDiagnostic (FN_TYPE_EXPECTED type) st, true)
      end
  | PATTERN _ => Err Panic
  end.

Definition evaluateFnTypeEqualConstraint (fnType : Expression)
    (args : list Expression) (outputType : Expression) (st : t)
  : Result (t * bool) :=
  '(fn, changed) ← expand st fnType;
  match fn : Expression with
  | FN_TYPE fin fout farg =>
      match args with
      | [] =>
          (* [con.args[0]] is [undefined], [con.args.length === 1] fails
             and [con.args.slice(1)] is empty *)
          let st := pushConstraint (TYPE_UNDEFINED fin) st in
          out ← match farg with
                | Some a => replaceOneUndefined fout a
                | None => Ok fout
                end;
          Ok (addFnTypeEqualConstraint out [] outputType st, true)
      | a0 :: rest =>
          let st := addTypeConstraint a0 fin st in
          let out := match farg with
                     | Some a => replaceOneSymbol fout a a0
                     | None => fout
                     end in
          match rest with
          | [] => Ok (addEqualConstraint outputType out st, true)
          | _ => Ok (addFnTypeEqualConstraint out rest outputType st, true)
          end
      end
  | _ =>
      if changed : bool
      then Ok (addFnTypeEqualConstraint fnType args outputType st, true)
      else Ok (pushConstraint (FN_TYPE_EQUAL fnType args outputType) st, false)
  end.

Definition evaluateConstraint (con : Constraint) (previouslyNoChange : bool)
    (st : t) : Result (t * bool) :=
  match con with
  | FN expr args outputType => evaluateTypeConstraint expr (AsFN args outputType) st
  | TYPE expr type => evaluateTypeConstraint expr (AsTYPE type) st
  | EQUAL expr1 expr2 => evaluateEqualConstraint expr1 expr2 previouslyNoChange st
  | FN_TYPE_EQUAL fnType args outputType =>
      evaluateFnTypeEqualConstraint fnType args outputType st
  | TYPE_UNDEFINED _ => Err Undefined (* [expr.kind] of [undefined] *)
  end.

(** The [for] loop of [iterate] over the copied queue. *)
Fixpoint iterateLoop (queue : list Constraint) (previouslyNoChange : bool)
    (changed : bool) (st : t) : Result (t * bool) :=
  match queue with
  | [] => Ok (st, changed)
  | con :: queue =>
      '(st, c) ← evaluateConstraint con previouslyNoChange st;
      iterateLoop queue previouslyNoChange (if c : bool then true else changed) st
  end.

Definition iterate (previouslyNoChange : bool) (st : t) : Result (t * bool) :=
  iterateLoop (constraints st) previouslyNoChange false (withConstraints [] st).

(** *** [finalCheck] *)

(** First [forEachTempSymbol] callback: undetermined levels become [0]. *)
Definition defaultLevel (entry : SymbolEntry) : SymbolEntry :=
  match e_type entry, e_ownValue entry with
  | Some LEVEL_TYPE, None => set_ownValue (LEVEL 0) entry
  | _, _ => entry
  end.

Definition defaultLevels (st : t) : t :=
  withRegistry
    (TempSymbolRegistry.mk
       (map defaultLevel (TempSymbolRegistry.tempSymbols (registry st)))
       (TempSymbolRegistry.parent (registry st))) st.

Definition reportUnresolved (st : t) : t :=
  foldl (fun st con => pushDiagnostic (UNRESOLVED_CONSTRAINT con) st)
        st (constraints st).

(** Second [forEachTempSymbol] callback, [s] being the handle of the head
    of [entries]. *)
Fixpoint collectTemps (st : t) (s : Symbol) (entries : list SymbolEntry)
    (tempReps : gmap Z Expression) (uninferedVars : list Symbol)
  : Result (gmap Z Expression * list Symbol) :=
  match entries with
  | [] => Ok (tempReps, uninferedVars)
  | entry :: entries =>
      match e_ownValue entry with
      | Some ownValue =>
          '(v, _) ← expand st ownValue;
          collectTemps st (s + 1) entries (<[s := v]> tempReps) uninferedVars
      | None =>
          collectTemps st (s + 1) entries tempReps
            (if e_isLocal entry then uninferedVars else uninferedVars ++ [s])
      end
  end.

Definition substituteRule (tempReps : gmap Z Expression) (v : Rule) : Rule :=
  let reps := complement tempReps (r_patterns v) in
  mkRule (r_patterns v) (replaceSymbols (r_lhs v) reps)
         (replaceSymbols (r_rhs v) reps).

Definition substituteEntry (tempReps : gmap Z Expression) (entry : SymbolEntry)
  : SymbolEntry :=
  mkEntry (e_name entry) (e_parent entry) (e_isLocal entry) (e_subSymbols entry)
    ((fun type => replaceSymbols type tempReps) <$> e_type entry)
    ((fun ownValue => replaceSymbols ownValue tempReps) <$> e_ownValue entry)
    (map (substituteRule tempReps) <$> e_downValue entry).

(** The callback of [affectedSymbols.forEach]. *)
Definition substituteAffected (tempReps : gmap Z Expression) (s : Symbol)
    (st : t) : Result t :=
  entry ← TempSymbolRegistry.getSymbolEntry (registry st) s;
  setEntry s (substituteEntry tempReps entry) st.

Fixpoint substituteAll (tempReps : gmap Z Expression) (l : list Symbol) (st : t)
  : Result t :=
  match l with
  | [] => Ok st
  | s :: l =>
      st ← substituteAffected tempReps s st;
      substituteAll tempReps l st
  end.

Definition finalCheck (st : t) : Result t :=
  let st := defaultLevels st in
  let st := reportUnresolved st in
  '(tempReps, uninferedVars) ←
    collectTemps st (SymbolRegistry.getSymbolCount (context st))
      (TempSymbolRegistry.tempSymbols (registry st)) ∅ [];
  let st := match uninferedVars with
            | [] => st
            | _ => pushDiagnostic (UNINFERED_VAR uninferedVars) st
            end in
  substituteAll tempReps (affectedSymbols st) st.

(** *** [run]

    [logDump(iterations)] only writes to the logger; the [iterations++]
    inside it acts on the callee's own parameter.  The loop therefore
    carries [iterations] unchanged.  [n] bounds the number of turns of
    the [while] loop in the model. *)
Fixpoint runLoop (n : nat) (maxIterations iterations : Z) (st : t) : Result t :=
  match n with
  | O => Err OutOfFuel
  | S n =>
      if maxIterations <? iterations then Ok st
      else
        '(st, changed) ← iterate false st;
        if changed : bool then runLoop n maxIterations iterations st
        else
          '(st, changed) ← iterate true st;
          if changed : bool then runLoop n maxIterations iterations st
          else Ok st
  end.

Definition run (n : nat) (maxIterations : Z) (st : t) : Result t :=
  let st := withDiagnostics [] st in
  st ← runLoop n maxIterations 0 st;
  finalCheck st.

End Solver.

End ConstraintSolver.

(** ** The elaborator ([parser.ts], [analyse])

    The parser proper is not modelled: the embedding of [analyse]
    starts from the [Ast] it produces.  The lexer follows further
    down. *)

Module Ast.

Inductive t :=
| IDENTIFIER (name : string)
| SYMBOL (path : list string)
| EMPTY_SYMBOL
| FN_TYPE (outputType inputType : t) (arg : option string)
| LAMBDA (name : string) (body : t)
| CALL (fn : t) (args : list t)
| PATTERN (name : string)
| TYPE_UNIVERSE (subscript : t)
| TYPE_UNIVERSE_SUBSCRIPT (value : Z).

End Ast.

Record AstDeclaration := mkAstDeclaration {
  ad_lhs : Ast.t;
  ad_type : option Ast.t;
  ad_rhs : option Ast.t;
  ad_checkOnly : bool }.

Record ExpressionDeclaration := mkExpressionDeclaration {
  d_patterns : list Symbol;
  d_lhs : Expression;
  d_type : option Expression;
  d_rhs : option Expression;
  d_checkOnly : bool }.

Module Analyse.

(** The variables captured by the closures of [analyse].  [context] is
    the registry object shared with the solver's scratch layer, so it is
    read from and written to the solver state. *)
Record t := mk {
  solver : ConstraintSolver.t;
  diagnostics : list string;
  newSymbols : list Symbol;
  outermostSymbol : Symbol;   (* [scopes[0].symbol]; no scope is ever pushed *)
  generatedSymbol : Symbol }.

Definition context (st : t) : SymbolRegistry.t :=
  ConstraintSolver.context (solver st).

Definition withSolver (s : ConstraintSolver.t) (st : t) : t :=
  mk s (diagnostics st) (newSymbols st) (outermostSymbol st) (generatedSymbol st).

Definition withContext (c : SymbolRegistry.t) (st : t) : t :=
  withSolver
    (ConstraintSolver.withRegistry
       (TempSymbolRegistry.mk
          (TempSymbolRegistry.tempSymbols (ConstraintSolver.registry (solver st))) c)
       (solver st)) st.

Definition pushDiagnostic (msg : string) (st : t) : t :=
  mk (solver st) (diagnostics st ++ [msg]) (newSymbols st)
     (outermostSymbol st) (generatedSymbol st).

Definition addNew (s : Symbol) (st : t) : t :=
  mk (solver st) (diagnostics st) (setAdd s (newSymbols st))
     (outermostSymbol st) (generatedSymbol st).

Definition getGeneratedSymbol (name : string) (st : t) : Result (t * Symbol) :=
  '(c, (ret, success)) ←
    SymbolRegistry.addNewSymbol (context st) (Some (generatedSymbol st)) name true;
  let st := withContext c st in
  Ok (if success : bool then addNew ret st else st, ret).

Definition addSymbol (parent : Symbol) (name : string) (st : t)
  : Result (t * option Symbol) :=
  '(c, (symbol, success)) ←
    SymbolRegistry.addNewSymbol (context st) (Some parent) name false;
  let st := withContext c st in
  if success : bool then
    let st := addNew symbol st in
    Ok (withSolver (ConstraintSolver.unlockSymbol symbol (solver st)) st,
        Some symbol)
  else if bool_decide (symbol ∈ newSymbols st) then Ok (st, Some symbol)
  else Ok (pushDiagnostic ("cannot redefine symbol " +:+ name) st, None).

(** The loop of [prepareSymbol] over a dotted path. *)
Fixpoint prepareSymbolPath (symbol : Symbol) (path : list string) (st : t)
  : Result (t * option Symbol) :=
  match path with
  | [] => Ok (st, Some symbol)
  | name :: path =>
      '(st, s) ← addSymbol symbol name st;
      match s : option Z with
      | None => Ok (st, None)
      | Some s => prepareSymbolPath s path st
      end
  end.

Definition prepareSymbol (expr : Ast.t) (st : t) : Result (t * option Symbol) :=
  match expr with
  | Ast.IDENTIFIER name => addSymbol (outermostSymbol st) name st
  | Ast.SYMBOL path => prepareSymbolPath (outermostSymbol st) path st
  | _ => Ok (st, None)
  end.

(** [context.getSymbol(parent, name, false)]: a pure lookup. *)
Definition lookupSymbol (st : t) (parent : option Symbol) (name : string)
  : Result (option Symbol) :=
  '(_, s) ← SymbolRegistry.getSymbol (context st) parent name false;
  Ok s.

(** The search of [fnArgScope] from its top. *)
Fixpoint resolveFnArg (st : t) (name : string) (fnArgScope : list Symbol)
  : Result (option Symbol) :=
  match fnArgScope with
  | [] => Ok None
  | symbol :: rest =>
      entry ← SymbolRegistry.getSymbolEntry (context st) symbol;
      if decide (name = e_name entry) then Ok (Some symbol)
      else resolveFnArg st name rest
  end.

Definition resolveIdentifier (st : t) (name : string)
    (fnArgScope : option (list Symbol)) (patternSymbols : option (list Symbol))
  : Result (option Symbol) :=
  a ← match fnArgScope with
      | Some scope => resolveFnArg st name scope
      | None => Ok None
      end;
  match a : option Z with
  | Some symbol => Ok (Some symbol)
  | None =>
    p ← match patternSymbols with
        | Some ps =>
            patternSymbol ← lookupSymbol st (Some (generatedSymbol st)) name;
            match patternSymbol : option Z with
            | Some s => if bool_decide (s ∈ ps) then Ok (Some s) else Ok None
            | None => Ok None
            end
        | None => Ok None
        end;
    match p : option Z with
    | Some symbol => Ok (Some symbol)
    | None =>
        (* the single scope; [letVariables] is always empty *)
        s ← lookupSymbol st (Some (outermostSymbol st)) name;
        match s : option Z with
        | Some symbol => Ok (Some symbol)
        | None => lookupSymbol st None name
        end
    end
  end.

(** The loop of [resolveSymbol] over the members after the first name;
    an undefined member is diagnosed and the walk goes on from [null]. *)
Fixpoint resolveMembers (first : option Symbol) (path : list string) (st : t)
  : Result (t * option Symbol) :=
  match path with
  | [] => Ok (st, first)
  | name :: path =>
      s ← lookupSymbol st first name;
      let st := match s : option Z with
                | None => pushDiagnostic ("undefined member " +:+ name) st
                | Some _ => st
                end in
      resolveMembers s path st
  end.

Definition resolveSymbol (path : list string) (st : t)
  : Result (t * option Symbol) :=
  match path with
  | [] => Err Undefined (* [expr.path[0].name] on an empty path *)
  | firstName :: rest =>
      first ← resolveIdentifier st firstName None None;
      match first : option Z with
      | None => Ok (pushDiagnostic ("undefined identifier " +:+ firstName) st, None)
      | Some _ => resolveMembers first rest st
      end
  end.

(** The state of one [convertExpression] call besides the closure
    variables of [analyse]. *)
Record Conv := mkConv {
  c_st : t;
  c_fnArgScope : list Symbol;             (* a stack, top first *)
  c_patternSymbols : option (list Symbol) (* the caller's [Set], if any *) }.

Definition convGenerated (name : string) (c : Conv) : Result (Conv * Symbol) :=
  '(st, symbol) ← getGeneratedSymbol name (c_st c);
  Ok (mkConv st (c_fnArgScope c) (c_patternSymbols c), symbol).

Definition pushFnArg (symbol : Symbol) (c : Conv) : Conv :=
  mkConv (c_st c) (symbol :: c_fnArgScope c) (c_patternSymbols c).
Definition popFnArg (c : Conv) : Conv :=
  mkConv (c_st c) (tail (c_fnArgScope c)) (c_patternSymbols c).

(** The work list of [convertExpression] visits a node, then its
    children in source order, then the closure that builds the term; a
    [return null] abandons the walk, keeping the side effects so far. *)
Fixpoint convert (expr : Ast.t) (c : Conv) {struct expr}
  : Result (Conv * option Expression) :=
  match expr with
  | Ast.CALL fn args =>
      '(c, fn') ← convert fn c;
      match fn' : option Expression with
      | None => Ok (c, None)
      | Some fn' =>
          '(c, args') ←
            (fix go (l : list Ast.t) (c : Conv) {struct l}
               : Result (Conv * option (list Expression)) :=
               match l with
               | [] => Ok (c, Some [])
               | x :: r =>
                   '(c, x') ← convert x c;
                   match x' : option Expression with
                   | None => Ok (c, None)
                   | Some x' =>
                       '(c, r') ← go r c;
                       Ok (c, (fun r' => x' :: r') <$> (r' : option (list Expression)))
                   end
               end) args c;
          Ok (c, CALL fn' <$> (args' : option (list Expression)))
      end
  | Ast.PATTERN name =>
      '(c, symbol) ← convGenerated name c;
      let c := mkConv (c_st c) (c_fnArgScope c)
                      (setAdd symbol <$> c_patternSymbols c) in
      Ok (c, Some (SYMBOL symbol))
  | Ast.EMPTY_SYMBOL => Ok (c, Some (SYMBOL (outermostSymbol (c_st c))))
  | Ast.IDENTIFIER name =>
      symbol ← resolveIdentifier (c_st c) name (Some (c_fnArgScope c))
                                 (c_patternSymbols c);
      match symbol : option Z with
      | Some symbol => Ok (c, Some (SYMBOL symbol))
      | None =>
          Ok (mkConv (pushDiagnostic ("undefined identifier " +:+ name) (c_st c))
                     (c_fnArgScope c) (c_patternSymbols c), None)
      end
  | Ast.FN_TYPE outputType inputType arg =>
      '(c, symbol) ←
        match arg with
        | Some name =>
            '(c, symbol) ← convGenerated name c;
            Ok (pushFnArg symbol c, Some symbol)
        | None => Ok (c, None)
        end;
      '(c, inputType') ← convert inputType c;
      match inputType' : option Expression with
      | None => Ok (c, None)
      | Some inputType' =>
          '(c, outputType') ← convert outputType c;
          match outputType' : option Expression with
          | None => Ok (c, None)
          | Some outputType' =>
              let c := match symbol : option Z with
                       | Some _ => popFnArg c
                       | None => c
                       end in
              Ok (c, Some (FN_TYPE inputType' outputType' symbol))
          end
      end
  | Ast.LAMBDA name body =>
      '(c, symbol) ← convGenerated name c;
      '(c, body') ← convert body (pushFnArg symbol c);
      match body' : option Expression with
      | None => Ok (c, None)
      | Some body' => Ok (popFnArg c, Some (LAMBDA symbol body'))
      end
  | Ast.SYMBOL path =>
      '(st, symbol) ← resolveSymbol path (c_st c);
      let c := mkConv st (c_fnArgScope c) (c_patternSymbols c) in
      match symbol : option Z with
      | None => Ok (c, None)
      | Some symbol => Ok (c, Some (SYMBOL symbol))
      end
  | Ast.TYPE_UNIVERSE subscript =>
      '(c, subscript') ← convert subscript c;
      Ok (c, UNIVERSE <$> (subscript' : option Expression))
  | Ast.TYPE_UNIVERSE_SUBSCRIPT value => Ok (c, Some (LEVEL value))
  end.

(** [convertExpression(expr, patternSymbols)]: a fresh [fnArgScope]; the
    caller's pattern set is updated in place. *)
Definition convertExpression (expr : Ast.t)
    (patternSymbols : option (list Symbol)) (st : t)
  : Result (t * option (list Symbol) * option Expression) :=
  '(c, e) ← convert expr (mkConv st [] patternSymbols);
  Ok (c_st c, c_patternSymbols c, e).

Section Run.

Variable checkOwnValueCycle : Symbol -> Expression -> bool.
Variable complement : gmap Z Expression -> list Symbol -> gmap Z Expression.
Variable fuel : nat.

(** [patterns.forEach]: one local scratch symbol per pattern symbol. *)
Fixpoint patternReps (patterns : list Symbol) (reps : gmap Z Expression)
    (s : ConstraintSolver.t) : ConstraintSolver.t * gmap Z Expression :=
  match patterns with
  | [] => (s, reps)
  | symbol :: patterns =>
      let '(s, tmp) := ConstraintSolver.createTempSymbol true None s in
      patternReps patterns (<[symbol := symbolExpression tmp]> reps) s
  end.

Definition processOneDeclaration (decl : ExpressionDeclaration) (st : t)
  : Result t :=
  let lhs := d_lhs decl in
  let rhs := d_rhs decl in
  let '(s, reps) := patternReps (d_patterns decl) ∅ (solver st) in
  let lhsRep := replaceSymbols lhs reps in
  let rhsRep := (fun rhs => replaceSymbols rhs reps) <$> rhs in
  let '(s, type) :=
    match d_type decl with
    | Some type => (ConstraintSolver.addTypeTypeConstraint type s, type)
    | None =>
        let '(s, ts) := ConstraintSolver.createTypeSymbol false s in
        (s, symbolExpression ts)
    end in
  let s := ConstraintSolver.addTypeConstraint lhsRep type s in
  let st := withSolver s st in
  st ←
    match rhs, rhsRep with
    | Some rhs, Some rhsRep =>
        let post st :=
          withSolver (ConstraintSolver.addEqualConstraint lhsRep rhsRep (solver st)) st in
        match lhs with
        | SYMBOL symbol =>
            if d_checkOnly decl then Ok (post st)
            else
              entry ← SymbolRegistry.getSymbolEntry (context st) symbol;
              match e_ownValue entry with
              | None =>
                  c ← SymbolRegistry.setEntry (context st) symbol
                        (set_ownValue rhs entry);
                  Ok (withContext c st)
              | Some _ => Ok (post st)
              end
        | _ => Ok (post st)
        end
    | _, _ => Ok st
    end;
  match rhs, lhs with
  | Some rhs, CALL (SYMBOL head) _ =>
      if negb (d_checkOnly decl) && bool_decide (head ∈ newSymbols st) then
        entry ← SymbolRegistry.getSymbolEntry (context st) head;
        let rules := default [] (e_downValue entry) in
        c ← SymbolRegistry.setEntry (context st) head
              (set_downValue (rules ++ [mkRule (d_patterns decl) lhs rhs]) entry);
        Ok (withContext c st)
      else Ok st
  | _, _ => Ok st
  end.

Fixpoint prepareAll (decls : list AstDeclaration) (st : t) : Result t :=
  match decls with
  | [] => Ok st
  | decl :: decls =>
      '(st, _) ← prepareSymbol (ad_lhs decl) st;
      prepareAll decls st
  end.

(** The second loop of [loadFile]; [None] is its early [return]. *)
Fixpoint convertAll (decls : list AstDeclaration)
    (acc : list ExpressionDeclaration) (st : t)
  : Result (t * option (list ExpressionDeclaration)) :=
  match decls with
  | [] => Ok (st, Some acc)
  | decl :: decls =>
      '(st, patterns, lhsExpr) ← convertExpression (ad_lhs decl) (Some []) st;
      match lhsExpr : option Expression with
      | None => Ok (st, None)
      | Some lhsExpr =>
          '(st, type) ←
            match ad_type decl with
            | Some ty =>
                '(st, _, type) ← convertExpression ty None st;
                Ok (st, type)
            | None => Ok (st, None)
            end;
          match diagnostics st with
          | _ :: _ => Ok (st, None)
          | [] =>
              '(st, patterns, rhsExpr) ←
                match ad_rhs decl with
                | Some r => convertExpression r patterns st
                | None => Ok (st, patterns, None)
                end;
              convertAll decls
                (acc ++ [mkExpressionDeclaration
                           (default [] (patterns : option (list Z)))
                           lhsExpr type rhsExpr (ad_checkOnly decl)]) st
          end
      end
  end.

Fixpoint processAll (decls : list ExpressionDeclaration) (st : t) : Result t :=
  match decls with
  | [] => Ok st
  | decl :: decls =>
      st ← processOneDeclaration decl st;
      processAll decls st
  end.

Definition loadFile (declarations : list AstDeclaration) (st : t) : Result t :=
  st ← prepareAll declarations st;
  match diagnostics st with
  | _ :: _ => Ok st
  | [] =>
      '(st, decls) ← convertAll declarations [] st;
      match decls : option (list ExpressionDeclaration) with
      | None => Ok st
      | Some decls => processAll decls st
      end
  end.

(** [newSymbols.forEach(s => context.removeSymbol(s))] *)
Fixpoint removeAll (l : list Symbol) (c : SymbolRegistry.t)
  : Result SymbolRegistry.t :=
  match l with
  | [] => Ok c
  | s :: l =>
      c ← SymbolRegistry.removeSymbol c s;
      removeAll l c
  end.

Definition removeNewSymbols (st : t) : Result t :=
  c ← removeAll (newSymbols st) (context st);
  Ok (withContext c st).

(** The inner [run] of [analyse]; the result carries the parse
    diagnostics in [diagnostics] and the solver's in the solver state.
    [n] bounds the turns of the solver's driver loop. *)
Definition run (n : nat) (maxIterations : Z)
    (declarations : list AstDeclaration) (st : t) : Result t :=
  st ← loadFile declarations st;
  st ← match diagnostics st with
       | _ :: _ => removeNewSymbols st
       | [] => Ok st
       end;
  s ← ConstraintSolver.run checkOwnValueCycle complement fuel n maxIterations
        (solver st);
  let st := withSolver s st in
  match ConstraintSolver.diagnostics s with
  | _ :: _ => removeNewSymbols st
  | [] => Ok st
  end.

Definition analyse (n : nat) (context : SymbolRegistry.t)
    (outermostSymbol : Symbol) (declarations : list AstDeclaration)
    (maxIterations : Z) : Result t :=
  let constraintSolver := ConstraintSolver.create context in
  '(c, generated) ← SymbolRegistry.getSymbol context None "generated" true;
  match generated : option Z with
  | None => Err Panic
  | Some generatedSymbol =>
      let st := mk constraintSolver [] [] outermostSymbol generatedSymbol in
      run n maxIterations declarations (withContext c st)
  end.

End Run.

End Analyse.

(** ** The stack helpers ([util.ts]) and [makeSymbolMap] *)

Module Util.

(** [pushReversed(dest, src)]: the loop pushes [src[src.length - 1 - i]]
    for [i = 0, 1, ...], that is, the elements of [src] from the last to
    the first.  [dest] is a stack, top first. *)
Definition pushReversed {T} (dest : list T) (src : list T) : list T :=
  foldl (fun dest x => x :: dest) dest (rev src).

(** The loop of [popReversed(dest, src, length)]: the [i]-th turn stores
    [dest.pop() ?? panic()] at [src[src.length - i - 1]], so the slots
    added to [src] are filled from the last one backwards; [filled] holds
    the slots filled so far. *)
Fixpoint popReversedLoop {T} (dest : list T) (filled : list T) (length : nat)
    {struct length} : Result (list T * list T) :=
  match length with
  | O => Ok (dest, filled)
  | S length =>
      match dest with
      | x :: dest => popReversedLoop dest (x :: filled) length
      | [] => Err Panic
      end
  end.

(** [popReversed(dest, src, length)]: [dest] is a stack, top first; [src]
    is an array in index order.  The result is the pair of both arrays
    after the call. *)
Definition popReversed {T} (dest : list T) (src : list T) (length : nat)
  : Result (list T * list T) :=
  '(dest, filled) ← popReversedLoop dest [] length;
  Ok (dest, src ++ filled).

(** [copyMap(map)]: [Map.prototype.forEach] hands the callback the value
    first and the key second, so in [(k, v) => ret.set(v, k)] the
    parameter [k] is the value and [v] the key. *)
Definition copyMap `{Countable K} {V} (map : gmap K V) : gmap K V :=
  map_fold (fun key value ret => <[key := value]> ret) ∅ map.

End Util.

(** [makeSymbolMap(map, symbol1, symbol2)] of [expression.ts]. *)
Definition makeSymbolMap (map : gmap Z Z) (symbol1 symbol2 : option Symbol)
  : gmap Z Z :=
  match symbol2, symbol1 with
  | Some symbol2, Some symbol1 =>
      if negb (bool_decide (symbol2 = symbol1)) || bool_decide (is_Some (map !! symbol2))
      then
        let map := Util.copyMap map in
        if negb (bool_decide (symbol1 = symbol2)) then <[symbol2 := symbol1]> map
        else delete symbol2 map
      else map
  | Some symbol2, None =>
      if bool_decide (is_Some (map !! symbol2))
      then delete symbol2 (Util.copyMap map)
      else map
  | None, _ => map
  end.

(** ** Printing a symbol ([SymbolRegistry.stringifySymbol]) *)

(** The [while (s !== null)] loop of [stringifySymbol]: [path.unshift]
    puts each name in front.  [fuel] bounds the turns in the model. *)
Fixpoint stringifyPath (fuel : nat) (reg : SymbolRegistry.t) (s : option Symbol)
    (path : list string) : Result (list string) :=
  match s with
  | None => Ok path
  | Some s =>
      match fuel with
      | O => Err OutOfFuel
      | S fuel =>
          entry ← SymbolRegistry.getSymbolEntry reg s;
          stringifyPath fuel reg (e_parent entry) (e_name entry :: path)
      end
  end.

(** [path.join('.')] *)
Fixpoint joinDot (path : list string) : string :=
  match path with
  | [] => EmptyString
  | [name] => name
  | name :: path => name +:+ "." +:+ joinDot path
  end.

Definition stringifySymbol (fuel : nat) (reg : SymbolRegistry.t) (symbol : Symbol)
  : Result string :=
  match SymbolRegistry.tryGetSymbolEntry reg symbol with
  | Some entry0 =>
      if e_isLocal entry0 then Ok (e_name entry0)
      else
        path ← stringifyPath fuel reg (Some symbol) [];
        Ok (joinDot path)
  | None => Ok ("$" +:+ pretty (symbol - SymbolRegistry.getSymbolCount reg))
  end.

(** ** Scoped substitution, for reference

    What [Replacer] computes, written without the mutable [maps]: a
    dependent function type hides its binder from the substitution in
    its output type, a lambda hides nothing, and the level operators are
    not entered. *)
Fixpoint substitute (m : gmap Z Expression) (e : Expression) {struct e}
  : Expression :=
  match e with
  | SYMBOL s => default e (m !! s)
  | LAMBDA a body => LAMBDA a (substitute m body)
  | CALL fn args => CALL (substitute m fn) (map (substitute m) args)
  | FN_TYPE i o a =>
      FN_TYPE (substitute m i)
              (substitute (match a with Some a => delete a m | None => m end) o) a
  | UNIVERSE s => UNIVERSE (substitute m s)
  | _ => e
  end.

(** ** Closed level expressions

    The value of a term built from level literals, [LEVEL_SUCC] and
    [LEVEL_MAX] alone, in the arithmetic of the run time. *)
Fixpoint levelValue (e : Expression) : option Z :=
  match e with
  | LEVEL value => Some value
  | LEVEL_SUCC e => (fun v => number (v + 1)) <$> levelValue e
  | LEVEL_MAX lhs rhs =>
      match levelValue lhs, levelValue rhs with
      | Some a, Some b => Some (Z.max a b)
      | _, _ => None
      end
  | _ => None
  end.

(** The same value in exact arithmetic. *)
Fixpoint exactLevel (e : Expression) : option Z :=
  match e with
  | LEVEL value => Some value
  | LEVEL_SUCC e => (fun v => v + 1) <$> exactLevel e
  | LEVEL_MAX lhs rhs =>
      match exactLevel lhs, exactLevel rhs with
      | Some a, Some b => Some (Z.max a b)
      | _, _ => None
      end
  | _ => None
  end.

(** A closed level expression whose literals are natural numbers and
    whose exact value is at most [bound]. *)
Fixpoint levelBelow (bound : Z) (e : Expression) : bool :=
  match e with
  | LEVEL value => (0 <=? value) && (value <=? bound)
  | LEVEL_SUCC e => levelBelow (bound - 1) e
  | LEVEL_MAX lhs rhs => levelBelow bound lhs && levelBelow bound rhs
  | _ => false
  end.

Definition isLEVEL (e : Expression) : bool :=
  match e with LEVEL _ => true | _ => false end.

(** The number of actions the normaliser runs on a closed level
    expression. *)
Fixpoint levelSteps (e : Expression) : nat :=
  match e with
  | LEVEL_SUCC e => 2 + levelSteps e
  | LEVEL_MAX lhs rhs => 2 + levelSteps lhs + levelSteps rhs
  | _ => 1
  end.

(** ** Traversal ([visitExpression])

    [Ok (Some false)] is the [return false] taken when the callback
    answers [true]; [Ok None] is the end of the function body, which
    returns nothing.  The [switch] has no case for [LEVEL_SUCC] and
    [LEVEL_MAX]: such a node is dropped without a call to [cb]. *)
Fixpoint visitLoop (fuel : nat) (cb : Expression -> bool) (todo : list Expression)
  : Result (option bool) :=
  match todo with
  | [] => Ok None
  | t :: todo =>
      match fuel with
      | O => Err OutOfFuel
      | S fuel =>
          match t with
          | LEVEL _ | PLACEHOLDER | LEVEL_TYPE | PATTERN _ | SYMBOL _ =>
              if cb t then Ok (Some false) else visitLoop fuel cb todo
          | CALL fn args =>
              if cb t then Ok (Some false)
              else visitLoop fuel cb (fn :: Util.pushReversed todo args)
          | LAMBDA _ body =>
              if cb t then Ok (Some false) else visitLoop fuel cb (body :: todo)
          | UNIVERSE subscript =>
              if cb t then Ok (Some false) else visitLoop fuel cb (subscript :: todo)
          | FN_TYPE inputType outputType _ =>
              if cb t then Ok (Some false)
              else visitLoop fuel cb (inputType :: outputType :: todo)
          | LEVEL_SUCC _ | LEVEL_MAX _ _ => visitLoop fuel cb todo
          end
      end
  end.

Definition visitExpression (fuel : nat) (expr : Expression) (cb : Expression -> bool)
  : Result (option bool) :=
  visitLoop fuel cb [expr].

(** The nodes that the traversal reaches, in the order it reaches them. *)
Fixpoint visited (e : Expression) {struct e} : list Expression :=
  match e with
  | CALL fn args => e :: visited fn ++ flat_map visited args
  | LAMBDA _ body => e :: visited body
  | UNIVERSE subscript => e :: visited subscript
  | FN_TYPE inputType outputType _ => e :: visited inputType ++ visited outputType
  | LEVEL_SUCC _ | LEVEL_MAX _ _ => []
  | _ => [e]
  end.

(** The number of nodes of a term. *)
Fixpoint nodes (e : Expression) {struct e} : nat :=
  match e with
  | CALL fn args => S (nodes fn + list_sum (map nodes args))
  | LAMBDA _ body => S (nodes body)
  | UNIVERSE subscript => S (nodes subscript)
  | FN_TYPE inputType outputType _ => S (nodes inputType + nodes outputType)
  | LEVEL_SUCC e => S (nodes e)
  | LEVEL_MAX lhs rhs => S (nodes lhs + nodes rhs)
  | _ => 1
  end.

(** ** Holes of a pattern *)

(** The named holes of a pattern, with repetitions. *)
Fixpoint holes (p : Expression) {struct p} : list Z :=
  match p with
  | PATTERN (Some v) => [v]
  | LAMBDA _ body => holes body
  | CALL fn args => holes fn ++ flat_map holes args
  | FN_TYPE i o _ => holes i ++ holes o
  | UNIVERSE s => holes s
  | LEVEL_SUCC e => holes e
  | LEVEL_MAX l r => holes l ++ holes r
  | _ => []
  end.

(** Patterns without [LEVEL_SUCC]. *)
Fixpoint succFree (p : Expression) {struct p} : bool :=
  match p with
  | LAMBDA _ body => succFree body
  | CALL fn args => succFree fn && forallb succFree args
  | FN_TYPE i o _ => succFree i && succFree o
  | UNIVERSE s => succFree s
  | LEVEL_SUCC _ => false
  | LEVEL_MAX l r => succFree l && succFree r
  | _ => true
  end.

(** ** The lexer ([parser.ts], [Parser._scanNextToken])

    The source text is the list of its UTF-16 code units, which is what
    [charCodeAt] reads; [charCodeAt] past the end is [NaN], here [None],
    and every comparison with it fails.  The value of a number token is
    a double: it is computed with the rounding of [number], and is
    [Infinity] for a literal that is too long. *)

Module Lexer.

Inductive TokenKind :=
| EOF | NUMBER | IDENTIFIER | COLON | DOT | OPEN_PARENTH | CLOSE_PARENTH
| OPEN_BRACKET | CLOSE_BRACKET | OPEN_BRACE | CLOSE_BRACE | COMMA | IMPORT
| TYPE | ARROW | BSLASH | ASSIGN | OPERATOR | PROD | EAR | EQUIV | SEMI_COLON.

Record Token := mkToken {
  kind : TokenKind;
  text : list Z;
  value : option Z;
  start : nat;
  length : nat }.

(** The two messages of the lexer and the parser: ['unexpected character
    ' + source.charAt(cursor)] and ['unexpected token']. *)
Inductive Message :=
| UNEXPECTED_CHARACTER (ch : option Z)
| UNEXPECTED_TOKEN.

Record ParseDiagnostic := mkDiagnostic {
  msg : Message;
  d_start : nat;
  d_length : nat }.

Definition CCODE_A := 65.
Definition CCODE_Z := 90.
Definition CCODE_LOWER_A := 97.
Definition CCODE_LOWER_Z := 122.
Definition CCODE_0 := 48.
Definition CCODE_9 := 57.
Definition CCODE_OPEN_PARENTH := 40.
Definition CCODE_CLOSE_PARENTH := 41.
Definition CCODE_OPEN_BRACKET := 91.
Definition CCODE_CLOSE_BRACKET := 93.
Definition CCODE_DASH := 45.
Definition CCODE_GT := 62.
Definition CCODE_BSLASH := 92.
Definition CCODE_DOT := 46.
Definition CCODE_EQUAL := 61.
Definition CCODE_COLON := 58.
Definition CCODE_COMMA := 44.
Definition CCODE_EAR := 63.
Definition CCODE_L := 108.
Definition CCODE_SEMI_COLON := 59.
Definition CCODE_SPACE := 32.
Definition CCODE_CR := 13.
Definition CCODE_LF := 10.
Definition CCODE_TAB := 9.

Definition isWhitespace (ch : Z) : bool :=
  (ch =? CCODE_CR) || (ch =? CCODE_LF) || (ch =? CCODE_SPACE) || (ch =? CCODE_TAB).

Definition isIdentifierPart (ch : Z) : bool :=
  (CCODE_A <=? ch) && (ch <=? CCODE_Z)
  || (CCODE_LOWER_A <=? ch) && (ch <=? CCODE_LOWER_Z)
  || (CCODE_0 <=? ch) && (ch <=? CCODE_9).

Definition isDigit (ch : Z) : bool := (CCODE_0 <=? ch) && (ch <=? CCODE_9).

(** [KEYWORKDS.hasOwnProperty(text)] and [KEYWORKDS[text]]: the texts
    ["prod"], ["import"] and ["type"]. *)
Definition keyword (text : list Z) : option TokenKind :=
  if decide (text = [112; 114; 111; 100]) then Some PROD
  else if decide (text = [105; 109; 112; 111; 114; 116]) then Some IMPORT
  else if decide (text = [116; 121; 112; 101]) then Some TYPE
  else None.

(** [while (cursor < source.length && p(source.charCodeAt(cursor)))
    cursor++], on the text from the cursor on: the number of turns. *)
Fixpoint span (p : Z -> bool) (rest : list Z) : nat :=
  match rest with
  | ch :: rest => if p ch then S (span p rest) else O
  | [] => O
  end.

(** The loop that reads the digits of a number, on the text from the
    cursor on: [value *= 10; value += ch - CCODE_0]. *)
Fixpoint digitsValue (rest : list Z) (value : Z) : Z :=
  match rest with
  | ch :: rest =>
      if isDigit ch
      then digitsValue rest (number (number (value * 10) + (ch - CCODE_0)))
      else value
  | [] => value
  end.

(** The lexer's part of the parser object. *)
Record t := mk {
  source : list Z;
  cursor : nat;
  diagnostics : list ParseDiagnostic }.

Definition withCursor (c : nat) (st : t) : t := mk (source st) c (diagnostics st).

Definition codeIs (ch : option Z) (code : Z) : bool :=
  match ch with Some c => c =? code | None => false end.

(** The body of [_scanNextToken()] after its first loop has moved the
    cursor past the white space, to [cursor]: the token, or [None] for
    [null], and the state afterwards. *)
Definition scanFrom (st : t) (cursor : nat) : option Token * t :=
  let src := source st in
  let start := cursor in
  (* [tk(kind)], called when the cursor is at [c] *)
  let tk kind (c : nat) := (Some (mkToken kind [] None start (c - start)), withCursor c st) in
  if (List.length src <=? cursor)%nat then tk EOF cursor
  else
    let ch := src !! cursor in
    if codeIs ch CCODE_COLON then tk COLON (cursor + 1)%nat
    else if codeIs ch CCODE_EQUAL then
      let cursor := (cursor + 1)%nat in
      if (cursor <? List.length src + 1)%nat
         && codeIs (src !! cursor) CCODE_EQUAL
         && codeIs (src !! (cursor + 1)%nat) CCODE_EQUAL
      then tk EQUIV (cursor + 2)%nat
      else tk ASSIGN cursor
    else if codeIs ch CCODE_OPEN_PARENTH then tk OPEN_PARENTH (cursor + 1)%nat
    else if codeIs ch CCODE_CLOSE_PARENTH then tk CLOSE_PARENTH (cursor + 1)%nat
    else if codeIs ch CCODE_OPEN_BRACKET then tk OPEN_BRACKET (cursor + 1)%nat
    else if codeIs ch CCODE_CLOSE_BRACKET then tk CLOSE_BRACKET (cursor + 1)%nat
    else if codeIs ch CCODE_COMMA then tk COMMA (cursor + 1)%nat
    else if codeIs ch CCODE_DOT then tk DOT (cursor + 1)%nat
    else if codeIs ch CCODE_EAR then tk EAR (cursor + 1)%nat
    else if codeIs ch CCODE_SEMI_COLON then tk SEMI_COLON (cursor + 1)%nat
    else if codeIs ch CCODE_DASH then
      let cursor := (cursor + 1)%nat in
      if codeIs (src !! cursor) CCODE_GT then tk ARROW (cursor + 1)%nat
      else (Some (mkToken OPERATOR [CCODE_DASH] None start (cursor - start)),
            withCursor cursor st)
    else if codeIs ch CCODE_BSLASH then tk BSLASH (cursor + 1)%nat
    else
      let digits := span isDigit (drop cursor src) in
      if (0 <? digits)%nat && codeIs (src !! (cursor + digits)%nat) CCODE_L then
        let c := (cursor + digits + 1)%nat in
        (Some (mkToken NUMBER [] (Some (digitsValue (drop cursor src) 0))
                       start (c - start)),
         withCursor c st)
      else
        (* [this.cursor = c], or the number branch was not entered *)
        let letters := span isIdentifierPart (drop cursor src) in
        if (0 <? letters)%nat then
          let text := take letters (drop cursor src) in
          let c := (cursor + letters)%nat in
          match keyword text with
          | Some kind => tk kind c
          | None => (Some (mkToken IDENTIFIER text None start (c - start)),
                     withCursor c st)
          end
        else
          (None,
           mk src cursor (diagnostics st ++ [mkDiagnostic (UNEXPECTED_CHARACTER ch) start 1])).

(** [_scanNextToken()] *)
Definition _scanNextToken (st : t) : option Token * t :=
  scanFrom st (cursor st + span isWhitespace (drop (cursor st) (source st)))%nat.

(** The look-ahead part of the parser object: the current token and
    the queue [lah]. *)
Record Parser := mkParser {
  lexer : t;
  token : Token;
  lah : list Token }.

(** The action returned by [nextToken()]. *)
Definition nextToken (self : Parser) : Parser :=
  match lah self with
  | tok :: rest => mkParser (lexer self) tok rest
  | [] =>
      match _scanNextToken (lexer self) with
      | (Some tok, lx) => mkParser lx tok []
      | (None, lx) => mkParser lx (token self) []
      end
  end.

(** The action returned by [doLah(count)]; [fuel] bounds the turns of
    its [while] loop. *)
Fixpoint doLah (fuel : nat) (count : nat) (self : Parser) : Result Parser :=
  if (List.length (lah self) <? count)%nat then
    match fuel with
    | O => Err OutOfFuel
    | S fuel =>
        match _scanNextToken (lexer self) with
        | (Some tok, lx) => doLah fuel count (mkParser lx (token self) (lah self ++ [tok]))
        | (None, lx) => doLah fuel count (mkParser lx (token self) (lah self))
        end
    end
  else Ok self.

End Lexer.

(** ** Source ranges ([parser.ts], [class SourceRangeBuilder]) *)

Record SourceRange := mkRange {
  r_start : Z;
  r_length : Z }.

Module SourceRangeBuilder.

Record t := mk {
  start : Z;
  length : Z;
  hasMerge : bool }.

(** [new SourceRangeBuilder()] *)
Definition create : t := mk 0 0 false.

Definition merge (range : SourceRange) (self : t) : t :=
  if negb (hasMerge self) then mk (r_start range) (r_length range) true
  else
    let start := if r_start range <? start self then r_start range else start self in
    let length :=
      if start + length self <? r_start range + r_length range
      then r_start range + r_length range - start
      else length self in
    mk start length (hasMerge self).

(** A run of [merge] calls, as [for (const name of ast.path)
    this.merge(name)] in [mergeAst]. *)
Definition mergeAll (ranges : list SourceRange) (self : t) : t :=
  foldl (fun self range => merge range self) self ranges.

Definition asSourceRange (self : t) : Result SourceRange :=
  if hasMerge self then Ok (mkRange (start self) (length self)) else Err Panic.

End SourceRangeBuilder.

(** The position just after a range. *)
Definition r_end (range : SourceRange) : Z := r_start range + r_length range.

(** ** Notions used in the statements *)

(** *** Helpers that [solver.ts] imports but no source file defines *)

(** The symbols of the [SYMBOL] nodes of a term. *)
Fixpoint occursIn (s : Symbol) (e : Expression) {struct e} : bool :=
  match e with
  | SYMBOL x => bool_decide (x = s)
  | LAMBDA _ body => occursIn s body
  | CALL fn args =>
      occursIn s fn ||
      (fix go (l : list Expression) : bool :=
         match l with
         | [] => false
         | x :: r => occursIn s x || go r
         end) args
  | FN_TYPE i o _ => occursIn s i || occursIn s o
  | UNIVERSE sub => occursIn s sub
  | LEVEL_SUCC x => occursIn s x
  | LEVEL_MAX l r => occursIn s l || occursIn s r
  | PATTERN _ | PLACEHOLDER | LEVEL_TYPE | LEVEL _ => false
  end.

(** Modelled from the spec: [checkOwnValueCycle(symbol, value)] is
    imported from [expression.ts], which does not define it.  The spec's
    occurs check traverses the proposed value looking for the symbol; the
    function receives no registry, so the traversal is of the value
    itself. *)
Definition checkOwnValueCycle (symbol : Symbol) (value : Expression) : bool :=
  negb (occursIn symbol value).

(** Modelled from the spec: [complement(map, set)] is imported from
    [util.ts], which does not define it.  The final check substitutes the
    scratch own-values into a rule whose pattern symbols are bound by the
    rule itself; the helper is read as the map without those keys. *)
Definition complement (map : gmap Z Expression) (set : list Symbol)
  : gmap Z Expression :=
  filter (fun kv => kv.1 ∉ set) map.

(** *** References that the substitution reaches

    [visits t e]: the term [e] holds a reference to [t] outside the
    level operators and outside the output type of a dependent function
    type that binds [t], which are the places [Replacer] does not enter
    with [t] in its map. *)
Fixpoint visits (t : Symbol) (e : Expression) {struct e} : bool :=
  match e with
  | SYMBOL s => bool_decide (s = t)
  | LAMBDA _ body => visits t body
  | CALL fn args => visits t fn || existsb (visits t) args
  | FN_TYPE i o a =>
      visits t i || negb (bool_decide (a = Some t)) && visits t o
  | UNIVERSE s => visits t s
  | _ => false
  end.

(** An entry after the scoped substitution [m] was applied to its type,
    its own-value and its rules, a rule keeping its own pattern
    symbols. *)
Definition substituted (m : gmap Z Expression) (entry : SymbolEntry) : SymbolEntry :=
  mkEntry (e_name entry) (e_parent entry) (e_isLocal entry) (e_subSymbols entry)
    (substitute m <$> e_type entry)
    (substitute m <$> e_ownValue entry)
    (map (fun v => mkRule (r_patterns v)
                     (substitute (complement m (r_patterns v)) (r_lhs v))
                     (substitute (complement m (r_patterns v)) (r_rhs v)))
       <$> e_downValue entry).

(** *** The argument walk of the [CALL] case of [Replacer._replace] *)
Fixpoint replaceArgs (m : gmap Z Expression) (l : list Expression)
  : list Expression * gmap Z Expression :=
  match l with
  | [] => ([], m)
  | x :: r =>
      let '(x', m') := Replacer._replace m x in
      let '(r', m'') := replaceArgs m' r in
      (x' :: r', m'')
  end.

(** *** Applying a match result to a pattern, and alpha-equivalence *)

(** The spec's [subst(pattern, σ)]: every named hole bound by [σ] is
    replaced by its binding. *)
Fixpoint instantiate (σ : gmap Z Expression) (p : Expression) {struct p}
  : Expression :=
  match p with
  | PATTERN (Some v) => default p (σ !! v)
  | LAMBDA a body => LAMBDA a (instantiate σ body)
  | CALL fn args => CALL (instantiate σ fn) (map (instantiate σ) args)
  | FN_TYPE i o a => FN_TYPE (instantiate σ i) (instantiate σ o) a
  | UNIVERSE s => UNIVERSE (instantiate σ s)
  | LEVEL_SUCC e => LEVEL_SUCC (instantiate σ e)
  | LEVEL_MAX l r => LEVEL_MAX (instantiate σ l) (instantiate σ r)
  | _ => p
  end.

(** Whether [x] on the left corresponds to [y] on the right under the
    binder pairs [env], innermost first. *)
Fixpoint sameVar (env : list (Z * Z)) (x y : Z) : bool :=
  match env with
  | [] => bool_decide (x = y)
  | (a, b) :: env =>
      if bool_decide (a = x) then bool_decide (b = y)
      else if bool_decide (b = y) then false
      else sameVar env x y
  end.

(** Equality of terms up to renaming of bound symbols. *)
Fixpoint alphaEqb (env : list (Z * Z)) (a b : Expression) {struct a} : bool :=
  match a, b with
  | SYMBOL x, SYMBOL y => sameVar env x y
  | LAMBDA x a', LAMBDA y b' => alphaEqb ((x, y) :: env) a' b'
  | CALL f xs, CALL g ys =>
      alphaEqb env f g &&
      (fix go (xs ys : list Expression) {struct xs} : bool :=
         match xs, ys with
         | [], [] => true
         | x :: xs, y :: ys => alphaEqb env x y && go xs ys
         | _, _ => false
         end) xs ys
  | FN_TYPE i o (Some x), FN_TYPE i' o' (Some y) =>
      alphaEqb env i i' && alphaEqb ((x, y) :: env) o o'
  | FN_TYPE i o None, FN_TYPE i' o' None =>
      alphaEqb env i i' && alphaEqb env o o'
  | PATTERN v, PATTERN w => bool_decide (v = w)
  | PLACEHOLDER, PLACEHOLDER => true
  | UNIVERSE s, UNIVERSE s' => alphaEqb env s s'
  | LEVEL_TYPE, LEVEL_TYPE => true
  | LEVEL n, LEVEL m => bool_decide (n = m)
  | LEVEL_SUCC e, LEVEL_SUCC e' => alphaEqb env e e'
  | LEVEL_MAX l r, LEVEL_MAX l' r' => alphaEqb env l l' && alphaEqb env r r'
  | _, _ => false
  end.

(** A subject that is neither a [LEVEL_SUCC] nor a level literal. *)
Definition otherThanLevel (expr : Expression) : bool :=
  match expr with
  | LEVEL_SUCC _ | LEVEL _ => false
  | _ => true
  end.

(** A pattern whose tag (or symbol, or arity) differs from the
    subject's, for the tags the matcher compares. *)
Definition headMismatch (pattern expr : Expression) : bool :=
  match pattern, expr with
  | SYMBOL p, SYMBOL e => negb (bool_decide (p = e))
  | SYMBOL _, _ => true
  | CALL _ pargs, CALL _ eargs => negb (bool_decide (length eargs = length pargs))
  | CALL _ _, _ => true
  | LAMBDA _ _, LAMBDA _ _ => false
  | LAMBDA _ _, _ => true
  | FN_TYPE _ _ _, FN_TYPE _ _ _ => false
  | FN_TYPE _ _ _, _ => true
  | UNIVERSE _, UNIVERSE _ => false
  | UNIVERSE _, _ => true
  | LEVEL_TYPE, LEVEL_TYPE => false
  | LEVEL_TYPE, _ => true
  | LEVEL_SUCC _, LEVEL value => negb (0 <? value)
  | _, _ => false
  end.

(** *** The passes of the solver's driver

    [runLog] is [ConstraintSolver.runLoop] with a record of the passes
    it makes: the flag handed to [iterate] and the answer it gave. *)
Fixpoint runLog (cyc : Symbol -> Expression -> bool) (fuel n : nat)
    (maxIterations iterations : Z) (st : ConstraintSolver.t)
  : Result ConstraintSolver.t * list (bool * bool) :=
  match n with
  | O => (Err OutOfFuel, [])
  | S n =>
      if maxIterations <? iterations then (Ok st, [])
      else
        match ConstraintSolver.iterate cyc fuel false st with
        | Err f => (Err f, [])
        | Ok (st, true) =>
            let '(r, log) := runLog cyc fuel n maxIterations iterations st in
            (r, (false, true) :: log)
        | Ok (st, false) =>
            match ConstraintSolver.iterate cyc fuel true st with
            | Err f => (Err f, [(false, false)])
            | Ok (st, true) =>
                let '(r, log) := runLog cyc fuel n maxIterations iterations st in
                (r, (false, false) :: (true, true) :: log)
            | Ok (st, false) => (Ok st, [(false, false); (true, false)])
            end
        end
  end.

(** Every stuck pass (flag [true]) comes right after an ordinary pass
    that answered "no change". *)
Fixpoint stuckAfterQuiet (previous : option (bool * bool))
    (log : list (bool * bool)) : bool :=
  match log with
  | [] => true
  | (flag, changed) :: log =>
      (if flag then
         match previous with
         | Some (false, false) => true
         | _ => false
         end
       else true)
      && stuckAfterQuiet (Some (flag, changed)) log
  end.

(** *** Handles stored in a registry

    Every handle kept in the root map or in a child map is below the
    symbol count. *)
Definition handlesValid (reg : SymbolRegistry.t) : Prop :=
  (∀ name s, SymbolRegistry.entriesByName reg !! name = Some s →
     0 <= s < SymbolRegistry.getSymbolCount reg) ∧
  (∀ i e m name s, SymbolRegistry.entriesById reg !! i = Some e →
     e_subSymbols e = Some m → m !! name = Some s →
     0 <= s < SymbolRegistry.getSymbolCount reg).

(** *** Names that lead to a symbol

    [linked c parent name s]: in the registry [c] the name [name] leads
    to the handle [s] in the child map of [parent], the root map for
    [None]. *)
Definition linked (c : SymbolRegistry.t) (parent : option Symbol) (name : string)
    (s : Symbol) : Prop :=
  match parent with
  | None => SymbolRegistry.entriesByName c !! name = Some s
  | Some p =>
      exists e m, SymbolRegistry.tryGetSymbolEntry c p = Some e /\
                  e_subSymbols e = Some m /\ m !! name = Some s
  end.

(** A registry in good order: no handle is twice on the free list, and
    a name leads to a handle that is not free and whose entry carries
    that name and that parent. *)
Definition wellFormed (c : SymbolRegistry.t) : Prop :=
  NoDup (SymbolRegistry.removedSymbols c) /\
  forall parent name s, linked c parent name s ->
    (s ∉ SymbolRegistry.removedSymbols c) /\
    exists e, SymbolRegistry.tryGetSymbolEntry c s = Some e /\
              e_name e = name /\ e_parent e = parent.

(** The child map of [parent], and the name and parent of a symbol. *)
Definition kids (c : SymbolRegistry.t) (parent : option Symbol)
  : option (gmap string Symbol) :=
  match parent with
  | None => Some (SymbolRegistry.entriesByName c)
  | Some p => SymbolRegistry.tryGetSymbolEntry c p ≫= e_subSymbols
  end.

Definition nameParent (c : SymbolRegistry.t) (s : Symbol)
  : option (string * option Symbol) :=
  (fun e => (e_name e, e_parent e)) <$> SymbolRegistry.tryGetSymbolEntry c s.

(** What holds of the registry [c] and of the recorded symbols [N]
    while a file is elaborated over the registry [c0]. *)
Definition elaborating (c0 : SymbolRegistry.t) (g : Symbol) (st : Analyse.t)
  : Prop :=
  Analyse.generatedSymbol st = g /\
  wellFormed (Analyse.context st) /\
  (forall x, x ∈ SymbolRegistry.removedSymbols (Analyse.context st) ->
             x ∈ SymbolRegistry.removedSymbols c0) /\
  SymbolRegistry.getSymbolCount c0
    <= SymbolRegistry.getSymbolCount (Analyse.context st) /\
  (forall s, s ∈ Analyse.newSymbols st ->
     (s ∉ SymbolRegistry.removedSymbols (Analyse.context st)) /\
     (exists n p, nameParent (Analyse.context st) s = Some (n, Some p)) /\
     (s ∈ SymbolRegistry.removedSymbols c0 \/
      SymbolRegistry.getSymbolCount c0 <= s)) /\
  (forall q n s, linked (Analyse.context st) q n s ->
     s ∈ Analyse.newSymbols st \/ linked c0 q n s \/
     (q = None /\ n = "generated" /\ s = g)) /\
  NoDup (Analyse.newSymbols st).

(** After the elaboration, while the recorded symbols are removed. *)
Definition unlinking (c0 : SymbolRegistry.t) (g : Symbol) (N : list Symbol)
    (c : SymbolRegistry.t) : Prop :=
  (forall q n s, linked c q n s -> nameParent c s = Some (n, q)) /\
  (forall s, s ∈ N -> exists n p, nameParent c s = Some (n, Some p)) /\
  (forall q n s, linked c q n s ->
     s ∈ N \/ linked c0 q n s \/ (q = None /\ n = "generated" /\ s = g)).

(** What the solver never touches in a registry entry. *)
Definition skeleton (e : SymbolEntry)
  : string * option Symbol * bool * option (gmap string Symbol) :=
  (e_name e, e_parent e, e_isLocal e, e_subSymbols e).

Definition registrySkeleton (c : SymbolRegistry.t) :=
  (map skeleton (SymbolRegistry.entriesById c),
   SymbolRegistry.entriesByName c,
   SymbolRegistry.removedSymbols c).

(** Handles of scratch symbols in a term, binders included. *)
Fixpoint mentionsFrom (count : Z) (e : Expression) {struct e} : bool :=
  match e with
  | SYMBOL x => count <=? x
  | LAMBDA a body => (count <=? a) || mentionsFrom count body
  | CALL fn args =>
      mentionsFrom count fn ||
      (fix go (l : list Expression) : bool :=
         match l with
         | [] => false
         | x :: r => mentionsFrom count x || go r
         end) args
  | FN_TYPE i o a =>
      match a with Some a => count <=? a | None => false end
      || mentionsFrom count i || mentionsFrom count o
  | PATTERN v => match v with Some v => count <=? v | None => false end
  | UNIVERSE sub => mentionsFrom count sub
  | LEVEL_SUCC x => mentionsFrom count x
  | LEVEL_MAX l r => mentionsFrom count l || mentionsFrom count r
  | PLACEHOLDER | LEVEL_TYPE | LEVEL _ => false
  end.

(** *** What the final check reports as uninferred

    The handles, counted from [s], of the entries that have no own-value
    and are not local. *)
Fixpoint uninferedFrom (s : Symbol) (entries : list SymbolEntry) : list Symbol :=
  match entries with
  | [] => []
  | entry :: entries =>
      (if bool_decide (e_ownValue entry = None) && negb (e_isLocal entry)
       then [s] else [])
      ++ uninferedFrom (s + 1) entries
  end.

(** *** What the solver may change

    A symbol is within the solver's reach when it is a scratch symbol or
    was unlocked by the elaborator. *)
Definition accessible (st : ConstraintSolver.t) (s : Symbol) : Prop :=
  TempSymbolRegistry.isTempSymbol (ConstraintSolver.registry st) s = true \/
  s ∈ ConstraintSolver.unlockedSymbols st.

(** [e'] is [e] with, at most, a type or an own-value filled in. *)
Definition entryGrows (e e' : SymbolEntry) : Prop :=
  skeleton e' = skeleton e /\
  e_downValue e' = e_downValue e /\
  (forall t, e_type e = Some t -> e_type e' = Some t) /\
  (forall v, e_ownValue e = Some v -> e_ownValue e' = Some v).

(** [st'] knows everything [st] knows: the same symbols are permanent
    and unlocked, every entry has grown, entries out of reach are the
    same, no diagnostic was withdrawn, and the symbols marked as
    affected stay within reach. *)
Definition solverExtends (st st' : ConstraintSolver.t) : Prop :=
  TempSymbolRegistry.count (ConstraintSolver.registry st')
    = TempSymbolRegistry.count (ConstraintSolver.registry st) /\
  ConstraintSolver.unlockedSymbols st' = ConstraintSolver.unlockedSymbols st /\
  (forall s e,
     TempSymbolRegistry.getSymbolEntry (ConstraintSolver.registry st) s = Ok e ->
     exists e',
       TempSymbolRegistry.getSymbolEntry (ConstraintSolver.registry st') s = Ok e' /\
       entryGrows e e' /\ (~ accessible st s -> e' = e)) /\
  ConstraintSolver.diagnostics st `prefix_of` ConstraintSolver.diagnostics st' /\
  ((forall s, s ∈ ConstraintSolver.affectedSymbols st -> accessible st s) ->
   forall s, s ∈ ConstraintSolver.affectedSymbols st' -> accessible st' s).

(** The constraints that [finalCheck] can find left over. *)
Definition isEqualityConstraint (con : Constraint) : bool :=
  match con with
  | EQUAL _ _ | FN_TYPE_EQUAL _ _ _ => true
  | TYPE _ _ | FN _ _ _ | TYPE_UNDEFINED _ => false
  end.

(** The function type [i1 -> ... -> in -> out] over symbols as inputs. *)
Definition arrows (inputs : list Symbol) (out : Expression) : Expression :=
  foldr (fun i acc => FN_TYPE (SYMBOL i) acc None) out inputs.

(** The terms that the elaborator builds: symbols, lambdas, calls,
    function types, universes and level literals. *)
Fixpoint elaborated (e : Expression) {struct e} : bool :=
  match e with
  | SYMBOL _ | LEVEL _ => true
  | LAMBDA _ body => elaborated body
  | CALL fn args => elaborated fn && forallb elaborated args
  | FN_TYPE i o _ => elaborated i && elaborated o
  | UNIVERSE s => elaborated s
  | PATTERN _ | PLACEHOLDER | LEVEL_TYPE | LEVEL_SUCC _ | LEVEL_MAX _ _ => false
  end.

(** The number written by a run of decimal digits. *)
Definition decimal (digits : list Z) : Z :=
  foldl (fun value ch => value * 10 + (ch - Lexer.CCODE_0)) 0 digits.

(** A letter of the Latin alphabet. *)
Definition isLetter (ch : Z) : bool :=
  Lexer.isIdentifierPart ch && negb (Lexer.isDigit ch).

(** *** Reading ahead

    [feeds lx toks lx']: scanning from [lx] yields the tokens [toks],
    none of the calls answering [null], and leaves the lexer as [lx']. *)
Inductive feeds : Lexer.t -> list Lexer.Token -> Lexer.t -> Prop :=
| feeds_nil lx : feeds lx [] lx
| feeds_cons lx tok lx1 toks lx2 :
    Lexer._scanNextToken lx = (Some tok, lx1) -> feeds lx1 toks lx2 ->
    feeds lx (tok :: toks) lx2.

(** Two parsers that differ by look-ahead only: the second has read
    [extra] ahead of the first. *)
Definition ahead (self self' : Lexer.Parser) : Prop :=
  Lexer.token self' = Lexer.token self /\
  exists extra, Lexer.lah self' = Lexer.lah self ++ extra /\
                feeds (Lexer.lexer self) extra (Lexer.lexer self').

(** ** Example inputs *)

Definition fromOk {A} (d : A) (r : Result A) : A :=
  match r with Ok a => a | Err _ => d end.

(** The registry of the test drivers: [defineInternalSymbols()] followed
    by [addNewSymbol(null, "root", false)].  Handles: [builtin] 0,
    [builtin.Level] 1, [root] 2. *)
Definition standardRegistry : SymbolRegistry.t :=
  fromOk SymbolRegistry.empty
    (r ← SymbolRegistry.defineInternalSymbols SymbolRegistry.empty;
     '(r, _) ← SymbolRegistry.addNewSymbol r None "root" false;
     Ok r).

(** A scratch layer over the empty registry with one local symbol, 0. *)
Definition oneLocal : TempSymbolRegistry.t :=
  (TempSymbolRegistry.createTempSymbol
     (TempSymbolRegistry.create SymbolRegistry.empty) true None).1.

(** A solver over [standardRegistry] in which [root] is unlocked. *)
Definition rootUnlocked : ConstraintSolver.t :=
  ConstraintSolver.unlockSymbol 2 (ConstraintSolver.create standardRegistry).

(** A solver over [standardRegistry] with one scratch level symbol, 3. *)
Definition oneLevelMeta : ConstraintSolver.t :=
  (ConstraintSolver.createTempSymbol false (Some LEVEL_TYPE)
     (ConstraintSolver.create standardRegistry)).1.

(** [standardRegistry] with the hidden parent [generated] (3) and one
    binder symbol [generated.x] (4), as [analyse] creates them. *)
Definition binderRegistry : SymbolRegistry.t :=
  fromOk SymbolRegistry.empty
    ('(r, _) ← SymbolRegistry.addNewSymbol standardRegistry None "generated" false;
     '(r, _) ← SymbolRegistry.addNewSymbol r (Some 3) "x" true;
     Ok r).

(** [\x x(x)] and the constraint [(\x x(x))(\x x(x)) : type(0l)]. *)
Definition selfApplication : Expression :=
  LAMBDA 4 (CALL (SYMBOL 4) [SYMBOL 4]).

Definition omegaSolver : ConstraintSolver.t :=
  ConstraintSolver.addTypeConstraint
    (CALL selfApplication [selfApplication]) (UNIVERSE (LEVEL 0))
    (ConstraintSolver.create binderRegistry).

(** A solver at the end of its iteration: the scratch symbols 3 (a level
    without own-value), 4 (no type, no own-value) and 5 (local), and the
    equality [root === 0l] still queued. *)
Definition leftoverSolver : ConstraintSolver.t :=
  let st := ConstraintSolver.create standardRegistry in
  let st := (ConstraintSolver.createTempSymbol false (Some LEVEL_TYPE) st).1 in
  let st := (ConstraintSolver.createTempSymbol false None st).1 in
  let st := (ConstraintSolver.createTempSymbol true None st).1 in
  ConstraintSolver.addEqualConstraint (SYMBOL 2) (LEVEL 0) st.

(** The file [f: A -> A], in which [A] is declared nowhere, and the
    state in which [analyse] starts its inner [run] on it over the
    standard registry: the hidden parent [generated] has just been
    created with the handle 3. *)
Definition undeclaredFile : list AstDeclaration :=
  [mkAstDeclaration (Ast.IDENTIFIER "f")
     (Some (Ast.FN_TYPE (Ast.IDENTIFIER "A") (Ast.IDENTIFIER "A") None))
     None false].

Definition undeclaredStart : Analyse.t :=
  let c := fromOk standardRegistry
             ('(c, _) ← SymbolRegistry.getSymbol standardRegistry None "generated" true;
              Ok c) in
  Analyse.withContext c
    (Analyse.mk (ConstraintSolver.create standardRegistry) [] [] 2 3).

(** The file
[[
   A: type(0l)
   B: A -> type(0l)
   f: (y: A) -> B(y)
   g: = \x f(x)
]]
    whose last declaration leaves the type of [g] to the solver. *)
Definition inferredTypeFile : list AstDeclaration :=
  [mkAstDeclaration (Ast.IDENTIFIER "A")
     (Some (Ast.TYPE_UNIVERSE (Ast.TYPE_UNIVERSE_SUBSCRIPT 0))) None false;
   mkAstDeclaration (Ast.IDENTIFIER "B")
     (Some (Ast.FN_TYPE (Ast.TYPE_UNIVERSE (Ast.TYPE_UNIVERSE_SUBSCRIPT 0))
                        (Ast.IDENTIFIER "A") None)) None false;
   mkAstDeclaration (Ast.IDENTIFIER "f")
     (Some (Ast.FN_TYPE (Ast.CALL (Ast.IDENTIFIER "B") [Ast.IDENTIFIER "y"])
                        (Ast.IDENTIFIER "A") (Some "y"))) None false;
   mkAstDeclaration (Ast.IDENTIFIER "g") None
     (Some (Ast.LAMBDA "x" (Ast.CALL (Ast.IDENTIFIER "f") [Ast.IDENTIFIER "x"])))
     false].

(** A solver in which the unlocked symbol [root] is given the scratch
    symbol 3 as its type and 3 is equated with [type(0l)], after the
    driver loop and before the final check. *)
Definition typedRootSolver : ConstraintSolver.t :=
  let st := (ConstraintSolver.createTempSymbol false None rootUnlocked).1 in
  let st := ConstraintSolver.addTypeConstraint (SYMBOL 2) (SYMBOL 3) st in
  let st := ConstraintSolver.addEqualConstraint (SYMBOL 3) (UNIVERSE (LEVEL 0)) st in
  fromOk st (ConstraintSolver.runLoop checkOwnValueCycle 10 10 100 0 st).

(** The same solver before the driver loop. *)
Definition typedRootStart : ConstraintSolver.t :=
  let st := (ConstraintSolver.createTempSymbol false None rootUnlocked).1 in
  let st := ConstraintSolver.addTypeConstraint (SYMBOL 2) (SYMBOL 3) st in
  ConstraintSolver.addEqualConstraint (SYMBOL 3) (UNIVERSE (LEVEL 0)) st.

(** The state one pass after [omegaSolver]. *)
Definition omegaSolver' : ConstraintSolver.t :=
  ConstraintSolver.addFnTypeConstraint selfApplication [selfApplication]
    (UNIVERSE (LEVEL 0)) (ConstraintSolver.create binderRegistry).

(** * Properties *)

(** ** Induction on terms *)

Lemma Expression_ind' (P : Expression -> Prop) :
  (forall s, P (SYMBOL s)) ->
  (forall a body, P body -> P (LAMBDA a body)) ->
  (forall fn args, P fn -> Forall P args -> P (CALL fn args)) ->
  (forall i o a, P i -> P o -> P (FN_TYPE i o a)) ->
  (forall v, P (PATTERN v)) ->
  P PLACEHOLDER ->
  (forall s, P s -> P (UNIVERSE s)) ->
  P LEVEL_TYPE ->
  (forall n, P (LEVEL n)) ->
  (forall e, P e -> P (LEVEL_SUCC e)) ->
  (forall l r, P l -> P r -> P (LEVEL_MAX l r)) ->
  forall e, P e.
Proof.
  intros HS HL HC HF HP HPl HU HLT HLv HSu HM.
  fix IH 1. intros [s|a body|fn args|i o a|v| |s| |n|e|l r].
  - apply HS.
  - apply HL, IH.
  - apply HC; [apply IH|].
    induction args as [|x xs IHxs]; constructor; [apply IH|apply IHxs].
  - apply HF; apply IH.
  - apply HP.
  - apply HPl.
  - apply HU, IH.
  - apply HLT.
  - apply HLv.
  - apply HSu, IH.
  - apply HM; apply IH.
Qed.

Lemma Ast_ind' (P : Ast.t -> Prop) :
  (forall name, P (Ast.IDENTIFIER name)) ->
  (forall path, P (Ast.SYMBOL path)) ->
  P Ast.EMPTY_SYMBOL ->
  (forall o i a, P o -> P i -> P (Ast.FN_TYPE o i a)) ->
  (forall name body, P body -> P (Ast.LAMBDA name body)) ->
  (forall fn args, P fn -> Forall P args -> P (Ast.CALL fn args)) ->
  (forall name, P (Ast.PATTERN name)) ->
  (forall s, P s -> P (Ast.TYPE_UNIVERSE s)) ->
  (forall v, P (Ast.TYPE_UNIVERSE_SUBSCRIPT v)) ->
  forall e, P e.
Proof.
  intros HI HS HE HF HL HC HP HU HV.
  fix IH 1. intros [name|path| |o i a|name body|fn args|name|s|v].
  - apply HI.
  - apply HS.
  - apply HE.
  - apply HF; apply IH.
  - apply HL, IH.
  - apply HC; [apply IH|].
    induction args as [|x xs IHxs]; constructor; [apply IH|apply IHxs].
  - apply HP.
  - apply HU, IH.
  - apply HV.
Qed.

(** ** Substitution *)

Module ReplacerFacts.

Lemma _replace_CALL m fn args :
  Replacer._replace m (CALL fn args) =
  let '(fn', m1) := Replacer._replace m fn in
  let '(args', m2) := replaceArgs m1 args in
  (CALL fn' args', m2).
Proof.
  simpl. destruct (Replacer._replace m fn) as [fn' m1].
  replace ((fix go (m0 : gmap Z Expression) (l : list Expression) {struct l} :
             list Expression * gmap Z Expression :=
             match l with
             | [] => ([], m0)
             | x :: r =>
                 let '(x', m') := Replacer._replace m0 x in
                 let '(r', m'') := go m' r in (x' :: r', m'')
             end) m1 args) with (replaceArgs m1 args); [done|].
  generalize m1. induction args as [|x r IH]; intros m0; simpl; [done|].
  destruct (Replacer._replace m0 x) as [x' m']. by rewrite IH.
Qed.

(** Every walk hands back the substitution it was given: the binder
    cases restore what they masked. *)
Lemma _replace_maps e : forall m, (Replacer._replace m e).2 = m.
Proof.
  induction e as [s|a body IHb|fn args IHfn IHargs|i o a IHi IHo|v| |s IHs| |n|e IHe|l r IHl IHr]
    using Expression_ind'; intros m; try reflexivity.
  - simpl. by destruct (m !! s).
  - simpl. specialize (IHb m).
    destruct (m !! a) as [old|] eqn:Ha;
      destruct (Replacer._replace m body) as [b m1]; simpl in *; subst.
    + by apply insert_id.
    + done.
  - rewrite _replace_CALL. specialize (IHfn m).
    destruct (Replacer._replace m fn) as [fn' m1]. simpl in IHfn. subst m1.
    assert (H : (replaceArgs m args).2 = m).
    { induction IHargs as [|x r Hx _ IH]; simpl; [done|].
      specialize (Hx m). destruct (Replacer._replace m x) as [x' m']. simpl in Hx. subst m'.
      destruct (replaceArgs m r) as [r' m'']. simpl in *. done. }
    destruct (replaceArgs m args) as [args' m2]. done.
  - simpl. destruct a as [a|]; simpl.
    + destruct (m !! a) as [old|] eqn:Ha.
      * pose proof (IHi m) as Hi.
        destruct (Replacer._replace m i) as [i' m1]. simpl in Hi. subst m1.
        pose proof (IHo (delete a m)) as Ho.
        destruct (Replacer._replace (delete a m) o) as [o' m3]. simpl in *. subst m3.
        rewrite insert_delete_eq. by apply insert_id.
      * pose proof (IHi m) as Hi.
        destruct (Replacer._replace m i) as [i' m1]. simpl in Hi. subst m1.
        pose proof (IHo m) as Ho.
        destruct (Replacer._replace m o) as [o' m3]. done.
    + pose proof (IHi m) as Hi.
      destruct (Replacer._replace m i) as [i' m1]. simpl in Hi. subst m1.
      pose proof (IHo m) as Ho.
      destruct (Replacer._replace m o) as [o' m3]. done.
  - simpl. specialize (IHs m). destruct (Replacer._replace m s) as [s' m1]. done.
Qed.

Lemma replaceSymbols_SYMBOL m s :
  replaceSymbols (SYMBOL s) m = default (SYMBOL s) (m !! s).
Proof.
  unfold replaceSymbols, Replacer.replaceMany, Replacer.doReplace. simpl.
  by destruct (m !! s).
Qed.

Lemma replaceSymbols_LAMBDA m a body :
  replaceSymbols (LAMBDA a body) m = LAMBDA a (replaceSymbols body m).
Proof.
  unfold replaceSymbols, Replacer.replaceMany, Replacer.doReplace. simpl.
  destruct (m !! a); by destruct (Replacer._replace m body).
Qed.

(** A dependent function type masks its binder in the output type only. *)
Lemma replaceSymbols_FN_TYPE_masked m i o a old :
  m !! a = Some old ->
  replaceSymbols (FN_TYPE i o (Some a)) m =
  FN_TYPE (replaceSymbols i m) (replaceSymbols o (delete a m)) (Some a).
Proof.
  intros Ha.
  unfold replaceSymbols, Replacer.replaceMany, Replacer.doReplace. simpl.
  rewrite Ha. pose proof (_replace_maps i m) as Hi.
  destruct (Replacer._replace m i) as [i' m1]. simpl in Hi. subst m1.
  by destruct (Replacer._replace (delete a m) o).
Qed.

Lemma replaceSymbols_FN_TYPE_free m i o a :
  (a ≫= (m !!.)) = None ->
  replaceSymbols (FN_TYPE i o a) m =
  FN_TYPE (replaceSymbols i m) (replaceSymbols o m) a.
Proof.
  intros Ha.
  unfold replaceSymbols, Replacer.replaceMany, Replacer.doReplace. simpl.
  pose proof (_replace_maps i m) as Hi.
  destruct a as [a|]; simpl in *; rewrite ?Ha;
    destruct (Replacer._replace m i) as [i' m1]; simpl in Hi; subst m1;
    by destruct (Replacer._replace m o).
Qed.

Lemma replaceSymbols_leaf m e :
  match e with
  | PATTERN _ | PLACEHOLDER | LEVEL_TYPE | LEVEL _ | LEVEL_SUCC _ | LEVEL_MAX _ _ => True
  | _ => False
  end ->
  replaceSymbols e m = e.
Proof. by destruct e. Qed.

End ReplacerFacts.

(** ** C4: binders and substitution *)

(** C4 (code defect).  The claim says that a binder's own symbol is
    masked while its body is visited.  The [FN_TYPE] case does so; the
    [LAMBDA] case restores the binding afterwards but never removes it,
    so a bound occurrence is replaced: for every symbol [x], replacement
    [v] and substitution [m], [replaceOneSymbol] and [replaceSymbols]
    turn [\x. x] into [\x. v], whereas the output type of [(x : i) -> x]
    keeps its [x]. *)
Theorem C4_lambda_binder_not_masked :
  (forall x v, replaceOneSymbol (LAMBDA x (SYMBOL x)) x v = LAMBDA x v) /\
  (forall m x v, replaceSymbols (LAMBDA x (SYMBOL x)) (<[x := v]> m) = LAMBDA x v) /\
  (forall i x v,
     replaceOneSymbol (FN_TYPE i (SYMBOL x) (Some x)) x v =
     FN_TYPE (replaceOneSymbol i x v) (SYMBOL x) (Some x)).
Proof.
  split; [|split].
  - intros x v. unfold replaceOneSymbol, Replacer.replaceOne.
    change (Replacer.doReplace {[x := v]} ?e) with (replaceSymbols e {[x := v]}).
    rewrite ReplacerFacts.replaceSymbols_LAMBDA, ReplacerFacts.replaceSymbols_SYMBOL.
    by rewrite lookup_singleton_eq.
  - intros m x v.
    rewrite ReplacerFacts.replaceSymbols_LAMBDA, ReplacerFacts.replaceSymbols_SYMBOL.
    by rewrite lookup_insert_eq.
  - intros i x v. unfold replaceOneSymbol, Replacer.replaceOne.
    change (Replacer.doReplace {[x := v]} ?e) with (replaceSymbols e {[x := v]}).
    rewrite (ReplacerFacts.replaceSymbols_FN_TYPE_masked _ _ _ _ v)
      by apply lookup_singleton_eq.
    rewrite ReplacerFacts.replaceSymbols_SYMBOL, lookup_delete_eq. done.
Qed.

(** ** C3: beta reduction in the normaliser *)

(** The [LAMBDA] branch of the one-argument continuation substitutes in
    the whole abstraction, so what it pushes is again an abstraction. *)
Lemma step_K_call_LAMBDA registry x body arg rest todo changed :
  Expander.step registry Expander.K_call
    (Expander.mk todo (arg :: LAMBDA x body :: rest) changed) =
  Ok (Expander.mk todo (LAMBDA x (replaceOneSymbol body x arg) :: rest) true).
Proof.
  unfold Expander.step. simpl.
  unfold replaceOneSymbol, Replacer.replaceOne.
  change (Replacer.doReplace {[x := arg]} ?e) with (replaceSymbols e {[x := arg]}).
  by rewrite ReplacerFacts.replaceSymbols_LAMBDA.
Qed.

(** C3 (code defect).  The claim says that expanding [(\x. b)(a)] gives
    the expansion of [b] with [a] for [x].  [_expandCall] hands the whole
    abstraction to [replaceOneSymbol], whose [LAMBDA] case keeps the
    binder, and pushes the result without expanding it again.  On
    [(\x. (type(succ 0l) -> x))(5l)] the normaliser answers
    [\x. (type(1l) -> 5l)], not [type(1l) -> 5l]; on [(\x. x)(5l)], where
    no reduction fires inside the body, the abstraction's continuation
    leaves the expanded body on the stack and the final assertion on
    the stack height fails. *)
Theorem C3_beta_keeps_the_binder :
  let body := FN_TYPE (UNIVERSE (LEVEL_SUCC (LEVEL 0))) (SYMBOL 0) None in
  Expander.expand 20 oneLocal (CALL (LAMBDA 0 body) [LEVEL 5]) =
    Ok (LAMBDA 0 (FN_TYPE (UNIVERSE (LEVEL 1)) (LEVEL 5) None), true) /\
  Expander.expand 20 oneLocal (replaceOneSymbol body 0 (LEVEL 5)) =
    Ok (FN_TYPE (UNIVERSE (LEVEL 1)) (LEVEL 5) None, true) /\
  Expander.expand 20 oneLocal (CALL (LAMBDA 0 (SYMBOL 0)) [LEVEL 5]) = Err Panic /\
  Expander.expand 20 oneLocal (replaceOneSymbol (SYMBOL 0) 0 (LEVEL 5)) =
    Ok (LEVEL 5, false).
Proof. vm_compute. done. Qed.

(** ** C1: assigning an own-value from an equality *)

Module C1.

Import ConstraintSolver.

Lemma getSymbolEntry_temp_range (r : TempSymbolRegistry.t) s entry :
  TempSymbolRegistry.getSymbolEntry r s = Ok entry ->
  TempSymbolRegistry.isTempSymbol r s = true ->
  TempSymbolRegistry.tempSymbols r !! Z.to_nat (s - SymbolRegistry.getSymbolCount (TempSymbolRegistry.parent r)) = Some entry /\
  (0 <=? s - SymbolRegistry.getSymbolCount (TempSymbolRegistry.parent r))
  && (s - SymbolRegistry.getSymbolCount (TempSymbolRegistry.parent r)
      <? Z.of_nat (length (TempSymbolRegistry.tempSymbols r))) = true.
Proof.
  unfold TempSymbolRegistry.getSymbolEntry, TempSymbolRegistry.isTempSymbol, arrayGet.
  intros H Ht. apply Z.leb_le in Ht.
  destruct (Z.ltb_spec s (SymbolRegistry.getSymbolCount (TempSymbolRegistry.parent r))); [lia|].
  destruct (_ && _) eqn:Hr; [|done].
  destruct (_ !! _) eqn:Hl; [|done]. by inversion H.
Qed.

Lemma setEntry_temp (st : t) s entry e' :
  TempSymbolRegistry.getSymbolEntry (registry st) s = Ok entry ->
  TempSymbolRegistry.isTempSymbol (registry st) s = true ->
  exists st', setEntry s e' st = Ok st' /\
    TempSymbolRegistry.getSymbolEntry (registry st') s = Ok e' /\
    TempSymbolRegistry.parent (registry st') = TempSymbolRegistry.parent (registry st) /\
    constraints st' = constraints st /\ diagnostics st' = diagnostics st /\
    unlockedSymbols st' = unlockedSymbols st /\
    affectedSymbols st' = affectedSymbols st.
Proof.
  intros H Ht. destruct (getSymbolEntry_temp_range _ _ _ H Ht) as [Hl Hr].
  unfold setEntry, TempSymbolRegistry.setEntry.
  unfold TempSymbolRegistry.isTempSymbol in Ht. apply Z.leb_le in Ht.
  destruct (Z.ltb_spec s (SymbolRegistry.getSymbolCount (TempSymbolRegistry.parent (registry st)))); [lia|].
  unfold arraySet. rewrite Hr. simpl.
  eexists; split; [reflexivity|]. simpl.
  split; [|done].
  unfold TempSymbolRegistry.getSymbolEntry. simpl.
  destruct (Z.ltb_spec s (SymbolRegistry.getSymbolCount (TempSymbolRegistry.parent (registry st)))); [lia|].
  unfold arrayGet. rewrite length_insert, Hr.
  rewrite list_lookup_insert_eq; [done|].
  apply andb_true_iff in Hr as [_ Hr]. apply Z.ltb_lt in Hr. lia.
Qed.

End C1.

(** C1 (amended).  For an equality whose expanded, oriented left side is
    the symbol [s] and whose right side is [r], the assignment
    [trySetOwnValue(s, r)] succeeds exactly when [s] has no own-value,
    [s] is a scratch symbol and [checkOwnValueCycle(s, r)] accepts; being
    unlocked does not help a permanent symbol.  On success [s] holds
    [r], the constraint [r : T] is appended when [s] has the type [T],
    no diagnostic is recorded, and the equality is consumed. *)
Theorem C1_own_value_assignment
    (cyc : Z -> Expression -> bool) (fuel : nat)
    (st : ConstraintSolver.t) (s : Z) (r : Expression) (entry : SymbolEntry)
    (Hentry : TempSymbolRegistry.getSymbolEntry (ConstraintSolver.registry st) s = Ok entry) :
  ((exists st', ConstraintSolver.trySetOwnValue cyc s r st = Ok (st', true)) <->
   (e_ownValue entry = None /\
    TempSymbolRegistry.isTempSymbol (ConstraintSolver.registry st) s = true /\
    cyc s r = true)) /\
  (forall st', ConstraintSolver.trySetOwnValue cyc s r st = Ok (st', true) ->
     TempSymbolRegistry.getSymbolEntry (ConstraintSolver.registry st') s
       = Ok (set_ownValue r entry) /\
     ConstraintSolver.constraints st' =
       ConstraintSolver.constraints st ++
       match e_type entry with Some T => [TYPE r T] | None => [] end /\
     ConstraintSolver.diagnostics st' = ConstraintSolver.diagnostics st /\
     forall con1 con2 c1 c2 e1 e2 flag,
       ConstraintSolver.expand fuel st con1 = Ok (e1, c1) ->
       ConstraintSolver.expand fuel st con2 = Ok (e2, c2) ->
       ConstraintSolver.orient (ConstraintSolver.registry st) e1 e2 = (SYMBOL s, r) ->
       r <> SYMBOL s ->
       ConstraintSolver.evaluateEqualConstraint cyc fuel con1 con2 flag st
         = Ok (st', true)).
Proof.
  assert (Hsucc : forall st', ConstraintSolver.trySetOwnValue cyc s r st = Ok (st', true) ->
     e_ownValue entry = None /\
     TempSymbolRegistry.isTempSymbol (ConstraintSolver.registry st) s = true /\
     cyc s r = true /\
     TempSymbolRegistry.getSymbolEntry (ConstraintSolver.registry st') s
       = Ok (set_ownValue r entry) /\
     ConstraintSolver.constraints st' =
       ConstraintSolver.constraints st ++
       match e_type entry with Some T => [TYPE r T] | None => [] end /\
     ConstraintSolver.diagnostics st' = ConstraintSolver.diagnostics st).
  { intros st'. unfold ConstraintSolver.trySetOwnValue. rewrite Hentry. simpl.
    destruct (e_ownValue entry) as [v|] eqn:Hv; simpl; [intros [=]|].
    destruct (TempSymbolRegistry.isTempSymbol (ConstraintSolver.registry st) s) eqn:Ht;
      simpl; [|intros [=]].
    destruct (cyc s r) eqn:Hc; simpl; [|intros [=]].
    destruct (C1.setEntry_temp st s entry (set_ownValue r entry) Hentry Ht)
      as (st1 & -> & Hget & Hpar & Hcon & Hdiag & Hun & Haff).
    simpl.
    assert (Ht1 : forall st2, ConstraintSolver.registry st2 = ConstraintSolver.registry st1 ->
              TempSymbolRegistry.isTempSymbol (ConstraintSolver.registry st2) s = true).
    { intros st2 ->. unfold TempSymbolRegistry.isTempSymbol in *. by rewrite Hpar. }
    destruct (e_type entry) as [T|]; simpl.
    - rewrite Ht1 by done. simpl. intros [= <-]. simpl.
      repeat split; try done. by rewrite Hcon.
    - rewrite Ht1 by done. simpl. intros [= <-].
      repeat split; try done. by rewrite Hcon, app_nil_r. }
  split.
  - split.
    + intros [st' H]. apply Hsucc in H. tauto.
    + intros (Hv & Ht & Hc).
      unfold ConstraintSolver.trySetOwnValue. rewrite Hentry. simpl.
      rewrite Hv, Ht, Hc. simpl.
      destruct (C1.setEntry_temp st s entry (set_ownValue r entry) Hentry Ht)
        as (st1 & -> & _). simpl. eauto.
  - intros st' H. destruct (Hsucc st' H) as (Hv & Ht & Hc & Hget & Hcon & Hdiag).
    repeat split; try done.
    intros con1 con2 c1 c2 e1 e2 flag He1 He2 Hor Hne.
    unfold ConstraintSolver.evaluateEqualConstraint.
    rewrite He1. simpl. rewrite He2. simpl. rewrite Hor.
    destruct r as [s2| | | | | | | | | |]; try (rewrite H; done).
    rewrite bool_decide_eq_false_2 by congruence. rewrite H. done.
Qed.

(** A scratch level symbol without own-value takes [0l]; its type gives
    the new constraint [0l : Level]. *)
Lemma C1_own_value_assignment_witness :
  exists st',
    ConstraintSolver.trySetOwnValue checkOwnValueCycle 3 (LEVEL 0) oneLevelMeta
      = Ok (st', true) /\
    ConstraintSolver.constraints st' = [TYPE (LEVEL 0) LEVEL_TYPE].
Proof.
  pose proof (C1_own_value_assignment checkOwnValueCycle 10 oneLevelMeta 3 (LEVEL 0)
                (mkEntry EmptyString None false None (Some LEVEL_TYPE) None None) eq_refl) as [Hiff Hpost].
  destruct (proj2 Hiff) as [st' Hst']; [by vm_compute|].
  exists st'. split; [done|].
  destruct (Hpost st' Hst') as (_ & Hc & _). exact Hc.
Defined.

(** C1 (counterexample).  [root] is permanent, unlocked and has no
    own-value, and the cycle check accepts [0l] for it; the claim
    promises success, the solver refuses and leaves its state as it
    was. *)
Lemma C1_counterexample :
  exists entry,
    TempSymbolRegistry.getSymbolEntry (ConstraintSolver.registry rootUnlocked) 2
      = Ok entry /\
    e_ownValue entry = None /\
    2 ∈ ConstraintSolver.unlockedSymbols rootUnlocked /\
    checkOwnValueCycle 2 (LEVEL 0) = true /\
    ConstraintSolver.trySetOwnValue checkOwnValueCycle 2 (LEVEL 0) rootUnlocked
      = Ok (rootUnlocked, false).
Proof.
  eexists. split; [vm_compute; reflexivity|].
  split; [done|]. split; [|split; [done|by vm_compute]].
  unfold rootUnlocked, ConstraintSolver.unlockSymbol. simpl. set_solver.
Qed.

(** ** C6: the stuck pass *)

Lemma runLog_runLoop cyc fuel n maxIterations iterations st :
  (runLog cyc fuel n maxIterations iterations st).1 =
  ConstraintSolver.runLoop cyc fuel n maxIterations iterations st.
Proof.
  revert st. induction n as [|n IH]; intros st; simpl; [done|].
  destruct (maxIterations <? iterations); [done|].
  destruct (ConstraintSolver.iterate cyc fuel false st) as [[st1 [|]]|f]; simpl; [| |done].
  - specialize (IH st1).
    destruct (runLog cyc fuel n maxIterations iterations st1). done.
  - destruct (ConstraintSolver.iterate cyc fuel true st1) as [[st2 [|]]|f]; simpl; [| |done]; [|done].
    specialize (IH st2).
    destruct (runLog cyc fuel n maxIterations iterations st2). done.
Qed.

Lemma runLog_stuckAfterQuiet cyc fuel n maxIterations iterations st previous :
  stuckAfterQuiet previous (runLog cyc fuel n maxIterations iterations st).2 = true.
Proof.
  revert st previous. induction n as [|n IH]; intros st previous; simpl; [done|].
  destruct (maxIterations <? iterations); [done|].
  destruct (ConstraintSolver.iterate cyc fuel false st) as [[st1 [|]]|f]; simpl; [| |done].
  - specialize (IH st1 (Some (false, true))).
    destruct (runLog cyc fuel n maxIterations iterations st1). done.
  - destruct (ConstraintSolver.iterate cyc fuel true st1) as [[st2 [|]]|f]; simpl; [| |done]; [|done].
    specialize (IH st2 (Some (true, true))).
    destruct (runLog cyc fuel n maxIterations iterations st2). done.
Qed.

(** The loop of a pass over a queue in two parts. *)
Lemma iterateLoop_app cyc fuel flag pre : forall post changed st,
  ConstraintSolver.iterateLoop cyc fuel (pre ++ post) flag changed st =
  ('(st1, ch) ← ConstraintSolver.iterateLoop cyc fuel pre flag changed st;
   ConstraintSolver.iterateLoop cyc fuel post flag ch st1).
Proof.
  induction pre as [|con pre IH]; intros post changed st; simpl; [done|].
  destruct (ConstraintSolver.evaluateConstraint cyc fuel con flag st) as [[st1 c]|]; [|done].
  simpl. apply IH.
Qed.

(** A pass hands its flag to every equality of the queue. *)
Lemma iterate_flag cyc fuel flag st0 pre e1 e2 post st1 ch :
  ConstraintSolver.constraints st0 = pre ++ EQUAL e1 e2 :: post ->
  ConstraintSolver.iterateLoop cyc fuel pre flag false
    (ConstraintSolver.withConstraints [] st0) = Ok (st1, ch) ->
  ConstraintSolver.iterate cyc fuel flag st0 =
    ('(st2, c) ← ConstraintSolver.evaluateEqualConstraint cyc fuel e1 e2 flag st1;
     ConstraintSolver.iterateLoop cyc fuel post flag (if c : bool then true else ch) st2).
Proof.
  intros Hq Hpre.
  unfold ConstraintSolver.iterate. rewrite Hq, iterateLoop_app, Hpre. done.
Qed.

(** C6.  When both expanded sides of an equality are calls, an ordinary
    pass (flag [false]) only re-posts the expanded equality, or queues
    the original one again when nothing was reduced: it adds no head or
    argument equality and no [UNEQUAL] diagnostic.  The decomposition
    (head and argument equalities for equal arities, [UNEQUAL] otherwise)
    is what the flag [true] selects, and the driver raises the flag only
    for a pass that comes right after an ordinary pass that reported no
    change.  A pass evaluates every equality of its queue with the flag
    the driver gave it: when an ordinary pass reaches the equality, in
    the state in which both sides expand to calls, it goes on to the
    rest of the queue from the state in which the equality has only
    been re-posted. *)
Theorem C6_call_decomposition_only_when_stuck
    (cyc : Z -> Expression -> bool) (fuel : nat) (st : ConstraintSolver.t)
    (con1 con2 f1 f2 : Expression) (a1 a2 : list Expression) (c1 c2 : bool)
    (H1 : ConstraintSolver.expand fuel st con1 = Ok (CALL f1 a1, c1))
    (H2 : ConstraintSolver.expand fuel st con2 = Ok (CALL f2 a2, c2)) :
  ConstraintSolver.evaluateEqualConstraint cyc fuel con1 con2 false st =
    Ok (if c1 || c2
        then ConstraintSolver.addEqualConstraint (CALL f1 a1) (CALL f2 a2) st
        else ConstraintSolver.pushConstraint (EQUAL con1 con2) st,
        c1 || c2) /\
  ConstraintSolver.evaluateEqualConstraint cyc fuel con1 con2 true st =
    (if decide (length a1 = length a2)
     then Ok (foldl (fun st (ab : Expression * Expression) =>
                       ConstraintSolver.addEqualConstraint ab.1 ab.2 st)
                    (ConstraintSolver.addEqualConstraint f1 f2 st) (zip a1 a2),
              true)
     else Ok (ConstraintSolver.pushDiagnostic
                (UNEQUAL (CALL f1 a1) (CALL f2 a2)) st, false)) /\
  (forall n maxIterations iterations st0,
    (runLog cyc fuel n maxIterations iterations st0).1 =
      ConstraintSolver.runLoop cyc fuel n maxIterations iterations st0 /\
    stuckAfterQuiet None (runLog cyc fuel n maxIterations iterations st0).2 = true) /\
  (forall flag st0 pre e1 e2 post st1 ch,
     ConstraintSolver.constraints st0 = pre ++ EQUAL e1 e2 :: post ->
     ConstraintSolver.iterateLoop cyc fuel pre flag false
       (ConstraintSolver.withConstraints [] st0) = Ok (st1, ch) ->
     ConstraintSolver.iterate cyc fuel flag st0 =
       ('(st2, c) ← ConstraintSolver.evaluateEqualConstraint cyc fuel e1 e2 flag st1;
        ConstraintSolver.iterateLoop cyc fuel post flag
          (if c : bool then true else ch) st2)) /\
  (forall st0 pre post ch,
     ConstraintSolver.constraints st0 = pre ++ EQUAL con1 con2 :: post ->
     ConstraintSolver.iterateLoop cyc fuel pre false false
       (ConstraintSolver.withConstraints [] st0) = Ok (st, ch) ->
     ConstraintSolver.iterate cyc fuel false st0 =
       ConstraintSolver.iterateLoop cyc fuel post false (if c1 || c2 then true else ch)
         (if c1 || c2
          then ConstraintSolver.addEqualConstraint (CALL f1 a1) (CALL f2 a2) st
          else ConstraintSolver.pushConstraint (EQUAL con1 con2) st)).
Proof.
  split_and!.
  - unfold ConstraintSolver.evaluateEqualConstraint. rewrite H1. simpl. rewrite H2. simpl.
    by destruct (c1 || c2).
  - unfold ConstraintSolver.evaluateEqualConstraint. rewrite H1. simpl. rewrite H2. simpl.
    done.
  - intros. split; [apply runLog_runLoop|apply runLog_stuckAfterQuiet].
  - intros flag st0 pre e1 e2 post st1 ch. apply iterate_flag.
  - intros st0 pre post ch Hq Hpre. rewrite (iterate_flag _ _ _ _ _ _ _ _ _ _ Hq Hpre).
    unfold ConstraintSolver.evaluateEqualConstraint. rewrite H1. simpl. rewrite H2. simpl.
    by destruct (c1 || c2).
Qed.

(** [root(0l)] against [root(1l)] over the standard registry: nothing
    reduces, so an ordinary pass queues the equality again unchanged. *)
Lemma C6_call_decomposition_only_when_stuck_witness :
  let st := ConstraintSolver.create standardRegistry in
  let con1 := CALL (SYMBOL 2) [LEVEL 0] in
  let con2 := CALL (SYMBOL 2) [LEVEL 1] in
  ConstraintSolver.evaluateEqualConstraint checkOwnValueCycle 20 con1 con2 false st
    = Ok (ConstraintSolver.pushConstraint (EQUAL con1 con2) st, false) /\
  ConstraintSolver.iterate checkOwnValueCycle 20 false
    (ConstraintSolver.pushConstraint (EQUAL con1 con2) st)
    = Ok (ConstraintSolver.pushConstraint (EQUAL con1 con2) st, false).
Proof.
  intros st con1 con2.
  pose proof (C6_call_decomposition_only_when_stuck checkOwnValueCycle 20 st
                con1 con2 (SYMBOL 2) (SYMBOL 2) [LEVEL 0] [LEVEL 1] false false
                eq_refl eq_refl) as (Hordinary & _ & _ & _ & Hpass).
  split; [exact Hordinary|].
  exact (Hpass (ConstraintSolver.pushConstraint (EQUAL con1 con2) st) [] [] false
           eq_refl eq_refl).
Defined.

(** ** C7: the iteration cap *)

Module C7.

Import ConstraintSolver.

Lemma pass_1 cyc fuel flag : iterate cyc fuel flag omegaSolver = Ok (omegaSolver', true).
Proof. reflexivity. Qed.

Lemma pass_2 cyc fuel flag : iterate cyc fuel flag omegaSolver' = Ok (omegaSolver, true).
Proof. reflexivity. Qed.

Lemma runLog_changed cyc fuel n maxIterations iterations st st' :
  (maxIterations <? iterations) = false ->
  iterate cyc fuel false st = Ok (st', true) ->
  runLog cyc fuel (S n) maxIterations iterations st =
  (let '(r, log) := runLog cyc fuel n maxIterations iterations st' in
   (r, (false, true) :: log)).
Proof. intros Hcap Hit. simpl. by rewrite Hcap, Hit. Qed.

Lemma runLog_omega cyc fuel (maxIterations : nat) n :
  runLog cyc fuel n (Z.of_nat maxIterations) 0 omegaSolver
    = (Err OutOfFuel, repeat (false, true) n) /\
  runLog cyc fuel n (Z.of_nat maxIterations) 0 omegaSolver'
    = (Err OutOfFuel, repeat (false, true) n).
Proof.
  induction n as [|n [IH1 IH2]]; [done|].
  assert (Hcap : (Z.of_nat maxIterations <? 0) = false) by (apply Z.ltb_ge; lia).
  split.
  - rewrite (runLog_changed _ _ _ _ _ _ _ Hcap (pass_1 cyc fuel false)), IH2. done.
  - rewrite (runLog_changed _ _ _ _ _ _ _ Hcap (pass_2 cyc fuel false)), IH1. done.
Qed.

End C7.

(** C7 (code defect).  The claim says that [run] stops after at most
    [maxIterations] passes.  [run] never advances its counter
    ([logDump] increments its own copy), so for a bound that is not
    negative the test [iterations > maxIterations] never fires.  On the
    constraint [(\x x(x))(\x x(x)) : type(0l)] every pass reports a
    change (typing the call substitutes the argument and yields the same
    call again), hence however many turns the loop is allowed, it has
    made that many passes and has not returned; nothing is reported. *)
Theorem C7_cap_never_reached
    (cyc : Z -> Expression -> bool)
    (comp : gmap Z Expression -> list Z -> gmap Z Expression)
    (fuel n maxIterations : nat) :
  ConstraintSolver.run cyc comp fuel n (Z.of_nat maxIterations) omegaSolver
    = Err OutOfFuel /\
  runLog cyc fuel n (Z.of_nat maxIterations) 0 omegaSolver
    = (Err OutOfFuel, repeat (false, true) n).
Proof.
  pose proof (C7.runLog_omega cyc fuel maxIterations n) as [H _].
  split; [|done].
  unfold ConstraintSolver.run.
  change (ConstraintSolver.withDiagnostics [] omegaSolver) with omegaSolver.
  rewrite <- runLog_runLoop, H. done.
Qed.

(** ** Facts about the scratch layer *)

Module TempFacts.

Import TempSymbolRegistry.


Lemma getSymbolEntry_valid r s :
  (exists e, getSymbolEntry r s = Ok e) <->
  0 <= s < count r + Z.of_nat (length (tempSymbols r)).
Proof.
  unfold getSymbolEntry, count, SymbolRegistry.getSymbolEntry,
    SymbolRegistry.tryGetSymbolEntry, SymbolRegistry.getSymbolCount, arrayGet.
  set (c := Z.of_nat (length (SymbolRegistry.entriesById (parent r)))).
  destruct (Z.ltb_spec s c) as [Hlt|Hge].
  - destruct (Z.leb_spec 0 s) as [H0|H0]; simpl.
    + destruct (Z.ltb_spec s c); [|lia].
      destruct (SymbolRegistry.entriesById (parent r) !! Z.to_nat s) eqn:Hl.
      * split; [lia|eauto].
      * apply lookup_ge_None in Hl. lia.
    + split; [intros [e [=]]|lia].
  - destruct (Z.leb_spec 0 (s - c)) as [H0|H0]; [|lia]. simpl.
    destruct (Z.ltb_spec (s - c) (Z.of_nat (length (tempSymbols r)))) as [H1|H1].
    + destruct (tempSymbols r !! Z.to_nat (s - c)) eqn:Hl.
      * split; [lia|eauto].
      * apply lookup_ge_None in Hl. lia.
    + split; [intros [e [=]]|lia].
Qed.

Lemma getSymbolEntry_temp r s e :
  count r <= s ->
  getSymbolEntry r s = Ok e <-> tempSymbols r !! Z.to_nat (s - count r) = Some e.
Proof.
  intros Hs. unfold getSymbolEntry, arrayGet. fold (count r).
  destruct (Z.ltb_spec s (count r)); [lia|].
  destruct (Z.leb_spec 0 (s - count r)); [|lia]. simpl.
  destruct (Z.ltb_spec (s - count r) (Z.of_nat (length (tempSymbols r)))) as [H1|H1].
  - destruct (tempSymbols r !! _) eqn:Hl; split; intros [=]; by subst.
  - split; [intros [=]|]. intros Hl. apply lookup_lt_Some in Hl. lia.
Qed.

(** Writing an entry back keeps both arrays' lengths; a permanent handle
    leaves the scratch array alone, a scratch handle updates one slot. *)
Lemma setEntry_ok r s e e' :
  getSymbolEntry r s = Ok e ->
  exists r', setEntry r s e' = Ok r' /\
    count r' = count r /\
    ((s < count r /\ tempSymbols r' = tempSymbols r) \/
     (count r <= s /\
      tempSymbols r' = <[Z.to_nat (s - count r) := e']> (tempSymbols r) /\
      parent r' = parent r)).
Proof.
  intros Hget.
  assert (Hv : 0 <= s < count r + Z.of_nat (length (tempSymbols r)))
    by (apply getSymbolEntry_valid; eauto).
  unfold setEntry. fold (count r).
  destruct (Z.ltb_spec s (count r)) as [Hlt|Hge].
  - unfold SymbolRegistry.setEntry, arraySet.
    unfold count, SymbolRegistry.getSymbolCount in *.
    destruct (Z.leb_spec 0 s); [|lia].
    destruct (Z.ltb_spec s (Z.of_nat (length (SymbolRegistry.entriesById (parent r))))); [|lia].
    simpl. eexists; split; [reflexivity|]. simpl.
    rewrite length_insert. split; [done|]. left. done.
  - unfold arraySet.
    destruct (Z.leb_spec 0 (s - count r)); [|lia].
    destruct (Z.ltb_spec (s - count r) (Z.of_nat (length (tempSymbols r)))); [|lia].
    simpl. eexists; split; [reflexivity|]. simpl.
    split; [done|]. right. done.
Qed.

End TempFacts.

(** ** C8: the final check *)

Module C8.

Import ConstraintSolver.

Lemma reportLoop_spec l : forall st,
  let st' := foldl (fun st con => pushDiagnostic (UNRESOLVED_CONSTRAINT con) st) st l in
  registry st' = registry st /\
  diagnostics st' = diagnostics st ++ map UNRESOLVED_CONSTRAINT l /\
  constraints st' = constraints st /\
  affectedSymbols st' = affectedSymbols st.
Proof.
  induction l as [|con l IH]; intros st; simpl.
  - by rewrite app_nil_r.
  - destruct (IH (pushDiagnostic (UNRESOLVED_CONSTRAINT con) st)) as (Hr & Hd & Hc & Ha).
    simpl in *. rewrite Hr, Hd, Hc, Ha, <- app_assoc. done.
Qed.

Lemma reportUnresolved_spec st :
  registry (reportUnresolved st) = registry st /\
  diagnostics (reportUnresolved st)
    = diagnostics st ++ map UNRESOLVED_CONSTRAINT (constraints st) /\
  affectedSymbols (reportUnresolved st) = affectedSymbols st.
Proof.
  unfold reportUnresolved.
  destruct (reportLoop_spec (constraints st) st) as (Hr & Hd & _ & Ha). done.
Qed.

Lemma collectTemps_spec fuel st entries : forall s reps vars,
  Forall (fun e => forall v, e_ownValue e = Some v ->
                   exists r, Expander.expand fuel (registry st) v = Ok r) entries ->
  exists reps',
    collectTemps fuel st s entries reps vars
      = Ok (reps', vars ++ uninferedFrom s entries).
Proof.
  induction entries as [|e entries IH]; intros s reps vars HF; simpl.
  - rewrite app_nil_r. eauto.
  - inversion HF as [|? ? He HF']; subst.
    destruct (e_ownValue e) as [v|] eqn:Hv.
    + destruct (He v eq_refl) as [[v' c] Hex].
      unfold expand. rewrite Hex. simpl.
      rewrite ?bool_decide_eq_false_2 by done. simpl. by apply IH.
    + rewrite ?bool_decide_eq_true_2 by done. simpl.
      destruct (e_isLocal e); simpl.
      * by apply IH.
      * destruct (IH (s + 1) reps (vars ++ [s]) HF') as [reps' ->].
        rewrite <- app_assoc. eauto.
Qed.

Local Abbreviation isZeroLevel e := (e_ownValue e = Some (LEVEL 0)).

Lemma substituteEntry_zero comp reps e :
  isZeroLevel e -> isZeroLevel (substituteEntry comp reps e).
Proof. unfold substituteEntry. simpl. by intros ->. Qed.

Lemma substituteAll_spec comp reps l : forall st,
  (forall s, s ∈ l -> exists e, TempSymbolRegistry.getSymbolEntry (registry st) s = Ok e) ->
  exists st', substituteAll comp reps l st = Ok st' /\
    diagnostics st' = diagnostics st /\
    forall i e, TempSymbolRegistry.tempSymbols (registry st) !! i = Some e ->
      isZeroLevel e ->
      exists e', TempSymbolRegistry.tempSymbols (registry st') !! i = Some e' /\
                 isZeroLevel e'.
Proof.
  induction l as [|s l IH]; intros st Hvalid; simpl.
  - exists st. eauto.
  - destruct (Hvalid s) as [e He]; [by left|].
    unfold substituteAffected. rewrite He. simpl.
    destruct (TempFacts.setEntry_ok _ s e (substituteEntry comp reps e) He)
      as (r' & Hset & Hcount & Hcases).
    unfold setEntry. rewrite Hset. simpl.
    set (st1 := withRegistry r' st).
    assert (Hlen : length (TempSymbolRegistry.tempSymbols r')
                   = length (TempSymbolRegistry.tempSymbols (registry st))).
    { destruct Hcases as [[_ ->]|(_ & -> & _)]; [done|by rewrite length_insert]. }
    destruct (IH st1) as (st' & Hall & Hd & Hz).
    { intros x Hx. apply TempFacts.getSymbolEntry_valid. simpl.
      rewrite Hcount, Hlen. apply TempFacts.getSymbolEntry_valid. apply Hvalid. by right. }
    exists st'. split; [done|]. split; [done|].
    intros i e0 Hi Hz0.
    destruct Hcases as [[_ Heq]|(Hge & Heq & _)].
    + apply (Hz i e0); [|done]. simpl. by rewrite Heq.
    + destruct (decide (i = Z.to_nat (s - TempSymbolRegistry.count (registry st)))) as [->|Hne].
      * apply (TempFacts.getSymbolEntry_temp _ _ _ Hge) in He.
        rewrite He in Hi. inversion Hi; subst e0.
        apply (Hz _ (substituteEntry comp reps e)).
        -- simpl. rewrite Heq. apply list_lookup_insert_eq.
           by apply lookup_lt_Some in He.
        -- by apply substituteEntry_zero.
      * apply (Hz i e0); [|done]. simpl. rewrite Heq.
        by rewrite list_lookup_insert_ne.
Qed.

Lemma elem_of_uninferedFrom entries : forall s x,
  x ∈ uninferedFrom s entries <->
  exists i entry, entries !! i = Some entry /\ x = s + Z.of_nat i /\
                  e_ownValue entry = None /\ e_isLocal entry = false.
Proof.
  induction entries as [|e entries IH]; intros s x; simpl.
  - split; [intros H; by apply elem_of_nil in H|intros (i & entry & H & _); done].
  - rewrite elem_of_app, IH. split.
    + intros [H|(i & entry & Hi & -> & Hv & Hl)].
      * destruct (bool_decide (e_ownValue e = None)) eqn:Hv; simpl in H;
          [|by apply elem_of_nil in H].
        destruct (e_isLocal e) eqn:Hl; simpl in H; [by apply elem_of_nil in H|].
        apply list_elem_of_singleton in H. subst x.
        exists 0%nat, e. apply bool_decide_eq_true in Hv.
        split_and!; [done|lia|done|done].
      * exists (S i), entry. split_and!; [done|lia|done|done].
    + intros ([|i] & entry & Hi & -> & Hv & Hl); simpl in Hi.
      * inversion Hi; subst entry. left.
        rewrite bool_decide_eq_true_2, Hl by done. simpl.
        apply list_elem_of_singleton. lia.
      * right. exists i, entry. split_and!; [done|lia|done|done].
Qed.

End C8.



(** ** C5: the pattern matcher *)

(** C5 (code defect).  The claim says that every mismatch of tags or
    structure ends the match with failure, a [LEVEL_SUCC] pattern on a
    subject that is neither a [LEVEL_SUCC] nor a positive level literal
    included, and that a match result makes the pattern equal to the
    subject.  [matchPattern] fails as claimed when a [SYMBOL], [CALL],
    [LAMBDA], [FN_TYPE], [UNIVERSE] or [LEVEL_TYPE] pattern meets
    another tag (or another symbol, or another number of arguments) and
    when a [LEVEL_SUCC] pattern meets a level literal that is not
    positive.  But its [LEVEL_SUCC] case has no [else] for the other
    tags: on a subject that is neither a [LEVEL_SUCC] nor a level
    literal the pair is dropped and the match goes on, so that
    [succ(p)] matches such a subject whatever [p] is, with the empty
    substitution and a filled pattern that is not the subject up to
    renaming. *)
Theorem C5_succ_pattern_accepts_other_tags :
  (forall fuel σ todo pattern expr,
     headMismatch pattern expr = true ->
     matchLoop (S fuel) σ ((pattern, expr) :: todo) = Ok None) /\
  (forall fuel σ todo p expr,
     otherThanLevel expr = true ->
     matchLoop (S fuel) σ ((LEVEL_SUCC p, expr) :: todo) = matchLoop fuel σ todo /\
     matchPattern (S (S fuel)) expr (LEVEL_SUCC p) = Ok (Some ∅) /\
     alphaEqb [] (instantiate ∅ (LEVEL_SUCC p)) expr = false).
Proof.
  split.
  - intros fuel σ todo pattern expr Hmis.
    destruct pattern as [ps|a body|pf pargs|i o a|[v|]| |psub| |n|pe|l r];
      destruct expr as [es|ea ebody|ef eargs|ei eo ea|ev| |esub| |en|ee|el er];
      simpl in Hmis; try done; simpl.
    + destruct (decide (ps = es)) as [->|]; [|done].
      by rewrite bool_decide_eq_true_2 in Hmis.
    + destruct (decide (length eargs = length pargs)) as [Heq|]; [|done].
      by rewrite bool_decide_eq_true_2 in Hmis.
    + by destruct (0 <? en).
  - intros fuel σ todo p expr Hother.
    destruct expr; try done; simpl; done.
Qed.

(** [succ(?a)] against the symbol [root]: the matcher answers the empty
    substitution. *)
Lemma C5_succ_pattern_accepts_other_tags_witness :
  matchPattern 2 (SYMBOL 2) (LEVEL_SUCC (PATTERN (Some 9))) = Ok (Some ∅) /\
  alphaEqb [] (instantiate ∅ (LEVEL_SUCC (PATTERN (Some 9)))) (SYMBOL 2) = false.
Proof.
  exact (proj2 (proj2 C5_succ_pattern_accepts_other_tags 0%nat ∅ []
                  (PATTERN (Some 9)) (SYMBOL 2) eq_refl)).
Defined.

(** ** Facts about the permanent registry *)

Module RegistryFacts.

Import SymbolRegistry.

Lemma arrayGet_Some {A} (a : list A) i x :
  arrayGet a i = Some x <-> 0 <= i /\ a !! Z.to_nat i = Some x.
Proof.
  unfold arrayGet.
  destruct (Z.leb_spec 0 i); simpl.
  - destruct (Z.ltb_spec i (Z.of_nat (length a))).
    + tauto.
    + split; [done|]. intros [_ H']. apply lookup_lt_Some in H'. lia.
  - split; [done|lia].
Qed.

Lemma arrayGet_range {A} (a : list A) i x :
  arrayGet a i = Some x -> 0 <= i < Z.of_nat (length a).
Proof.
  intros [H0 Hl]%arrayGet_Some. apply lookup_lt_Some in Hl. lia.
Qed.

Lemma arrayGet_is_Some {A} (a : list A) i :
  0 <= i < Z.of_nat (length a) -> exists x, arrayGet a i = Some x.
Proof.
  intros Hr. destruct (a !! Z.to_nat i) as [x|] eqn:Hl.
  - exists x. apply arrayGet_Some. split; [lia|done].
  - apply lookup_ge_None in Hl. lia.
Qed.

Lemma arraySet_Ok {A} (a a' : list A) i x :
  arraySet a i x = Ok a' ->
  a' = <[Z.to_nat i := x]> a /\ 0 <= i < Z.of_nat (length a).
Proof.
  unfold arraySet.
  destruct (Z.leb_spec 0 i); simpl; [|done].
  destruct (Z.ltb_spec i (Z.of_nat (length a))); [|done].
  intros [= <-]. split; [done|lia].
Qed.

Lemma arraySet_in_range {A} (a : list A) i x :
  0 <= i < Z.of_nat (length a) -> arraySet a i x = Ok (<[Z.to_nat i := x]> a).
Proof.
  intros Hr. unfold arraySet.
  destruct (Z.leb_spec 0 i); [|lia].
  destruct (Z.ltb_spec i (Z.of_nat (length a))); [done|lia].
Qed.

Lemma arrayGet_insert {A} (a : list A) i j x :
  0 <= i < Z.of_nat (length a) -> 0 <= j ->
  arrayGet (<[Z.to_nat i := x]> a) j = if decide (i = j) then Some x else arrayGet a j.
Proof.
  intros Hi Hj. unfold arrayGet. rewrite length_insert.
  destruct (decide (i = j)) as [->|Hne].
  - destruct (Z.leb_spec 0 j); [|lia].
    destruct (Z.ltb_spec j (Z.of_nat (length a))); [|lia]. simpl.
    apply list_lookup_insert_eq. lia.
  - rewrite list_lookup_insert_ne by lia. done.
Qed.

Lemma tryGet_arrayGet reg s : tryGetSymbolEntry reg s = arrayGet (entriesById reg) s.
Proof. done. Qed.

(** [getSymbolEntry] panics exactly outside [0, count). *)
Lemma getSymbolEntry_total reg s :
  (0 <= s < getSymbolCount reg -> exists e, getSymbolEntry reg s = Ok e) /\
  (~ 0 <= s < getSymbolCount reg -> getSymbolEntry reg s = Err Panic).
Proof.
  unfold getSymbolEntry, getSymbolCount. rewrite tryGet_arrayGet. split.
  - intros Hr. destruct (arrayGet_is_Some (entriesById reg) s Hr) as [x ->]. eauto.
  - intros Hr. destruct (arrayGet (entriesById reg) s) eqn:H; [|done].
    apply arrayGet_range in H. lia.
Qed.

Lemma setEntry_Ok reg s e reg' :
  setEntry reg s e = Ok reg' ->
  entriesById reg' = <[Z.to_nat s := e]> (entriesById reg) /\
  entriesByName reg' = entriesByName reg /\
  removedSymbols reg' = removedSymbols reg /\
  0 <= s < getSymbolCount reg.
Proof.
  unfold setEntry. destruct (arraySet (entriesById reg) s e) as [a|] eqn:Ha; [|done].
  simpl. intros [= <-]. simpl. apply arraySet_Ok in Ha as [-> Hr]. done.
Qed.

(** What [createSymbol] leaves behind. *)
Lemma createSymbol_spec reg parent name isLocal reg' ret :
  createSymbol reg parent name isLocal = Ok (reg', ret) ->
  0 <= ret < getSymbolCount reg' /\
  getSymbolCount reg <= getSymbolCount reg' /\
  (exists e, getSymbolEntry reg' ret = Ok e /\
     e_name e = name /\ e_parent e = parent /\ e_isLocal e = isLocal) /\
  (handlesValid reg -> handlesValid reg').
Proof.
  unfold createSymbol.
  set (new := newEntry parent name isLocal).
  (* the first phase: take a free slot or append *)
  set (phase1 := match removedSymbols reg with [] => _ | _ :: _ => _ end).
  assert (Hphase1 : forall reg1 r,
    phase1 = Ok (reg1, r) ->
    0 <= r < getSymbolCount reg1 /\
    getSymbolCount reg <= getSymbolCount reg1 /\
    entriesById reg1 !! Z.to_nat r = Some new /\
    entriesByName reg1 = entriesByName reg /\
    (forall i e, entriesById reg1 !! i = Some e ->
       e = new \/ entriesById reg !! i = Some e)).
  { intros reg1 r. unfold phase1, getSymbolCount.
    destruct (removedSymbols reg) as [|r0 rest].
    - intros [= <- <-]. simpl. rewrite length_app. simpl.
      split; [lia|]. split; [lia|]. split; [|split; [done|]].
      + rewrite Nat2Z.id. by apply list_lookup_middle.
      + intros i e Hi. apply lookup_app_Some in Hi as [Hi|[_ Hi]]; [by right|].
        left. destruct (i - length (entriesById reg))%nat; simpl in Hi; [|done].
        by inversion Hi.
    - destruct (arraySet (entriesById reg) r0 new) as [a|] eqn:Ha; [|done].
      simpl. intros [= <- <-]. simpl. apply arraySet_Ok in Ha as [-> Hr].
      rewrite length_insert. split; [lia|]. split; [lia|]. split; [|split; [done|]].
      + apply list_lookup_insert_eq. lia.
      + intros i e Hi.
        destruct (decide (i = Z.to_nat r0)) as [->|Hne].
        * rewrite list_lookup_insert_eq in Hi by lia. left. by inversion Hi.
        * rewrite list_lookup_insert_ne in Hi by done. by right. }
  destruct phase1 as [[reg1 r]|]; [|done].
  simpl. destruct (Hphase1 _ _ eq_refl) as (Hr & Hcount & Hnew & Hnames & Hold).
  clear Hphase1.
  destruct parent as [p|].
  - destruct (arrayGet (entriesById reg1) p) as [entry|] eqn:Hp; [|done].
    destruct (setEntry reg1 p _) as [reg2|] eqn:Hset; [|done].
    simpl. intros [= <- <-].
    apply setEntry_Ok in Hset as (Hids & Hnames2 & _ & Hpr).
    unfold getSymbolCount in *. rewrite Hids, length_insert.
    split; [done|]. split; [done|]. split.
    + unfold getSymbolEntry. rewrite tryGet_arrayGet, Hids.
      rewrite arrayGet_insert by lia.
      destruct (decide (p = r)) as [->|Hne].
      * eexists; split; [done|]. simpl.
        apply arrayGet_Some in Hp as [_ Hp]. rewrite Hnew in Hp.
        inversion Hp; subst entry. done.
      * assert (arrayGet (entriesById reg1) r = Some new) as ->
          by (apply arrayGet_Some; split; [lia|done]).
        eexists; split; done.
    + intros [Hv1 Hv2]. split.
      * intros nm s Hs. rewrite Hnames2, Hnames in Hs.
        specialize (Hv1 nm s Hs). unfold getSymbolCount in *. simpl. rewrite Hids, length_insert. lia.
      * intros i e m nm s Hi Hm Hs. unfold getSymbolCount. rewrite Hids, length_insert.
        rewrite Hids in Hi.
        destruct (decide (i = Z.to_nat p)) as [->|Hne].
        -- rewrite list_lookup_insert_eq in Hi by lia.
           inversion Hi; subst e. simpl in Hm. inversion Hm; subst m.
           destruct (decide (nm = name)) as [->|Hnn].
           ++ rewrite lookup_insert_eq in Hs. inversion Hs; subst s. done.
           ++ rewrite lookup_insert_ne in Hs by done.
              apply arrayGet_Some in Hp as [_ Hp].
              destruct (e_subSymbols entry) as [m0|] eqn:Hm0; simpl in Hs;
                [|by rewrite lookup_empty in Hs].
              destruct (Hold _ _ Hp) as [->|Hp'].
              ** done.
              ** specialize (Hv2 _ _ _ _ _ Hp' Hm0 Hs). unfold getSymbolCount in Hv2. lia.
        -- rewrite list_lookup_insert_ne in Hi by done.
           destruct (Hold _ _ Hi) as [->|Hi']; [done|].
           specialize (Hv2 _ _ _ _ _ Hi' Hm Hs). unfold getSymbolCount in Hv2. lia.
  - intros [= <- <-]. unfold getSymbolCount in *. simpl.
    split; [done|]. split; [done|]. split.
    + unfold getSymbolEntry. rewrite tryGet_arrayGet. simpl.
      assert (arrayGet (entriesById reg1) r = Some new) as ->
        by (apply arrayGet_Some; split; [lia|done]).
      eexists; split; done.
    + intros [Hv1 Hv2]. split; simpl.
      * intros nm s Hs.
        destruct (decide (nm = name)) as [->|Hnn].
        -- rewrite lookup_insert_eq in Hs. inversion Hs; subst s. simpl. done.
        -- rewrite lookup_insert_ne, Hnames in Hs by done.
           specialize (Hv1 nm s Hs). unfold getSymbolCount in *. simpl. lia.
      * intros i e m nm s Hi Hm Hs.
        destruct (Hold _ _ Hi) as [->|Hi']; [done|].
        specialize (Hv2 _ _ _ _ _ Hi' Hm Hs). unfold getSymbolCount in *. simpl. lia.
Qed.

Lemma addNewSymbol_spec reg parent name isLocal reg' h b :
  addNewSymbol reg parent name isLocal = Ok (reg', (h, b)) ->
  getSymbolCount reg <= getSymbolCount reg' /\
  (b = true -> exists e, getSymbolEntry reg' h = Ok e /\
     e_name e = name /\ e_parent e = parent /\ e_isLocal e = isLocal) /\
  (handlesValid reg ->
     handlesValid reg' /\ 0 <= h < getSymbolCount reg').
Proof.
  unfold addNewSymbol, childMap.
  destruct parent as [p|]; simpl.
  - destruct (arrayGet (entriesById reg) p) as [entry|] eqn:Hp; [|done]. simpl.
    destruct (e_subSymbols entry ≫= lookup name) as [s|] eqn:Hs.
    + intros [= <- <- <-]. split; [lia|]. split; [done|].
      intros Hv. split; [done|].
      destruct (e_subSymbols entry) as [m|] eqn:Hm; [|done]. simpl in Hs.
      apply arrayGet_Some in Hp as [_ Hp].
      exact (proj2 Hv _ _ _ _ _ Hp Hm Hs).
    + destruct (createSymbol reg (Some p) name isLocal) as [[reg1 r]|] eqn:Hc; [|done].
      simpl. intros [= <- <- <-].
      destruct (createSymbol_spec _ _ _ _ _ _ Hc) as (Hr & Hcount & He & Hv).
      split; [done|]. split; [done|]. intros H. split; [by apply Hv|done].
  - destruct (entriesByName reg !! name) as [s|] eqn:Hs.
    + intros [= <- <- <-]. split; [lia|]. split; [done|].
      intros Hv. split; [done|]. exact (proj1 Hv _ _ Hs).
    + destruct (createSymbol reg None name isLocal) as [[reg1 r]|] eqn:Hc; [|done].
      simpl. intros [= <- <- <-].
      destruct (createSymbol_spec _ _ _ _ _ _ Hc) as (Hr & Hcount & He & Hv).
      split; [done|]. split; [done|]. intros H. split; [by apply Hv|done].
Qed.

Lemma removeSymbol_spec reg s reg' :
  removeSymbol reg s = Ok reg' ->
  getSymbolCount reg' = getSymbolCount reg /\
  (handlesValid reg -> handlesValid reg').
Proof.
  unfold removeSymbol.
  destruct (getSymbolEntry reg s) as [entry|] eqn:He; [|done]. simpl.
  destruct (e_parent entry) as [p|].
  - destruct (getSymbolEntry reg p) as [parent|] eqn:Hp; [|done]. simpl.
    destruct (e_subSymbols parent) as [m|] eqn:Hm; [|done].
    destruct (setEntry reg p _) as [reg1|] eqn:Hset; [|done]. simpl.
    intros [= <-]. apply setEntry_Ok in Hset as (Hids & Hnames & _ & Hr).
    unfold getSymbolCount in *. simpl. rewrite Hids, length_insert.
    split; [done|]. intros [Hv1 Hv2]. split; simpl.
    + intros nm x Hx. rewrite Hnames in Hx. unfold getSymbolCount. simpl. rewrite ?Hids, ?length_insert.
      exact (Hv1 _ _ Hx).
    + intros i e m' nm x Hi Hm' Hx. unfold getSymbolCount. simpl. rewrite ?Hids, ?length_insert. rewrite ?Hids in Hi.
      unfold getSymbolEntry in Hp. rewrite tryGet_arrayGet in Hp.
      destruct (arrayGet (entriesById reg) p) as [pe|] eqn:Hpe; [|done].
      inversion Hp; subst pe. apply arrayGet_Some in Hpe as [_ Hpe].
      destruct (decide (i = Z.to_nat p)) as [->|Hne].
      * rewrite list_lookup_insert_eq in Hi by lia.
        inversion Hi; subst e. simpl in Hm'. inversion Hm'; subst m'.
        apply lookup_delete_Some in Hx as [_ Hx].
        exact (Hv2 _ _ _ _ _ Hpe Hm Hx).
      * rewrite list_lookup_insert_ne in Hi by done.
        exact (Hv2 _ _ _ _ _ Hi Hm' Hx).
  - simpl. intros [= <-]. done.
Qed.

End RegistryFacts.

(** ** C10: lookups on allocated handles *)

(** C10 (amended).  In a registry whose stored handles are below its
    symbol count, [addNewSymbol] keeps that property and returns a handle
    on which [getSymbolEntry] answers: the entry just created, with the
    given name, parent and locality, when the symbol is new.
    [getSymbolEntry] panics exactly on the handles outside
    [0, count), and neither [addNewSymbol] nor [removeSymbol] lowers the
    count, so a handle that was answered once is answered ever after.
    In the scratch layer [getSymbolEntry] answers the entry created by
    [createTempSymbol], and goes on doing so while scratch symbols are
    added, as long as the parent's symbol count is the one the handle
    was created under. *)
Theorem C10_lookup_on_allocated_handles :
  (forall reg parent name isLocal reg' h b,
     SymbolRegistry.addNewSymbol reg parent name isLocal = Ok (reg', (h, b)) ->
     handlesValid reg ->
     handlesValid reg' /\
     SymbolRegistry.getSymbolCount reg <= SymbolRegistry.getSymbolCount reg' /\
     exists e, SymbolRegistry.getSymbolEntry reg' h = Ok e /\
       (b = true -> e_name e = name /\ e_parent e = parent /\ e_isLocal e = isLocal)) /\
  (forall reg s,
     (0 <= s < SymbolRegistry.getSymbolCount reg ->
        exists e, SymbolRegistry.getSymbolEntry reg s = Ok e) /\
     (~ 0 <= s < SymbolRegistry.getSymbolCount reg ->
        SymbolRegistry.getSymbolEntry reg s = Err Panic)) /\
  (forall reg s reg',
     SymbolRegistry.removeSymbol reg s = Ok reg' ->
     SymbolRegistry.getSymbolCount reg' = SymbolRegistry.getSymbolCount reg /\
     (handlesValid reg -> handlesValid reg')) /\
  (forall treg isLocal type,
     TempSymbolRegistry.getSymbolEntry
       (TempSymbolRegistry.createTempSymbol treg isLocal type).1
       (TempSymbolRegistry.createTempSymbol treg isLocal type).2
     = Ok (mkEntry EmptyString None isLocal None type None None)) /\
  (forall treg treg' h e,
     TempSymbolRegistry.getSymbolEntry treg h = Ok e ->
     TempSymbolRegistry.isTempSymbol treg h = true ->
     TempSymbolRegistry.count treg' = TempSymbolRegistry.count treg ->
     TempSymbolRegistry.tempSymbols treg `prefix_of` TempSymbolRegistry.tempSymbols treg' ->
     TempSymbolRegistry.getSymbolEntry treg' h = Ok e).
Proof.
  split; [|split; [|split; [|split]]].
  - intros reg parent name isLocal reg' h b Hadd Hv.
    destruct (RegistryFacts.addNewSymbol_spec _ _ _ _ _ _ _ Hadd) as (Hcount & Hnew & Hvalid).
    destruct (Hvalid Hv) as [Hv' Hr]. split; [done|]. split; [done|].
    destruct b.
    + destruct (Hnew eq_refl) as (e & He & ?). eauto.
    + destruct (proj1 (RegistryFacts.getSymbolEntry_total reg' h) Hr) as [e He].
      exists e. split; [done|]. done.
  - apply RegistryFacts.getSymbolEntry_total.
  - apply RegistryFacts.removeSymbol_spec.
  - intros treg isLocal type.
    apply TempFacts.getSymbolEntry_temp; unfold TempSymbolRegistry.count; simpl; [lia|].
    replace (Z.to_nat _) with (length (TempSymbolRegistry.tempSymbols treg)) by lia.
    by apply list_lookup_middle.
  - intros treg treg' h e Hget Htemp Hcount [rest Hpre].
    unfold TempSymbolRegistry.isTempSymbol in Htemp. apply Z.leb_le in Htemp.
    fold (TempSymbolRegistry.count treg) in Htemp.
    apply TempFacts.getSymbolEntry_temp in Hget; [|done].
    apply TempFacts.getSymbolEntry_temp; [lia|].
    rewrite Hcount, Hpre. by apply lookup_app_l_Some.
Qed.

(** A level symbol is created in a scratch layer over the standard
    registry and read back after two more scratch symbols were added. *)
Lemma C10_lookup_on_allocated_handles_witness :
  let treg := TempSymbolRegistry.create standardRegistry in
  let created := TempSymbolRegistry.createTempSymbol treg false (Some LEVEL_TYPE) in
  let later := (TempSymbolRegistry.createTempSymbol
                  (TempSymbolRegistry.createTempSymbol created.1 true None).1
                  false None).1 in
  created.2 = 3 /\
  TempSymbolRegistry.getSymbolEntry later 3
    = Ok (mkEntry EmptyString None false None (Some LEVEL_TYPE) None None).
Proof.
  intros treg created later. split; [reflexivity|].
  destruct C10_lookup_on_allocated_handles as (_ & _ & _ & Hnew & Hlater).
  apply (Hlater created.1 later 3).
  - exact (Hnew treg false (Some LEVEL_TYPE)).
  - reflexivity.
  - reflexivity.
  - by exists [mkEntry EmptyString None true None None None None;
               mkEntry EmptyString None false None None None None].
Defined.

(** C10 (counterexample).  The scratch symbol 3 is created over the
    standard registry, whose count is 3.  The parent then receives the
    permanent symbol [x], which also gets the handle 3.  Asked for 3, the
    scratch layer now answers the entry of [x], not the entry it
    created. *)
Lemma C10_counterexample :
  let treg := TempSymbolRegistry.create standardRegistry in
  let created := TempSymbolRegistry.createTempSymbol treg true (Some LEVEL_TYPE) in
  exists parent',
    created.2 = 3 /\
    TempSymbolRegistry.getSymbolEntry created.1 3
      = Ok (mkEntry EmptyString None true None (Some LEVEL_TYPE) None None) /\
    SymbolRegistry.addNewSymbol standardRegistry None "x" false
      = Ok (parent', (3, true)) /\
    TempSymbolRegistry.getSymbolEntry
      (TempSymbolRegistry.mk (TempSymbolRegistry.tempSymbols created.1) parent') 3
      = Ok (newEntry None "x" false).
Proof.
  intros treg created. eexists.
  split; [reflexivity|]. split; [reflexivity|].
  split; [vm_compute; reflexivity|]. reflexivity.
Qed.

(** ** Entries by index *)

Module C2.

Import SymbolRegistry.

Lemma tryGet_lookup c s e :
  tryGetSymbolEntry c s = Some e <-> 0 <= s /\ entriesById c !! Z.to_nat s = Some e.
Proof. rewrite RegistryFacts.tryGet_arrayGet. apply RegistryFacts.arrayGet_Some. Qed.

(** An entry and its counterpart in a registry of the same skeleton. *)
Lemma skeleton_lookup c c' i e :
  registrySkeleton c = registrySkeleton c' ->
  entriesById c !! i = Some e ->
  exists e', entriesById c' !! i = Some e' /\ skeleton e' = skeleton e.
Proof.
  unfold registrySkeleton. intros [= Hmap _ _] Hi.
  assert (H : map skeleton (entriesById c') !! i = Some (skeleton e))
    by (rewrite <- Hmap, list_lookup_fmap, Hi; done).
  rewrite list_lookup_fmap in H.
  destruct (entriesById c' !! i) as [e'|]; [|done].
  exists e'. split; [done|]. simpl in H. congruence.
Qed.

End C2.

(** ** The solver leaves the registry's skeleton alone *)

Module SolverFrame.

Import ConstraintSolver.

Local Abbreviation skel st := (registrySkeleton (context st)).

Lemma setEntry_skel st s e e' st' :
  TempSymbolRegistry.getSymbolEntry (registry st) s = Ok e ->
  skeleton e' = skeleton e ->
  setEntry s e' st = Ok st' ->
  skel st' = skel st.
Proof.
  intros Hget Hsk. unfold setEntry, TempSymbolRegistry.setEntry.
  unfold TempSymbolRegistry.getSymbolEntry in Hget.
  destruct (s <? _) eqn:Hlt.
  - destruct (SymbolRegistry.setEntry _ s e') as [p|] eqn:Hset; [|done].
    simpl. intros [= <-]. unfold context. simpl.
    apply RegistryFacts.setEntry_Ok in Hset as (Hids & Hnames & Hrem & Hr).
    unfold registrySkeleton. rewrite Hids, Hnames, Hrem. f_equal. f_equal.
    rewrite list_fmap_insert. apply list_insert_id.
    unfold SymbolRegistry.getSymbolEntry in Hget.
    destruct (SymbolRegistry.tryGetSymbolEntry _ s) as [e0|] eqn:He0; [|done].
    inversion Hget; subst e0. apply C2.tryGet_lookup in He0 as [_ He0].
    rewrite list_lookup_fmap, He0. simpl. by rewrite Hsk.
  - destruct (arraySet _ _ _) as [a|]; [|done]. simpl. by intros [= <-].
Qed.

Lemma getSymbolEntry_app temps parent extra x e :
  TempSymbolRegistry.getSymbolEntry (TempSymbolRegistry.mk temps parent) x = Ok e ->
  TempSymbolRegistry.getSymbolEntry (TempSymbolRegistry.mk (temps ++ extra) parent) x = Ok e.
Proof.
  unfold TempSymbolRegistry.getSymbolEntry. simpl.
  destruct (x <? _); [done|].
  destruct (arrayGet temps _) as [e0|] eqn:Hg; [|done].
  intros [= ->]. apply RegistryFacts.arrayGet_Some in Hg as [H0 Hl].
  assert (arrayGet (temps ++ extra) (x - SymbolRegistry.getSymbolCount parent) = Some e)
    as ->; [|done].
  apply RegistryFacts.arrayGet_Some. split; [done|]. by apply lookup_app_l_Some.
Qed.

Lemma trySetOwnValue_skel cyc s v st st' b :
  trySetOwnValue cyc s v st = Ok (st', b) -> skel st' = skel st.
Proof.
  unfold trySetOwnValue.
  destruct (TempSymbolRegistry.getSymbolEntry (registry st) s) as [entry|] eqn:Hget; [|done].
  simpl. destruct (bool_decide _); [by intros [= <- <-]|].
  destruct (negb _); [by intros [= <- <-]|].
  destruct (negb _); [by intros [= <- <-]|].
  destruct (setEntry s _ st) as [st1|] eqn:Hset; [|done]. simpl.
  apply (setEntry_skel st s entry (set_ownValue v entry) st1 Hget eq_refl) in Hset.
  intros [= <- <-]. rewrite <- Hset.
  destruct (e_type entry); destruct (negb _); reflexivity.
Qed.

Lemma matchLevelSucc_skel e1 e2 st :
  skel (matchLevelSucc e1 e2 st).1 = skel st.
Proof.
  unfold matchLevelSucc.
  destruct e1; try reflexivity.
  destruct e2; simpl; try reflexivity.
  by destruct (0 <? value).
Qed.

Lemma foldl_addEqual_skel l : forall st,
  skel (foldl (fun st (ab : Expression * Expression) =>
                 addEqualConstraint ab.1 ab.2 st) st l) = skel st.
Proof. induction l as [|ab l IH]; intros st; simpl; [done|]. by rewrite IH. Qed.

Lemma evaluateEqualStructural_skel c1 c2 e1 e2 ch1 ch2 flag st st' b :
  evaluateEqualStructural c1 c2 e1 e2 ch1 ch2 flag st = Ok (st', b) ->
  skel st' = skel st.
Proof.
  unfold evaluateEqualStructural.
  pose proof (matchLevelSucc_skel e1 e2 st) as Hm.
  destruct (matchLevelSucc e1 e2 st) as [stm m]. simpl in Hm.
  assert (Hdefault :
    (if m then Ok (stm, true)
     else match flag, e1, e2 with
          | true, CALL fn1 args1, CALL fn2 args2 =>
              if decide (length args1 = length args2)
              then Ok (foldl (fun st (ab : Expression * Expression) =>
                                addEqualConstraint ab.1 ab.2 st)
                             (addEqualConstraint fn1 fn2 st) (zip args1 args2), true)
              else Ok (pushDiagnostic (UNEQUAL e1 e2) st, false)
          | _, _, _ =>
              if ch1 || ch2 then Ok (addEqualConstraint e1 e2 st, true)
              else Ok (pushConstraint (EQUAL c1 c2) st, false)
          end) = Ok (st', b) -> skel st' = skel st).
  { destruct m; [by intros [= <- <-]|].
    destruct flag, e1, e2; try (destruct (ch1 || ch2); by intros [= <- <-]).
    destruct (decide _); intros [= <- <-]; [|done].
    by rewrite foldl_addEqual_skel. }
  destruct e1, e2; try exact Hdefault.
  - intros [= <- <-]. reflexivity.
  - destruct arg, arg0; intros [= <- <-]; reflexivity.
  - intros [= <- <-]. reflexivity.
  - intros [= <- <-]. reflexivity.
  - destruct (decide _); intros [= <- <-]; reflexivity.
Qed.

Lemma evaluateEqualConstraint_skel cyc fuel c1 c2 flag st st' b :
  evaluateEqualConstraint cyc fuel c1 c2 flag st = Ok (st', b) ->
  skel st' = skel st.
Proof.
  unfold evaluateEqualConstraint.
  destruct (expand fuel st c1) as [[e1 ch1]|]; [|done]. simpl.
  destruct (expand fuel st c2) as [[e2 ch2]|]; [|done]. simpl.
  destruct (orient (registry st) e1 e2) as [x1 x2].
  set (k := evaluateEqualStructural c1 c2 x1 x2 ch1 ch2 flag).
  assert (Hk : forall s s' b', k s = Ok (s', b') -> skel s' = skel s)
    by (intros s s' b'; apply evaluateEqualStructural_skel).
  clearbody k.
  destruct x1; try apply Hk.
  destruct (match x2 with SYMBOL s2 => _ | _ => false end); [by intros [= <- <-]|].
  destruct (trySetOwnValue cyc symbol x2 st) as [[st1 ok]|] eqn:Hset; [|done].
  simpl. apply trySetOwnValue_skel in Hset.
  destruct ok; [by intros [= <- <-]|].
  intros H. apply Hk in H. congruence.
Qed.

Lemma makeInferedFnTypeLoop_skel l : forall ret st,
  skel (makeInferedFnTypeLoop l ret st).1 = skel st.
Proof.
  induction l as [|a l IH]; intros ret st; simpl; [done|].
  by rewrite IH.
Qed.

Lemma makeInferedFnTypeLoop_lookup l : forall ret st x e,
  TempSymbolRegistry.getSymbolEntry (registry st) x = Ok e ->
  TempSymbolRegistry.getSymbolEntry
    (registry (makeInferedFnTypeLoop l ret st).1) x = Ok e.
Proof.
  induction l as [|a l IH]; intros ret st x e Hx; simpl; [done|].
  apply IH. simpl.
  do 2 apply getSymbolEntry_app. by destruct (registry st).
Qed.

Lemma evaluateTypeConstraint_skel e con st st' b :
  evaluateTypeConstraint e con st = Ok (st', b) -> skel st' = skel st.
Proof.
  unfold evaluateTypeConstraint.
  destruct e.
  - destruct (TempSymbolRegistry.getSymbolEntry (registry st) symbol)
      as [entry|] eqn:Hget; [|done]. simpl.
    destruct (e_type entry).
    { destruct con; by intros [= <- <-]. }
    destruct (_ || _); [|by intros [= <- <-]].
    destruct con as [type|args outputType].
    + destruct (setEntry symbol _ _) as [st1|] eqn:Hset; [|done]. simpl.
      apply (setEntry_skel _ _ entry) in Hset; [|done..].
      destruct (e_ownValue entry); intros [= <- <-]; exact Hset.
    + unfold makeInferedFnType.
      pose proof (makeInferedFnTypeLoop_skel (rev args) outputType (addAffected symbol st)) as Hm.
      pose proof (makeInferedFnTypeLoop_lookup (rev args) outputType
                    (addAffected symbol st) symbol entry Hget) as Hl.
      destruct (makeInferedFnTypeLoop _ _ _) as [st0 type]. simpl in Hm, Hl.
      destruct (setEntry symbol _ _) as [st1|] eqn:Hset; [|done]. simpl.
      apply (setEntry_skel _ _ entry) in Hset; [|done|done].
      destruct (e_ownValue entry); intros [= <- <-]; simpl; (etrans; [exact Hset|exact Hm]).
  - destruct con as [type|[|a0 [|a1 rest]] out]; try (by intros [= <- <-]).
    destruct (replaceOneUndefined _ _); [|done]. by intros [= <- <-].
  - destruct con; by intros [= <- <-].
  - destruct arg, con; by intros [= <- <-].
  - done.
  - by intros [= <- <-].
  - destruct con; by intros [= <- <-].
  - destruct con; by intros [= <- <-].
  - destruct con; by intros [= <- <-].
  - destruct con; by intros [= <- <-].
  - destruct con; by intros [= <- <-].
Qed.

Lemma evaluateFnTypeEqualConstraint_skel fuel f args out st st' b :
  evaluateFnTypeEqualConstraint fuel f args out st = Ok (st', b) ->
  skel st' = skel st.
Proof.
  unfold evaluateFnTypeEqualConstraint.
  destruct (expand fuel st f) as [[fn ch]|]; [|done]. simpl.
  destruct fn; try (destruct ch; by intros [= <- <-]).
  destruct args as [|a0 [|a1 rest]]; try (by intros [= <- <-]).
  destruct (match arg with Some _ => _ | None => _ end); [|done]. by intros [= <- <-].
Qed.

Lemma evaluateConstraint_skel cyc fuel con flag st st' b :
  evaluateConstraint cyc fuel con flag st = Ok (st', b) -> skel st' = skel st.
Proof.
  destruct con; simpl.
  - apply evaluateTypeConstraint_skel.
  - apply evaluateTypeConstraint_skel.
  - apply evaluateEqualConstraint_skel.
  - apply evaluateFnTypeEqualConstraint_skel.
  - done.
Qed.

Lemma iterateLoop_skel cyc fuel flag queue : forall ch st st' b,
  iterateLoop cyc fuel queue flag ch st = Ok (st', b) -> skel st' = skel st.
Proof.
  induction queue as [|con queue IH]; intros ch st st' b; simpl.
  - by intros [= <- <-].
  - destruct (evaluateConstraint cyc fuel con flag st) as [[st1 c]|] eqn:Hev; [|done].
    simpl. intros H. apply IH in H. apply evaluateConstraint_skel in Hev. congruence.
Qed.

Lemma iterate_skel cyc fuel flag st st' b :
  iterate cyc fuel flag st = Ok (st', b) -> skel st' = skel st.
Proof. unfold iterate. intros H. by apply iterateLoop_skel in H. Qed.

Lemma runLoop_skel cyc fuel n maxIterations iterations : forall st st',
  runLoop cyc fuel n maxIterations iterations st = Ok st' -> skel st' = skel st.
Proof.
  induction n as [|n IH]; intros st st'; simpl; [done|].
  destruct (maxIterations <? iterations); [by intros [= <-]|].
  destruct (iterate cyc fuel false st) as [[st1 [|]]|] eqn:H1; simpl; [| |done].
  - intros H. apply IH in H. apply iterate_skel in H1. congruence.
  - destruct (iterate cyc fuel true st1) as [[st2 [|]]|] eqn:H2; simpl; [| |done].
    + intros H. apply IH in H. apply iterate_skel in H1, H2. congruence.
    + intros [= <-]. apply iterate_skel in H1, H2. congruence.
Qed.

Lemma substituteAll_skel comp reps l : forall st st',
  substituteAll comp reps l st = Ok st' -> skel st' = skel st.
Proof.
  induction l as [|s l IH]; intros st st'; simpl; [by intros [= <-]|].
  unfold substituteAffected.
  destruct (TempSymbolRegistry.getSymbolEntry (registry st) s) as [entry|] eqn:Hget; [|done].
  simpl. destruct (setEntry s _ st) as [st1|] eqn:Hset; [|done]. simpl.
  apply (setEntry_skel _ _ entry) in Hset; [|done..].
  intros H. apply IH in H. congruence.
Qed.

Lemma finalCheck_skel comp fuel st st' :
  finalCheck comp fuel st = Ok st' -> skel st' = skel st.
Proof.
  unfold finalCheck.
  destruct (C8.reportUnresolved_spec (defaultLevels st)) as (Hr & _ & _).
  destruct (collectTemps _ _ _ _ _ _) as [[reps vars]|]; [|done]. simpl.
  intros H. apply substituteAll_skel in H. rewrite H.
  unfold context.
  destruct vars; simpl; by rewrite Hr.
Qed.

Lemma run_skel cyc comp fuel n maxIterations st st' :
  run cyc comp fuel n maxIterations st = Ok st' -> skel st' = skel st.
Proof.
  unfold run.
  destruct (runLoop _ _ _ _ _ _) as [st1|] eqn:Hloop; [|done]. simpl.
  intros H. apply finalCheck_skel in H. apply runLoop_skel in Hloop.
  rewrite H, Hloop. reflexivity.
Qed.

End SolverFrame.

(** ** C2: the names after a failed elaboration *)

(** Names, entries and the free list under [createSymbol] and
    [removeSymbol]. *)
Module Rollback.

Import SymbolRegistry.

Lemma linked_kids c parent name s :
  linked c parent name s <-> exists m, kids c parent = Some m /\ m !! name = Some s.
Proof.
  destruct parent as [p|]; simpl.
  - split.
    + intros (e & m & -> & Hm & Hs). simpl. eauto.
    + intros (m & Hk & Hs).
      destruct (tryGetSymbolEntry c p) as [e|]; [|done]. simpl in Hk. eauto.
  - split; [eauto|]. by intros (m & [= <-] & Hs).
Qed.

Lemma agrees_nameParent c s name parent :
  (exists e, tryGetSymbolEntry c s = Some e /\ e_name e = name /\ e_parent e = parent)
  <-> nameParent c s = Some (name, parent).
Proof.
  unfold nameParent. split.
  - intros (e & -> & <- & <-). done.
  - destruct (tryGetSymbolEntry c s) as [e|]; [|done]. simpl.
    intros [= <- <-]. eauto.
Qed.

Lemma arrayGet_app_ne {A} (a : list A) (x : A) i :
  i <> Z.of_nat (length a) -> arrayGet (a ++ [x]) i = arrayGet a i.
Proof.
  intros Hne. unfold arrayGet. rewrite length_app. simpl.
  destruct (Z.leb_spec 0 i); simpl; [|done].
  destruct (Z.ltb_spec i (Z.of_nat (length a))).
  - destruct (Z.ltb_spec i (Z.of_nat (length a + 1))); [|lia].
    apply lookup_app_l. lia.
  - destruct (Z.ltb_spec i (Z.of_nat (length a + 1))); [|done].
    lia.
Qed.

Lemma arrayGet_insert' {A} (a : list A) i j x :
  0 <= i < Z.of_nat (length a) ->
  arrayGet (<[Z.to_nat i := x]> a) j = if decide (i = j) then Some x else arrayGet a j.
Proof.
  intros Hi. destruct (Z.le_gt_cases 0 j) as [Hj|Hj].
  - by apply RegistryFacts.arrayGet_insert.
  - case_decide; [lia|]. unfold arrayGet.
    destruct (Z.leb_spec 0 j); [lia|done].
Qed.

(** What [createSymbol] does to the names, the entries and the free
    list. *)
Lemma createSymbol_view c parent name isLocal c' h :
  createSymbol c parent name isLocal = Ok (c', h) ->
  (removedSymbols c = h :: removedSymbols c' \/
   (removedSymbols c = [] /\ removedSymbols c' = [] /\ h = getSymbolCount c)) /\
  getSymbolCount c <= getSymbolCount c' /\
  nameParent c' h = Some (name, parent) /\
  (forall x, x <> h -> nameParent c' x = nameParent c x) /\
  (forall q, kids c' q =
     if decide (q = parent)
     then Some (<[name := h]> (if decide (q = Some h) then ∅ else default ∅ (kids c q)))
     else if decide (q = Some h) then None else kids c q).
Proof.
  unfold createSymbol.
  set (new := newEntry parent name isLocal).
  set (phase1 := match removedSymbols c with [] => _ | _ :: _ => _ end).
  assert (Hphase1 : forall c1 r,
    phase1 = Ok (c1, r) ->
    entriesByName c1 = entriesByName c /\
    (removedSymbols c = r :: removedSymbols c1 \/
     (removedSymbols c = [] /\ removedSymbols c1 = [] /\ r = getSymbolCount c)) /\
    getSymbolCount c <= getSymbolCount c1 /\
    tryGetSymbolEntry c1 r = Some new /\
    (forall x, x <> r -> tryGetSymbolEntry c1 x = tryGetSymbolEntry c x)).
  { intros c1 r. unfold phase1, getSymbolCount.
    destruct (removedSymbols c) as [|r0 rest].
    - intros [= <- <-]. simpl. rewrite length_app. simpl.
      split; [done|]. split; [|split; [lia|split]].
      + by right.
      + rewrite RegistryFacts.tryGet_arrayGet. simpl.
        apply RegistryFacts.arrayGet_Some. split; [lia|].
        rewrite Nat2Z.id. by apply list_lookup_middle.
      + intros x Hx. rewrite !RegistryFacts.tryGet_arrayGet. simpl.
        by apply arrayGet_app_ne.
    - destruct (arraySet (entriesById c) r0 new) as [a|] eqn:Ha; [|done].
      simpl. intros [= <- <-]. simpl. apply RegistryFacts.arraySet_Ok in Ha as [-> Hr].
      rewrite length_insert. split; [done|]. split; [by left|]. split; [lia|]. split.
      + rewrite RegistryFacts.tryGet_arrayGet. simpl.
        rewrite arrayGet_insert' by done. by rewrite decide_True.
      + intros x Hx. rewrite !RegistryFacts.tryGet_arrayGet. simpl.
        rewrite arrayGet_insert' by done. by rewrite decide_False. }
  destruct phase1 as [[c1 r]|]; [|done].
  simpl. destruct (Hphase1 _ _ eq_refl) as (Hnames & Hfree & Hcount & Hnew & Hold).
  clear Hphase1.
  destruct parent as [p|].
  - destruct (arrayGet (entriesById c1) p) as [entry|] eqn:Hp; [|done].
    destruct (setEntry c1 p _) as [c2|] eqn:Hset; [|done].
    simpl. intros [= <- <-].
    apply RegistryFacts.setEntry_Ok in Hset as (Hids & Hnames2 & Hrem2 & Hpr).
    assert (Hget : forall x, tryGetSymbolEntry c2 x =
              if decide (p = x)
              then Some (set_subSymbols (<[name:=r]> (default ∅ (e_subSymbols entry))) entry)
              else tryGetSymbolEntry c1 x).
    { intros x. rewrite !RegistryFacts.tryGet_arrayGet, Hids.
      apply arrayGet_insert'. exact Hpr. }
    rewrite Hrem2. split; [done|]. split.
    { unfold getSymbolCount in *. rewrite Hids, length_insert. done. }
    split; [|split].
    + unfold nameParent. rewrite Hget. case_decide as Hpr'.
      * subst p. rewrite <- RegistryFacts.tryGet_arrayGet, Hnew in Hp.
        injection Hp as <-. done.
      * by rewrite Hnew.
    + intros x Hx. unfold nameParent. rewrite Hget. case_decide as Hpx.
      * subst x. rewrite <- Hold by done.
        rewrite <- RegistryFacts.tryGet_arrayGet in Hp. by rewrite Hp.
      * by rewrite Hold.
    + intros q. destruct q as [x|]; cbn [kids].
      * rewrite Hget. destruct (decide (p = x)) as [->|Hpx].
        -- rewrite decide_True by done. simpl. f_equal. f_equal.
           rewrite <- RegistryFacts.tryGet_arrayGet in Hp.
           case_decide as Hxr.
           ++ injection Hxr as ->. rewrite Hnew in Hp. by injection Hp as <-.
           ++ rewrite <- Hold by congruence. by rewrite Hp.
        -- rewrite decide_False by congruence.
           case_decide as Hxr.
           ++ injection Hxr as ->. by rewrite Hnew.
           ++ rewrite Hold by congruence. done.
      * destruct (decide (None = Some p)) as [|_]; [done|].
        destruct (decide (None = Some r)) as [|_]; [done|].
        by rewrite Hnames2, Hnames.
  - intros [= <- <-]. simpl. split; [done|]. split; [done|]. split; [|split].
    + unfold nameParent. change (tryGetSymbolEntry (mk (entriesById c1)
        (<[name:=r]> (entriesByName c1)) (removedSymbols c1)) r)
        with (tryGetSymbolEntry c1 r). by rewrite Hnew.
    + intros x Hx. unfold nameParent.
      change (tryGetSymbolEntry (mk (entriesById c1)
        (<[name:=x]> (entriesByName c1)) (removedSymbols c1)) x)
        with (tryGetSymbolEntry c1 x).
      change (tryGetSymbolEntry (mk (entriesById c1)
        (<[name:=r]> (entriesByName c1)) (removedSymbols c1)) x)
        with (tryGetSymbolEntry c1 x). by rewrite Hold.
    + intros q. destruct q as [x|]; cbn [kids].
      * change (tryGetSymbolEntry (mk (entriesById c1)
          (<[name:=r]> (entriesByName c1)) (removedSymbols c1)) x)
          with (tryGetSymbolEntry c1 x).
        destruct (decide (Some x = None)) as [|_]; [done|].
        case_decide as Hxr.
        -- injection Hxr as ->. by rewrite Hnew.
        -- rewrite Hold by congruence. done.
      * destruct (decide (None = None)) as [_|]; [|done].
        destruct (decide (None = Some r)) as [|_]; [done|].
        simpl. by rewrite Hnames.
Qed.

Lemma nameParent_range c x np :
  nameParent c x = Some np -> 0 <= x < getSymbolCount c.
Proof.
  unfold nameParent. rewrite RegistryFacts.tryGet_arrayGet.
  destruct (arrayGet (entriesById c) x) as [e|] eqn:He; [|done].
  intros _. by apply RegistryFacts.arrayGet_range in He.
Qed.

Lemma wellFormed_link c parent name s :
  wellFormed c -> linked c parent name s ->
  (s ∉ removedSymbols c) /\ nameParent c s = Some (name, parent).
Proof.
  intros [_ Hwf] Hl. destruct (Hwf _ _ _ Hl) as [Hfree He].
  split; [done|]. by apply agrees_nameParent.
Qed.

(** [createSymbol] keeps a registry in good order; it adds one link,
    to a handle that no name led to. *)
Lemma createSymbol_links c parent name isLocal c' h :
  wellFormed c -> createSymbol c parent name isLocal = Ok (c', h) ->
  wellFormed c' /\
  (forall x, x ∈ removedSymbols c' -> x ∈ removedSymbols c) /\
  (h ∉ removedSymbols c') /\
  (h ∈ removedSymbols c \/ h = getSymbolCount c) /\
  getSymbolCount c <= getSymbolCount c' /\
  nameParent c' h = Some (name, parent) /\
  (forall x, x <> h -> nameParent c' x = nameParent c x) /\
  (forall q n s, linked c' q n s ->
     (q = parent /\ n = name /\ s = h) \/ (linked c q n s /\ s <> h)).
Proof.
  intros Hwf Hc.
  destruct (createSymbol_view _ _ _ _ _ _ Hc) as (Hfree & Hcount & Hnew & Hold & Hkids).
  assert (Hsub : forall x, x ∈ removedSymbols c' -> x ∈ removedSymbols c).
  { intros x Hx. destruct Hfree as [->|(_ & Hnil & _)]; [by right|].
    rewrite Hnil in Hx. by apply elem_of_nil in Hx. }
  assert (Hh : h ∉ removedSymbols c').
  { destruct Hfree as [Heq|(_ & -> & _)]; [|apply not_elem_of_nil].
    destruct Hwf as [Hnd _]. rewrite Heq in Hnd. by apply NoDup_cons in Hnd as [? _]. }
  assert (Hwas : h ∈ removedSymbols c \/ h = getSymbolCount c).
  { destruct Hfree as [->|(_ & _ & ->)]; [left; by left|by right]. }
  assert (Hne : forall q n s, linked c q n s -> s <> h).
  { intros q n s Hl ->. destruct (wellFormed_link _ _ _ _ Hwf Hl) as [Hnot Hnp].
    destruct Hwas as [Hin|Heq]; [done|].
    apply nameParent_range in Hnp. lia. }
  assert (Hlinks : forall q n s, linked c' q n s ->
     (q = parent /\ n = name /\ s = h) \/ (linked c q n s /\ s <> h)).
  { intros q n s Hl. apply linked_kids in Hl as (m & Hm & Hs).
    rewrite Hkids in Hm.
    assert (Hold' : forall m0, (if decide (q = Some h) then None else kids c q) = Some m0 ->
                               m0 !! n = Some s -> linked c q n s /\ s <> h).
    { intros m0 Hm0 Hs0. case_decide; [done|].
      assert (linked c q n s) by (apply linked_kids; eauto). split; [done|]. by eapply Hne. }
    destruct (decide (q = parent)) as [->|Hq].
    - injection Hm as <-.
      apply lookup_insert_Some in Hs as [[<- <-]|[Hn Hs]]; [by left|].
      right. case_decide as Hph; [by rewrite lookup_empty in Hs|].
      destruct (kids c parent) as [m0|] eqn:Hk; simpl in Hs;
        [|by rewrite lookup_empty in Hs].
      assert (linked c parent n s) by (apply linked_kids; eauto).
      split; [done|]. by eapply Hne.
    - right. by apply (Hold' m). }
  split; [|done].
  split.
  - destruct Hfree as [Heq|(_ & -> & _)]; [|apply NoDup_nil_2].
    destruct Hwf as [Hnd _]. rewrite Heq in Hnd. by apply NoDup_cons in Hnd as [_ ?].
  - intros q n s Hl. destruct (Hlinks _ _ _ Hl) as [(-> & -> & ->)|[Hl0 Hs]].
    + split; [done|]. by apply agrees_nameParent.
    + destruct (wellFormed_link _ _ _ _ Hwf Hl0) as [Hnot Hnp].
      split; [by intros ?%Hsub|]. apply agrees_nameParent. by rewrite Hold.
Qed.

(** What [removeSymbol] does to the names, the entries and the free
    list. *)
Lemma removeSymbol_view c s c' :
  removeSymbol c s = Ok c' ->
  removedSymbols c' = s :: removedSymbols c /\
  getSymbolCount c' = getSymbolCount c /\
  (forall x, nameParent c' x = nameParent c x) /\
  exists n sp, nameParent c s = Some (n, sp) /\
    forall q, kids c' q =
      match q with
      | Some _ => if decide (q = sp) then delete n <$> kids c q else kids c q
      | None => kids c q
      end.
Proof.
  unfold removeSymbol, getSymbolEntry.
  destruct (tryGetSymbolEntry c s) as [entry|] eqn:He; [|done]. simpl.
  destruct (e_parent entry) as [p|] eqn:Hpar.
  - destruct (tryGetSymbolEntry c p) as [pe|] eqn:Hp; [|done]. simpl.
    destruct (e_subSymbols pe) as [m|] eqn:Hm; [|done].
    destruct (setEntry c p _) as [c1|] eqn:Hset; [|done]. simpl. intros [= <-]. simpl.
    apply RegistryFacts.setEntry_Ok in Hset as (Hids & Hnames & Hrem & Hpr).
    assert (Hget : forall x, tryGetSymbolEntry c1 x =
              if decide (p = x)
              then Some (set_subSymbols (delete (e_name entry) m) pe)
              else tryGetSymbolEntry c x).
    { intros x. rewrite !RegistryFacts.tryGet_arrayGet, Hids.
      apply arrayGet_insert'. exact Hpr. }
    split; [by rewrite Hrem|]. split.
    { unfold getSymbolCount. simpl. by rewrite Hids, length_insert. }
    split.
    { intros x. unfold nameParent.
      change (tryGetSymbolEntry (mk (entriesById c1) (entriesByName c1)
                (s :: removedSymbols c1)) x) with (tryGetSymbolEntry c1 x).
      rewrite Hget. case_decide as Hpx; [|done]. subst x. by rewrite Hp. }
    exists (e_name entry), (Some p). split.
    { unfold nameParent. rewrite He. simpl. by rewrite Hpar. }
    intros [x|]; cbn [kids].
    + change (tryGetSymbolEntry (mk (entriesById c1) (entriesByName c1)
                (s :: removedSymbols c1)) x) with (tryGetSymbolEntry c1 x).
      rewrite Hget. destruct (decide (p = x)) as [->|Hpx].
      * rewrite decide_True by done. rewrite Hp. simpl. by rewrite Hm.
      * rewrite decide_False by congruence. done.
    + simpl. by rewrite Hnames.
  - intros [= <-]. split; [done|]. split; [done|]. split; [done|].
    exists (e_name entry), None. split.
    { unfold nameParent. rewrite He. simpl. by rewrite Hpar. }
    intros [x|]; cbn [kids]; [|done].
    destruct (decide (Some x = None)); done.
Qed.

(** The notions depend on the registry's skeleton only. *)
Lemma skeleton_view c c' :
  registrySkeleton c = registrySkeleton c' ->
  removedSymbols c' = removedSymbols c /\
  getSymbolCount c' = getSymbolCount c /\
  (forall x, nameParent c' x = nameParent c x) /\
  (forall q, kids c' q = kids c q).
Proof.
  intros Hsk. pose proof Hsk as Hsk'.
  unfold registrySkeleton in Hsk'. injection Hsk' as Hmap Hnames Hrem.
  assert (Hlen : length (entriesById c') = length (entriesById c)).
  { apply (f_equal length) in Hmap. by rewrite !length_map in Hmap. }
  assert (Hget : forall x, skeleton <$> tryGetSymbolEntry c' x
                           = skeleton <$> tryGetSymbolEntry c x).
  { intros x. rewrite !RegistryFacts.tryGet_arrayGet. unfold arrayGet. rewrite Hlen.
    destruct (_ && _); [|done].
    destruct (entriesById c !! Z.to_nat x) as [e|] eqn:He.
    - destruct (C2.skeleton_lookup _ _ _ _ Hsk He) as (e' & -> & Hsk'). simpl.
      by rewrite Hsk'.
    - apply lookup_ge_None in He. rewrite <- Hlen in He.
      apply lookup_ge_None in He. by rewrite He. }
  split; [done|]. split; [unfold getSymbolCount; by rewrite Hlen|]. split.
  - intros x. unfold nameParent. specialize (Hget x).
    destruct (tryGetSymbolEntry c' x) as [e'|], (tryGetSymbolEntry c x) as [e|];
      simpl in *; try done.
    injection Hget as Hn Hp _ _. by rewrite Hn, Hp.
  - intros [x|]; simpl; [|by rewrite Hnames].
    specialize (Hget x).
    destruct (tryGetSymbolEntry c' x) as [e'|], (tryGetSymbolEntry c x) as [e|];
      simpl in *; try done.
    by injection Hget as _ _ _ Hs.
Qed.

Lemma setEntry_skeleton c s e e' c' :
  getSymbolEntry c s = Ok e -> skeleton e' = skeleton e ->
  setEntry c s e' = Ok c' -> registrySkeleton c' = registrySkeleton c.
Proof.
  intros Hget Hsk Hset.
  apply RegistryFacts.setEntry_Ok in Hset as (Hids & Hnames & Hrem & Hr).
  unfold registrySkeleton. rewrite Hids, Hnames, Hrem. f_equal. f_equal.
  rewrite list_fmap_insert. apply list_insert_id.
  unfold getSymbolEntry in Hget.
  destruct (tryGetSymbolEntry c s) as [e0|] eqn:He0; [|done].
  injection Hget as ->. apply C2.tryGet_lookup in He0 as [_ He0].
  rewrite list_lookup_fmap, He0. simpl. by rewrite Hsk.
Qed.

End Rollback.

(** The walk of [loadFile] over the declarations. *)
Module Elaboration.

Import Analyse.

(** A property of the elaborator's state that its four effects keep is
    kept by [loadFile]. *)
Section Preserved.

Variable P : Analyse.t -> Prop.
Hypothesis P_diag : forall msg st, P st -> P (pushDiagnostic msg st).
Hypothesis P_gen : forall name st st' s,
  getGeneratedSymbol name st = Ok (st', s) -> P st -> P st'.
Hypothesis P_add : forall parent name st st' r,
  addSymbol parent name st = Ok (st', r) -> P st -> P st'.
Hypothesis P_proc : forall decl st st',
  processOneDeclaration decl st = Ok st' -> P st -> P st'.

Lemma resolveMembers_P path : forall first st st' r,
  resolveMembers first path st = Ok (st', r) -> P st -> P st'.
Proof.
  induction path as [|name path IH]; intros first st st' r; simpl.
  - by intros [= <- <-].
  - destruct (lookupSymbol st first name) as [s|]; [|done]. simpl.
    intros H HP. apply IH in H; [done|]. destruct s; [done|by apply P_diag].
Qed.

Lemma resolveSymbol_P path st st' r :
  resolveSymbol path st = Ok (st', r) -> P st -> P st'.
Proof.
  destruct path as [|firstName rest]; simpl; [done|].
  destruct (resolveIdentifier st firstName None None) as [[s|]|]; simpl; [| |done].
  - apply resolveMembers_P.
  - intros [= <- <-] HP. by apply P_diag.
Qed.

Lemma convGenerated_P name c c' s :
  convGenerated name c = Ok (c', s) -> P (c_st c) -> P (c_st c').
Proof.
  unfold convGenerated.
  destruct (getGeneratedSymbol name (c_st c)) as [[st s0]|] eqn:Hg; [|done].
  simpl. intros [= <- <-] HP. simpl. by eapply P_gen.
Qed.

Lemma convert_P expr : forall c c' e,
  convert expr c = Ok (c', e) -> P (c_st c) -> P (c_st c').
Proof.
  induction expr as [name|path| |o i a IHo IHi|name body IHb|fn args IHfn IHargs|name|s IHs|v]
    using Ast_ind'; intros c c' e; cbn [convert].
  - destruct (resolveIdentifier _ _ _ _) as [[s|]|]; simpl; try done.
    + by intros [= <- <-].
    + intros [= <- <-] HP. simpl. by apply P_diag.
  - destruct (resolveSymbol path (c_st c)) as [[st s]|] eqn:Hr; simpl; [|done].
    intros H HP. apply (resolveSymbol_P _ _ _ _ Hr) in HP.
    destruct s; by injection H as <- <-.
  - by intros [= <- <-].
  - assert (Hrest : forall c1 (symbol : option Z),
      ('(c, inputType') ← convert i c1;
       match inputType' : option Expression with
       | None => Ok (c, None)
       | Some inputType' =>
           '(c, outputType') ← convert o c;
           match outputType' : option Expression with
           | None => Ok (c, None)
           | Some outputType' =>
               let c := match symbol : option Z with
                        | Some _ => popFnArg c
                        | None => c
                        end in
               Ok (c, Some (FN_TYPE inputType' outputType' symbol))
           end
       end) = Ok (c', e) -> P (c_st c1) -> P (c_st c')).
    { intros c1 symbol.
      destruct (convert i c1) as [[c2 i']|] eqn:Hi; cbn [mbind Result_bind]; [|done].
      intros H HP. apply (IHi _ _ _ Hi) in HP.
      destruct i' as [i'|]; [|by injection H as <- <-].
      destruct (convert o c2) as [[c3 o']|] eqn:Ho; cbn [mbind Result_bind] in H; [|done].
      apply (IHo _ _ _ Ho) in HP.
      destruct o' as [o'|]; [|by injection H as <- <-].
      injection H as <- <-. by destruct symbol. }
    destruct a as [name|].
    + destruct (convGenerated name c) as [[c1 symbol]|] eqn:Hg; [|done].
      cbn [mbind Result_bind]. intros H HP.
      apply (Hrest (pushFnArg symbol c1) (Some symbol) H). simpl.
      by apply (convGenerated_P _ _ _ _ Hg).
    + cbn [mbind Result_bind]. apply (Hrest c None).
  - destruct (convGenerated name c) as [[c1 symbol]|] eqn:Hg; [|done].
    cbn [mbind Result_bind].
    destruct (convert body _) as [[c2 b']|] eqn:Hb; cbn [mbind Result_bind]; [|done].
    intros H HP. apply (convGenerated_P _ _ _ _ Hg) in HP.
    apply (IHb _ _ _ Hb) in HP. destruct b'; by injection H as <- <-.
  - destruct (convert fn c) as [[c1 fn']|] eqn:Hfn; cbn [mbind Result_bind]; [|done].
    intros H HP. apply (IHfn _ _ _ Hfn) in HP.
    destruct fn' as [fn'|]; [|by injection H as <- <-].
    revert H.
    match goal with |- context [?g args c1] =>
      match g with (fix go (l : list Ast.t) (c : Conv) {struct l} : _ := _) =>
        set (go := g) end end.
    assert (Hgo : forall c1 c2 l, go args c1 = Ok (c2, l) -> P (c_st c1) -> P (c_st c2)).
    { clear -IHargs. induction IHargs as [|x r Hx _ IH]; intros c1 c2 l; simpl.
      - by intros [= <- <-].
      - destruct (convert x c1) as [[c3 x']|] eqn:Hcx; cbn [mbind Result_bind]; [|done].
        intros H HP. apply (Hx _ _ _ Hcx) in HP.
        destruct x' as [x'|]; [|by injection H as <- <-].
        destruct (go r c3) as [[c4 r']|] eqn:Hr; cbn [mbind Result_bind] in H; [|done].
        apply (IH _ _ _ Hr) in HP. by injection H as <- <-. }
    destruct (go args c1) as [[c2 l]|] eqn:Hl; cbn [mbind Result_bind]; [|done].
    intros [= <- <-]. by apply (Hgo _ _ _ Hl).
  - destruct (convGenerated name c) as [[c1 symbol]|] eqn:Hg; [|done]. simpl.
    intros [= <- <-] HP. simpl. by apply (convGenerated_P _ _ _ _ Hg).
  - destruct (convert s c) as [[c1 s']|] eqn:Hs; cbn [mbind Result_bind]; [|done].
    intros [= <- <-]. by apply (IHs _ _ _ Hs).
  - by intros [= <- <-].
Qed.

Lemma convertExpression_P expr ps st st' ps' e :
  convertExpression expr ps st = Ok (st', ps', e) -> P st -> P st'.
Proof.
  unfold convertExpression.
  destruct (convert expr _) as [[c e0]|] eqn:Hc; [|done]. simpl.
  intros [= <- <- <-] HP. by apply (convert_P _ _ _ _ Hc).
Qed.

Lemma convertAll_P decls : forall acc st st' r,
  convertAll decls acc st = Ok (st', r) -> P st -> P st'.
Proof.
  induction decls as [|decl decls IH]; intros acc st st' r; simpl.
  - by intros [= <- <-].
  - destruct (convertExpression (ad_lhs decl) (Some []) st) as [[[st1 ps] lhs]|] eqn:Hl;
      [|done].
    cbn [mbind Result_bind]. intros H HP. apply (convertExpression_P _ _ _ _ _ _ Hl) in HP.
    destruct lhs as [lhs|]; [|by injection H as <- <-].
    destruct (ad_type decl) as [ty|].
    + destruct (convertExpression ty None st1) as [[[st2 ps2] type]|] eqn:Ht; [|done].
      cbn [mbind Result_bind] in H. apply (convertExpression_P _ _ _ _ _ _ Ht) in HP.
      destruct (diagnostics st2); [|by injection H as <- <-].
      destruct (ad_rhs decl) as [r0|].
      * destruct (convertExpression r0 ps st2) as [[[st3 ps3] rhs]|] eqn:Hr; [|done].
        cbn [mbind Result_bind] in H. apply (convertExpression_P _ _ _ _ _ _ Hr) in HP.
        by apply IH in H.
      * cbn [mbind Result_bind] in H. by apply IH in H.
    + cbn [mbind Result_bind] in H.
      destruct (diagnostics st1); [|by injection H as <- <-].
      destruct (ad_rhs decl) as [r0|].
      * destruct (convertExpression r0 ps st1) as [[[st3 ps3] rhs]|] eqn:Hr; [|done].
        cbn [mbind Result_bind] in H. apply (convertExpression_P _ _ _ _ _ _ Hr) in HP.
        by apply IH in H.
      * cbn [mbind Result_bind] in H. by apply IH in H.
Qed.

Lemma prepareSymbolPath_P path : forall symbol st st' r,
  prepareSymbolPath symbol path st = Ok (st', r) -> P st -> P st'.
Proof.
  induction path as [|name path IH]; intros symbol st st' r; simpl.
  - by intros [= <- <-].
  - destruct (addSymbol symbol name st) as [[st1 s]|] eqn:Ha; [|done]. simpl.
    intros H HP. apply (P_add _ _ _ _ _ Ha) in HP.
    destruct s; [by apply IH in H|by injection H as <- <-].
Qed.

Lemma prepareAll_P decls : forall st st',
  prepareAll decls st = Ok st' -> P st -> P st'.
Proof.
  induction decls as [|decl decls IH]; intros st st'; simpl.
  - by intros [= <-].
  - destruct (prepareSymbol (ad_lhs decl) st) as [[st1 s]|] eqn:Hp; [|done]. simpl.
    intros H HP. apply IH in H; [done|].
    unfold prepareSymbol in Hp. destruct (ad_lhs decl); try (by injection Hp as <- <-).
    + by apply (P_add _ _ _ _ _ Hp).
    + by apply (prepareSymbolPath_P _ _ _ _ _ Hp).
Qed.

Lemma processAll_P decls : forall st st',
  processAll decls st = Ok st' -> P st -> P st'.
Proof.
  induction decls as [|decl decls IH]; intros st st'; simpl.
  - by intros [= <-].
  - destruct (processOneDeclaration decl st) as [st1|] eqn:Hp; [|done]. simpl.
    intros H HP. apply IH in H; [done|]. by apply (P_proc _ _ _ Hp).
Qed.

Lemma loadFile_P decls st st' : loadFile decls st = Ok st' -> P st -> P st'.
Proof.
  unfold loadFile.
  destruct (prepareAll decls st) as [st1|] eqn:Hp; [|done]. simpl.
  intros H HP. apply (prepareAll_P _ _ _ Hp) in HP.
  destruct (diagnostics st1); [|by injection H as <-].
  destruct (convertAll decls [] st1) as [[st2 r]|] eqn:Hc; [|done]. simpl in H.
  apply (convertAll_P _ _ _ _ _ Hc) in HP.
  destruct r; [by apply processAll_P in H|by injection H as <-].
Qed.

End Preserved.

End Elaboration.

(** The invariant of the elaboration, and the removal of the recorded
    symbols. *)
Module Unlinking.

Import SymbolRegistry Rollback.

Lemma elem_of_setAdd_iff (x s : Symbol) l : x ∈ setAdd s l <-> x = s \/ x ∈ l.
Proof.
  unfold setAdd. case_decide as Hin.
  - split; [by right|]. intros [->|?]; done.
  - rewrite elem_of_app, list_elem_of_singleton. tauto.
Qed.

Lemma setAdd_NoDup (s : Symbol) l : NoDup l -> NoDup (setAdd s l).
Proof.
  intros Hl. unfold setAdd. case_decide; [done|].
  apply NoDup_app. split; [done|]. split; [|apply NoDup_singleton].
  intros x Hx ->%list_elem_of_singleton. done.
Qed.

Lemma elem_of_rev {A} (x : A) (l : list A) : x ∈ rev l <-> x ∈ l.
Proof. rewrite !list_elem_of_In. symmetry. apply in_rev. Qed.

Lemma linked_skeleton c c' q n s :
  registrySkeleton c = registrySkeleton c' -> linked c q n s -> linked c' q n s.
Proof.
  intros Hsk Hl. apply linked_kids in Hl as (m & Hm & Hs). apply linked_kids.
  destruct (skeleton_view _ _ Hsk) as (_ & _ & _ & Hk). rewrite Hk. eauto.
Qed.

Lemma wellFormed_skeleton c c' :
  registrySkeleton c = registrySkeleton c' -> wellFormed c -> wellFormed c'.
Proof.
  intros Hsk [Hnd Hwf].
  destruct (skeleton_view _ _ Hsk) as (Hrem & _ & Hnp & Hk).
  split; [by rewrite Hrem|]. intros q n s Hl.
  apply (linked_skeleton c' c) in Hl; [|done].
  destruct (Hwf _ _ _ Hl) as [Hfree He]. rewrite Hrem. split; [done|].
  apply agrees_nameParent. rewrite Hnp. by apply agrees_nameParent.
Qed.

Lemma elaborating_skeleton c0 g st st' :
  registrySkeleton (Analyse.context st') = registrySkeleton (Analyse.context st) ->
  Analyse.newSymbols st' = Analyse.newSymbols st ->
  Analyse.generatedSymbol st' = Analyse.generatedSymbol st ->
  elaborating c0 g st -> elaborating c0 g st'.
Proof.
  intros Hsk HN Hg (Hgen & Hwf & Hfree & Hcount & Hnew & Hlinks & HndN).
  symmetry in Hsk.
  destruct (skeleton_view _ _ Hsk) as (Hrem & Hc & Hnp & Hk).
  unfold elaborating. rewrite HN, Hg, Hrem, Hc.
  split; [done|]. split; [by apply (wellFormed_skeleton _ _ Hsk)|].
  split; [done|]. split; [done|]. split; [|split; [|done]].
  - intros s Hs. destruct (Hnew s Hs) as (H1 & H2 & H3). rewrite Hnp. done.
  - intros q n s Hl. apply Hlinks. by apply (linked_skeleton _ _ _ _ _ (eq_sym Hsk)).
Qed.

(** A new child keeps the invariant. *)
Lemma elaborating_addNewSymbol c0 g st p name isLocal c' h b st' :
  wellFormed c0 ->
  elaborating c0 g st ->
  addNewSymbol (Analyse.context st) (Some p) name isLocal = Ok (c', (h, b)) ->
  Analyse.context st' = c' ->
  Analyse.newSymbols st' = (if b then setAdd h (Analyse.newSymbols st)
                            else Analyse.newSymbols st) ->
  Analyse.generatedSymbol st' = Analyse.generatedSymbol st ->
  elaborating c0 g st'.
Proof.
  intros Hwf0 Hel Hadd Hc HN Hg.
  unfold addNewSymbol in Hadd.
  destruct (childMap (Analyse.context st) (Some p)) as [map|]; [|done]. simpl in Hadd.
  destruct (map ≫= lookup name) as [x|].
  { injection Hadd as <- <- <-.
    apply (elaborating_skeleton c0 g st); [by rewrite Hc|done..]. }
  destruct (createSymbol _ _ _ _) as [[c1 r]|] eqn:Hcreate; [|done].
  simpl in Hadd. injection Hadd as <- <- <-.
  destruct Hel as (Hgen & Hwf & Hfree & Hcount & Hnew & Hlinks & HndN).
  destruct (createSymbol_links _ _ _ _ _ _ Hwf Hcreate)
    as (Hwf1 & Hsub & Hh & Hwas & Hcount1 & Hnph & Hold & Hl1).
  unfold elaborating. rewrite Hc, HN, Hg.
  split; [done|]. split; [done|]. split; [auto|]. split; [lia|].
  split; [|split; [|by apply setAdd_NoDup]].
  - intros s [->|Hs]%elem_of_setAdd_iff.
    + split; [done|]. split; [eauto|].
      destruct Hwas as [Hin| ->]; [left; auto|right; done].
    + destruct (Hnew s Hs) as (H1 & (n & q & H2) & H3).
      split; [by intros ?%Hsub|]. split; [|done].
      exists n, q. rewrite Hold; [done|]. intros ->.
      destruct Hwas as [Hin|Heq]; [done|].
      apply nameParent_range in H2. lia.
  - intros q n s Hl. destruct (Hl1 _ _ _ Hl) as [(-> & -> & ->)|[Hl0 _]].
    + left. apply elem_of_setAdd_iff. by left.
    + destruct (Hlinks _ _ _ Hl0) as [Hs|Hr]; [|by right].
      left. apply elem_of_setAdd_iff. by right.
Qed.

Lemma patternReps_context l : forall reps s,
  ConstraintSolver.context (Analyse.patternReps l reps s).1 = ConstraintSolver.context s.
Proof.
  induction l as [|x l IH]; intros reps s; simpl; [done|]. by rewrite IH.
Qed.

(** A declaration is processed without a change to names, parents,
    child maps or the free list. *)
Lemma processOneDeclaration_frame decl st st' :
  Analyse.processOneDeclaration decl st = Ok st' ->
  registrySkeleton (Analyse.context st') = registrySkeleton (Analyse.context st) /\
  Analyse.newSymbols st' = Analyse.newSymbols st /\
  Analyse.generatedSymbol st' = Analyse.generatedSymbol st.
Proof.
  unfold Analyse.processOneDeclaration.
  pose proof (patternReps_context (d_patterns decl) ∅ (Analyse.solver st)) as Hpat.
  destruct (Analyse.patternReps _ _ _) as [s reps]. simpl in Hpat.
  set (lhsRep := replaceSymbols (d_lhs decl) reps).
  set (typed := match d_type decl with Some _ => _ | None => _ end).
  assert (Htyped : ConstraintSolver.context typed.1 = Analyse.context st).
  { unfold typed. destruct (d_type decl); simpl; exact Hpat. }
  destruct typed as [s1 type]. simpl in Htyped.
  set (st1 := Analyse.withSolver (ConstraintSolver.addTypeConstraint lhsRep type s1) st).
  assert (H1 : Analyse.context st1 = Analyse.context st /\
               Analyse.newSymbols st1 = Analyse.newSymbols st /\
               Analyse.generatedSymbol st1 = Analyse.generatedSymbol st) by done.
  clearbody st1.
  set (frame := fun a b : Analyse.t =>
    registrySkeleton (Analyse.context b) = registrySkeleton (Analyse.context a) /\
    Analyse.newSymbols b = Analyse.newSymbols a /\
    Analyse.generatedSymbol b = Analyse.generatedSymbol a).
  assert (Hset : forall a sym e e' c,
    getSymbolEntry (Analyse.context a) sym = Ok e -> skeleton e' = skeleton e ->
    setEntry (Analyse.context a) sym e' = Ok c -> frame a (Analyse.withContext c a)).
  { intros a sym e e' c Hget Hsk Hs. split; [|done].
    simpl. by apply (setEntry_skeleton _ _ _ _ _ Hget Hsk Hs). }
  assert (Hpost : forall a e1 e2,
    frame a (Analyse.withSolver
               (ConstraintSolver.addEqualConstraint e1 e2 (Analyse.solver a)) a)) by done.
  assert (Hrefl : forall a, frame a a) by done.
  match goal with |- (?m ≫= ?k) = _ -> _ =>
    assert (Hfirst : forall st2, m = Ok st2 -> frame st1 st2);
    [|destruct m as [st2|]; [|done]; specialize (Hfirst st2 eq_refl)]
  end.
  { intros st2. destruct (d_rhs decl) as [rhs|]; simpl; [|intros [= <-]; apply Hrefl].
    destruct (d_lhs decl); try (intros [= <-]; apply Hpost).
    destruct (d_checkOnly decl); [intros [= <-]; apply Hpost|].
    destruct (getSymbolEntry (Analyse.context st1) symbol) as [entry|] eqn:Hget; [|done].
    simpl. destruct (e_ownValue entry); [intros [= <-]; apply Hpost|].
    destruct (setEntry _ _ _) as [c|] eqn:Hs; [|done]. simpl. intros [= <-].
    eapply Hset; [exact Hget| |exact Hs]. done. }
  cbn [mbind Result_bind].
  assert (Hsecond : forall st3,
    match d_rhs decl, d_lhs decl with
    | Some rhs, CALL (SYMBOL head) _ =>
        if negb (d_checkOnly decl) && bool_decide (head ∈ Analyse.newSymbols st2) then
          entry ← getSymbolEntry (Analyse.context st2) head;
          let rules := default [] (e_downValue entry) in
          c ← setEntry (Analyse.context st2) head
                (set_downValue (rules ++ [mkRule (d_patterns decl) (d_lhs decl) rhs]) entry);
          Ok (Analyse.withContext c st2)
        else Ok st2
    | _, _ => Ok st2
    end = Ok st3 -> frame st2 st3).
  { intros st3. destruct (d_rhs decl) as [rhs|]; [|intros [= <-]; apply Hrefl].
    destruct (d_lhs decl) as [| |fn args| | | | | | | |] eqn:Hlhs; try (intros [= <-]; apply Hrefl).
    destruct fn; try (intros [= <-]; apply Hrefl).
    destruct (_ && _); [|intros [= <-]; apply Hrefl].
    destruct (getSymbolEntry (Analyse.context st2) symbol) as [entry|] eqn:Hget; [|done].
    simpl. destruct (setEntry _ _ _) as [c|] eqn:Hs; [|done]. simpl. intros [= <-].
    eapply Hset; [exact Hget| |exact Hs]. done. }
  intros H.
  assert (Hfinal : frame st2 st').
  { apply Hsecond. rewrite <- H. destruct (d_rhs decl), (d_lhs decl); try done. }
  destruct H1 as (Ha & Hb & Hc), Hfirst as (Ha1 & Hb1 & Hc1), Hfinal as (Ha2 & Hb2 & Hc2).
  split; [|split]; congruence.
Qed.

Section Invariant.

Variable c0 : SymbolRegistry.t.
Variable g : Symbol.
Hypothesis Hwf0 : wellFormed c0.

Lemma elaborating_loadFile decls st st' :
  Analyse.loadFile decls st = Ok st' -> elaborating c0 g st -> elaborating c0 g st'.
Proof.
  apply (Elaboration.loadFile_P (elaborating c0 g)).
  - intros msg a Ha. by apply (elaborating_skeleton c0 g a).
  - intros name a a' s Hgen Ha. unfold Analyse.getGeneratedSymbol in Hgen.
    destruct (addNewSymbol _ _ _ _) as [[c [ret success]]|] eqn:Hadd; [|done].
    simpl in Hgen. injection Hgen as <- <-.
    apply (elaborating_addNewSymbol c0 g a _ _ _ _ _ _ _ Hwf0 Ha Hadd);
      by destruct success.
  - intros parent name a a' r Hadd Ha. unfold Analyse.addSymbol in Hadd.
    destruct (addNewSymbol _ _ _ _) as [[c [symbol success]]|] eqn:Hnew; [|done].
    simpl in Hadd.
    destruct success.
    + injection Hadd as <- <-.
      by apply (elaborating_addNewSymbol c0 g a _ _ _ _ _ _ _ Hwf0 Ha Hnew).
    + assert (Hc : elaborating c0 g (Analyse.withContext c a))
        by (by apply (elaborating_addNewSymbol c0 g a _ _ _ _ _ _ _ Hwf0 Ha Hnew)).
      destruct (bool_decide _); injection Hadd as <- <-; [done|].
      by apply (elaborating_skeleton c0 g (Analyse.withContext c a)).
  - intros decl a a' Hp Ha.
    destruct (processOneDeclaration_frame _ _ _ Hp) as (Hsk & HN & Hg).
    by apply (elaborating_skeleton c0 g a).
Qed.

Lemma removeSymbol_unlinking N c s c' :
  unlinking c0 g N c -> removeSymbol c s = Ok c' -> s ∈ N ->
  unlinking c0 g N c' /\ removedSymbols c' = s :: removedSymbols c /\
  (forall q n x, linked c' q n x -> linked c q n x) /\
  (forall q n, ~ linked c' q n s).
Proof.
  intros (Hag & HN & Hlinks) Hrem Hs.
  destruct (removeSymbol_view _ _ _ Hrem) as (Hfree & _ & Hnp & n0 & sp & Hs0 & Hk).
  destruct (HN s Hs) as (n1 & p1 & Hs1). rewrite Hs1 in Hs0. injection Hs0 as <- <-.
  assert (Hcases : forall q n x, linked c' q n x ->
            linked c q n x /\ ~ (q = Some p1 /\ n = n1)).
  { intros q n x Hl. apply linked_kids in Hl as (m & Hm & Hx). rewrite Hk in Hm.
    destruct q as [y|]; [|split; [apply linked_kids; eauto|by intros [? _]]].
    destruct (decide (Some y = Some p1)) as [Heq|Hne].
    - destruct (kids c (Some y)) as [m0|] eqn:Hm0; [|done]. simpl in Hm.
      injection Hm as <-. apply lookup_delete_Some in Hx as [Hn Hx].
      split; [apply linked_kids; eauto|]. intros [_ ->]. done.
    - split; [apply linked_kids; eauto|]. by intros [? _]. }
  assert (Hshrink : forall q n x, linked c' q n x -> linked c q n x)
    by (intros q n x Hl; by apply Hcases).
  split; [|split; [done|split; [done|]]].
  - split; [|split].
    + intros q n x Hl. rewrite Hnp. by apply Hag, Hshrink.
    + intros x Hx. destruct (HN x Hx) as (n & p & Hx'). exists n, p. by rewrite Hnp.
    + intros q n x Hl. by apply Hlinks, Hshrink.
  - intros q n Hl. destruct (Hcases _ _ _ Hl) as [Hl0 Hnot].
    apply Hag in Hl0. rewrite Hs1 in Hl0. injection Hl0 as <- <-. by apply Hnot.
Qed.

Lemma removeAll_unlinking N l : forall c c',
  unlinking c0 g N c -> Analyse.removeAll l c = Ok c' -> (forall s, s ∈ l -> s ∈ N) ->
  unlinking c0 g N c' /\ removedSymbols c' = rev l ++ removedSymbols c /\
  (forall q n x, linked c' q n x -> linked c q n x) /\
  (forall s, s ∈ l -> forall q n, ~ linked c' q n s).
Proof.
  induction l as [|s l IH]; intros c c' Hun Hall Hin; simpl in Hall.
  - injection Hall as <-. split; [done|]. split; [done|]. split; [done|].
    intros s Hs. by apply elem_of_nil in Hs.
  - destruct (removeSymbol c s) as [c1|] eqn:Hrem; [|done]. simpl in Hall.
    destruct (removeSymbol_unlinking N c s c1 Hun Hrem) as (Hun1 & Hfree1 & Hsh1 & Hno1);
      [apply Hin; by left|].
    destruct (IH c1 c' Hun1 Hall) as (Hun' & Hfree' & Hsh' & Hno');
      [intros x Hx; apply Hin; by right|].
    split; [done|]. split; [|split].
    + rewrite Hfree', Hfree1. simpl. by rewrite <- app_assoc.
    + intros q n x Hl. by apply Hsh1, Hsh'.
    + intros x [->|Hx]%elem_of_cons q n Hl; [|by apply (Hno' x Hx q n)].
      by apply (Hno1 q n), Hsh'.
Qed.

(** One removal of the recorded symbols keeps a registry in good
    order. *)
Lemma removeAll_wellFormed N c c' :
  wellFormed c -> NoDup N -> (forall s, s ∈ N -> s ∉ removedSymbols c) ->
  unlinking c0 g N c -> Analyse.removeAll N c = Ok c' -> wellFormed c'.
Proof.
  intros [Hnd Hwf] HndN Hnot Hun Hall.
  destruct (removeAll_unlinking N N _ _ Hun Hall) as ((Hag & _) & Hfree & Hsh & Hno);
    [done|].
  split.
  - rewrite Hfree. apply NoDup_app. split.
    { apply NoDup_ListNoDup, List.NoDup_rev. by apply NoDup_ListNoDup. }
    split; [|done].
    intros x Hx. apply Hnot. by apply elem_of_rev.
  - intros q n s Hl. split.
    + rewrite Hfree. intros [Hin|Hin]%elem_of_app.
      * apply (proj1 (elem_of_rev s N)) in Hin. by apply (Hno s Hin q n).
      * by destruct (Hwf _ _ _ (Hsh _ _ _ Hl)).
    + apply agrees_nameParent. by apply Hag.
Qed.

Lemma unlinking_skeleton N c c' :
  registrySkeleton c = registrySkeleton c' -> unlinking c0 g N c -> unlinking c0 g N c'.
Proof.
  intros Hsk (Hag & HN & Hlinks).
  destruct (skeleton_view _ _ Hsk) as (_ & _ & Hnp & _).
  split; [|split].
  - intros q n s Hl. rewrite Hnp. by apply Hag, (linked_skeleton c' c).
  - intros s Hs. destruct (HN s Hs) as (n & p & H). exists n, p. by rewrite Hnp.
  - intros q n s Hl. by apply Hlinks, (linked_skeleton c' c).
Qed.

Lemma elaborating_unlinking st :
  elaborating c0 g st -> unlinking c0 g (Analyse.newSymbols st) (Analyse.context st).
Proof.
  intros (_ & Hwf & _ & _ & Hnew & Hlinks & _). split; [|split; [|done]].
  - intros q n s Hl. by apply (wellFormed_link _ _ _ _ Hwf Hl).
  - intros s Hs. by destruct (Hnew s Hs) as (_ & ? & _).
Qed.

(** A recorded symbol was not reachable by name in [c0]. *)
Lemma elaborating_fresh st s q n :
  elaborating c0 g st -> s ∈ Analyse.newSymbols st -> ~ linked c0 q n s.
Proof.
  intros (_ & _ & _ & _ & Hnew & _) Hs Hl.
  destruct (Hnew s Hs) as (_ & _ & Hwas).
  destruct (wellFormed_link _ _ _ _ Hwf0 Hl) as [Hfree Hnp].
  destruct Hwas as [Hin|Hge]; [done|].
  apply nameParent_range in Hnp. lia.
Qed.

End Invariant.

End Unlinking.

Lemma wellFormed_empty : wellFormed SymbolRegistry.empty.
Proof.
  split; [apply NoDup_nil_2|]. intros [p|] name s; simpl.
  - intros (e & m & He & _). rewrite RegistryFacts.tryGet_arrayGet in He.
    unfold arrayGet in He. simpl in He. by destruct (_ && _).
  - by rewrite lookup_empty.
Qed.

Lemma addNewSymbol_wellFormed c parent name isLocal c' r :
  wellFormed c -> SymbolRegistry.addNewSymbol c parent name isLocal = Ok (c', r) ->
  wellFormed c'.
Proof.
  intros Hwf. unfold SymbolRegistry.addNewSymbol.
  destruct (SymbolRegistry.childMap c parent) as [map|]; [|done]. simpl.
  destruct (map ≫= lookup name) as [x|]; [by intros [= <- <-]|].
  destruct (SymbolRegistry.createSymbol c parent name isLocal) as [[c1 h]|] eqn:Hc; [|done].
  simpl. intros [= <- <-].
  by destruct (Rollback.createSymbol_links _ _ _ _ _ _ Hwf Hc) as [? _].
Qed.

(** The registry of the test drivers is in good order. *)
Lemma standardRegistry_wellFormed : wellFormed standardRegistry.
Proof.
  unfold standardRegistry, SymbolRegistry.defineInternalSymbols.
  destruct (SymbolRegistry.addNewSymbol SymbolRegistry.empty None "builtin" false)
    as [[r1 [builtin ok1]]|] eqn:H1; [|apply wellFormed_empty].
  cbn [mbind Result_bind].
  apply (addNewSymbol_wellFormed _ _ _ _ _ _ wellFormed_empty) in H1.
  destruct (SymbolRegistry.addNewSymbol r1 (Some builtin) "Level" false)
    as [[r2 [level ok2]]|] eqn:H2; [|apply wellFormed_empty].
  cbn [mbind Result_bind].
  apply (addNewSymbol_wellFormed _ _ _ _ _ _ H1) in H2.
  destruct (SymbolRegistry.getSymbolEntry r2 level) as [entry|] eqn:He;
    [|apply wellFormed_empty].
  cbn [mbind Result_bind].
  destruct (SymbolRegistry.setEntry r2 level _) as [r3|] eqn:Hs; [|apply wellFormed_empty].
  cbn [mbind Result_bind].
  assert (H3 : wellFormed r3).
  { apply (Unlinking.wellFormed_skeleton r2); [|done].
    symmetry. eapply Rollback.setEntry_skeleton; [exact He| |exact Hs]. done. }
  destruct (SymbolRegistry.addNewSymbol r3 None "root" false)
    as [[r4 [root ok4]]|] eqn:H4; [|apply wellFormed_empty].
  cbn [mbind Result_bind fromOk].
  by apply (addNewSymbol_wellFormed _ _ _ _ _ _ H3) in H4.
Qed.




Module SubstituteFacts.

Lemma replaceSymbols_CALL m fn args :
  replaceSymbols (CALL fn args) m
  = CALL (replaceSymbols fn m) (map (fun x => replaceSymbols x m) args).
Proof.
  unfold replaceSymbols, Replacer.replaceMany, Replacer.doReplace.
  rewrite ReplacerFacts._replace_CALL.
  pose proof (ReplacerFacts._replace_maps fn m) as Hfn.
  destruct (Replacer._replace m fn) as [fn' m1]. simpl in Hfn. subst m1.
  assert (H : replaceArgs m args = (map (fun x => (Replacer._replace m x).1) args, m)).
  { induction args as [|x r IH]; simpl; [done|].
    pose proof (ReplacerFacts._replace_maps x m) as Hx.
    destruct (Replacer._replace m x) as [x' m']. simpl in Hx. subst m'.
    by rewrite IH. }
  by rewrite H.
Qed.

Lemma replaceSymbols_UNIVERSE m s :
  replaceSymbols (UNIVERSE s) m = UNIVERSE (replaceSymbols s m).
Proof.
  unfold replaceSymbols, Replacer.replaceMany, Replacer.doReplace. simpl.
  by destruct (Replacer._replace m s).
Qed.

Lemma replaceSymbols_substitute e : forall m, replaceSymbols e m = substitute m e.
Proof.
  induction e as [s|a body IHb|fn args IHfn IHargs|i o a IHi IHo|v| |s IHs| |n|e IHe|l r IHl IHr]
    using Expression_ind'; intros m; try reflexivity.
  - apply ReplacerFacts.replaceSymbols_SYMBOL.
  - rewrite ReplacerFacts.replaceSymbols_LAMBDA, IHb. done.
  - rewrite replaceSymbols_CALL, IHfn. simpl. f_equal.
    induction IHargs as [|x r Hx _ IH]; simpl; [done|]. by rewrite Hx, IH.
  - destruct a as [a|].
    + destruct (m !! a) as [old|] eqn:Ha.
      * rewrite (ReplacerFacts.replaceSymbols_FN_TYPE_masked _ _ _ _ old Ha).
        by rewrite IHi, IHo.
      * rewrite ReplacerFacts.replaceSymbols_FN_TYPE_free by done.
        rewrite IHi, IHo. simpl. by rewrite delete_id.
    + rewrite ReplacerFacts.replaceSymbols_FN_TYPE_free by done.
      by rewrite IHi, IHo.
  - rewrite replaceSymbols_UNIVERSE, IHs. done.
Qed.

Lemma occursIn_CALL s fn args :
  occursIn s (CALL fn args) = occursIn s fn || existsb (occursIn s) args.
Proof. reflexivity. Qed.

Lemma substitute_fresh e : forall m,
  (forall s, is_Some (m !! s) -> occursIn s e = false) -> substitute m e = e.
Proof.
  induction e as [s|a body IHb|fn args IHfn IHargs|i o a IHi IHo|v| |s IHs| |n|e IHe|l r IHl IHr]
    using Expression_ind'; intros m Hm; try reflexivity.
  - simpl. destruct (m !! s) as [v|] eqn:Hs; [|done].
    specialize (Hm s (ltac:(eauto))). simpl in Hm. by rewrite bool_decide_eq_true_2 in Hm.
  - simpl. rewrite IHb; [done|]. exact Hm.
  - simpl. rewrite IHfn.
    + f_equal. induction IHargs as [|x r Hx _ IH]; simpl; [done|].
      rewrite Hx, IH; [done| |].
      * intros s Hs. specialize (Hm s Hs). rewrite occursIn_CALL in *. simpl in Hm.
        apply orb_false_iff in Hm as [Hf Hm]. apply orb_false_iff in Hm as [_ Hm].
        by rewrite Hf, Hm.
      * intros s Hs. specialize (Hm s Hs). rewrite occursIn_CALL in Hm. simpl in Hm.
        apply orb_false_iff in Hm as [_ Hm]. by apply orb_false_iff in Hm as [Hm _].
    + intros s Hs. specialize (Hm s Hs). rewrite occursIn_CALL in Hm.
      by apply orb_false_iff in Hm as [Hm _].
  - simpl. rewrite IHi, IHo; [done| |].
    + intros s Hs. assert (is_Some (m !! s)) as Hs'.
      { destruct a as [a|]; [|done]. destruct Hs as [v Hs].
        apply lookup_delete_Some in Hs as [_ Hs]. eauto. }
      specialize (Hm s Hs'). simpl in Hm. by apply orb_false_iff in Hm as [_ Hm].
    + intros s Hs. specialize (Hm s Hs). simpl in Hm. by apply orb_false_iff in Hm as [Hm _].
  - simpl. rewrite IHs; [done|]. exact Hm.
Qed.

End SubstituteFacts.

(** ** C9: scratch symbols in permanent entries *)

Module C9.

Import ConstraintSolver.

(** Reading an entry after one was written back. *)
Lemma getSymbolEntry_setEntry r s e' r' :
  TempSymbolRegistry.setEntry r s e' = Ok r' ->
  forall x, TempSymbolRegistry.getSymbolEntry r' x =
            if decide (x = s) then Ok e' else TempSymbolRegistry.getSymbolEntry r x.
Proof.
  unfold TempSymbolRegistry.setEntry.
  destruct (Z.ltb_spec s (SymbolRegistry.getSymbolCount (TempSymbolRegistry.parent r)))
    as [Hlt|Hge].
  - destruct (SymbolRegistry.setEntry _ s e') as [p|] eqn:Hset; [|done].
    simpl. intros [= <-] x.
    apply RegistryFacts.setEntry_Ok in Hset as (Hids & _ & _ & Hr).
    unfold TempSymbolRegistry.getSymbolEntry, SymbolRegistry.getSymbolEntry,
      SymbolRegistry.getSymbolCount in *. simpl.
    rewrite !RegistryFacts.tryGet_arrayGet, Hids, length_insert.
    destruct (Z.ltb_spec x (Z.of_nat (length (SymbolRegistry.entriesById
                                                (TempSymbolRegistry.parent r))))) as [Hx|Hx].
    + destruct (Z.le_gt_cases 0 x) as [H0|H0].
      * rewrite RegistryFacts.arrayGet_insert by lia.
        repeat case_decide; try done; congruence.
      * case_decide; [lia|].
        unfold arrayGet. destruct (Z.leb_spec 0 x); [lia|done].
    + case_decide; [lia|done].
  - destruct (arraySet _ _ e') as [a|] eqn:Hset; [|done].
    simpl. intros [= <-] x.
    apply RegistryFacts.arraySet_Ok in Hset as [-> Hr].
    unfold TempSymbolRegistry.getSymbolEntry. simpl.
    destruct (Z.ltb_spec x (SymbolRegistry.getSymbolCount (TempSymbolRegistry.parent r)))
      as [Hx|Hx].
    + case_decide; [lia|done].
    + rewrite RegistryFacts.arrayGet_insert by lia.
      repeat case_decide; try done; lia.
Qed.

(** The map built by the second walk over the scratch symbols: exactly
    the symbols with an own-value, each sent to its expansion. *)
Lemma collectTemps_reps fuel st entries : forall s reps vars reps' vars',
  collectTemps fuel st s entries reps vars = Ok (reps', vars') ->
  (forall k, k < s \/ s + Z.of_nat (length entries) <= k -> reps' !! k = reps !! k) /\
  (forall i entry, entries !! i = Some entry ->
     match e_ownValue entry with
     | Some v => exists v' c, Expander.expand fuel (registry st) v = Ok (v', c) /\
                              reps' !! (s + Z.of_nat i) = Some v'
     | None => reps' !! (s + Z.of_nat i) = reps !! (s + Z.of_nat i)
     end).
Proof.
  induction entries as [|e entries IH]; intros s reps vars reps' vars'; simpl.
  - intros [= <- <-]. split; [done|]. intros i entry Hi. done.
  - destruct (e_ownValue e) as [v|] eqn:Hv.
    + unfold expand.
      destruct (Expander.expand fuel (registry st) v) as [[v' c]|] eqn:Hex; [|done].
      simpl. intros H. destruct (IH _ _ _ _ _ H) as [Hout Hin]. split.
      * intros k Hk. rewrite Hout by lia. apply lookup_insert_ne. lia.
      * intros [|i] entry Hi; simpl in Hi.
        -- inversion Hi; subst entry. rewrite Hv. exists v', c. split; [done|].
           rewrite Hout by lia. replace (s + Z.of_nat 0) with s by lia.
           apply lookup_insert_eq.
        -- specialize (Hin i entry Hi).
           replace (s + Z.of_nat (S i)) with (s + 1 + Z.of_nat i) by lia.
           destruct (e_ownValue entry); [done|].
           rewrite Hin. apply lookup_insert_ne. lia.
    + intros H. destruct (IH _ _ _ _ _ H) as [Hout Hin]. split.
      * intros k Hk. apply Hout. lia.
      * intros [|i] entry Hi; simpl in Hi.
        -- inversion Hi; subst entry. rewrite Hv. apply Hout. lia.
        -- specialize (Hin i entry Hi).
           replace (s + Z.of_nat (S i)) with (s + 1 + Z.of_nat i) by lia.
           done.
Qed.

(** The substitution walk rewrites each listed entry once and leaves
    the others as they were. *)
Lemma substituteAll_lookup comp reps l : forall st st',
  substituteAll comp reps l st = Ok st' ->
  NoDup l ->
  forall x e, TempSymbolRegistry.getSymbolEntry (registry st) x = Ok e ->
    TempSymbolRegistry.getSymbolEntry (registry st') x =
    Ok (if decide (x ∈ l) then substituteEntry comp reps e else e).
Proof.
  induction l as [|s l IH]; intros st st' Hall Hnd x e Hx; simpl in Hall.
  - inversion Hall; subst st'. case_decide as Hin; [by apply elem_of_nil in Hin|done].
  - unfold substituteAffected in Hall.
    destruct (TempSymbolRegistry.getSymbolEntry (registry st) s) as [entry|] eqn:Hget; [|done].
    simpl in Hall. unfold setEntry in Hall.
    destruct (TempSymbolRegistry.setEntry (registry st) s _) as [r1|] eqn:Hset; [|done].
    simpl in Hall.
    apply NoDup_cons in Hnd as [Hnotin Hnd].
    pose proof (getSymbolEntry_setEntry _ _ _ _ Hset x) as Hx1.
    destruct (decide (x = s)) as [->|Hne].
    + rewrite Hget in Hx. inversion Hx; subst e.
      rewrite (IH _ _ Hall Hnd s (substituteEntry comp reps entry)) by done.
      repeat case_decide; try done.
      exfalso. apply H0. by left.
    + rewrite Hx in Hx1.
      rewrite (IH _ _ Hall Hnd x e) by done.
      repeat case_decide; try done.
      * exfalso. apply H0. by right.
      * exfalso. apply elem_of_cons in H0 as [?|?]; done.
Qed.

End C9.

(** The set of affected symbols through the driver loop, and what the
    final substitution reaches. *)
Module FinalPass.

Import ConstraintSolver.

Local Abbreviation nd st := (NoDup (affectedSymbols st)).

Lemma setEntry_affected s e st st' :
  setEntry s e st = Ok st' ->
  affectedSymbols st' = affectedSymbols st /\ diagnostics st' = diagnostics st /\
  constraints st' = constraints st.
Proof.
  unfold setEntry. destruct (TempSymbolRegistry.setEntry _ _ _); [|done].
  by intros [= <-].
Qed.

Lemma trySetOwnValue_nd cyc s v st st' b :
  trySetOwnValue cyc s v st = Ok (st', b) -> nd st -> nd st'.
Proof.
  unfold trySetOwnValue.
  destruct (TempSymbolRegistry.getSymbolEntry (registry st) s) as [entry|]; [|done].
  simpl. destruct (bool_decide _); [by intros [= <- <-]|].
  destruct (negb _); [by intros [= <- <-]|].
  destruct (negb _); [by intros [= <- <-]|].
  destruct (setEntry s _ st) as [st1|] eqn:Hset; [|done]. simpl.
  apply setEntry_affected in Hset as (Ha & _ & _).
  intros [= <- <-] Hnd.
  assert (nd st1) by (by rewrite Ha).
  destruct (e_type entry); destruct (negb _); simpl; try done;
    by apply Unlinking.setAdd_NoDup.
Qed.

Lemma matchLevelSucc_affected e1 e2 st :
  affectedSymbols (matchLevelSucc e1 e2 st).1 = affectedSymbols st.
Proof.
  unfold matchLevelSucc.
  destruct e1; try reflexivity.
  destruct e2; simpl; try reflexivity.
  by destruct (0 <? value).
Qed.

Lemma foldl_addEqual_affected l : forall st,
  affectedSymbols (foldl (fun st (ab : Expression * Expression) =>
                 addEqualConstraint ab.1 ab.2 st) st l) = affectedSymbols st.
Proof. induction l as [|ab l IH]; intros st; simpl; [done|]. by rewrite IH. Qed.

Lemma evaluateEqualStructural_affected c1 c2 e1 e2 ch1 ch2 flag st st' b :
  evaluateEqualStructural c1 c2 e1 e2 ch1 ch2 flag st = Ok (st', b) ->
  affectedSymbols st' = affectedSymbols st.
Proof.
  unfold evaluateEqualStructural.
  pose proof (matchLevelSucc_affected e1 e2 st) as Hm.
  destruct (matchLevelSucc e1 e2 st) as [stm m]. simpl in Hm.
  assert (Hdefault :
    (if m then Ok (stm, true)
     else match flag, e1, e2 with
          | true, CALL fn1 args1, CALL fn2 args2 =>
              if decide (length args1 = length args2)
              then Ok (foldl (fun st (ab : Expression * Expression) =>
                                addEqualConstraint ab.1 ab.2 st)
                             (addEqualConstraint fn1 fn2 st) (zip args1 args2), true)
              else Ok (pushDiagnostic (UNEQUAL e1 e2) st, false)
          | _, _, _ =>
              if ch1 || ch2 then Ok (addEqualConstraint e1 e2 st, true)
              else Ok (pushConstraint (EQUAL c1 c2) st, false)
          end) = Ok (st', b) -> affectedSymbols st' = affectedSymbols st).
  { destruct m; [by intros [= <- <-]|].
    destruct flag, e1, e2; try (destruct (ch1 || ch2); by intros [= <- <-]).
    destruct (decide _); intros [= <- <-]; [|done].
    by rewrite foldl_addEqual_affected. }
  destruct e1, e2; try exact Hdefault.
  - intros [= <- <-]. reflexivity.
  - destruct arg, arg0; intros [= <- <-]; reflexivity.
  - intros [= <- <-]. reflexivity.
  - intros [= <- <-]. reflexivity.
  - destruct (decide _); intros [= <- <-]; reflexivity.
Qed.

Lemma evaluateEqualConstraint_nd cyc fuel c1 c2 flag st st' b :
  evaluateEqualConstraint cyc fuel c1 c2 flag st = Ok (st', b) -> nd st -> nd st'.
Proof.
  unfold evaluateEqualConstraint.
  destruct (expand fuel st c1) as [[e1 ch1]|]; [|done]. simpl.
  destruct (expand fuel st c2) as [[e2 ch2]|]; [|done]. simpl.
  destruct (orient (registry st) e1 e2) as [x1 x2].
  set (k := evaluateEqualStructural c1 c2 x1 x2 ch1 ch2 flag).
  assert (Hk : forall s s' b', k s = Ok (s', b') -> nd s -> nd s').
  { intros s s' b' H. apply evaluateEqualStructural_affected in H. by rewrite H. }
  clearbody k.
  destruct x1; try apply Hk.
  destruct (match x2 with SYMBOL s2 => _ | _ => false end); [by intros [= <- <-]|].
  destruct (trySetOwnValue cyc symbol x2 st) as [[st1 ok]|] eqn:Hset; [|done].
  simpl. pose proof (trySetOwnValue_nd _ _ _ _ _ _ Hset) as Hnd1.
  destruct ok; [intros [= <- <-]; exact Hnd1|].
  intros H Hnd. apply Hk in H; auto.
Qed.

Lemma makeInferedFnTypeLoop_affected l : forall ret st,
  affectedSymbols (makeInferedFnTypeLoop l ret st).1 = affectedSymbols st.
Proof.
  induction l as [|a l IH]; intros ret st; simpl; [done|].
  by rewrite IH.
Qed.

Lemma evaluateTypeConstraint_nd e con st st' b :
  evaluateTypeConstraint e con st = Ok (st', b) -> nd st -> nd st'.
Proof.
  unfold evaluateTypeConstraint.
  destruct e.
  - destruct (TempSymbolRegistry.getSymbolEntry (registry st) symbol)
      as [entry|] eqn:Hget; [|done]. simpl.
    destruct (e_type entry).
    { destruct con; by intros [= <- <-]. }
    destruct (_ || _); [|by intros [= <- <-]].
    destruct con as [type|args outputType].
    + destruct (setEntry symbol _ _) as [st1|] eqn:Hset; [|done]. simpl.
      apply setEntry_affected in Hset as (Ha & _ & _).
      intros H Hnd. assert (nd st1) by (rewrite Ha; simpl; by apply Unlinking.setAdd_NoDup).
      destruct (e_ownValue entry); by injection H as <- <-.
    + unfold makeInferedFnType.
      pose proof (makeInferedFnTypeLoop_affected (rev args) outputType
                    (addAffected symbol st)) as Hm.
      destruct (makeInferedFnTypeLoop _ _ _) as [st0 type]. simpl in Hm.
      destruct (setEntry symbol _ _) as [st1|] eqn:Hset; [|done]. simpl.
      apply setEntry_affected in Hset as (Ha & _ & _).
      intros H Hnd. assert (nd st1) by (rewrite Ha, Hm; simpl; by apply Unlinking.setAdd_NoDup).
      destruct (e_ownValue entry); by injection H as <- <-.
  - destruct con as [type|[|a0 [|a1 rest]] out]; try (by intros [= <- <-]).
    destruct (replaceOneUndefined _ _); [|done]. by intros [= <- <-].
  - destruct con; by intros [= <- <-].
  - destruct arg, con; by intros [= <- <-].
  - done.
  - by intros [= <- <-].
  - destruct con; by intros [= <- <-].
  - destruct con; by intros [= <- <-].
  - destruct con; by intros [= <- <-].
  - destruct con; by intros [= <- <-].
  - destruct con; by intros [= <- <-].
Qed.

Lemma evaluateFnTypeEqualConstraint_nd fuel f args out st st' b :
  evaluateFnTypeEqualConstraint fuel f args out st = Ok (st', b) -> nd st -> nd st'.
Proof.
  unfold evaluateFnTypeEqualConstraint.
  destruct (expand fuel st f) as [[fn ch]|]; [|done]. simpl.
  destruct fn; try (destruct ch; by intros [= <- <-]).
  destruct args as [|a0 [|a1 rest]]; try (by intros [= <- <-]).
  destruct (match arg with Some _ => _ | None => _ end); [|done]. by intros [= <- <-].
Qed.

Lemma evaluateConstraint_nd cyc fuel con flag st st' b :
  evaluateConstraint cyc fuel con flag st = Ok (st', b) -> nd st -> nd st'.
Proof.
  destruct con; simpl.
  - apply evaluateTypeConstraint_nd.
  - apply evaluateTypeConstraint_nd.
  - apply evaluateEqualConstraint_nd.
  - apply evaluateFnTypeEqualConstraint_nd.
  - done.
Qed.

Lemma iterateLoop_nd cyc fuel flag queue : forall ch st st' b,
  iterateLoop cyc fuel queue flag ch st = Ok (st', b) -> nd st -> nd st'.
Proof.
  induction queue as [|con queue IH]; intros ch st st' b; simpl.
  - by intros [= <- <-].
  - destruct (evaluateConstraint cyc fuel con flag st) as [[st1 c]|] eqn:Hev; [|done].
    simpl. intros H Hnd. apply IH in H; [done|]. by apply evaluateConstraint_nd in Hev.
Qed.

Lemma iterate_nd cyc fuel flag st st' b :
  iterate cyc fuel flag st = Ok (st', b) -> nd st -> nd st'.
Proof. unfold iterate. intros H Hnd. by apply iterateLoop_nd in H. Qed.

(** The driver keeps the set of affected symbols a set. *)
Lemma runLoop_nd cyc fuel n maxIterations iterations : forall st st',
  runLoop cyc fuel n maxIterations iterations st = Ok st' -> nd st -> nd st'.
Proof.
  induction n as [|n IH]; intros st st'; simpl; [done|].
  destruct (maxIterations <? iterations); [by intros [= <-]|].
  destruct (iterate cyc fuel false st) as [[st1 [|]]|] eqn:H1; simpl; [| |done].
  - intros H Hnd. apply IH in H; [done|]. by apply iterate_nd in H1.
  - destruct (iterate cyc fuel true st1) as [[st2 [|]]|] eqn:H2; simpl; [| |done].
    + intros H Hnd. apply IH in H; [done|]. apply iterate_nd in H2; [done|].
      by apply iterate_nd in H1.
    + intros [= <-] Hnd. apply iterate_nd in H2; [done|]. by apply iterate_nd in H1.
Qed.

Lemma substituteAll_diagnostics comp reps l : forall st st',
  substituteAll comp reps l st = Ok st' -> diagnostics st' = diagnostics st.
Proof.
  induction l as [|s l IH]; intros st st'; simpl; [by intros [= <-]|].
  unfold substituteAffected.
  destruct (TempSymbolRegistry.getSymbolEntry (registry st) s) as [entry|]; [|done].
  simpl. destruct (setEntry s _ st) as [st1|] eqn:Hset; [|done]. simpl.
  apply setEntry_affected in Hset as (_ & Hd & _).
  intros H. apply IH in H. congruence.
Qed.

(** The list of uninferred symbols that the second walk returns. *)
Lemma collectTemps_vars fuel st entries : forall s reps vars reps' vars',
  collectTemps fuel st s entries reps vars = Ok (reps', vars') ->
  vars' = vars ++ uninferedFrom s entries.
Proof.
  induction entries as [|e entries IH]; intros s reps vars reps' vars'; simpl.
  - intros [= <- <-]. by rewrite app_nil_r.
  - destruct (e_ownValue e) as [v|] eqn:Hv.
    + destruct (expand fuel st v) as [[v' c]|]; [|done]. simpl.
      intros H. apply IH in H. rewrite H. done.
    + intros H. apply IH in H. rewrite H.
      destruct (e_isLocal e); simpl; [done|]. by rewrite <- app_assoc.
Qed.

Lemma uninferedFrom_nil entries : forall s,
  uninferedFrom s entries = [] ->
  forall i entry, entries !! i = Some entry ->
    e_ownValue entry = None -> e_isLocal entry = true.
Proof.
  induction entries as [|e entries IH]; intros s Hnil i entry Hi Hown; [done|].
  simpl in Hnil. apply app_eq_nil in Hnil as [Hhead Htail].
  destruct i as [|i]; simpl in Hi.
  - injection Hi as ->. rewrite Hown in Hhead.
    rewrite bool_decide_eq_true_2 in Hhead by done. simpl in Hhead.
    by destruct (e_isLocal entry).
  - by apply (IH _ Htail i entry).
Qed.

(** A reference that the substitution reaches in its result was not in
    the domain of the substitution, or came in with one of the values. *)
Lemma visits_substitute t e : forall m,
  visits t (substitute m e) = true ->
  (m !! t = None /\ visits t e = true) \/
  (exists k v, m !! k = Some v /\ visits t v = true).
Proof.
  induction e as [s|a body IHb|fn args IHfn IHargs|i o a IHi IHo|v| |s IHs| |n|e IHe|l r IHl IHr]
    using Expression_ind'; intros m; simpl; try done.
  - destruct (m !! s) as [v|] eqn:Hs; simpl.
    + intros Hv. right. eauto.
    + intros Hst. left. apply bool_decide_eq_true in Hst as ->. split; [done|].
      by apply bool_decide_eq_true.
  - apply IHb.
  - intros H. apply orb_true_iff in H as [H|H].
    + destruct (IHfn m H) as [[Hm Hv]|Hr]; [|by right].
      left. split; [done|]. by rewrite Hv.
    + apply existsb_exists in H as (x' & Hin & Hx).
      apply in_map_iff in Hin as (x & <- & Hin).
      rewrite Forall_forall in IHargs.
      destruct (IHargs x ltac:(by apply list_elem_of_In) m Hx) as [[Hm Hv]|Hr]; [|by right].
      left. split; [done|]. apply orb_true_iff. right.
      apply existsb_exists. eauto.
  - intros H. apply orb_true_iff in H as [H|H].
    + destruct (IHi m H) as [[Hm Hv]|Hr]; [|by right].
      left. split; [done|]. by rewrite Hv.
    + apply andb_true_iff in H as [Hne H]. rewrite Hne.
      apply negb_true_iff, bool_decide_eq_false in Hne.
      destruct a as [a|].
      * destruct (IHo _ H) as [[Hm Hv]|(k & v & Hk & Hv)].
        -- left. rewrite lookup_delete_ne in Hm by congruence.
           split; [done|]. rewrite Hv. by rewrite orb_true_r.
        -- right. apply lookup_delete_Some in Hk as [_ Hk]. eauto.
      * destruct (IHo _ H) as [[Hm Hv]|Hr]; [|by right].
        left. split; [done|]. rewrite Hv. by rewrite orb_true_r.
  - apply IHs.
Qed.

Lemma substituteEntry_substituted reps entry :
  substituteEntry complement reps entry = substituted reps entry.
Proof.
  unfold substituteEntry, substituted. f_equal.
  - destruct (e_type entry); simpl; [|done].
    by rewrite SubstituteFacts.replaceSymbols_substitute.
  - destruct (e_ownValue entry); simpl; [|done].
    by rewrite SubstituteFacts.replaceSymbols_substitute.
  - destruct (e_downValue entry) as [rules|]; simpl; [|done]. f_equal.
    apply map_ext. intros v. unfold substituteRule.
    by rewrite !SubstituteFacts.replaceSymbols_substitute.
Qed.

End FinalPass.




(** * Further properties of the code *)

Module UtilFacts.

Lemma pushReversed_app {T} (dest src : list T) :
  Util.pushReversed dest src = src ++ dest.
Proof.
  unfold Util.pushReversed. revert dest.
  induction src as [|x src IH] using rev_ind; intros dest; [done|].
  rewrite rev_app_distr. simpl. rewrite IH, <- app_assoc. done.
Qed.

Lemma popReversedLoop_spec {T} (n : nat) : forall (dest filled : list T),
  Util.popReversedLoop dest filled n =
    if decide (le n (length dest))
    then Ok (drop n dest, rev (take n dest) ++ filled)
    else Err Panic.
Proof.
  induction n as [|n IH]; intros dest filled.
  - rewrite drop_0. case_decide; [reflexivity|lia].
  - destruct dest as [|x dest]; cbn [Util.popReversedLoop].
    + case_decide; [simpl in *; lia|done].
    + rewrite IH. repeat case_decide; simpl in *; try lia; [|done].
      by rewrite <- app_assoc.
Qed.

Lemma copyMap_id `{Countable K} {V} (m : gmap K V) : Util.copyMap m = m.
Proof.
  unfold Util.copyMap.
  apply (map_fold_weak_ind (fun r m => r = m)); [done|].
  intros k v m' r _ ->. done.
Qed.

End UtilFacts.

(** X1.  A stack filled by [pushReversed] pops the elements of [src] in
    their order in [src]: the first element of [src] ends on top, above
    what the stack held before.  Hence [popReversed], which hands back
    what it pops in the opposite order, returns the elements pushed by
    [pushReversed] reversed and leaves the stack as it was before. *)
Theorem pushReversed_pops_in_source_order {T} (dest src out : list T) :
  Util.pushReversed dest src = src ++ dest /\
  Util.popReversed (Util.pushReversed dest src) out (length src)
    = Ok (dest, out ++ rev src).
Proof.
  assert (Hpush : Util.pushReversed dest src = src ++ dest).
  { unfold Util.pushReversed. revert dest.
    induction src as [|x src IH] using rev_ind; intros dest; [done|].
    rewrite rev_app_distr. simpl. rewrite IH, <- app_assoc. done. }
  split; [done|]. rewrite Hpush. unfold Util.popReversed.
  rewrite UtilFacts.popReversedLoop_spec. case_decide as Hn.
  - by rewrite drop_app_length, take_app_length, app_nil_r.
  - rewrite length_app in Hn. lia.
Qed.

(** X2.  [popReversed] undoes a run of pushes: after the values [xs] were
    pushed one by one on [dest], popping [length xs] values hands [xs]
    back in the order they were pushed, appended to [src], and leaves
    [dest]; asked for more values than the stack holds it panics. *)
Theorem popReversed_returns_pushed_values {T} (dest src xs : list T) (n : nat) :
  Util.popReversed (foldl (fun d x => x :: d) dest xs) src (length xs)
    = Ok (dest, src ++ xs) /\
  ((length dest < n)%nat -> Util.popReversed dest src n = Err Panic).
Proof.
  unfold Util.popReversed. split.
  - rewrite UtilFacts.popReversedLoop_spec.
    assert (Hf : forall (xs d : list T), foldl (fun d x => x :: d) d xs = rev xs ++ d).
    { clear. induction xs as [|x xs IH]; intros d; simpl; [done|].
      rewrite IH, <- app_assoc. done. }
    rewrite Hf. case_decide as Hn.
    + simpl. rewrite <- (length_rev xs) at 1 2.
      rewrite drop_app_length, take_app_length, rev_involutive, app_nil_r. done.
    + rewrite length_app, length_rev in Hn. lia.
  - intros Hn. rewrite UtilFacts.popReversedLoop_spec.
    case_decide; [lia|done].
Qed.

(** The values 2 and 3 are pushed on a stack that holds 1, and popped
    again; two values cannot be popped from the stack that holds 1. *)
Lemma popReversed_returns_pushed_values_witness :
  Util.popReversed [3; 2; 1] [0] 2 = Ok ([1], [0; 2; 3]) /\
  Util.popReversed [1] [0] 2 = Err Panic.
Proof.
  split.
  - exact (proj1 (popReversed_returns_pushed_values [1] [0] [2; 3] 2)).
  - apply (proj2 (popReversed_returns_pushed_values [1] [0] [2; 3] 2)). simpl. lia.
Defined.


(** X3.  [copyMap] returns a map equal to its argument, although its
    callback names the value [k] and the key [v]; with it [makeSymbolMap]
    rebinds [symbol2] alone: to [symbol1] when that is another symbol,
    to nothing otherwise, and every other key keeps its binding. *)
Theorem makeSymbolMap_rebinds_symbol2 (map : gmap Z Z) (symbol1 : option Z) (symbol2 k : Z) :
  Util.copyMap map = map /\
  makeSymbolMap map symbol1 (Some symbol2) !! k =
    if decide (k = symbol2) then
      match symbol1 with
      | Some symbol1 => if decide (symbol1 = symbol2) then None else Some symbol1
      | None => None
      end
    else map !! k.
Proof.
  split; [apply UtilFacts.copyMap_id|].
  unfold makeSymbolMap. rewrite UtilFacts.copyMap_id.
  destruct symbol1 as [s1|].
  - destruct (decide (s1 = symbol2)) as [->|Hne].
    + rewrite !bool_decide_eq_true_2 by done. simpl.
      case_bool_decide as Hin.
      * destruct (decide (k = symbol2)) as [->|Hk].
        -- by rewrite lookup_delete_eq.
        -- by rewrite lookup_delete_ne.
      * destruct (decide (k = symbol2)) as [->|Hk]; [|done].
        destruct (map !! symbol2) eqn:E; [|done]. exfalso. eauto.
    + rewrite (bool_decide_eq_false_2 (symbol2 = s1)) by done.
      rewrite (bool_decide_eq_false_2 (s1 = symbol2)) by done. simpl.
      destruct (decide (k = symbol2)) as [->|Hk].
      * by rewrite lookup_insert_eq.
      * by rewrite lookup_insert_ne.
  - case_bool_decide as Hin.
    + destruct (decide (k = symbol2)) as [->|Hk].
      * by rewrite lookup_delete_eq.
      * by rewrite lookup_delete_ne.
    + destruct (decide (k = symbol2)) as [->|Hk]; [|done].
      destruct (map !! symbol2) eqn:E; [|done]. exfalso. eauto.
Qed.

Module RegistryLookup.

Import SymbolRegistry RegistryFacts.

(** After [createSymbol] the child map of [parent] holds [name]. *)
Lemma createSymbol_childMap reg parent name isLocal reg' ret :
  createSymbol reg parent name isLocal = Ok (reg', ret) ->
  exists m, childMap reg' parent = Ok (Some m) /\ m !! name = Some ret.
Proof.
  unfold createSymbol.
  destruct (match removedSymbols reg with [] => _ | _ :: _ => _ end)
    as [[reg1 r]|]; [|done].
  simpl. destruct parent as [p|].
  - destruct (arrayGet (entriesById reg1) p) as [entry|] eqn:Hp; [|done].
    destruct (setEntry reg1 p _) as [reg2|] eqn:Hset; [|done].
    simpl. intros [= <- <-].
    apply setEntry_Ok in Hset as (Hids & _ & _ & Hr).
    unfold childMap. rewrite Hids, arrayGet_insert by (unfold getSymbolCount in Hr; lia).
    rewrite decide_True by done. simpl. eexists; split; [done|].
    by rewrite lookup_insert_eq.
  - intros [= <- <-]. simpl. eexists; split; [done|].
    by rewrite lookup_insert_eq.
Qed.

Lemma addNewSymbol_childMap reg parent name isLocal reg' h b :
  addNewSymbol reg parent name isLocal = Ok (reg', (h, b)) ->
  exists m, childMap reg' parent = Ok (Some m) /\ m !! name = Some h.
Proof.
  unfold addNewSymbol.
  destruct (childMap reg parent) as [map|] eqn:Hmap; [|done]. simpl.
  destruct (map ≫= lookup name) as [s|] eqn:Hs.
  - intros [= <- <- <-]. destruct map as [m|]; [|done]. eauto.
  - destruct (createSymbol reg parent name isLocal) as [[reg1 r]|] eqn:Hc; [|done].
    simpl. intros [= <- <- <-]. by eapply createSymbol_childMap.
Qed.

Lemma addNewSymbol_found reg parent name isLocal m h :
  childMap reg parent = Ok (Some m) -> m !! name = Some h ->
  addNewSymbol reg parent name isLocal = Ok (reg, (h, false)).
Proof. intros Hm Hh. unfold addNewSymbol. rewrite Hm. simpl. by rewrite Hh. Qed.

Lemma getSymbol_found reg parent name create m h :
  childMap reg parent = Ok (Some m) -> m !! name = Some h ->
  getSymbol reg parent name create = Ok (reg, Some h).
Proof. intros Hm Hh. unfold getSymbol. rewrite Hm. simpl. by rewrite Hh. Qed.

End RegistryLookup.

(** X4.  Insert and look up by name.  The handle that [addNewSymbol]
    returns for [name] under [parent] is the one that [getSymbol] finds
    there afterwards, and a second [addNewSymbol] for the same name
    returns it again with the flag [false] and leaves the registry as it
    is, whatever locality is asked for. *)
Theorem addNewSymbol_then_lookup reg parent name isLocal reg' h b :
  SymbolRegistry.addNewSymbol reg parent name isLocal = Ok (reg', (h, b)) ->
  (forall create, SymbolRegistry.getSymbol reg' parent name create = Ok (reg', Some h)) /\
  (forall isLocal', SymbolRegistry.addNewSymbol reg' parent name isLocal'
                    = Ok (reg', (h, false))).
Proof.
  intros Hadd.
  destruct (RegistryLookup.addNewSymbol_childMap _ _ _ _ _ _ _ Hadd) as (m & Hm & Hh).
  split; intros ?.
  - by eapply RegistryLookup.getSymbol_found.
  - by eapply RegistryLookup.addNewSymbol_found.
Qed.

Lemma addNewSymbol_then_lookup_witness :
  exists reg',
    SymbolRegistry.addNewSymbol standardRegistry (Some 2) "Nat" false
      = Ok (reg', (3, true)) /\
    SymbolRegistry.getSymbol reg' (Some 2) "Nat" false = Ok (reg', Some 3).
Proof.
  eexists. split; [vm_compute; reflexivity|].
  refine (proj1 (addNewSymbol_then_lookup standardRegistry (Some 2) "Nat" false _ 3 true _) false).
  vm_compute. reflexivity.
Defined.

Module RegistryNames.

Import SymbolRegistry RegistryFacts.

Lemma createSymbol_child_names reg p name isLocal reg' ret :
  createSymbol reg (Some p) name isLocal = Ok (reg', ret) ->
  entriesByName reg' = entriesByName reg.
Proof.
  unfold createSymbol.
  destruct (removedSymbols reg) as [|r0 rest].
  - simpl. destruct (arrayGet _ p) as [entry|]; [|done].
    destruct (setEntry _ p _) as [reg2|] eqn:Hset; [|done].
    simpl. intros [= <- <-]. by apply setEntry_Ok in Hset as (_ & -> & _).
  - destruct (arraySet (entriesById reg) r0 _) as [a|]; [|done]. simpl.
    destruct (arrayGet _ p) as [entry|]; [|done].
    destruct (setEntry _ p _) as [reg2|] eqn:Hset; [|done].
    simpl. intros [= <- <-]. by apply setEntry_Ok in Hset as (_ & -> & _).
Qed.

Lemma addNewSymbol_child_names reg p name isLocal reg' r :
  addNewSymbol reg (Some p) name isLocal = Ok (reg', r) ->
  entriesByName reg' = entriesByName reg.
Proof.
  unfold addNewSymbol.
  destruct (childMap reg (Some p)) as [map|]; [|done]. simpl.
  destruct (map ≫= lookup name) as [s|].
  - by intros [= <- <-].
  - destruct (createSymbol reg (Some p) name isLocal) as [[reg1 r1]|] eqn:Hc; [|done].
    simpl. intros [= <- <-]. by eapply createSymbol_child_names.
Qed.

End RegistryNames.

(** X5.  [defineInternalSymbols] can be called again, as the test
    drivers do: on the registry it produced, a second call succeeds and
    changes nothing. *)
Theorem defineInternalSymbols_idempotent reg reg' :
  SymbolRegistry.defineInternalSymbols reg = Ok reg' ->
  SymbolRegistry.defineInternalSymbols reg' = Ok reg'.
Proof.
  unfold SymbolRegistry.defineInternalSymbols.
  destruct (SymbolRegistry.addNewSymbol reg None "builtin" false)
    as [[reg1 [builtin b1]]|] eqn:H1; [|done]. simpl.
  destruct (SymbolRegistry.addNewSymbol reg1 (Some builtin) "Level" false)
    as [[reg2 [level b2]]|] eqn:H2; [|done]. simpl.
  destruct (SymbolRegistry.getSymbolEntry reg2 level) as [entry|] eqn:He; [|done]. simpl.
  intros Hset. pose proof Hset as Hset0.
  apply RegistryFacts.setEntry_Ok in Hset as (Hids & Hnames & Hrem & Hr).
  destruct (RegistryLookup.addNewSymbol_childMap _ _ _ _ _ _ _ H1) as (m1 & Hm1 & Hb).
  destruct (RegistryLookup.addNewSymbol_childMap _ _ _ _ _ _ _ H2) as (m2 & Hm2 & Hl).
  simpl in Hm1. injection Hm1 as <-.
  apply RegistryNames.addNewSymbol_child_names in H2 as Hn2.
  (* the lookups of the second call *)
  assert (Hget : SymbolRegistry.getSymbolEntry reg' level = Ok (set_ownValue LEVEL_TYPE entry)).
  { unfold SymbolRegistry.getSymbolEntry. rewrite RegistryFacts.tryGet_arrayGet, Hids.
    unfold SymbolRegistry.getSymbolCount in Hr.
    rewrite RegistryFacts.arrayGet_insert by lia. by rewrite decide_True. }
  assert (Hchild : exists m, SymbolRegistry.childMap reg' (Some builtin) = Ok (Some m)
                             /\ m !! "Level" = Some level).
  { unfold SymbolRegistry.childMap in *.
    destruct (arrayGet (SymbolRegistry.entriesById reg2) builtin) as [pe|] eqn:Hpe; [|done].
    injection Hm2 as Hm2.
    pose proof (RegistryFacts.arrayGet_range _ _ _ Hpe) as Hbr.
    rewrite Hids. unfold SymbolRegistry.getSymbolCount in Hr.
    rewrite RegistryFacts.arrayGet_insert by lia.
    destruct (decide (level = builtin)) as [->|Hne].
    - unfold SymbolRegistry.getSymbolEntry in He.
      rewrite RegistryFacts.tryGet_arrayGet, Hpe in He. injection He as <-.
      simpl. rewrite Hm2. eauto.
    - rewrite Hpe, Hm2. eauto. }
  destruct Hchild as (m & Hm & Hlevel).
  rewrite (RegistryLookup.addNewSymbol_found reg' None "builtin" false
             (SymbolRegistry.entriesByName reg') builtin); [|done|by rewrite Hnames, Hn2].
  simpl.
  rewrite (RegistryLookup.addNewSymbol_found reg' (Some builtin) "Level" false m level)
    by done.
  simpl. rewrite Hget. simpl.
  unfold SymbolRegistry.setEntry.
  unfold SymbolRegistry.getSymbolCount in Hr.
  rewrite RegistryFacts.arraySet_in_range by (rewrite Hids, length_insert; lia).
  simpl. rewrite Hids, list_insert_insert_eq.
  destruct reg' as [ids names rem]. simpl in *. subst. done.
Qed.

Lemma defineInternalSymbols_idempotent_witness :
  exists reg',
    SymbolRegistry.defineInternalSymbols SymbolRegistry.empty = Ok reg' /\
    SymbolRegistry.defineInternalSymbols reg' = Ok reg'.
Proof.
  eexists. split; [vm_compute; reflexivity|].
  apply (defineInternalSymbols_idempotent SymbolRegistry.empty).
  vm_compute. reflexivity.
Defined.

(** X6.  Handles are recycled last-removed-first.  When [removeSymbol]
    has released the symbol [s], the next symbol that [addNewSymbol]
    creates receives the handle [s] and the registry does not grow.  If
    [s] was the child of a symbol [p], [removeSymbol] has deleted its
    name from the children of [p].  If [s] was a top-level symbol known
    as [old], [removeSymbol] has left [old] in the root map, so [old]
    still resolves to [s] and now reaches the entry of the new symbol. *)
Theorem removed_handle_is_reused reg s entry reg1 parent name isLocal reg2 h :
  SymbolRegistry.getSymbolEntry reg s = Ok entry ->
  SymbolRegistry.removeSymbol reg s = Ok reg1 ->
  SymbolRegistry.addNewSymbol reg1 parent name isLocal = Ok (reg2, (h, true)) ->
  h = s /\
  SymbolRegistry.getSymbolCount reg2 = SymbolRegistry.getSymbolCount reg /\
  (exists e, SymbolRegistry.getSymbolEntry reg2 s = Ok e /\
             e_name e = name /\ e_parent e = parent) /\
  (forall p, e_parent entry = Some p ->
     exists m, SymbolRegistry.childMap reg1 (Some p) = Ok (Some m) /\
               m !! e_name entry = None) /\
  (forall old, e_parent entry = None ->
     SymbolRegistry.entriesByName reg !! old = Some s ->
     SymbolRegistry.getSymbol reg2 None old false = Ok (reg2, Some s)).
Proof.
  intros He Hrem Hadd.
  unfold SymbolRegistry.removeSymbol in Hrem. rewrite He in Hrem. simpl in Hrem.
  destruct (match e_parent entry with Some p => _ | None => _ end)
    as [reg0|] eqn:Hreg0; [|done].
  simpl in Hrem. injection Hrem as <-.
  assert (Hframe : length (SymbolRegistry.entriesById reg0)
                   = length (SymbolRegistry.entriesById reg) /\
                   SymbolRegistry.entriesByName reg0 = SymbolRegistry.entriesByName reg).
  { destruct (e_parent entry) as [p|]; [|by injection Hreg0 as <-].
    destruct (SymbolRegistry.getSymbolEntry reg p) as [pe|]; [|done]. simpl in Hreg0.
    destruct (e_subSymbols pe); [|done].
    apply RegistryFacts.setEntry_Ok in Hreg0 as (Hids & Hnames & _ & _).
    by rewrite Hids, length_insert. }
  destruct Hframe as [Hlen Hnames0].
  destruct (RegistryFacts.addNewSymbol_spec _ _ _ _ _ _ _ Hadd) as (_ & Hnew & _).
  destruct (Hnew eq_refl) as (e & Hget & Hn & Hp & _). clear Hnew.
  assert (Hcreate : h = s /\
    length (SymbolRegistry.entriesById reg2) = length (SymbolRegistry.entriesById reg0) /\
    (parent = None -> forall old, old <> name ->
       SymbolRegistry.entriesByName reg2 !! old = SymbolRegistry.entriesByName reg0 !! old) /\
    (parent <> None -> SymbolRegistry.entriesByName reg2 = SymbolRegistry.entriesByName reg0) /\
    (parent = None -> SymbolRegistry.entriesByName reg0 !! name = None)).
  { unfold SymbolRegistry.addNewSymbol in Hadd.
    destruct (SymbolRegistry.childMap _ parent) as [map|] eqn:Hmap; [|done].
    simpl in Hadd. destruct (map ≫= lookup name) as [x|] eqn:Hx; [done|].
    destruct (SymbolRegistry.createSymbol _ parent name isLocal) as [[r2 ret]|] eqn:Hc; [|done].
    simpl in Hadd. injection Hadd as <- <-.
    unfold SymbolRegistry.createSymbol in Hc. simpl in Hc.
    destruct (arraySet (SymbolRegistry.entriesById reg0) s _) as [a|] eqn:Ha; [|done].
    simpl in Hc. apply RegistryFacts.arraySet_Ok in Ha as [-> Hs].
    destruct parent as [p|].
    - destruct (arrayGet _ p) as [pe|] eqn:Hpe; [|done].
      destruct (SymbolRegistry.setEntry _ p _) as [r3|] eqn:Hset; [|done].
      simpl in Hc. injection Hc as <- <-.
      apply RegistryFacts.setEntry_Ok in Hset as (Hids & Hnames & _ & _). simpl in *.
      split_and!; try done. by rewrite Hids, !length_insert.
    - injection Hc as <- <-. simpl in *.
      split_and!; try done.
      + by rewrite length_insert.
      + intros _ old Hne. by rewrite lookup_insert_ne.
      + intros _. by injection Hmap as <-. }
  destruct Hcreate as (-> & Hlen2 & Hroot & Hother & Hfresh).
  split; [done|]. split.
  { unfold SymbolRegistry.getSymbolCount. by rewrite Hlen2, Hlen. }
  split; [eauto|]. split.
  - intros p Hpar. rewrite Hpar in Hreg0.
    destruct (SymbolRegistry.getSymbolEntry reg p) as [pe|] eqn:Hpe; [|done].
    simpl in Hreg0. destruct (e_subSymbols pe) as [m|] eqn:Hm; [|done].
    exists (delete (e_name entry) m). split; [|by rewrite lookup_delete_eq].
    unfold SymbolRegistry.childMap. simpl.
    apply RegistryFacts.setEntry_Ok in Hreg0 as (Hids & _ & _ & Hr).
    rewrite Hids.
    unfold SymbolRegistry.getSymbolEntry in Hpe. rewrite RegistryFacts.tryGet_arrayGet in Hpe.
    destruct (arrayGet (SymbolRegistry.entriesById reg) p) as [pe'|] eqn:Hg; [|done].
    injection Hpe as ->.
    pose proof (RegistryFacts.arrayGet_range _ _ _ Hg) as Hrange.
    rewrite RegistryFacts.arrayGet_insert by lia.
    rewrite decide_True by done. by destruct pe.
  - intros old Hpar Hold. rewrite Hpar in Hreg0. injection Hreg0 as <-.
    unfold SymbolRegistry.getSymbol. simpl.
    destruct parent as [p|].
    + by rewrite Hother, Hold.
    + rewrite Hroot; [by rewrite Hold|done|].
      intros ->. rewrite Hfresh in Hold; done.
Qed.

(** [builtin.Level] is removed from the standard registry: [builtin] has
    no child [Level] any more and the handle 1 goes to [root.x].  [root]
    is removed: the handle 2 goes to [builtin.x], and [root] resolves to
    it. *)
Lemma removed_handle_is_reused_witness :
  (exists reg1 reg2,
    SymbolRegistry.removeSymbol standardRegistry 1 = Ok reg1 /\
    SymbolRegistry.addNewSymbol reg1 (Some 2) "x" false = Ok (reg2, (1, true)) /\
    SymbolRegistry.getSymbolCount reg2 = 3 /\
    (exists e, SymbolRegistry.getSymbolEntry reg2 1 = Ok e /\
               e_name e = "x" /\ e_parent e = Some 2) /\
    exists m, SymbolRegistry.childMap reg1 (Some 0) = Ok (Some m) /\
              m !! "Level" = None) /\
  (exists reg1 reg2,
    SymbolRegistry.removeSymbol standardRegistry 2 = Ok reg1 /\
    SymbolRegistry.addNewSymbol reg1 (Some 0) "x" false = Ok (reg2, (2, true)) /\
    SymbolRegistry.getSymbol reg2 None "root" false = Ok (reg2, Some 2)).
Proof.
  split.
  - eexists _, _. split; [vm_compute; reflexivity|]. split; [vm_compute; reflexivity|].
    destruct (removed_handle_is_reused standardRegistry 1
                (set_ownValue LEVEL_TYPE (newEntry (Some 0) "Level" false))
                _ (Some 2) "x" false _ 1
                ltac:(vm_compute; reflexivity) ltac:(vm_compute; reflexivity)
                ltac:(vm_compute; reflexivity))
      as (_ & Hcount & Hentry & Hchild & _).
    split; [exact Hcount|]. split; [exact Hentry|].
    exact (Hchild 0 eq_refl).
  - eexists _, _. split; [vm_compute; reflexivity|]. split; [vm_compute; reflexivity|].
    destruct (removed_handle_is_reused standardRegistry 2
                (newEntry None "root" false)
                _ (Some 0) "x" false _ 2
                ltac:(vm_compute; reflexivity) ltac:(vm_compute; reflexivity)
                ltac:(vm_compute; reflexivity))
      as (_ & _ & _ & _ & Hroot).
    apply Hroot; vm_compute; reflexivity.
Defined.

Module StringifyFacts.

Import SymbolRegistry RegistryFacts.

(** The walk only reads names and parents. *)
Lemma stringifyPath_frame reg reg' fuel :
  (forall s e, getSymbolEntry reg s = Ok e ->
     exists e', getSymbolEntry reg' s = Ok e' /\
                e_name e' = e_name e /\ e_parent e' = e_parent e) ->
  forall s acc path,
    stringifyPath fuel reg s acc = Ok path ->
    exists pre, path = pre ++ acc /\
      forall acc', stringifyPath fuel reg' s acc' = Ok (pre ++ acc').
Proof.
  intros Hframe. induction fuel as [|fuel IH]; intros s acc path; simpl.
  - destruct s; [done|]. intros [= <-]. by exists [].
  - destruct s as [s|]; [|intros [= <-]; by exists []].
    destruct (getSymbolEntry reg s) as [e|] eqn:He; [|done]. simpl.
    intros Hwalk. destruct (Hframe _ _ He) as (e' & -> & Hn & Hp).
    destruct (IH _ _ _ Hwalk) as (pre & -> & Hrest).
    exists (pre ++ [e_name e]). split; [by rewrite <- app_assoc|].
    intros acc'. simpl. rewrite Hn, Hp, Hrest. by rewrite <- app_assoc.
Qed.

(** With an empty free list a new child is appended and only its
    parent's child map changes. *)
Lemma fresh_child reg p name isLocal reg' h :
  removedSymbols reg = [] ->
  addNewSymbol reg (Some p) name isLocal = Ok (reg', (h, true)) ->
  getSymbolEntry reg' h = Ok (newEntry (Some p) name isLocal) /\
  forall s e, getSymbolEntry reg s = Ok e ->
    exists e', getSymbolEntry reg' s = Ok e' /\
               e_name e' = e_name e /\ e_parent e' = e_parent e.
Proof.
  intros Hfree. unfold addNewSymbol.
  destruct (childMap reg (Some p)) as [map|] eqn:Hmap; [|done]. simpl.
  destruct (map ≫= lookup name) as [x|]; [done|].
  unfold createSymbol. rewrite Hfree. simpl.
  destruct (arrayGet _ p) as [pe|] eqn:Hpe; [|done].
  unfold setEntry. simpl.
  pose proof (arrayGet_range _ _ _ Hpe) as Hpr.
  rewrite arraySet_in_range by done. simpl. intros [= <- <-].
  unfold childMap in Hmap.
  destruct (arrayGet (entriesById reg) p) as [pe0|] eqn:Hpe0; [|done].
  pose proof (arrayGet_range _ _ _ Hpe0) as Hp0.
  assert (pe = pe0) as ->.
  { apply arrayGet_Some in Hpe as [_ Hpe]. apply arrayGet_Some in Hpe0 as [_ Hpe0].
    rewrite lookup_app_l in Hpe by lia. congruence. }
  split.
  - unfold getSymbolEntry. rewrite tryGet_arrayGet. simpl.
    rewrite arrayGet_insert by lia. rewrite decide_False by lia.
    assert (arrayGet (entriesById reg ++ [newEntry (Some p) name isLocal])
              (Z.of_nat (length (entriesById reg)))
            = Some (newEntry (Some p) name isLocal)) as ->; [|done].
    apply arrayGet_Some. split; [lia|]. rewrite Nat2Z.id. by apply list_lookup_middle.
  - intros s e. unfold getSymbolEntry. rewrite !tryGet_arrayGet. simpl.
    destruct (arrayGet (entriesById reg) s) as [e0|] eqn:Hs; [|done].
    intros [= <-]. pose proof (arrayGet_range _ _ _ Hs) as Hsr.
    rewrite arrayGet_insert by lia.
    destruct (decide (p = s)) as [->|Hne].
    + rewrite Hpe0 in Hs. injection Hs as <-. eauto.
    + assert (arrayGet (entriesById reg ++ [newEntry (Some p) name isLocal]) s = Some e0) as ->.
      { apply arrayGet_Some in Hs as [? Hs]. apply arrayGet_Some. split; [done|].
        by apply lookup_app_l_Some. }
      eauto.
Qed.

End StringifyFacts.

(** X7.  Names round-trip through the registry.  In a registry with no
    released handle, a symbol newly added under [p] prints as the path
    of [p] followed by its own name, joined by dots; a local symbol
    prints as its bare name; a handle at or past the symbol count prints
    as [$] followed by its offset from the count. *)
Theorem stringifySymbol_of_new_child reg p name isLocal reg' h fuel path :
  SymbolRegistry.removedSymbols reg = [] ->
  SymbolRegistry.addNewSymbol reg (Some p) name isLocal = Ok (reg', (h, true)) ->
  stringifyPath fuel reg (Some p) [] = Ok path ->
  stringifySymbol (S fuel) reg' h
    = Ok (if isLocal then name else joinDot (path ++ [name])) /\
  forall k, 0 <= k ->
    stringifySymbol fuel reg' (SymbolRegistry.getSymbolCount reg' + k)
    = Ok ("$" +:+ pretty k).
Proof.
  intros Hfree Hadd Hwalk. split.
  - destruct (StringifyFacts.fresh_child _ _ _ _ _ _ Hfree Hadd) as [Hh Hframe].
    destruct (StringifyFacts.stringifyPath_frame reg reg' fuel Hframe _ _ _ Hwalk)
      as (pre & Hpre & Hrest).
    rewrite app_nil_r in Hpre. subst pre.
    unfold stringifySymbol.
    unfold SymbolRegistry.getSymbolEntry in Hh.
    destruct (SymbolRegistry.tryGetSymbolEntry reg' h) as [e|] eqn:He; [|done].
    injection Hh as ->. simpl. destruct isLocal; [done|].
    unfold SymbolRegistry.getSymbolEntry. rewrite He. simpl.
    by rewrite Hrest.
  - intros k Hk. unfold stringifySymbol, SymbolRegistry.tryGetSymbolEntry,
      SymbolRegistry.getSymbolCount.
    destruct (Z.ltb_spec (Z.of_nat (length (SymbolRegistry.entriesById reg')) + k)
                (Z.of_nat (length (SymbolRegistry.entriesById reg')))); [lia|].
    rewrite andb_false_r. do 3 f_equal. lia.
Qed.

(** [Nat] is added under [root] and [zero] under [Nat]: the latter
    prints as [root.Nat.zero]. *)
Lemma stringifySymbol_of_new_child_witness :
  let reg1 := fromOk SymbolRegistry.empty
                (r ← SymbolRegistry.addNewSymbol standardRegistry (Some 2) "Nat" false;
                 Ok r.1) in
  exists reg2,
    SymbolRegistry.addNewSymbol reg1 (Some 3) "zero" false = Ok (reg2, (4, true)) /\
    stringifySymbol 3 reg2 4 = Ok "root.Nat.zero".
Proof.
  intros reg1. eexists. split; [vm_compute; reflexivity|].
  refine (proj1 (stringifySymbol_of_new_child reg1 3 "zero" false _ 4 2 ["root"; "Nat"]
                   _ _ _)); vm_compute; reflexivity.
Defined.

Module ScratchHandles.

Import SymbolRegistry.

(** With no released handle, [createSymbol] appends. *)
Lemma createSymbol_appends reg parent name isLocal reg' ret :
  removedSymbols reg = [] ->
  createSymbol reg parent name isLocal = Ok (reg', ret) ->
  ret = getSymbolCount reg /\ getSymbolCount reg' = getSymbolCount reg + 1.
Proof.
  intros Hfree. unfold createSymbol, getSymbolCount. rewrite Hfree. simpl.
  destruct parent as [p|].
  - destruct (arrayGet _ p) as [entry|]; [|done].
    destruct (setEntry _ p _) as [reg2|] eqn:Hset; [|done]. simpl.
    intros [= <- <-]. apply RegistryFacts.setEntry_Ok in Hset as (-> & _).
    simpl. rewrite length_insert, length_app. simpl. lia.
  - intros [= <- <-]. simpl. rewrite length_app. simpl. lia.
Qed.

End ScratchHandles.

(** X8.  Scratch handles are relative to the number of permanent
    symbols.  When the registry under a scratch layer has no released
    handle and gets a new symbol, as it does when the elaborator
    declares or generates one, the new permanent symbol receives the
    handle that denoted the first scratch symbol, and every scratch
    entry is found one handle further up. *)
Theorem scratch_handles_shift_when_parent_grows reg parent name isLocal context' h :
  SymbolRegistry.removedSymbols (TempSymbolRegistry.parent reg) = [] ->
  SymbolRegistry.addNewSymbol (TempSymbolRegistry.parent reg) parent name isLocal
    = Ok (context', (h, true)) ->
  let reg' := TempSymbolRegistry.mk (TempSymbolRegistry.tempSymbols reg) context' in
  h = TempSymbolRegistry.count reg /\
  TempSymbolRegistry.isTempSymbol reg h = true /\
  TempSymbolRegistry.isTempSymbol reg' h = false /\
  (exists e, TempSymbolRegistry.getSymbolEntry reg' h = Ok e /\
             e_name e = name /\ e_parent e = parent) /\
  forall s, TempSymbolRegistry.count reg <= s ->
    TempSymbolRegistry.getSymbolEntry reg' (s + 1)
    = TempSymbolRegistry.getSymbolEntry reg s.
Proof.
  intros Hfree Hadd reg'.
  assert (Hc : SymbolRegistry.createSymbol (TempSymbolRegistry.parent reg) parent name isLocal
               = Ok (context', h)).
  { revert Hadd. unfold SymbolRegistry.addNewSymbol.
    destruct (SymbolRegistry.childMap _ _) as [map|]; [|done]. simpl.
    destruct (map ≫= _) as [x|]; [done|].
    destruct (SymbolRegistry.createSymbol _ _ _ _) as [[r1 x]|]; [|done].
    simpl. by intros [= <- <-]. }
  destruct (ScratchHandles.createSymbol_appends _ _ _ _ _ _ Hfree Hc) as [Hh Hcount].
  destruct (RegistryFacts.createSymbol_spec _ _ _ _ _ _ Hc) as (Hr & _ & (e & He & Hn & Hp & _) & _).
  unfold TempSymbolRegistry.count, TempSymbolRegistry.isTempSymbol,
    TempSymbolRegistry.getSymbolEntry, reg'. simpl.
  split_and!.
  - done.
  - apply Z.leb_le. lia.
  - apply Z.leb_gt. lia.
  - exists e. split; [|done].
    destruct (Z.ltb_spec h (SymbolRegistry.getSymbolCount context')); [done|lia].
  - intros s Hs. rewrite Hcount.
    destruct (Z.ltb_spec (s + 1) (SymbolRegistry.getSymbolCount (TempSymbolRegistry.parent reg) + 1));
      [lia|].
    destruct (Z.ltb_spec s (SymbolRegistry.getSymbolCount (TempSymbolRegistry.parent reg)));
      [lia|].
    by replace (s + 1 - (SymbolRegistry.getSymbolCount (TempSymbolRegistry.parent reg) + 1))
      with (s - SymbolRegistry.getSymbolCount (TempSymbolRegistry.parent reg)) by lia.
Qed.

(** A scratch symbol of type [Level] is created over the standard
    registry, then [Nat] is declared under [root]: the handle 3 of the
    scratch symbol now reads [Nat], and the scratch entry is at 4. *)
Lemma scratch_handles_shift_when_parent_grows_witness :
  let reg := (TempSymbolRegistry.createTempSymbol
                (TempSymbolRegistry.create standardRegistry) false (Some LEVEL_TYPE)).1 in
  exists context',
    SymbolRegistry.addNewSymbol standardRegistry (Some 2) "Nat" false
      = Ok (context', (3, true)) /\
    TempSymbolRegistry.getSymbolEntry
      (TempSymbolRegistry.mk (TempSymbolRegistry.tempSymbols reg) context') 4
    = TempSymbolRegistry.getSymbolEntry reg 3.
Proof.
  intros reg. eexists. split; [vm_compute; reflexivity|].
  refine (proj2 (proj2 (proj2 (proj2
    (scratch_handles_shift_when_parent_grows reg (Some 2) "Nat" false _ 3 _ _)))) 3 _).
  - vm_compute. reflexivity.
  - vm_compute. reflexivity.
  - vm_compute. discriminate.
Defined.

(** X9.  The walk of [Replacer], with its mutable [maps] that the binder
    cases edit and restore, computes the scoped substitution
    [substitute]: both [replaceSymbols] and [replaceOneSymbol] agree
    with it on every term and every substitution. *)
Theorem replaceSymbols_is_scoped_substitution :
  (forall e m, replaceSymbols e m = substitute m e) /\
  (forall e source replacement,
     replaceOneSymbol e source replacement = substitute {[source := replacement]} e).
Proof.
  split.
  - intros e m. apply SubstituteFacts.replaceSymbols_substitute.
  - intros e source replacement. apply SubstituteFacts.replaceSymbols_substitute.
Qed.

(** X10.  Substitution leaves alone what it does not mention: a term in
    which no symbol of the substitution's domain occurs is returned
    unchanged, and so is every term under the empty substitution. *)
Theorem replaceSymbols_without_occurrence e m :
  (forall s, is_Some (m !! s) -> occursIn s e = false) ->
  replaceSymbols e m = e /\ replaceSymbols e ∅ = e.
Proof.
  intros Hm. rewrite !SubstituteFacts.replaceSymbols_substitute. split.
  - by apply SubstituteFacts.substitute_fresh.
  - apply SubstituteFacts.substitute_fresh. intros s [v Hs].
    by rewrite lookup_empty in Hs.
Qed.

Lemma replaceSymbols_without_occurrence_witness :
  replaceSymbols (FN_TYPE (SYMBOL 1) (CALL (SYMBOL 2) [SYMBOL 3]) (Some 3))
                 {[ 7 := LEVEL 0 ]}
  = FN_TYPE (SYMBOL 1) (CALL (SYMBOL 2) [SYMBOL 3]) (Some 3).
Proof.
  refine (proj1 (replaceSymbols_without_occurrence _ _ _)).
  intros s [v Hs]. apply lookup_singleton_Some in Hs as [<- _]. reflexivity.
Defined.

Module ExpanderFacts.

Import Expander.

Lemma loop_step registry n action rest stack changed :
  loop registry (S n) (mk (action :: rest) stack changed)
  = st' ← step registry action (mk rest stack changed);
    loop registry n st'.
Proof. reflexivity. Qed.

(** Below [2^53] the arithmetic of the run time is exact. *)
Lemma number_exact z : - 2 ^ 53 <= z <= 2 ^ 53 -> number z = z.
Proof.
  intros Hz. unfold number.
  destruct (Z.leb_spec (Z.abs z) (2 ^ 53)); [done|lia].
Qed.

Lemma levelBelow_exact e : forall bound v,
  bound <= 2 ^ 53 -> levelBelow bound e = true -> levelValue e = Some v ->
  exactLevel e = Some v /\ 0 <= v <= bound.
Proof.
  induction e as [s|a body IHb|fn args IHfn IHargs|i o a IHi IHo|p| |s IHs| |k|e IHe|l r IHl IHr]
    using Expression_ind'; intros bound v Hb Hbelow Hv; try done; simpl in *.
  - injection Hv as <-. apply andb_true_iff in Hbelow as [H0 H1].
    apply Z.leb_le in H0, H1. done.
  - destruct (levelValue e) as [ve|] eqn:He; [|done]. injection Hv as <-.
    destruct (IHe (bound - 1) ve) as [-> Hr]; [lia|done|done|].
    simpl. rewrite number_exact by lia. split; [done|lia].
  - apply andb_true_iff in Hbelow as [Hbl Hbr].
    destruct (levelValue l) as [vl|] eqn:Hl; [|done].
    destruct (levelValue r) as [vr|] eqn:Hr; [|done]. injection Hv as <-.
    destruct (IHl bound vl) as [-> Hrl]; [done..|].
    destruct (IHr bound vr) as [-> Hrr]; [done..|].
    split; [done|lia].
Qed.

(** A closed level expression is evaluated in [levelSteps] actions,
    whatever waits on the two stacks. *)
Lemma loop_level registry e : forall v n rest stack changed,
  levelValue e = Some v ->
  loop registry (levelSteps e + n) (mk (A_expand e :: rest) stack changed)
  = loop registry n
      (mk rest (LEVEL v :: stack) (changed || negb (isLEVEL e))).
Proof.
  induction e as [s|a body IHb|fn args IHfn IHargs|i o a IHi IHo|p| |s IHs| |k|e IHe|l r IHl IHr]
    using Expression_ind'; intros v n rest stack changed Hv; try done.
  - injection Hv as <-. simpl. by rewrite orb_false_r.
  - simpl in Hv. destruct (levelValue e) as [ve|] eqn:He; [|done]. injection Hv as <-.
    replace (levelSteps (LEVEL_SUCC e) + n)%nat with (S (levelSteps e + S n))
      by (simpl; lia).
    rewrite loop_step. simpl step. cbn [mbind Result_bind].
    unfold doActions. simpl app.
    rewrite (IHe ve (S n)) by done.
    rewrite loop_step. simpl. by rewrite orb_true_r.
  - simpl in Hv. destruct (levelValue l) as [vl|] eqn:Hl; [|done].
    destruct (levelValue r) as [vr|] eqn:Hr; [|done]. injection Hv as <-.
    replace (levelSteps (LEVEL_MAX l r) + n)%nat
      with (S (levelSteps l + (levelSteps r + S n))) by (simpl; lia).
    rewrite loop_step. simpl step. cbn [mbind Result_bind].
    unfold doActions. simpl app.
    rewrite (IHl vl) by done. rewrite (IHr vr) by done.
    rewrite loop_step. simpl. by rewrite orb_true_r.
Qed.

End ExpanderFacts.

(** X11.  The normaliser computes level arithmetic.  A term built from
    level literals, successors and maxima normalises to the literal of
    its value, within [levelSteps] actions and over any registry; the
    change flag is raised unless the term was a literal already.  Under
    a universe the subscript is normalised in the same way.  The value
    is the one of the run time's arithmetic, in which a successor is
    rounded to the nearest double; it is the exact value when the
    literals are natural numbers and the exact value is at most
    [2^53]. *)
Theorem expand_level_arithmetic fuel registry e v :
  levelValue e = Some v ->
  (levelSteps e + 2 <= fuel)%nat ->
  Expander.expand fuel registry e = Ok (LEVEL v, negb (isLEVEL e)) /\
  Expander.expand fuel registry (UNIVERSE e)
  = Ok (UNIVERSE (LEVEL v), negb (isLEVEL e)) /\
  (levelBelow (2 ^ 53) e = true -> exactLevel e = Some v).
Proof.
  intros Hv Hfuel. unfold Expander.expand. split_and!.
  - replace fuel with (levelSteps e + (fuel - levelSteps e))%nat by lia.
    rewrite (ExpanderFacts.loop_level _ _ v) by done.
    destruct (fuel - levelSteps e)%nat; done.
  - replace fuel with (S (levelSteps e + S (fuel - levelSteps e - 2)))%nat by lia.
    rewrite ExpanderFacts.loop_step. simpl Expander.step. cbn [mbind Result_bind].
    unfold Expander.doActions. simpl app.
    rewrite (ExpanderFacts.loop_level _ _ v) by done.
    rewrite ExpanderFacts.loop_step. simpl.
    destruct (fuel - levelSteps e - 2)%nat; done.
  - intros Hbelow.
    by destruct (ExpanderFacts.levelBelow_exact e (2 ^ 53) v).
Qed.

(** [max(succ(0l), succ(succ(0l)))] is [2l], and the successor of
    [9007199254740992l] is [9007199254740992l]. *)
Lemma expand_level_arithmetic_witness :
  Expander.expand 20 oneLocal
    (LEVEL_MAX (LEVEL_SUCC (LEVEL 0)) (LEVEL_SUCC (LEVEL_SUCC (LEVEL 0))))
  = Ok (LEVEL 2, true) /\
  exactLevel (LEVEL_MAX (LEVEL_SUCC (LEVEL 0)) (LEVEL_SUCC (LEVEL_SUCC (LEVEL 0))))
  = Some 2 /\
  Expander.expand 20 oneLocal (LEVEL_SUCC (LEVEL 9007199254740992))
  = Ok (LEVEL 9007199254740992, true).
Proof.
  split_and!.
  - refine (proj1 (expand_level_arithmetic 20 oneLocal _ 2 _ _)).
    + reflexivity.
    + simpl. lia.
  - refine (proj2 (proj2 (expand_level_arithmetic 20 oneLocal _ 2 _ _)) _).
    + reflexivity.
    + simpl. lia.
    + reflexivity.
  - refine (proj1 (expand_level_arithmetic 20 oneLocal _ 9007199254740992 _ _)).
    + reflexivity.
    + simpl. lia.
Defined.

(** X12.  A lambda is rebuilt only when something changed.  Over a
    closed level expression as body, the normaliser returns the lambda
    around the computed literal when the body needed computing; when
    the body is a literal already, the continuation of the [LAMBDA] case
    pushes the lambda on top of the body's result and the final
    [assert(stack.length === 1)] fails.  The literal is the value of the
    body in the run time's arithmetic, which is its exact value when
    the literals of the body are natural numbers and the exact value is
    at most [2^53]. *)
Theorem expand_lambda_over_level fuel registry arg e v :
  levelValue e = Some v ->
  (levelSteps e + 3 <= fuel)%nat ->
  Expander.expand fuel registry (LAMBDA arg e)
  = (if isLEVEL e then Err Panic else Ok (LAMBDA arg (LEVEL v), true)) /\
  (levelBelow (2 ^ 53) e = true -> exactLevel e = Some v).
Proof.
  intros Hv Hfuel.
  split; [|intros Hbelow; by destruct (ExpanderFacts.levelBelow_exact e (2 ^ 53) v)].
  unfold Expander.expand.
  replace fuel with (S (levelSteps e + S (fuel - levelSteps e - 2)))%nat by lia.
  rewrite ExpanderFacts.loop_step. simpl Expander.step. cbn [mbind Result_bind].
  unfold Expander.doActions. simpl app.
  rewrite (ExpanderFacts.loop_level _ _ v) by done.
  rewrite ExpanderFacts.loop_step. simpl.
  destruct (isLEVEL e); simpl; destruct (fuel - levelSteps e - 2)%nat; done.
Qed.

(** [\x 0l] makes the normaliser panic; [\x succ(0l)] becomes [\x 1l]. *)
Lemma expand_lambda_over_level_witness :
  Expander.expand 10 oneLocal (LAMBDA 0 (LEVEL 0)) = Err Panic /\
  Expander.expand 10 oneLocal (LAMBDA 0 (LEVEL_SUCC (LEVEL 0)))
  = Ok (LAMBDA 0 (LEVEL 1), true).
Proof.
  split.
  - refine (proj1 (expand_lambda_over_level 10 oneLocal 0 (LEVEL 0) 0 _ _));
      [reflexivity|simpl; lia].
  - refine (proj1 (expand_lambda_over_level 10 oneLocal 0 (LEVEL_SUCC (LEVEL 0)) 1 _ _));
      [reflexivity|simpl; lia].
Defined.

Module FuelFacts.

Import Expander.

(** More fuel does not change an answer of the matcher. *)
Lemma matchLoop_mono fuel : forall fuel' σ todo r,
  (fuel <= fuel')%nat ->
  matchLoop fuel σ todo = Ok r -> matchLoop fuel' σ todo = Ok r.
Proof.
  induction fuel as [|fuel IH]; intros fuel' σ todo r Hle; [done|].
  destruct fuel' as [|fuel']; [lia|]. assert (fuel <= fuel')%nat as Hle' by lia.
  simpl. destruct todo as [|[pattern expr] todo]; [done|].
  destruct pattern as [ps|pa pb|pf pargs|pi po pa|[pv|]| |psub| |pn|pe|pl pr]; try done.
  - destruct expr; try done. case_decide; [|done]. by apply IH.
  - destruct expr; try done. by apply IH.
  - destruct expr; try done. case_decide; [|done]. by apply IH.
  - destruct expr; try done. by apply IH.
  - destruct (σ !! pv); by apply IH.
  - by apply IH.
  - destruct expr; try done. by apply IH.
  - destruct expr; try done. by apply IH.
  - destruct expr; try (by apply IH). destruct (0 <? value); [|done]. by apply IH.
Qed.

End FuelFacts.

(** X13.  Own-values are unfolded silently.  A symbol that has an
    own-value normalises to whatever its own-value normalises to, with
    the same change flag: reading the own-value is not itself counted as
    a change. *)
Theorem expand_unfolds_own_value fuel registry symbol entry ownValue r :
  TempSymbolRegistry.getSymbolEntry registry symbol = Ok entry ->
  e_ownValue entry = Some ownValue ->
  Expander.expand fuel registry ownValue = Ok r ->
  Expander.expand (S fuel) registry (SYMBOL symbol) = Ok r.
Proof.
  intros He Hown. unfold Expander.expand.
  rewrite ExpanderFacts.loop_step. simpl. rewrite He. simpl. by rewrite Hown.
Qed.

(** The scratch symbol 3 stands for [succ(0l)]: it normalises to [1l]. *)
Lemma expand_unfolds_own_value_witness :
  let registry :=
    fromOk (ConstraintSolver.registry oneLevelMeta)
      (TempSymbolRegistry.setEntry (ConstraintSolver.registry oneLevelMeta) 3
         (mkEntry EmptyString None false None (Some LEVEL_TYPE)
                  (Some (LEVEL_SUCC (LEVEL 0))) None)) in
  Expander.expand 6 registry (SYMBOL 3) = Ok (LEVEL 1, true).
Proof.
  intros registry.
  refine (expand_unfolds_own_value 5 registry 3 _ (LEVEL_SUCC (LEVEL 0)) _ _ _ _);
    reflexivity.
Defined.

(** X14.  Two inputs on which the normaliser does not terminate.  A
    symbol whose own-value is the symbol itself is unfolded for ever,
    and a call without arguments re-queues itself for ever, because
    [args.slice(-1)] of an empty array is empty again: no amount of fuel
    yields an answer. *)
Theorem expand_diverges registry :
  (forall fuel symbol entry,
     TempSymbolRegistry.getSymbolEntry registry symbol = Ok entry ->
     e_ownValue entry = Some (SYMBOL symbol) ->
     Expander.expand fuel registry (SYMBOL symbol) = Err OutOfFuel) /\
  (forall fuel fn, Expander.expand fuel registry (CALL fn []) = Err OutOfFuel).
Proof.
  split.
  - intros fuel symbol entry He Hown. unfold Expander.expand.
    assert (H : forall n rest stack changed,
      Expander.loop registry n
        (Expander.mk (Expander.A_expand (SYMBOL symbol) :: rest) stack changed)
      = Err OutOfFuel).
    { induction n as [|n IH]; intros rest stack changed; [done|].
      rewrite ExpanderFacts.loop_step. simpl. rewrite He. simpl. rewrite Hown.
      apply IH. }
    by rewrite H.
  - intros fuel fn. unfold Expander.expand.
    assert (H : forall n rest stack changed,
      Expander.loop registry n
        (Expander.mk (Expander.A_expandCall fn [] :: rest) stack changed)
      = Err OutOfFuel).
    { induction n as [|n IH]; intros rest stack changed; [done|].
      rewrite ExpanderFacts.loop_step. simpl. apply IH. }
    destruct fuel as [|fuel]; [done|].
    rewrite ExpanderFacts.loop_step. simpl. unfold Expander.doActions. simpl.
    by rewrite H.
Qed.

(** The scratch symbol 3 is its own own-value. *)
Lemma expand_diverges_witness :
  let registry :=
    fromOk (ConstraintSolver.registry oneLevelMeta)
      (TempSymbolRegistry.setEntry (ConstraintSolver.registry oneLevelMeta) 3
         (mkEntry EmptyString None false None (Some LEVEL_TYPE)
                  (Some (SYMBOL 3)) None)) in
  Expander.expand 1000 registry (SYMBOL 3) = Err OutOfFuel.
Proof.
  intros registry.
  refine (proj1 (expand_diverges registry) 1000%nat 3 _ _ _); reflexivity.
Defined.

Module VisitFacts.

Lemma visitLoop_spec cb fuel : forall todo,
  (list_sum (map nodes todo) <= fuel)%nat ->
  visitLoop fuel cb todo
  = Ok (if existsb cb (flat_map visited todo) then Some false else None).
Proof.
  induction fuel as [|fuel IH]; intros todo Hfuel.
  - destruct todo as [|t todo]; [done|]. simpl in Hfuel. destruct t; simpl in Hfuel; lia.
  - destruct todo as [|t todo]; [done|].
    cbn [visitLoop]. simpl in Hfuel.
    destruct t as [s|a body|fn args|i o a|p| |s| |k|e|l r];
      cbn [flat_map visited app existsb nodes] in *;
      try (destruct (cb _); [done|]; cbn [orb]; apply IH; simpl; lia);
      try (apply IH; lia).
    + (* CALL *)
      destruct (cb _); [done|]. cbn [orb].
      rewrite UtilFacts.pushReversed_app.
      rewrite IH.
      * cbn [flat_map]. by rewrite flat_map_app, <- !app_assoc.
      * change (fn :: args ++ todo) with ([fn] ++ args ++ todo).
        rewrite !map_app, !list_sum_app. simpl. lia.
    + (* FN_TYPE *)
      destruct (cb _); [done|]. cbn [orb].
      rewrite IH.
      * cbn [flat_map]. by rewrite <- !app_assoc.
      * simpl. lia.
Qed.

End VisitFacts.

(** X15.  [visitExpression] terminates and calls [cb] on the nodes of
    [visited], in that order, until [cb] answers [true]: with fuel for
    one turn per node, it returns [false] when [cb] accepts one of these
    nodes and returns nothing otherwise.  Nodes under a [LEVEL_SUCC] or
    a [LEVEL_MAX] are not among them, so a callback looking for a symbol
    does not find it there. *)
Theorem visitExpression_spec fuel expr cb :
  (nodes expr <= fuel)%nat ->
  visitExpression fuel expr cb
  = Ok (if existsb cb (visited expr) then Some false else None) /\
  forall s, visitExpression fuel (LEVEL_SUCC (SYMBOL s)) cb = Ok None.
Proof.
  intros Hfuel. unfold visitExpression. split.
  - rewrite VisitFacts.visitLoop_spec by (simpl; lia).
    simpl. by rewrite app_nil_r.
  - intros s. destruct fuel as [|[|fuel']]; [destruct expr; simpl in Hfuel; lia|done..].
Qed.

(** Looking for the symbol 7 in [f(7)] and in [type(succ(7))]. *)
Lemma visitExpression_spec_witness :
  let is7 e := match e with SYMBOL s => bool_decide (s = 7) | _ => false end in
  visitExpression 3 (CALL (SYMBOL 1) [SYMBOL 7]) is7 = Ok (Some false) /\
  visitExpression 3 (UNIVERSE (LEVEL_SUCC (SYMBOL 7))) is7 = Ok None.
Proof.
  intros is7. split.
  - refine (proj1 (visitExpression_spec 3 (CALL (SYMBOL 1) [SYMBOL 7]) is7 _)).
    simpl. lia.
  - refine (proj1 (visitExpression_spec 3 (UNIVERSE (LEVEL_SUCC (SYMBOL 7))) is7 _)).
    simpl. lia.
Defined.

Module MatchFacts.

Local Abbreviation bound σ := (fun pe : Expression * Expression =>
  succFree pe.1 = true -> forall x, x ∈ holes pe.1 -> is_Some ((σ : gmap Z Expression) !! x)).

Lemma matchLoop_binds fuel : forall σ0 todo σ,
  matchLoop fuel σ0 todo = Ok (Some σ) ->
  σ0 ⊆ σ /\ Forall (bound σ) todo.
Proof.
  induction fuel as [|fuel IH]; intros σ0 todo σ; [done|].
  simpl. destruct todo as [|[pattern expr] todo]; [by intros [= <-]|].
  destruct pattern as [ps|pa pb|pf pargs|pi po pa|[pv|]| |psub| |pn|pe|pl pr]; try done.
  - (* SYMBOL *)
    destruct expr; try done. case_decide; [|done]. intros Hm.
    destruct (IH _ _ _ Hm) as [Hsub Hall]. split; [done|].
    constructor; [|done]. intros _ x Hx. by apply elem_of_nil in Hx.
  - (* LAMBDA *)
    destruct expr; try done. intros Hm.
    destruct (IH _ _ _ Hm) as [Hsub Hall]. split; [done|].
    apply Forall_cons in Hall as [Hb Hall]. constructor; [|done]. exact Hb.
  - (* CALL *)
    destruct expr as [| |ef eargs| | | | | | | |]; try done. case_decide as Hlen; [|done]. intros Hm.
    destruct (IH _ _ _ Hm) as [Hsub Hall]. split; [done|].
    apply Forall_cons in Hall as [Hf Hall]. apply Forall_app in Hall as [Hargs Hall].
    constructor; [|done]. simpl. intros Hfree x Hx.
    apply andb_true_iff in Hfree as [Hff Hfa].
    apply elem_of_app in Hx as [Hx|Hx]; [by apply Hf|].
    apply list_elem_of_In, in_flat_map in Hx as (parg & Hin & Hx).
    apply list_elem_of_In in Hin. apply list_elem_of_In in Hx.
    apply list_elem_of_lookup in Hin as [i Hi].
    destruct (lookup_lt_is_Some_2 eargs i) as [earg Hearg].
    { rewrite Hlen. by eapply lookup_lt_Some. }
    assert (Hz : zip pargs eargs !! i = Some (parg, earg)).
    { apply lookup_zip_with_Some. eauto. }
    eapply Forall_lookup_1 in Hargs; [|exact Hz]. apply Hargs; [|done]. simpl.
    rewrite forallb_forall in Hfa. apply Hfa.
    apply list_elem_of_In. by eapply list_elem_of_lookup_2.
  - (* FN_TYPE *)
    destruct expr; try done. intros Hm.
    destruct (IH _ _ _ Hm) as [Hsub Hall]. split; [done|].
    apply Forall_cons in Hall as [Hi Hall]. apply Forall_cons in Hall as [Ho Hall].
    constructor; [|done]. simpl. intros Hfree x Hx.
    apply andb_true_iff in Hfree as [Hfi Hfo].
    apply elem_of_app in Hx as [Hx|Hx]; [by apply Hi|by apply Ho].
  - (* a named hole *)
    destruct (σ0 !! pv) as [old|] eqn:Hold; intros Hm;
      destruct (IH _ _ _ Hm) as [Hsub Hall].
    + apply Forall_cons in Hall as [_ Hall]. split; [done|].
      constructor; [|done]. simpl. intros _ x ->%list_elem_of_singleton.
      exists old. by eapply lookup_weaken.
    + split.
      * etrans; [|exact Hsub]. by apply insert_subseteq.
      * constructor; [|done]. simpl. intros _ x ->%list_elem_of_singleton.
        exists expr. eapply lookup_weaken; [|exact Hsub]. by rewrite lookup_insert_eq.
  - (* an anonymous hole *)
    intros Hm. destruct (IH _ _ _ Hm) as [Hsub Hall]. split; [done|].
    constructor; [|done]. intros _ x Hx. by apply elem_of_nil in Hx.
  - (* UNIVERSE *)
    destruct expr; try done. intros Hm.
    destruct (IH _ _ _ Hm) as [Hsub Hall]. split; [done|].
    apply Forall_cons in Hall as [Hb Hall]. constructor; [|done]. exact Hb.
  - (* LEVEL_TYPE *)
    destruct expr; try done. intros Hm.
    destruct (IH _ _ _ Hm) as [Hsub Hall]. split; [done|].
    constructor; [|done]. intros _ x Hx. by apply elem_of_nil in Hx.
  - (* LEVEL_SUCC *)
    assert (Hhead : bound σ (LEVEL_SUCC pe, expr)) by (intros Hf; done).
    destruct expr; try (intros Hm; destruct (IH _ _ _ Hm) as [Hsub Hall];
                        split; [done|]; by constructor).
    + destruct (0 <? value); [|done]. intros Hm. destruct (IH _ _ _ Hm) as [Hsub Hall].
      apply Forall_cons in Hall as [_ Hall]. split; [done|]. by constructor.
    + intros Hm. destruct (IH _ _ _ Hm) as [Hsub Hall].
      apply Forall_cons in Hall as [_ Hall]. split; [done|]. by constructor.
Qed.

End MatchFacts.

(** X16.  What a successful match binds.  The matcher only ever adds
    bindings: the result of the work loop extends the substitution it
    started from, so the first binding of a hole is never replaced.
    When [matchPattern] succeeds on a pattern without [LEVEL_SUCC],
    every named hole of the pattern is bound in the result. *)
Theorem matchPattern_binds_every_hole fuel expr pattern σ :
  matchPattern fuel expr pattern = Ok (Some σ) ->
  succFree pattern = true ->
  (forall x, x ∈ holes pattern -> is_Some (σ !! x)) /\
  (forall σ0 todo σ', matchLoop fuel σ0 todo = Ok (Some σ') -> σ0 ⊆ σ').
Proof.
  intros Hmatch Hfree. split.
  - destruct (MatchFacts.matchLoop_binds _ _ _ _ Hmatch) as [_ Hall].
    apply Forall_cons in Hall as [Hb _]. by apply Hb.
  - intros σ0 todo σ' H. by destruct (MatchFacts.matchLoop_binds _ _ _ _ H).
Qed.

(** [f(?10, type(?11))] against [f(1, type(0l))]. *)
Lemma matchPattern_binds_every_hole_witness :
  exists σ,
    matchPattern 10 (CALL (SYMBOL 5) [SYMBOL 1; UNIVERSE (LEVEL 0)])
                    (CALL (SYMBOL 5) [PATTERN (Some 10); UNIVERSE (PATTERN (Some 11))])
    = Ok (Some σ) /\
    is_Some (σ !! 10) /\ is_Some (σ !! 11).
Proof.
  eexists. split; [vm_compute; reflexivity|].
  pose proof (matchPattern_binds_every_hole 10
                (CALL (SYMBOL 5) [SYMBOL 1; UNIVERSE (LEVEL 0)])
                (CALL (SYMBOL 5) [PATTERN (Some 10); UNIVERSE (PATTERN (Some 11))])
                _ ltac:(vm_compute; reflexivity) eq_refl) as [H _].
  split; apply H; simpl; [by left|by right; left].
Defined.

Module MatchSteps.

Lemma step_CALL fuel σ pf pargs ef eargs todo :
  length eargs = length pargs ->
  matchLoop (S fuel) σ ((CALL pf pargs, CALL ef eargs) :: todo)
  = matchLoop fuel σ ((pf, ef) :: zip pargs eargs ++ todo).
Proof. intros Hlen. cbn [matchLoop]. by rewrite decide_True. Qed.

Lemma step_SYMBOL fuel σ s todo :
  matchLoop (S fuel) σ ((SYMBOL s, SYMBOL s) :: todo) = matchLoop fuel σ todo.
Proof. cbn [matchLoop]. by rewrite decide_True. Qed.

Lemma step_hole_new fuel σ x e todo :
  σ !! x = None ->
  matchLoop (S fuel) σ ((PATTERN (Some x), e) :: todo)
  = matchLoop fuel (<[x := e]> σ) todo.
Proof. intros Hx. cbn [matchLoop]. by rewrite Hx. Qed.

Lemma step_hole_old fuel σ x old e todo :
  σ !! x = Some old ->
  matchLoop (S fuel) σ ((PATTERN (Some x), e) :: todo)
  = matchLoop fuel σ ((old, e) :: todo).
Proof. intros Hx. cbn [matchLoop]. by rewrite Hx. Qed.

End MatchSteps.

(** X17.  Repeated holes.  At a second occurrence of a hole the matcher
    takes the first binding as a pattern and matches it against the
    later subject.  With symbols as subjects, [f(?x, ?x)] therefore
    matches [f(a, b)] exactly when [a] and [b] are the same symbol.
    When the first subject is a level literal the matcher panics,
    whatever the second subject is, because a literal is not a pattern;
    and when the first subject is the hole [?x] itself the matcher never
    stops. *)
Theorem matchPattern_repeated_hole (f x : Z) :
  (forall a b k,
     matchPattern (6 + k) (CALL (SYMBOL f) [SYMBOL a; SYMBOL b])
                  (CALL (SYMBOL f) [PATTERN (Some x); PATTERN (Some x)])
     = Ok (if decide (a = b) then Some {[ x := SYMBOL a ]} else None)) /\
  (forall n e k,
     matchPattern (5 + k) (CALL (SYMBOL f) [LEVEL n; e])
                  (CALL (SYMBOL f) [PATTERN (Some x); PATTERN (Some x)])
     = Err Panic) /\
  (forall e fuel,
     matchPattern fuel (CALL (SYMBOL f) [PATTERN (Some x); e])
                  (CALL (SYMBOL f) [PATTERN (Some x); PATTERN (Some x)])
     = Err OutOfFuel).
Proof.
  assert (Hnew : (∅ : gmap Z Expression) !! x = None) by apply lookup_empty.
  assert (Hold : forall v : Expression, <[x := v]> (∅ : gmap Z Expression) !! x = Some v)
    by (intros v; apply lookup_insert_eq).
  split; [|split].
  - intros a b k. unfold matchPattern.
    change (6 + k)%nat with (S (S (S (S (S (S k)))))).
    rewrite MatchSteps.step_CALL by done. cbn [zip zip_with app].
    rewrite MatchSteps.step_SYMBOL, (MatchSteps.step_hole_new _ _ _ _ _ Hnew).
    rewrite (MatchSteps.step_hole_old _ _ _ _ _ _ (Hold _)).
    cbn [matchLoop]. by destruct (decide (a = b)).
  - intros n e k. unfold matchPattern.
    change (5 + k)%nat with (S (S (S (S (S k))))).
    rewrite MatchSteps.step_CALL by done. cbn [zip zip_with app].
    rewrite MatchSteps.step_SYMBOL, (MatchSteps.step_hole_new _ _ _ _ _ Hnew).
    rewrite (MatchSteps.step_hole_old _ _ _ _ _ _ (Hold _)). reflexivity.
  - intros e fuel. unfold matchPattern.
    assert (H : forall n todo,
      matchLoop n (<[x := PATTERN (Some x)]> ∅) ((PATTERN (Some x), e) :: todo)
      = Err OutOfFuel).
    { induction n as [|n IH]; intros todo; [done|].
      rewrite (MatchSteps.step_hole_old _ _ _ _ _ _ (Hold _)). apply IH. }
    destruct fuel as [|[|[|fuel]]]; [done| | |].
    + by rewrite MatchSteps.step_CALL.
    + rewrite MatchSteps.step_CALL by done. cbn [zip zip_with app].
      by rewrite MatchSteps.step_SYMBOL.
    + rewrite MatchSteps.step_CALL by done. cbn [zip zip_with app].
      rewrite MatchSteps.step_SYMBOL, (MatchSteps.step_hole_new _ _ _ _ _ Hnew).
      apply H.
Qed.

Module SolverGrowth.

Import ConstraintSolver.

Lemma entryGrows_refl e : entryGrows e e.
Proof. by repeat split. Qed.

Lemma entryGrows_trans e1 e2 e3 : entryGrows e1 e2 -> entryGrows e2 e3 -> entryGrows e1 e3.
Proof.
  intros (Hs1 & Hd1 & Ht1 & Ho1) (Hs2 & Hd2 & Ht2 & Ho2).
  split; [congruence|]. split; [congruence|]. split; auto.
Qed.

Lemma accessible_iff st st' s :
  TempSymbolRegistry.count (registry st') = TempSymbolRegistry.count (registry st) ->
  unlockedSymbols st' = unlockedSymbols st ->
  accessible st' s <-> accessible st s.
Proof.
  intros Hc Hu. unfold accessible, TempSymbolRegistry.isTempSymbol.
  unfold TempSymbolRegistry.count in Hc. by rewrite Hc, Hu.
Qed.

Lemma extends_refl st : solverExtends st st.
Proof.
  split; [done|]. split; [done|]. split; [|done].
  intros s e He. exists e. split; [done|]. split; [apply entryGrows_refl|done].
Qed.

Lemma extends_trans st1 st2 st3 :
  solverExtends st1 st2 -> solverExtends st2 st3 -> solverExtends st1 st3.
Proof.
  intros (Hc1 & Hu1 & He1 & Hd1 & Ha1) (Hc2 & Hu2 & He2 & Hd2 & Ha2).
  split; [congruence|]. split; [congruence|]. split; [|split].
  - intros s e Hs. destruct (He1 s e Hs) as (e' & Hs' & Hg' & Hl').
    destruct (He2 s e' Hs') as (e'' & Hs'' & Hg'' & Hl'').
    exists e''. split; [done|]. split; [by eapply entryGrows_trans|].
    intros Hn. rewrite Hl''; [by apply Hl'|].
    intros Hacc. apply Hn. by apply (accessible_iff st1 st2).
  - by etrans.
  - auto.
Qed.

(** States that differ by appended scratch symbols, appended
    diagnostics and the constraint queue. *)
Local Abbreviation appends st st' :=
  (TempSymbolRegistry.parent (registry st') = TempSymbolRegistry.parent (registry st) /\
   TempSymbolRegistry.tempSymbols (registry st)
     `prefix_of` TempSymbolRegistry.tempSymbols (registry st') /\
   unlockedSymbols st' = unlockedSymbols st /\
   diagnostics st `prefix_of` diagnostics st' /\
   affectedSymbols st' = affectedSymbols st).

Lemma appends_extends st st' : appends st st' -> solverExtends st st'.
Proof.
  intros (Hp & [extra Ht] & Hu & Hd & Ha).
  assert (Hc : TempSymbolRegistry.count (registry st')
               = TempSymbolRegistry.count (registry st))
    by (unfold TempSymbolRegistry.count; by rewrite Hp).
  split; [done|]. split; [done|]. split; [|split; [done|]].
  - intros s e Hs. exists e. split; [|split; [apply entryGrows_refl|done]].
    destruct (registry st) as [temps parent], (registry st') as [temps' parent'].
    simpl in *. subst. by apply SolverFrame.getSymbolEntry_app.
  - intros Hall s Hs. apply (accessible_iff st st'); [done..|].
    apply Hall. by rewrite <- Ha.
Qed.

Ltac prefix_tac :=
  simpl; rewrite <- ?app_assoc; first [reflexivity | by apply prefix_app_r].

Ltac appends_tac :=
  apply appends_extends; simpl; split_and!; first [reflexivity | prefix_tac].

Lemma setEntry_extends st s e e' st' :
  TempSymbolRegistry.getSymbolEntry (registry st) s = Ok e ->
  accessible st s ->
  entryGrows e e' ->
  setEntry s e' st = Ok st' ->
  solverExtends st st'.
Proof.
  intros Hget Hacc Hgrow Hset. unfold setEntry in Hset.
  destruct (TempFacts.setEntry_ok _ _ _ e' Hget) as (r' & Hr' & Hc & _).
  rewrite Hr' in Hset. simpl in Hset. injection Hset as <-.
  split; [done|]. split; [done|]. split; [|split; [done|]].
  - intros x ex Hx. simpl. rewrite (C9.getSymbolEntry_setEntry _ _ _ _ Hr').
    case_decide as Hxs.
    + subst x. rewrite Hget in Hx. injection Hx as <-.
      exists e'. split; [done|]. split; [done|]. by intros [].
    + exists ex. split; [done|]. split; [apply entryGrows_refl|done].
  - intros Hall x Hx. simpl in Hx.
    apply (accessible_iff st); [done..|]. by apply Hall.
Qed.

Lemma addAffected_extends st s :
  accessible st s -> solverExtends st (addAffected s st).
Proof.
  intros Hacc. split; [done|]. split; [done|]. split; [|split; [done|]].
  - intros x e Hx. exists e. split; [done|]. split; [apply entryGrows_refl|done].
  - intros Hall x Hx. apply (accessible_iff st); [done..|].
    simpl in Hx. unfold setAdd in Hx. case_decide; [by apply Hall|].
    apply elem_of_app in Hx as [Hx|Hx]; [by apply Hall|].
    by apply list_elem_of_singleton in Hx as ->.
Qed.

Lemma trySetOwnValue_extends cyc s v st st' b :
  trySetOwnValue cyc s v st = Ok (st', b) -> solverExtends st st'.
Proof.
  unfold trySetOwnValue.
  destruct (TempSymbolRegistry.getSymbolEntry (registry st) s) as [entry|] eqn:Hget; [|done].
  simpl. case_bool_decide as Hown; [intros [= <- <-]; apply extends_refl|].
  destruct (TempSymbolRegistry.isTempSymbol (registry st) s) eqn:Htemp; simpl;
    [|intros [= <- <-]; apply extends_refl].
  destruct (negb _); [intros [= <- <-]; appends_tac|].
  destruct (setEntry s _ st) as [st1|] eqn:Hset; [|done]. simpl.
  apply (setEntry_extends st s entry) in Hset as Hext; [|done|by left|].
  2:{ repeat split; try done. intros v' Hv'. destruct Hown. by rewrite Hv'. }
  assert (Htemp1 : TempSymbolRegistry.isTempSymbol (registry st1) s = true).
  { destruct Hext as (Hc & _). unfold TempSymbolRegistry.isTempSymbol in *.
    unfold TempSymbolRegistry.count in Hc. by rewrite Hc. }
  intros [= <- <-]. eapply extends_trans; [exact Hext|].
  destruct (e_type entry); simpl; rewrite ?Htemp1; simpl; appends_tac.
Qed.

Lemma matchLevelSucc_extends e1 e2 st :
  solverExtends st (matchLevelSucc e1 e2 st).1.
Proof.
  unfold matchLevelSucc.
  destruct e1; try apply extends_refl.
  destruct e2; simpl; try apply extends_refl; try appends_tac.
  destruct (0 <? value); appends_tac.
Qed.

Lemma foldl_addEqual_appends l : forall st,
  appends st (foldl (fun st (ab : Expression * Expression) =>
                       addEqualConstraint ab.1 ab.2 st) st l).
Proof.
  induction l as [|ab l IH]; intros st; simpl; [done|].
  destruct (IH (addEqualConstraint ab.1 ab.2 st)) as (? & ? & ? & ? & ?).
  split_and!; done.
Qed.

Lemma evaluateEqualStructural_extends c1 c2 e1 e2 ch1 ch2 flag st st' b :
  evaluateEqualStructural c1 c2 e1 e2 ch1 ch2 flag st = Ok (st', b) ->
  solverExtends st st'.
Proof.
  unfold evaluateEqualStructural.
  pose proof (matchLevelSucc_extends e1 e2 st) as Hm.
  destruct (matchLevelSucc e1 e2 st) as [stm m]. simpl in Hm.
  assert (Hdefault :
    (if m then Ok (stm, true)
     else match flag, e1, e2 with
          | true, CALL fn1 args1, CALL fn2 args2 =>
              if decide (length args1 = length args2)
              then Ok (foldl (fun st (ab : Expression * Expression) =>
                                addEqualConstraint ab.1 ab.2 st)
                             (addEqualConstraint fn1 fn2 st) (zip args1 args2), true)
              else Ok (pushDiagnostic (UNEQUAL e1 e2) st, false)
          | _, _, _ =>
              if ch1 || ch2 then Ok (addEqualConstraint e1 e2 st, true)
              else Ok (pushConstraint (EQUAL c1 c2) st, false)
          end) = Ok (st', b) -> solverExtends st st').
  { destruct m; [by intros [= <- <-]|].
    destruct flag, e1, e2; try (destruct (ch1 || ch2); intros [= <- <-]; appends_tac).
    destruct (decide _); intros [= <- <-]; [|appends_tac].
    apply appends_extends.
    destruct (foldl_addEqual_appends (zip args args0) (addEqualConstraint e1 e2 st))
      as (? & ? & ? & ? & ?).
    split_and!; done. }
  destruct e1, e2; try exact Hdefault.
  - intros [= <- <-]. appends_tac.
  - destruct arg, arg0; intros [= <- <-]; appends_tac.
  - intros [= <- <-]. appends_tac.
  - intros [= <- <-]. apply extends_refl.
  - destruct (decide _); intros [= <- <-]; [apply extends_refl|appends_tac].
Qed.

Lemma evaluateEqualConstraint_extends cyc fuel c1 c2 flag st st' b :
  evaluateEqualConstraint cyc fuel c1 c2 flag st = Ok (st', b) ->
  solverExtends st st'.
Proof.
  unfold evaluateEqualConstraint.
  destruct (expand fuel st c1) as [[e1 ch1]|]; [|done]. simpl.
  destruct (expand fuel st c2) as [[e2 ch2]|]; [|done]. simpl.
  destruct (orient (registry st) e1 e2) as [x1 x2].
  set (k := evaluateEqualStructural c1 c2 x1 x2 ch1 ch2 flag).
  assert (Hk : forall s s' b', k s = Ok (s', b') -> solverExtends s s')
    by (intros s s' b'; apply evaluateEqualStructural_extends).
  clearbody k.
  destruct x1; try apply Hk.
  destruct (match x2 with SYMBOL s2 => _ | _ => false end);
    [intros [= <- <-]; apply extends_refl|].
  destruct (trySetOwnValue cyc symbol x2 st) as [[st1 ok]|] eqn:Hset; [|done].
  simpl. apply trySetOwnValue_extends in Hset.
  destruct ok; [by intros [= <- <-]|].
  intros H. apply Hk in H. by eapply extends_trans.
Qed.

Lemma makeInferedFnTypeLoop_appends l : forall ret st,
  appends st (makeInferedFnTypeLoop l ret st).1.
Proof.
  induction l as [|a l IH]; intros ret st; simpl; [done|].
  match goal with |- context [makeInferedFnTypeLoop l ?r ?s] =>
    destruct (IH r s) as (Hp & Ht & Hu & Hd & Ha) end.
  simpl in *. split_and!; try done.
  etrans; [|exact Ht]. prefix_tac.
Qed.

Lemma evaluateTypeConstraint_extends e con st st' b :
  evaluateTypeConstraint e con st = Ok (st', b) -> solverExtends st st'.
Proof.
  unfold evaluateTypeConstraint.
  destruct e.
  - destruct (TempSymbolRegistry.getSymbolEntry (registry st) symbol)
      as [entry|] eqn:Hget; [|done]. simpl.
    destruct (e_type entry) eqn:Htype.
    { destruct con; intros [= <- <-]; appends_tac. }
    destruct (_ || _) eqn:Hacc; [|intros [= <- <-]; appends_tac].
    assert (Haccessible : accessible st symbol).
    { apply orb_true_iff in Hacc as [H|H]; [by left|right].
      by apply bool_decide_eq_true in H. }
    pose proof (addAffected_extends st symbol Haccessible) as Haff.
    assert (Hgrow : forall type, entryGrows entry (set_type type entry)).
    { intros type. repeat split; try done. intros t Ht. by rewrite Htype in Ht. }
    destruct con as [type|args outputType].
    + destruct (setEntry symbol _ _) as [st1|] eqn:Hset; [|done]. simpl.
      apply (setEntry_extends _ _ entry) in Hset; [|done|done|done].
      assert (solverExtends st st1) by (by eapply extends_trans).
      destruct (e_ownValue entry); intros [= <- <-];
        [eapply extends_trans; [eassumption|appends_tac]|done].
    + unfold makeInferedFnType.
      pose proof (makeInferedFnTypeLoop_appends (rev args) outputType
                    (addAffected symbol st)) as Hm.
      pose proof (SolverFrame.makeInferedFnTypeLoop_lookup (rev args) outputType
                    (addAffected symbol st) symbol entry Hget) as Hl.
      apply appends_extends in Hm.
      destruct (makeInferedFnTypeLoop _ _ _) as [st0 type]. simpl in Hm, Hl.
      destruct (setEntry symbol _ _) as [st1|] eqn:Hset; [|done]. simpl.
      apply (setEntry_extends _ _ entry) in Hset; [|done| |done].
      2:{ destruct Hm as (Hc & Hu & _).
          apply (accessible_iff (addAffected symbol st)); done. }
      assert (solverExtends st st1).
      { eapply extends_trans; [exact Haff|]. by eapply extends_trans. }
      destruct (e_ownValue entry); intros [= <- <-];
        [eapply extends_trans; [eassumption|appends_tac]|done].
  - destruct con as [type|[|a0 [|a1 rest]] out];
      try (destruct (replaceOneUndefined _ _); [|done]);
      intros [= <- <-]; appends_tac.
  - destruct con; intros [= <- <-]; appends_tac.
  - destruct arg, con; intros [= <- <-]; appends_tac.
  - done.
  - intros [= <- <-]. apply extends_refl.
  - destruct con; intros [= <- <-]; appends_tac.
  - destruct con; intros [= <- <-]; appends_tac.
  - destruct con; intros [= <- <-]; appends_tac.
  - destruct con; intros [= <- <-]; appends_tac.
  - destruct con; intros [= <- <-]; appends_tac.
Qed.

Lemma evaluateFnTypeEqualConstraint_extends fuel f args out st st' b :
  evaluateFnTypeEqualConstraint fuel f args out st = Ok (st', b) ->
  solverExtends st st'.
Proof.
  unfold evaluateFnTypeEqualConstraint.
  destruct (expand fuel st f) as [[fn ch]|]; [|done]. simpl.
  destruct fn; try (destruct ch; intros [= <- <-]; appends_tac).
  destruct args as [|a0 [|a1 rest]];
    try (destruct (match arg with Some _ => _ | None => _ end); [|done]);
    intros [= <- <-]; appends_tac.
Qed.

Lemma evaluateConstraint_extends cyc fuel con flag st st' b :
  evaluateConstraint cyc fuel con flag st = Ok (st', b) -> solverExtends st st'.
Proof.
  destruct con; simpl.
  - apply evaluateTypeConstraint_extends.
  - apply evaluateTypeConstraint_extends.
  - apply evaluateEqualConstraint_extends.
  - apply evaluateFnTypeEqualConstraint_extends.
  - done.
Qed.

Lemma iterateLoop_extends cyc fuel flag queue : forall ch st st' b,
  iterateLoop cyc fuel queue flag ch st = Ok (st', b) -> solverExtends st st'.
Proof.
  induction queue as [|con queue IH]; intros ch st st' b; simpl.
  - intros [= <- <-]. apply extends_refl.
  - destruct (evaluateConstraint cyc fuel con flag st) as [[st1 c]|] eqn:Hev; [|done].
    simpl. intros H. apply IH in H. apply evaluateConstraint_extends in Hev.
    by eapply extends_trans.
Qed.

Lemma iterate_extends cyc fuel flag st st' b :
  iterate cyc fuel flag st = Ok (st', b) -> solverExtends st st'.
Proof.
  unfold iterate. intros H. apply iterateLoop_extends in H.
  eapply extends_trans; [|exact H]. appends_tac.
Qed.

Lemma runLoop_extends cyc fuel n maxIterations iterations : forall st st',
  runLoop cyc fuel n maxIterations iterations st = Ok st' -> solverExtends st st'.
Proof.
  induction n as [|n IH]; intros st st'; simpl; [done|].
  destruct (maxIterations <? iterations); [intros [= <-]; apply extends_refl|].
  destruct (iterate cyc fuel false st) as [[st1 [|]]|] eqn:H1; simpl; [| |done].
  - intros H. apply IH in H. apply iterate_extends in H1. by eapply extends_trans.
  - destruct (iterate cyc fuel true st1) as [[st2 [|]]|] eqn:H2; simpl; [| |done].
    + intros H. apply IH in H. apply iterate_extends in H1, H2.
      eapply extends_trans; [exact H1|]. by eapply extends_trans.
    + intros [= <-]. apply iterate_extends in H1, H2. by eapply extends_trans.
Qed.

End SolverGrowth.

Module SolverLocked.

Import ConstraintSolver.

(** A symbol out of reach is a permanent one: its entry is read from
    the parent registry. *)
Lemma locked_lookup st x :
  ~ accessible st x ->
  TempSymbolRegistry.getSymbolEntry (registry st) x
  = SymbolRegistry.getSymbolEntry (TempSymbolRegistry.parent (registry st)) x.
Proof.
  intros Hn. unfold TempSymbolRegistry.getSymbolEntry.
  destruct (Z.ltb_spec x (SymbolRegistry.getSymbolCount
                            (TempSymbolRegistry.parent (registry st)))); [done|].
  destruct Hn. left. unfold TempSymbolRegistry.isTempSymbol. by apply Z.leb_le.
Qed.

Lemma substituteAll_locked comp reps x l : forall st st',
  substituteAll comp reps l st = Ok st' ->
  (forall s, s ∈ l -> accessible st s) ->
  ~ accessible st x ->
  TempSymbolRegistry.getSymbolEntry (registry st') x
  = TempSymbolRegistry.getSymbolEntry (registry st) x.
Proof.
  induction l as [|s l IH]; intros st st'; simpl; [by intros [= <-]|].
  unfold substituteAffected.
  destruct (TempSymbolRegistry.getSymbolEntry (registry st) s) as [entry|] eqn:Hget; [|done].
  simpl. unfold setEntry.
  destruct (TempFacts.setEntry_ok _ _ _ (substituteEntry comp reps entry) Hget)
    as (r' & Hr' & Hc & _).
  rewrite Hr'. simpl. intros Hrest Hall Hx.
  set (st1 := withRegistry r' st) in *.
  assert (Hacc : forall y, accessible st1 y <-> accessible st y)
    by (intros y; by apply SolverGrowth.accessible_iff).
  rewrite (IH st1 st' Hrest).
  - simpl. rewrite (C9.getSymbolEntry_setEntry _ _ _ _ Hr').
    case_decide as Hxs; [|done]. subst x. destruct Hx. apply Hall. by left.
  - intros y Hy. apply Hacc, Hall. by right.
  - by rewrite Hacc.
Qed.

Lemma reportUnresolved_unlocked st :
  unlockedSymbols (reportUnresolved st) = unlockedSymbols st.
Proof.
  unfold reportUnresolved. generalize (constraints st) as l. intros l. revert st.
  induction l as [|c l IH]; intros st; simpl; [done|]. by rewrite IH.
Qed.

Lemma finalCheck_locked comp fuel st st' x :
  finalCheck comp fuel st = Ok st' ->
  (forall s, s ∈ affectedSymbols st -> accessible st s) ->
  ~ accessible st x ->
  TempSymbolRegistry.getSymbolEntry (registry st') x
  = TempSymbolRegistry.getSymbolEntry (registry st) x.
Proof.
  unfold finalCheck. intros Hfinal Hall Hx.
  destruct (C8.reportUnresolved_spec (defaultLevels st)) as (Hr & _ & Ha).
  destruct (collectTemps _ _ _ _ _ _) as [[reps vars]|]; [|done]. simpl in Hfinal.
  set (st2 := match vars with [] => _ | _ :: _ => _ end) in Hfinal.
  assert (H2 : registry st2 = registry (defaultLevels st) /\
               affectedSymbols st2 = affectedSymbols st /\
               unlockedSymbols st2 = unlockedSymbols st).
  { pose proof (reportUnresolved_unlocked (defaultLevels st)) as Hu.
    unfold st2. destruct vars; simpl; rewrite Hr, Ha, Hu; done. }
  destruct H2 as (Hreg & Haff & Hunl).
  assert (Hacc : forall y, accessible st2 y <-> accessible st y).
  { intros y. unfold accessible, TempSymbolRegistry.isTempSymbol.
    by rewrite Hreg, Hunl. }
  rewrite (substituteAll_locked comp reps x _ st2 st' Hfinal).
  - rewrite !locked_lookup by (by rewrite ?Hacc). by rewrite Hreg.
  - intros s Hs. rewrite Hacc. apply Hall. by rewrite <- Haff.
  - by rewrite Hacc.
Qed.

End SolverLocked.





Module QuietPass.

Import ConstraintSolver.

(** [st'] is [st] up to diagnostics, with [cs] as its queue. *)
Local Abbreviation sameBut st st' cs :=
  (registry st' = registry st /\ unlockedSymbols st' = unlockedSymbols st /\
   affectedSymbols st' = affectedSymbols st /\ constraints st' = cs).

Lemma trySetOwnValue_false cyc s v st st' :
  trySetOwnValue cyc s v st = Ok (st', false) -> sameBut st st' (constraints st).
Proof.
  unfold trySetOwnValue.
  destruct (TempSymbolRegistry.getSymbolEntry (registry st) s) as [entry|]; [|done].
  simpl. destruct (bool_decide _); [by intros [= <-]|].
  destruct (negb _); [by intros [= <-]|].
  destruct (negb _); [by intros [= <-]|].
  destruct (setEntry s _ st) as [st1|]; [|done]. done.
Qed.

Lemma evaluateEqualStructural_false c1 c2 e1 e2 ch1 ch2 flag st st' :
  evaluateEqualStructural c1 c2 e1 e2 ch1 ch2 flag st = Ok (st', false) ->
  sameBut st st' (constraints st ++ [EQUAL c1 c2]) \/
  (flag = true /\ sameBut st st' (constraints st)).
Proof.
  unfold evaluateEqualStructural.
  destruct (matchLevelSucc e1 e2 st) as [stm m].
  assert (Hdefault :
    (if m then Ok (stm, true)
     else match flag, e1, e2 with
          | true, CALL fn1 args1, CALL fn2 args2 =>
              if decide (length args1 = length args2)
              then Ok (foldl (fun st (ab : Expression * Expression) =>
                                addEqualConstraint ab.1 ab.2 st)
                             (addEqualConstraint fn1 fn2 st) (zip args1 args2), true)
              else Ok (pushDiagnostic (UNEQUAL e1 e2) st, false)
          | _, _, _ =>
              if ch1 || ch2 then Ok (addEqualConstraint e1 e2 st, true)
              else Ok (pushConstraint (EQUAL c1 c2) st, false)
          end) = Ok (st', false) ->
    sameBut st st' (constraints st ++ [EQUAL c1 c2]) \/
    (flag = true /\ sameBut st st' (constraints st))).
  { destruct m; [done|].
    destruct flag, e1, e2;
      try (destruct (ch1 || ch2); [done|]; intros [= <-]; by left).
    destruct (decide _); [done|]. intros [= <-]. by right. }
  destruct e1, e2; try exact Hdefault; try done.
  - by destruct arg, arg0.
  - by destruct (decide _).
Qed.

Lemma evaluateConstraint_false cyc fuel con flag st st' :
  evaluateConstraint cyc fuel con flag st = Ok (st', false) ->
  isEqualityConstraint con = true /\
  (sameBut st st' (constraints st ++ [con]) \/
   (flag = true /\ sameBut st st' (constraints st))).
Proof.
  destruct con as [e ty|e args out|c1 c2|f args out|ty]; simpl; [| | | |done].
  - unfold evaluateTypeConstraint. intros H. exfalso. revert H.
    destruct e; try done.
    + destruct (TempSymbolRegistry.getSymbolEntry _ _) as [entry|]; [|done]. simpl.
      destruct (e_type entry); [done|].
      destruct (_ || _); [|done].
      destruct (setEntry _ _ _); [|done]. simpl. by destruct (e_ownValue entry).
    + by destruct arg.
  - unfold evaluateTypeConstraint. intros H. exfalso. revert H.
    destruct e; try done.
    + destruct (TempSymbolRegistry.getSymbolEntry _ _) as [entry|]; [|done]. simpl.
      destruct (e_type entry); [done|].
      destruct (_ || _); [|done].
      destruct (makeInferedFnType _ _ _) as [st0 type].
      destruct (setEntry _ _ _); [|done]. simpl. by destruct (e_ownValue entry).
    + destruct args as [|a0 [|a1 rest]]; try done.
      by destruct (replaceOneUndefined _ _).
    + by destruct arg.
  - split; [done|]. revert H. unfold evaluateEqualConstraint.
    destruct (expand fuel st c1) as [[e1 ch1]|]; [|done]. simpl.
    destruct (expand fuel st c2) as [[e2 ch2]|]; [|done]. simpl.
    destruct (orient (registry st) e1 e2) as [x1 x2].
    set (k := evaluateEqualStructural c1 c2 x1 x2 ch1 ch2 flag).
    assert (Hk : forall s s', k s = Ok (s', false) ->
              sameBut s s' (constraints s ++ [EQUAL c1 c2]) \/
              (flag = true /\ sameBut s s' (constraints s)))
      by (intros s s'; apply evaluateEqualStructural_false).
    clearbody k.
    destruct x1; try apply Hk.
    destruct (match x2 with SYMBOL s2 => _ | _ => false end); [done|].
    destruct (trySetOwnValue cyc symbol x2 st) as [[st1 ok]|] eqn:Hset; [|done].
    simpl. destruct ok; [done|].
    apply trySetOwnValue_false in Hset as (Hr1 & Hu1 & Ha1 & Hc1).
    intros H. apply Hk in H as [(Hr & Hu & Ha & Hc)|[Hf (Hr & Hu & Ha & Hc)]].
    + left. split_and!; congruence.
    + right. split; [done|]. split_and!; congruence.
  - split; [done|]. revert H. unfold evaluateFnTypeEqualConstraint.
    destruct (expand fuel st f) as [[fn ch]|]; [|done]. simpl.
    destruct fn; try (destruct ch; [done|]; intros [= <-]; by left).
    destruct args as [|a0 [|a1 rest]]; try done.
    by destruct (match arg with Some a => _ | None => _ end).
Qed.

Lemma iterateLoop_false cyc fuel flag queue : forall st st',
  iterateLoop cyc fuel queue flag false st = Ok (st', false) ->
  forallb isEqualityConstraint queue = true /\
  registry st' = registry st /\ unlockedSymbols st' = unlockedSymbols st /\
  affectedSymbols st' = affectedSymbols st /\
  (if flag then exists kept, kept `sublist_of` queue /\
                             constraints st' = constraints st ++ kept
   else constraints st' = constraints st ++ queue).
Proof.
  induction queue as [|con queue IH]; intros st st'; simpl.
  - intros [= <-]. split_and!; try done.
    destruct flag; [exists []|]; by rewrite app_nil_r.
  - destruct (evaluateConstraint cyc fuel con flag st) as [[st1 c]|] eqn:Hev; [|done].
    simpl. destruct c.
    { intros H. exfalso. revert H. clear. generalize st1 as s. 
      induction queue as [|c q IHq]; intros s; simpl; [done|].
      destruct (evaluateConstraint _ _ _ _ _) as [[s1 c1]|]; [|done]. simpl.
      destruct c1; apply IHq. }
    apply evaluateConstraint_false in Hev as [Hkind Hev].
    intros H. apply IH in H as (Hq & Hr & Hu & Ha & Hc).
    rewrite Hkind, Hq. split; [done|].
    destruct Hev as [(Hr1 & Hu1 & Ha1 & Hc1)|[-> (Hr1 & Hu1 & Ha1 & Hc1)]].
    + split_and!; try congruence.
      destruct flag.
      * destruct Hc as (kept & Hsub & Hc). exists (con :: kept).
        split; [by constructor|]. by rewrite Hc, Hc1, <- app_assoc.
      * by rewrite Hc, Hc1, <- app_assoc.
    + split_and!; try congruence.
      destruct Hc as (kept & Hsub & Hc). exists kept.
      split; [by constructor|]. by rewrite Hc, Hc1.
Qed.

End QuietPass.



Module InferedFnType.

Import ConstraintSolver.

(** The next scratch handle. *)
Local Abbreviation next st :=
  (Z.of_nat (length (TempSymbolRegistry.tempSymbols (registry st)))
   + TempSymbolRegistry.count (registry st)).

Lemma createTempSymbol_spec isLocal type st st1 s :
  createTempSymbol isLocal type st = (st1, s) ->
  s = next st /\ next st1 = next st + 1 /\
  constraints st1 = constraints st /\
  TempSymbolRegistry.getSymbolEntry (registry st1) s
    = Ok (mkEntry EmptyString None isLocal None type None None) /\
  (forall x e, TempSymbolRegistry.getSymbolEntry (registry st) x = Ok e ->
               TempSymbolRegistry.getSymbolEntry (registry st1) x = Ok e).
Proof.
  unfold createTempSymbol. simpl. intros [= <- <-].
  unfold TempSymbolRegistry.count. simpl. rewrite length_app. simpl.
  split; [done|]. split; [lia|]. split; [done|]. split.
  - apply TempFacts.getSymbolEntry_temp; unfold TempSymbolRegistry.count; simpl; [lia|].
    replace (Z.to_nat _) with (length (TempSymbolRegistry.tempSymbols (registry st))) by lia.
    by apply list_lookup_middle.
  - intros x e Hx. apply SolverFrame.getSymbolEntry_app. by destruct (registry st).
Qed.

Lemma loop_shape l : forall ret st,
  exists inputs,
    length inputs = length l /\
    (makeInferedFnTypeLoop l ret st).2
      = foldl (fun acc i => FN_TYPE (SYMBOL i) acc None) ret inputs /\
    constraints (makeInferedFnTypeLoop l ret st).1
      = constraints st ++ zip_with (fun a i => TYPE a (SYMBOL i)) l inputs /\
    Forall (fun i =>
      next st <= i - 1 /\
      TempSymbolRegistry.getSymbolEntry
        (registry (makeInferedFnTypeLoop l ret st).1) i
      = Ok (mkEntry EmptyString None false None (Some (UNIVERSE (SYMBOL (i - 1)))) None None))
      inputs.
Proof.
  induction l as [|a l IH]; intros ret st.
  - exists []. simpl. by rewrite app_nil_r.
  - cbn [makeInferedFnTypeLoop].
    destruct (createTempSymbol false None st) as [st1 sub] eqn:H1.
    destruct (createTempSymbol false (Some (UNIVERSE (symbolExpression sub))) st1)
      as [st2 input] eqn:H2.
    apply createTempSymbol_spec in H1 as (-> & Hn1 & Hc1 & _ & _).
    apply createTempSymbol_spec in H2 as (-> & Hn2 & Hc2 & Hget2 & _).
    match goal with |- context [makeInferedFnTypeLoop l ?r ?s] =>
      destruct (IH r s) as (inputs & Hlen & Hty & Hcs & Hall);
      pose proof (SolverFrame.makeInferedFnTypeLoop_lookup l r s) as Hkeep
    end.
    exists (next st1 :: inputs).
    split; [simpl; by rewrite Hlen|]. split; [exact Hty|]. split.
    + rewrite Hcs. simpl. rewrite Hc2, Hc1, <- app_assoc. done.
    + constructor.
      * split; [lia|]. apply Hkeep. simpl. rewrite Hget2.
        unfold symbolExpression. do 5 f_equal. lia.
      * eapply Forall_impl; [exact Hall|]. intros i [Hi Hget]. split; [|exact Hget].
        simpl in Hi. lia.
Qed.

Lemma rev_zip_with {A B C} (f : A -> B -> C) (l1 : list A) : forall l2,
  length l1 = length l2 ->
  zip_with f (rev l1) (rev l2) = rev (zip_with f l1 l2).
Proof.
  induction l1 as [|a l1 IH]; intros [|b l2] Hlen; simpl in *; try done.
  rewrite <- IH by lia. rewrite zip_with_app by (rewrite !length_rev; lia). done.
Qed.

Lemma foldl_arrows inputs : forall ret,
  foldl (fun acc i => FN_TYPE (SYMBOL i) acc None) ret inputs = arrows (rev inputs) ret.
Proof.
  induction inputs as [|i inputs IH]; intros ret; simpl; [done|].
  rewrite IH. unfold arrows. by rewrite foldr_app.
Qed.

End InferedFnType.

(** X21.  The type inferred for a head applied to [args].
    [makeInferedFnType] returns the function type
    [i1 -> ... -> in -> outputType] with one input per argument, queues
    the constraint [a : i] for every argument [a] and its input [i]
    (the last argument first), and every input is a scratch symbol
    created by the call whose type is a universe over the scratch symbol
    created just before it. *)
Theorem makeInferedFnType_shape args outputType st :
  exists inputs,
    length inputs = length args /\
    (ConstraintSolver.makeInferedFnType args outputType st).2 = arrows inputs outputType /\
    ConstraintSolver.constraints (ConstraintSolver.makeInferedFnType args outputType st).1
      = ConstraintSolver.constraints st
        ++ rev (zip_with (fun a i => TYPE a (SYMBOL i)) args inputs) /\
    Forall (fun i =>
      TempSymbolRegistry.getSymbolEntry (ConstraintSolver.registry st) (i - 1)
        = Err Undefined /\
      TempSymbolRegistry.getSymbolEntry
        (ConstraintSolver.registry (ConstraintSolver.makeInferedFnType args outputType st).1) i
        = Ok (mkEntry EmptyString None false None (Some (UNIVERSE (SYMBOL (i - 1)))) None None))
      inputs.
Proof.
  unfold ConstraintSolver.makeInferedFnType.
  destruct (InferedFnType.loop_shape (rev args) outputType st)
    as (inputs & Hlen & Hty & Hcs & Hall).
  rewrite length_rev in Hlen.
  exists (rev inputs). split; [by rewrite length_rev|]. split; [|split].
  - rewrite Hty. apply InferedFnType.foldl_arrows.
  - rewrite Hcs. f_equal.
    rewrite <- (rev_involutive inputs) at 1.
    apply InferedFnType.rev_zip_with. by rewrite length_rev.
  - apply Forall_rev. eapply Forall_impl; [exact Hall|]. intros i [Hi Hget].
    split; [|exact Hget].
    unfold TempSymbolRegistry.getSymbolEntry, TempSymbolRegistry.count in *.
    destruct (Z.ltb_spec (i - 1) (SymbolRegistry.getSymbolCount
               (TempSymbolRegistry.parent (ConstraintSolver.registry st)))); [lia|].
    unfold arrayGet.
    destruct (Z.ltb_spec (i - 1 - SymbolRegistry.getSymbolCount
               (TempSymbolRegistry.parent (ConstraintSolver.registry st)))
               (Z.of_nat (length (TempSymbolRegistry.tempSymbols (ConstraintSolver.registry st)))));
      [lia|]. by rewrite andb_false_r.
Qed.

(** X22.  Equations with a level successor are solved from one side
    only.  Let [a] normalise to a successor [succ(t)] and [b] to a level
    literal [n].  Evaluating [a === b] replaces the equation by
    [t === n - 1] when [n > 0] and reports [UNEQUAL] when [n <= 0];
    the difference is the one of the run time's numbers, which is
    [n - 1] exactly for [n] up to [2 ^ 53] and [n - 2] for the next
    number, [2 ^ 53 + 2].  Evaluating [b === a] does neither: the
    exchange in [matchLevelSucc] overwrites the successor with the
    literal, so the equation is put back, in normal form if normalising
    changed a side and as it was, with no change reported, if not. *)
Theorem level_successor_solved_from_one_side cyc fuel st a b t n c1 c2 flag :
  ConstraintSolver.expand fuel st a = Ok (LEVEL_SUCC t, c1) ->
  ConstraintSolver.expand fuel st b = Ok (LEVEL n, c2) ->
  ConstraintSolver.evaluateEqualConstraint cyc fuel a b flag st
  = Ok (if 0 <? n
        then ConstraintSolver.addEqualConstraint t (LEVEL (number (n - 1))) st
        else ConstraintSolver.pushDiagnostic (UNEQUAL (LEVEL_SUCC t) (LEVEL n)) st,
        true) /\
  (0 < n <= 2 ^ 53 -> number (n - 1) = n - 1) /\
  number (2 ^ 53 + 2 - 1) = 2 ^ 53 /\
  ConstraintSolver.evaluateEqualConstraint cyc fuel b a flag st
  = Ok (if c1 || c2
        then ConstraintSolver.addEqualConstraint (LEVEL n) (LEVEL_SUCC t) st
        else ConstraintSolver.pushConstraint (EQUAL b a) st,
        c1 || c2).
Proof.
  intros Ha Hb. unfold ConstraintSolver.evaluateEqualConstraint.
  rewrite Ha, Hb. simpl. split_and!.
  - by destruct (0 <? n).
  - intros Hn. apply ExpanderFacts.number_exact. lia.
  - by vm_compute.
  - rewrite (orb_comm c2 c1). destruct flag, (c1 || c2); reflexivity.
Qed.

(** [succ(x) === 3] and [3 === succ(x)] for a fresh symbol [x]. *)
Lemma level_successor_solved_from_one_side_witness :
  let fresh := ConstraintSolver.createTempSymbol false (Some LEVEL_TYPE)
                 (ConstraintSolver.create standardRegistry) in
  let st := fresh.1 in
  let x := fresh.2 in
  ConstraintSolver.evaluateEqualConstraint checkOwnValueCycle 10
    (LEVEL_SUCC (SYMBOL x)) (LEVEL 3) false st
  = Ok (ConstraintSolver.addEqualConstraint (SYMBOL x) (LEVEL 2) st, true) /\
  ConstraintSolver.evaluateEqualConstraint checkOwnValueCycle 10
    (LEVEL 3) (LEVEL_SUCC (SYMBOL x)) false st
  = Ok (ConstraintSolver.pushConstraint (EQUAL (LEVEL 3) (LEVEL_SUCC (SYMBOL x))) st,
        false).
Proof.
  intros fresh st x.
  destruct (level_successor_solved_from_one_side checkOwnValueCycle 10 st
              (LEVEL_SUCC (SYMBOL x)) (LEVEL 3) (SYMBOL x) 3 false false false)
    as (H1 & _ & _ & H2); [vm_compute; reflexivity..|].
  split; [exact H1|exact H2].
Defined.

Module AnalyseFacts.

Import Analyse.

Lemma convert_elaborated expr : forall c c' e,
  convert expr c = Ok (c', Some e) -> elaborated e = true.
Proof.
  induction expr as [name|path| |o i a IHo IHi|name body IHb|fn args IHfn IHargs|name|s IHs|v]
    using Ast_ind'; intros c c' e; cbn [convert].
  - destruct (resolveIdentifier _ _ _ _) as [[s|]|]; simpl; try done. by intros [= <- <-].
  - destruct (resolveSymbol path (c_st c)) as [[st [s|]]|]; simpl; try done.
    by intros [= <- <-].
  - by intros [= <- <-].
  - assert (Hrest : forall c1 (symbol : option Z), 
      ('(c, inputType') ← convert i c1;
       match inputType' : option Expression with
       | None => Ok (c, None)
       | Some inputType' =>
           '(c, outputType') ← convert o c;
           match outputType' : option Expression with
           | None => Ok (c, None)
           | Some outputType' =>
               let c := match symbol : option Z with
                        | Some _ => popFnArg c
                        | None => c
                        end in
               Ok (c, Some (FN_TYPE inputType' outputType' symbol))
           end
       end) = Ok (c', Some e) -> elaborated e = true).
    { intros c1 symbol.
      destruct (convert i c1) as [[c2 [i'|]]|] eqn:Hi; cbn [mbind Result_bind]; try done.
      destruct (convert o c2) as [[c3 [o'|]]|] eqn:Ho; cbn [mbind Result_bind]; try done.
      intros [= <- <-]. simpl. by rewrite (IHi _ _ _ Hi), (IHo _ _ _ Ho). }
    destruct a as [name|].
    + destruct (convGenerated name c) as [[c1 symbol]|]; [|done].
      cbn [mbind Result_bind]. apply (Hrest (pushFnArg symbol c1) (Some symbol)).
    + cbn [mbind Result_bind]. apply (Hrest c None).
  - destruct (convGenerated name c) as [[c1 symbol]|]; [|done]. cbn [mbind Result_bind].
    destruct (convert body _) as [[c2 [b'|]]|] eqn:Hb; cbn [mbind Result_bind]; try done.
    intros [= <- <-]. simpl. by apply (IHb _ _ _ Hb).
  - destruct (convert fn c) as [[c1 [fn'|]]|] eqn:Hfn; cbn [mbind Result_bind]; try done.
    match goal with |- context [?g args c1] =>
      match g with (fix go (l : list Ast.t) (c : Conv) {struct l} : _ := _) =>
        set (go := g) end end.
    assert (Hgo : forall c1 c2 l, go args c1 = Ok (c2, Some l) ->
                                  forallb elaborated l = true).
    { clear -IHargs. induction IHargs as [|x r Hx _ IH]; intros c1 c2 l; simpl.
      - by intros [= <- <-].
      - destruct (convert x c1) as [[c3 [x'|]]|] eqn:Hcx; cbn [mbind Result_bind]; try done.
        destruct (go r c3) as [[c4 [r'|]]|] eqn:Hr; cbn [mbind Result_bind]; try done.
        intros [= <- <-]. simpl. by rewrite (Hx _ _ _ Hcx), (IH _ _ _ Hr). }
    destruct (go args c1) as [[c2 [l|]]|] eqn:Hl; cbn [mbind Result_bind]; try done.
    intros [= <- <-]. simpl. by rewrite (IHfn _ _ _ Hfn), (Hgo _ _ _ Hl).
  - destruct (convGenerated name c) as [[c1 symbol]|]; [|done]. simpl. by intros [= <- <-].
  - destruct (convert s c) as [[c1 [s'|]]|] eqn:Hs; cbn [mbind Result_bind]; try done.
    intros [= <- <-]. simpl. by apply (IHs _ _ _ Hs).
  - by intros [= <- <-].
Qed.

End AnalyseFacts.

(** X23.  What the elaborator builds.  A term returned by
    [convertExpression] consists of symbols, lambdas, calls, function
    types, universes and level literals only: pattern holes of the
    source become symbols, and no [PATTERN], [PLACEHOLDER], [LEVEL_TYPE],
    [LEVEL_SUCC] or [LEVEL_MAX] node is ever produced. *)
Theorem convertExpression_builds_elaborated_terms expr patternSymbols st st' ps' e :
  Analyse.convertExpression expr patternSymbols st = Ok (st', ps', Some e) ->
  elaborated e = true.
Proof.
  unfold Analyse.convertExpression.
  destruct (Analyse.convert expr _) as [[c [e'|]]|] eqn:Hc; simpl; try done.
  intros [= <- <- <-]. by eapply AnalyseFacts.convert_elaborated.
Qed.

(** The left-hand side [f(?n, 0l)] over the standard registry: the hole
    becomes the symbol [generated.n]. *)
Lemma convertExpression_builds_elaborated_terms_witness :
  let lhs := Ast.CALL (Ast.IDENTIFIER "root") [Ast.PATTERN "n"; Ast.TYPE_UNIVERSE_SUBSCRIPT 0] in
  exists st' ps',
    Analyse.convertExpression lhs (Some []) undeclaredStart
      = Ok (st', ps', Some (CALL (SYMBOL 2) [SYMBOL 4; LEVEL 0])) /\
    elaborated (CALL (SYMBOL 2) [SYMBOL 4; LEVEL 0]) = true.
Proof.
  intros lhs. eexists _, _. split; [vm_compute; reflexivity|].
  refine (convertExpression_builds_elaborated_terms lhs (Some []) undeclaredStart
            _ _ _ _).
  vm_compute. reflexivity.
Defined.

Module DeclareFacts.

Import Analyse.

(** [h] is the child of [p] called [n]. *)
Local Abbreviation childOf reg p n h :=
  (exists m, SymbolRegistry.childMap reg (Some p) = Ok (Some m) /\ m !! n = Some h).

Lemma lookupSymbol_linked st p n h :
  childOf (context st) p n h -> lookupSymbol st (Some p) n = Ok (Some h).
Proof.
  intros (m & Hm & Hh). unfold lookupSymbol.
  by rewrite (RegistryLookup.getSymbol_found _ _ _ _ m h Hm Hh).
Qed.

(** Without released handles, adding a child disturbs no other link. *)
Lemma addNewSymbol_frame reg p name isLocal reg' h b :
  SymbolRegistry.removedSymbols reg = [] ->
  SymbolRegistry.addNewSymbol reg (Some p) name isLocal = Ok (reg', (h, b)) ->
  SymbolRegistry.removedSymbols reg' = [] /\
  forall p' n' h', childOf reg p' n' h' -> childOf reg' p' n' h'.
Proof.
  intros Hfree. unfold SymbolRegistry.addNewSymbol.
  destruct (SymbolRegistry.childMap reg (Some p)) as [map|] eqn:Hmap; [|done]. simpl.
  destruct (map ≫= lookup name) as [x|] eqn:Hx; [by intros [= <- <- <-]|].
  unfold SymbolRegistry.createSymbol. rewrite Hfree. simpl.
  destruct (arrayGet _ p) as [pe|] eqn:Hpe; [|done].
  unfold SymbolRegistry.setEntry. simpl.
  pose proof (RegistryFacts.arrayGet_range _ _ _ Hpe) as Hpr.
  rewrite RegistryFacts.arraySet_in_range by done. simpl. intros [= <- <- <-].
  split; [done|].
  unfold SymbolRegistry.childMap in *. simpl.
  destruct (arrayGet (SymbolRegistry.entriesById reg) p) as [pe0|] eqn:Hpe0; [|done].
  injection Hmap as <-.
  pose proof (RegistryFacts.arrayGet_range _ _ _ Hpe0) as Hp0.
  assert (pe = pe0) as ->.
  { apply RegistryFacts.arrayGet_Some in Hpe as [_ Hpe].
    apply RegistryFacts.arrayGet_Some in Hpe0 as [_ Hpe0].
    rewrite lookup_app_l in Hpe by lia. congruence. }
  intros p' n' h' (m & Hm & Hh).
  destruct (arrayGet (SymbolRegistry.entriesById reg) p') as [pe'|] eqn:Hp'; [|done].
  injection Hm as Hm.
  pose proof (RegistryFacts.arrayGet_range _ _ _ Hp') as Hpr'.
  rewrite RegistryFacts.arrayGet_insert by lia.
  destruct (decide (p = p')) as [<-|Hne].
  - rewrite Hpe0 in Hp'. injection Hp' as <-. simpl.
    eexists; split; [done|]. rewrite Hm. simpl.
    rewrite lookup_insert_ne; [done|]. intros <-. rewrite Hm in Hx. simpl in Hx. congruence.
  - assert (arrayGet (SymbolRegistry.entriesById reg ++ [newEntry (Some p) name isLocal]) p'
            = Some pe') as ->.
    { apply RegistryFacts.arrayGet_Some in Hp' as [? Hp'].
      apply RegistryFacts.arrayGet_Some. split; [done|]. by apply lookup_app_l_Some. }
    rewrite Hm. eauto.
Qed.

Lemma addSymbol_declares parent name st st1 h :
  SymbolRegistry.removedSymbols (context st) = [] ->
  addSymbol parent name st = Ok (st1, Some h) ->
  SymbolRegistry.removedSymbols (context st1) = [] /\
  outermostSymbol st1 = outermostSymbol st /\
  childOf (context st1) parent name h /\
  forall p' n' h', childOf (context st) p' n' h' -> childOf (context st1) p' n' h'.
Proof.
  intros Hfree. unfold addSymbol.
  destruct (SymbolRegistry.addNewSymbol (context st) (Some parent) name false)
    as [[c [symbol success]]|] eqn:Hadd; [|done]. simpl.
  destruct (addNewSymbol_frame _ _ _ _ _ _ _ Hfree Hadd) as [Hfree' Hframe].
  destruct (RegistryLookup.addNewSymbol_childMap _ _ _ _ _ _ _ Hadd) as (m & Hm & Hh).
  destruct success.
  - intros [= <- <-]. split_and!; try done. by exists m.
  - case_bool_decide; [|done]. intros [= <- <-]. split_and!; try done. by exists m.
Qed.

Lemma prepareSymbolPath_resolves path : forall p st st' s,
  SymbolRegistry.removedSymbols (context st) = [] ->
  prepareSymbolPath p path st = Ok (st', Some s) ->
  SymbolRegistry.removedSymbols (context st') = [] /\
  outermostSymbol st' = outermostSymbol st /\
  (forall p' n' h', childOf (context st) p' n' h' -> childOf (context st') p' n' h') /\
  resolveMembers (Some p) path st' = Ok (st', Some s).
Proof.
  induction path as [|name path IH]; intros p st st' s Hfree; simpl.
  - intros [= <- <-]. done.
  - destruct (addSymbol p name st) as [[st1 [h|]]|] eqn:Hadd; simpl; try done.
    intros Hrest.
    destruct (addSymbol_declares _ _ _ _ _ Hfree Hadd) as (Hfree1 & Ho1 & Hlink & Hframe1).
    destruct (IH _ _ _ _ Hfree1 Hrest) as (Hfree' & Ho' & Hframe' & Hres).
    split; [done|]. split; [congruence|].
    split; [intros p' n' h' Hl; by apply Hframe', Hframe1|].
    cbn [resolveMembers]. rewrite (lookupSymbol_linked st' p name h) by auto.
    simpl. exact Hres.
Qed.

Lemma resolveMembers_diagnostics path : forall first st st' r,
  resolveMembers first path st = Ok (st', r) ->
  (length (diagnostics st) <= length (diagnostics st'))%nat.
Proof.
  induction path as [|name path IH]; intros first st st' r; simpl.
  - by intros [= <- <-].
  - destruct (lookupSymbol st first name) as [[h|]|]; simpl; [| |done].
    + apply IH.
    + intros H. apply IH in H. simpl in H. rewrite length_app in H. simpl in H. lia.
Qed.

End DeclareFacts.

(** X24.  Declared names resolve.  Over a registry with no released
    handle, the symbol that [prepareSymbol] returns for a declared name
    is the one that [resolveIdentifier] finds for that name afterwards,
    and the symbol it returns for a declared dotted path is the one that
    [resolveSymbol] finds for that path, without a diagnostic. *)
Theorem declared_names_resolve st st' s :
  SymbolRegistry.removedSymbols (Analyse.context st) = [] ->
  (forall name,
     Analyse.prepareSymbol (Ast.IDENTIFIER name) st = Ok (st', Some s) ->
     Analyse.resolveIdentifier st' name None None = Ok (Some s)) /\
  (forall name path,
     Analyse.prepareSymbol (Ast.SYMBOL (name :: path)) st = Ok (st', Some s) ->
     Analyse.resolveSymbol (name :: path) st' = Ok (st', Some s)).
Proof.
  intros Hfree. split.
  - intros name. cbn [Analyse.prepareSymbol]. intros Hadd.
    destruct (DeclareFacts.addSymbol_declares _ _ _ _ _ Hfree Hadd) as (_ & Ho & Hlink & _).
    rewrite <- Ho in Hlink. apply DeclareFacts.lookupSymbol_linked in Hlink.
    unfold Analyse.resolveIdentifier. cbn [mbind Result_bind]. by rewrite Hlink.
  - intros name path. cbn [Analyse.prepareSymbol]. intros Hprep.
    destruct (DeclareFacts.prepareSymbolPath_resolves _ _ _ _ _ Hfree Hprep)
      as (_ & Ho & _ & Hres).
    cbn [Analyse.resolveMembers] in Hres. rewrite <- Ho in Hres.
    unfold Analyse.resolveSymbol, Analyse.resolveIdentifier. cbn [mbind Result_bind].
    destruct (Analyse.lookupSymbol st' (Some (Analyse.outermostSymbol st')) name)
      as [[h|]|] eqn:Hl; cbn [mbind Result_bind] in *; [exact Hres| |done].
    exfalso. apply DeclareFacts.resolveMembers_diagnostics in Hres.
    simpl in Hres. rewrite length_app in Hres. simpl in Hres. lia.
Qed.

(** [Nat.zero] is declared under [root] and resolved again. *)
Lemma declared_names_resolve_witness :
  exists st',
    Analyse.prepareSymbol (Ast.SYMBOL ["Nat"; "zero"]) undeclaredStart = Ok (st', Some 5) /\
    Analyse.resolveSymbol ["Nat"; "zero"] st' = Ok (st', Some 5).
Proof.
  eexists. split; [vm_compute; reflexivity|].
  refine (proj2 (declared_names_resolve undeclaredStart _ 5 _) "Nat" ["zero"] _).
  - reflexivity.
  - vm_compute. reflexivity.
Defined.

Module RedeclareFacts.

Lemma elem_of_setAdd s l : s ∈ setAdd s l.
Proof.
  unfold setAdd. case_decide; [done|]. apply elem_of_app. right. by apply list_elem_of_singleton.
Qed.

(** Writing back the registry that is there already changes nothing. *)
Lemma withContext_same st : Analyse.withContext (Analyse.context st) st = st.
Proof. by destruct st as [[[temps c] ds cs us afs] d n o g]. Qed.

End RedeclareFacts.

(** X25.  Declaring a name twice.  A name that [addSymbol] has just
    declared can be declared again within the same analysis: the second
    call returns the same symbol and changes nothing.  A name that was
    in the registry before the analysis is refused: [addSymbol] returns
    [null] and only adds the diagnostic [cannot redefine symbol]. *)
Theorem addSymbol_again parent name st :
  (forall st1 s,
     Analyse.addSymbol parent name st = Ok (st1, Some s) ->
     Analyse.addSymbol parent name st1 = Ok (st1, Some s)) /\
  (forall m s,
     SymbolRegistry.childMap (Analyse.context st) (Some parent) = Ok (Some m) ->
     m !! name = Some s -> s ∉ Analyse.newSymbols st ->
     Analyse.addSymbol parent name st
     = Ok (Analyse.pushDiagnostic ("cannot redefine symbol " +:+ name) st, None)).
Proof.
  split.
  - intros st1 s. unfold Analyse.addSymbol at 1.
    destruct (SymbolRegistry.addNewSymbol _ _ _ _) as [[c [symbol success]]|] eqn:Hadd; [|done].
    simpl.
    destruct (RegistryLookup.addNewSymbol_childMap _ _ _ _ _ _ _ Hadd) as (m & Hm & Hs).
    assert (Hagain : forall st2, Analyse.context st2 = c -> symbol ∈ Analyse.newSymbols st2 ->
              Analyse.addSymbol parent name st2 = Ok (st2, Some symbol)).
    { intros st2 Hc Hin. unfold Analyse.addSymbol.
      rewrite Hc, (RegistryLookup.addNewSymbol_found c (Some parent) name false m symbol Hm Hs).
      simpl. rewrite <- Hc, RedeclareFacts.withContext_same.
      by rewrite bool_decide_eq_true_2. }
    destruct success.
    + intros [= <- <-]. apply Hagain; [done|]. simpl. apply RedeclareFacts.elem_of_setAdd.
    + case_bool_decide as Hin; [|done]. intros [= <- <-]. by apply Hagain.
  - intros m s Hm Hs Hnew. unfold Analyse.addSymbol.
    rewrite (RegistryLookup.addNewSymbol_found _ (Some parent) name false m s Hm Hs).
    simpl. rewrite RedeclareFacts.withContext_same.
    by rewrite bool_decide_eq_false_2.
Qed.

(** [Nat] is declared twice under [root]; [Level] exists under
    [builtin] and is refused. *)
Lemma addSymbol_again_witness :
  (exists st1,
     Analyse.addSymbol 2 "Nat" undeclaredStart = Ok (st1, Some 4) /\
     Analyse.addSymbol 2 "Nat" st1 = Ok (st1, Some 4)) /\
  Analyse.addSymbol 0 "Level" undeclaredStart
  = Ok (Analyse.pushDiagnostic "cannot redefine symbol Level" undeclaredStart, None).
Proof.
  split.
  - eexists. split; [vm_compute; reflexivity|].
    apply (proj1 (addSymbol_again 2 "Nat" undeclaredStart)). vm_compute. reflexivity.
  - eapply (proj2 (addSymbol_again 0 "Level" undeclaredStart) _ 1).
    + vm_compute. reflexivity.
    + vm_compute. reflexivity.
    + apply not_elem_of_nil.
Defined.

Module LexerFacts.

Import Lexer.

Lemma span_le p l : (span p l <= List.length l)%nat.
Proof. induction l as [|c l IH]; simpl; [done|]. destruct (p c); simpl; lia. Qed.

Lemma codeIs_lt src i code : codeIs (src !! i) code = true -> (i < List.length src)%nat.
Proof.
  destruct (src !! i) eqn:H; [|done]. intros _. by eapply lookup_lt_Some.
Qed.

(** Where the loop stops, the test fails. *)
Lemma span_stop p src c ch :
  src !! (c + span p (drop c src))%nat = Some ch -> p ch = false.
Proof.
  rewrite <- lookup_drop. generalize (drop c src) as l. clear.
  induction l as [|x l IH]; simpl; [done|].
  destruct (p x) eqn:Hx; simpl; [exact IH|]. by intros [= <-].
Qed.

Lemma span_first_false p l ch : l !! 0%nat = Some ch -> p ch = false -> span p l = 0%nat.
Proof. destruct l as [|x l]; simpl; [done|]. intros [= ->] ->. done. Qed.

Lemma span_all p l rest :
  forallb p l = true ->
  match rest with [] => true | ch :: _ => negb (p ch) end = true ->
  span p (l ++ rest) = List.length l.
Proof.
  intros Hl Hrest. induction l as [|x l IH]; simpl in *.
  - destruct rest as [|ch rest]; simpl; [done|]. by destruct (p ch).
  - apply andb_true_iff in Hl as [-> Hl]. by rewrite IH.
Qed.

Ltac branches :=
  repeat match goal with
         | |- context [if ?b then _ else _] =>
             let E := fresh "E" in destruct b eqn:E
         | |- context [match keyword ?t with _ => _ end] =>
             let E := fresh "K" in destruct (keyword t) eqn:E
         end.

(** Every token lies in the text, starts at or after the cursor and
    ends where the cursor is left; only [EOF] is empty. *)
Lemma scanFrom_token st c tok st' :
  scanFrom st c = (Some tok, st') ->
  source st' = source st /\ diagnostics st' = diagnostics st /\
  start tok = c /\ (start tok + length tok)%nat = cursor st' /\
  (cursor st' <= Nat.max c (List.length (source st)))%nat /\
  (kind tok = EOF -> length tok = 0%nat /\ (List.length (source st) <= c)%nat) /\
  (kind tok <> EOF -> (1 <= length tok)%nat).
Proof.
  unfold scanFrom.
  pose proof (span_le isDigit (drop c (source st))) as Hd.
  pose proof (span_le isIdentifierPart (drop c (source st))) as Hi.
  rewrite length_drop in Hd, Hi.
  branches; intros [= <- <-]; simpl;
    repeat match goal with
           | H : (_ <=? _)%nat = true |- _ => apply Nat.leb_le in H
           | H : (_ <=? _)%nat = false |- _ => apply Nat.leb_gt in H
           | H : (_ <? _)%nat = true |- _ => apply Nat.ltb_lt in H
           | H : _ && _ = true |- _ => apply andb_true_iff in H as [? ?]
           | H : codeIs _ _ = true |- _ => apply codeIs_lt in H
           end;
    split_and!; try done; try lia;
    try (intros _; lia); try (intros; split; lia).
  intros ->. unfold keyword in K. by repeat case_decide.
Qed.

End LexerFacts.

Module ScanFacts.

Import Lexer LexerFacts.

Lemma span_take p l : forallb p (take (span p l) l) = true.
Proof.
  induction l as [|x l IH]; simpl; [done|].
  destruct (p x) eqn:Hx; simpl; [|done]. by rewrite Hx.
Qed.

Lemma span_again p l : span p (drop (span p l) l) = 0%nat.
Proof.
  induction l as [|x l IH]; simpl; [done|].
  destruct (p x) eqn:Hx; simpl; [done|]. by rewrite Hx.
Qed.

(** Where the first loop of [_scanNextToken] has stopped it does not
    move again. *)
Lemma skip_again src c :
  span isWhitespace (drop (c + span isWhitespace (drop c src)) src) = 0%nat.
Proof. rewrite <- drop_drop. apply span_again. Qed.

(** The token depends on the text only. *)
Lemma scanFrom_source st1 st2 c :
  source st1 = source st2 -> (scanFrom st1 c).1 = (scanFrom st2 c).1.
Proof. unfold scanFrom. intros ->. branches; reflexivity. Qed.

Lemma scanFrom_null st c st' :
  scanFrom st c = (None, st') ->
  st' = mk (source st) c
           (diagnostics st ++ [mkDiagnostic (UNEXPECTED_CHARACTER (source st !! c)) c 1]) /\
  (c < List.length (source st))%nat.
Proof.
  unfold scanFrom. destruct (_ <=? _)%nat eqn:Hlen; [done|]. apply Nat.leb_gt in Hlen.
  branches; by intros [= <-].
Qed.

(** After [null] the scanner answers [null] again, from the same place
    and with the same complaint. *)
Lemma scan_null_again st st' :
  _scanNextToken st = (None, st') ->
  exists d,
    diagnostics st' = diagnostics st ++ [d] /\
    _scanNextToken st' = (None, mk (source st') (cursor st') (diagnostics st' ++ [d])).
Proof.
  unfold _scanNextToken. intros H.
  pose proof H as H'. apply scanFrom_null in H' as [-> _].
  simpl. rewrite skip_again, Nat.add_0_r.
  set (c := (cursor st + span isWhitespace (drop (cursor st) (source st)))%nat) in *.
  eexists. split; [reflexivity|].
  set (st1 := mk (source st) c _).
  pose proof (scanFrom_source st1 st c eq_refl) as Hs. rewrite H in Hs. simpl in Hs.
  destruct (scanFrom st1 c) as [tok st2] eqn:H2. simpl in Hs. subst tok.
  by apply scanFrom_null in H2 as [-> _].
Qed.

Lemma doLah_null count : forall fuel self lx,
  (List.length (lah self) < count)%nat ->
  _scanNextToken (lexer self) = (None, lx) ->
  doLah fuel count self = Err OutOfFuel.
Proof.
  induction fuel as [|fuel IH]; intros self lx Hlt Hscan; simpl.
  - apply Nat.ltb_lt in Hlt. by rewrite Hlt.
  - pose proof Hlt as Hlt'. apply Nat.ltb_lt in Hlt'. rewrite Hlt', Hscan.
    destruct (scan_null_again _ _ Hscan) as (d & _ & Hagain).
    by apply (IH (mkParser lx (token self) (lah self)) _ Hlt Hagain).
Qed.

Lemma doLah_feeds count : forall fuel self self',
  doLah fuel count self = Ok self' ->
  token self' = token self /\
  List.length (lah self') = Nat.max count (List.length (lah self)) /\
  exists extra, lah self' = lah self ++ extra /\ feeds (lexer self) extra (lexer self').
Proof.
  induction fuel as [|fuel IH]; intros self self'; simpl.
  - destruct (_ <? _)%nat eqn:Hlt; [done|]. intros [= <-]. apply Nat.ltb_ge in Hlt.
    split_and!; [done|lia|]. exists []. rewrite app_nil_r. split; [done|constructor].
  - destruct (_ <? _)%nat eqn:Hlt.
    + apply Nat.ltb_lt in Hlt.
      destruct (_scanNextToken (lexer self)) as [[tok|] lx] eqn:Hscan.
      * intros H. apply IH in H as (Ht & Hlen & extra & Hl & Hf). simpl in *.
        rewrite length_app in Hlen. simpl in Hlen.
        split_and!; [done|lia|]. exists (tok :: extra).
        split; [by rewrite Hl, <- app_assoc|]. by econstructor.
      * intros H. exfalso.
        assert (Hn : doLah (S fuel) count self = Err OutOfFuel)
          by (by apply (doLah_null count (S fuel) self lx)).
        simpl in Hn. apply Nat.ltb_lt in Hlt. rewrite Hlt, Hscan in Hn. congruence.
    + intros [= <-]. apply Nat.ltb_ge in Hlt.
      split_and!; [done|lia|]. exists []. rewrite app_nil_r. split; [done|constructor].
Qed.

Lemma ahead_nextToken self self' :
  ahead self self' -> ahead (nextToken self) (nextToken self').
Proof.
  intros (Ht & extra & Hl & Hf). unfold nextToken.
  destruct (lah self) as [|tok rest] eqn:Hlah; simpl in Hl.
  - rewrite Hl. destruct Hf as [lx|lx tok lx1 toks lx2 Hscan Hf].
    + destruct (_scanNextToken lx) as [[tok|] lx1]; (split; [simpl; congruence|]);
        exists []; (split; [done|constructor]).
    + rewrite Hscan. split; [done|]. exists toks. split; [done|]. done.
  - rewrite Hl. split; [done|]. exists extra. split; [done|]. done.
Qed.

Lemma ahead_length self self' :
  ahead self self' ->
  (List.length (lah (nextToken self')) <= Nat.pred (List.length (lah self')))%nat.
Proof.
  intros _. unfold nextToken. destruct (lah self') as [|tok rest]; simpl.
  - by destruct (_scanNextToken _) as [[?|] ?].
  - done.
Qed.

Lemma ahead_iter self self' k :
  ahead self self' ->
  ahead (Nat.iter k nextToken self) (Nat.iter k nextToken self') /\
  (List.length (lah (Nat.iter k nextToken self')) <= List.length (lah self') - k)%nat.
Proof.
  intros H. induction k as [|k [IH1 IH2]]; simpl.
  - split; [done|lia].
  - split; [by apply ahead_nextToken|].
    pose proof (ahead_length _ _ IH1). lia.
Qed.

Lemma ahead_empty self self' : ahead self self' -> lah self' = [] -> self' = self.
Proof.
  intros (Ht & extra & Hl & Hf) He. rewrite He in Hl. symmetry in Hl.
  apply app_eq_nil in Hl as [Hl ->]. inversion Hf; subst.
  destruct self, self'; simpl in *; congruence.
Qed.

End ScanFacts.

(** X26.  The geometry of a token.  Whenever [_scanNextToken] returns
    a token, the text and the diagnostics are untouched, only white
    space lies between the old cursor and the start of the token, the
    token ends where the cursor is left, and apart from [EOF], which is
    empty and is returned at or past the end of the text only, every
    token has at least one character and ends within the text. *)
Theorem scanNextToken_token_geometry st tok st' :
  Lexer._scanNextToken st = (Some tok, st') ->
  Lexer.source st' = Lexer.source st /\
  Lexer.diagnostics st' = Lexer.diagnostics st /\
  (Lexer.cursor st <= Lexer.start tok)%nat /\
  forallb Lexer.isWhitespace
    (take (Lexer.start tok - Lexer.cursor st) (drop (Lexer.cursor st) (Lexer.source st)))
    = true /\
  (Lexer.start tok + Lexer.length tok)%nat = Lexer.cursor st' /\
  (Lexer.kind tok = Lexer.EOF ->
     Lexer.length tok = 0%nat /\ (length (Lexer.source st) <= Lexer.start tok)%nat) /\
  (Lexer.kind tok <> Lexer.EOF ->
     (1 <= Lexer.length tok)%nat /\ (Lexer.cursor st' <= length (Lexer.source st))%nat).
Proof.
  unfold Lexer._scanNextToken. intros H.
  pose proof (LexerFacts.span_le Lexer.isWhitespace
                (drop (Lexer.cursor st) (Lexer.source st))) as Hle.
  rewrite length_drop in Hle.
  apply LexerFacts.scanFrom_token in H as (Hs & Hd & Hst & Hend & Hmax & Heof & Hne).
  split_and!; try done.
  - lia.
  - rewrite Hst.
    replace (_ + _ - _)%nat
      with (Lexer.span Lexer.isWhitespace (drop (Lexer.cursor st) (Lexer.source st)))
      by lia.
    apply ScanFacts.span_take.
  - intros Hk. destruct (Heof Hk) as [? ?]. split; [done|]. lia.
  - intros Hk. pose proof (Hne Hk) as Hlen. split; [done|].
    destruct (decide (length (Lexer.source st) <= Lexer.cursor st)%nat); lia.
Qed.

(** The scanner on [  ->x]. *)
Lemma scanNextToken_token_geometry_witness :
  let st := Lexer.mk [32; 32; 45; 62; 120] 0 [] in
  exists tok st',
    Lexer._scanNextToken st = (Some tok, st') /\
    (Lexer.start tok + Lexer.length tok)%nat = Lexer.cursor st' /\
    Lexer.cursor st' = 4%nat.
Proof.
  intros st. eexists _, _. split; [vm_compute; reflexivity|].
  split; [|reflexivity].
  refine (proj1 (proj2 (proj2 (proj2 (proj2
            (scanNextToken_token_geometry st _ _ _)))))).
  vm_compute. reflexivity.
Defined.

Module LexemeFacts.

Import Lexer LexerFacts ExpanderFacts.

Lemma digitsValue_app digits rest : forall value,
  forallb isDigit digits = true ->
  match rest with [] => true | ch :: _ => negb (isDigit ch) end = true ->
  digitsValue (digits ++ rest) value = digitsValue digits value.
Proof.
  induction digits as [|d digits IH]; intros value Hd Hrest; simpl in *.
  - destruct rest as [|ch rest]; simpl; [done|]. by destruct (isDigit ch).
  - apply andb_true_iff in Hd as [-> Hd]. by apply IH.
Qed.

Lemma isDigit_range ch : isDigit ch = true -> 0 <= ch - CCODE_0 <= 9.
Proof. unfold isDigit, CCODE_0, CCODE_9. lia. Qed.

Lemma decimal_grows digits : forall value,
  forallb isDigit digits = true -> 0 <= value ->
  value <= foldl (fun value ch => value * 10 + (ch - CCODE_0)) value digits.
Proof.
  induction digits as [|d digits IH]; intros value Hd Hv; simpl in *; [lia|].
  apply andb_true_iff in Hd as [Hd Hds]. apply isDigit_range in Hd.
  etrans; [|apply IH; [done|lia]]. lia.
Qed.

(** Below [2 ^ 53] no step of the loop rounds. *)
Lemma digitsValue_exact digits : forall value,
  forallb isDigit digits = true -> 0 <= value ->
  foldl (fun value ch => value * 10 + (ch - CCODE_0)) value digits <= 2 ^ 53 ->
  digitsValue digits value
  = foldl (fun value ch => value * 10 + (ch - CCODE_0)) value digits.
Proof.
  induction digits as [|d digits IH]; intros value Hd Hv Hle; simpl in *; [done|].
  apply andb_true_iff in Hd as [Hd Hds]. rewrite Hd.
  pose proof (isDigit_range _ Hd) as Hr.
  pose proof (decimal_grows digits (value * 10 + (d - CCODE_0)) Hds ltac:(lia)) as Hg.
  rewrite (number_exact (value * 10)) by lia.
  rewrite (number_exact (value * 10 + (d - CCODE_0))) by lia.
  apply IH; [done|lia|done].
Qed.

(** On a letter or a digit none of the punctuation cases applies. *)
Lemma scanFrom_word st c ch :
  source st !! c = Some ch -> isIdentifierPart ch = true ->
  scanFrom st c =
    let src := source st in
    let digits := span isDigit (drop c src) in
    if (0 <? digits)%nat && codeIs (src !! (c + digits)%nat) CCODE_L then
      (Some (mkToken NUMBER [] (Some (digitsValue (drop c src) 0)) c (c + digits + 1 - c)),
       withCursor (c + digits + 1) st)
    else
      let letters := span isIdentifierPart (drop c src) in
      if (0 <? letters)%nat then
        let text := take letters (drop c src) in
        match keyword text with
        | Some kind => (Some (mkToken kind [] None c (c + letters - c)),
                        withCursor (c + letters) st)
        | None => (Some (mkToken IDENTIFIER text None c (c + letters - c)),
                   withCursor (c + letters) st)
        end
      else
        (None, mk src c (diagnostics st ++ [mkDiagnostic (UNEXPECTED_CHARACTER (src !! c)) c 1])).
Proof.
  intros Hch Hid. unfold scanFrom.
  assert (Hlt : (List.length (source st) <=? c)%nat = false).
  { apply Nat.leb_gt. by eapply lookup_lt_Some. }
  rewrite Hlt. cbv zeta. rewrite Hch.
  assert (Hno : forall code,
    In code [CCODE_COLON; CCODE_EQUAL; CCODE_OPEN_PARENTH; CCODE_CLOSE_PARENTH;
             CCODE_OPEN_BRACKET; CCODE_CLOSE_BRACKET; CCODE_COMMA; CCODE_DOT;
             CCODE_EAR; CCODE_SEMI_COLON; CCODE_DASH; CCODE_BSLASH] ->
    codeIs (Some ch) code = false).
  { intros code Hin. simpl. apply Z.eqb_neq. intros ->.
    simpl in Hin.
    repeat (destruct Hin as [<-|Hin]; [by vm_compute in Hid|]). done. }
  rewrite !Hno by (simpl; tauto). done.
Qed.

Lemma span_ws ws rest (ch : Z) :
  forallb isWhitespace ws = true -> isWhitespace ch = false ->
  span isWhitespace (ws ++ ch :: rest) = List.length ws.
Proof. intros Hws Hch. apply span_all; [done|]. simpl. by rewrite Hch. Qed.

Lemma word_not_ws ch : isIdentifierPart ch = true -> isWhitespace ch = false.
Proof.
  unfold isIdentifierPart, isWhitespace, CCODE_A, CCODE_Z, CCODE_LOWER_A, CCODE_LOWER_Z,
    CCODE_0, CCODE_9, CCODE_CR, CCODE_LF, CCODE_SPACE, CCODE_TAB.
  intros H. repeat (apply orb_false_iff; split); apply Z.eqb_neq; intros ->; done.
Qed.

End LexemeFacts.

(** X27.  Reading back a lexeme.  After any white space, a run of
    decimal digits followed by [l] is read as one [NUMBER] token,
    whatever follows the [l]; its value is the number the digits write
    if that number is at most [2 ^ 53], and a rounding of it in general:
    [9007199254740993l] reads as [9007199254740992].  A word of letters
    and digits that begins with a letter, is not a keyword and is not
    followed by a letter or digit is read as one [IDENTIFIER] token
    whose text is the word.  In both cases the token starts after the
    white space and the cursor is left at its end. *)
Theorem scanNextToken_reads_lexemes ws rest ds :
  forallb Lexer.isWhitespace ws = true ->
  (forall digit digits,
     forallb Lexer.isDigit (digit :: digits) = true ->
     let src := ws ++ (digit :: digits) ++ Lexer.CCODE_L :: rest in
     Lexer._scanNextToken (Lexer.mk src 0 ds)
     = (Some (Lexer.mkToken Lexer.NUMBER []
                (Some (Lexer.digitsValue (digit :: digits) 0))
                (length ws) (S (S (length digits)))),
        Lexer.mk src (length ws + S (S (length digits))) ds) /\
     (decimal (digit :: digits) <= 2 ^ 53 ->
      Lexer.digitsValue (digit :: digits) 0 = decimal (digit :: digits))) /\
  Lexer.digitsValue [57; 48; 48; 55; 49; 57; 57; 50; 53; 52; 55; 52; 48; 57; 57; 51] 0
  = 9007199254740992 /\
  (forall letter word,
     isLetter letter = true ->
     forallb Lexer.isIdentifierPart word = true ->
     Lexer.keyword (letter :: word) = None ->
     match rest with [] => true | ch :: _ => negb (Lexer.isIdentifierPart ch) end = true ->
     let src := ws ++ (letter :: word) ++ rest in
     Lexer._scanNextToken (Lexer.mk src 0 ds)
     = (Some (Lexer.mkToken Lexer.IDENTIFIER (letter :: word) None
                (length ws) (S (length word))),
        Lexer.mk src (length ws + S (length word)) ds)).
Proof.
  intros Hws. split; [|split; [by vm_compute|]].
  - intros digit digits Hd src.
    split; [|intros Hle; apply LexemeFacts.digitsValue_exact; done].
    unfold Lexer._scanNextToken. simpl Lexer.cursor.
    simpl Lexer.source. rewrite drop_0.
    pose proof Hd as Hd'. simpl in Hd'. apply andb_true_iff in Hd' as [Hdigit Hdigits].
    assert (Hid : Lexer.isIdentifierPart digit = true).
    { unfold Lexer.isIdentifierPart. fold (Lexer.isDigit digit). rewrite Hdigit.
      by rewrite orb_true_r. }
    assert (Hsp : Lexer.span Lexer.isWhitespace src = length ws)
      by apply (LexemeFacts.span_ws ws _ digit Hws (LexemeFacts.word_not_ws _ Hid)).
    rewrite Hsp. cbn [Nat.add].
    rewrite (LexemeFacts.scanFrom_word _ _ digit);
      [|simpl; unfold src; rewrite lookup_app_r by lia; by rewrite Nat.sub_diag|done].
    cbv zeta. simpl Lexer.source.
    assert (Hdrop : drop (length ws) src = (digit :: digits) ++ Lexer.CCODE_L :: rest).
    { unfold src. by rewrite drop_app_length. }
    rewrite Hdrop.
    rewrite (LexerFacts.span_all Lexer.isDigit (digit :: digits)) by done.
    assert (Hl : src !! (length ws + length (digit :: digits))%nat = Some Lexer.CCODE_L).
    { unfold src. rewrite lookup_app_r by lia.
      replace (length ws + length (digit :: digits) - length ws)%nat
        with (length (digit :: digits)) by lia.
      by apply list_lookup_middle. }
    rewrite Hl. simpl negb. cbn [Lexer.codeIs]. rewrite Z.eqb_refl. simpl andb.
    rewrite LexemeFacts.digitsValue_app by done.
    unfold Lexer.withCursor. simpl length.
    replace (length ws + S (length digits) + 1 - length ws)%nat
      with (S (S (length digits))) by lia.
    by replace (length ws + S (length digits) + 1)%nat
      with (length ws + S (S (length digits)))%nat by lia.
  - intros letter word Hletter Hword Hkey Hrest src.
    unfold Lexer._scanNextToken. simpl Lexer.cursor. simpl Lexer.source. rewrite drop_0.
    unfold isLetter in Hletter. apply andb_true_iff in Hletter as [Hid Hnd].
    apply negb_true_iff in Hnd.
    assert (Hsp : Lexer.span Lexer.isWhitespace src = length ws)
      by apply (LexemeFacts.span_ws ws _ letter Hws (LexemeFacts.word_not_ws _ Hid)).
    rewrite Hsp. cbn [Nat.add].
    rewrite (LexemeFacts.scanFrom_word _ _ letter);
      [|simpl; unfold src; rewrite lookup_app_r by lia; by rewrite Nat.sub_diag|done].
    cbv zeta. simpl Lexer.source.
    assert (Hdrop : drop (length ws) src = (letter :: word) ++ rest).
    { unfold src. by rewrite drop_app_length. }
    rewrite Hdrop.
    assert (Hspan : Lexer.span Lexer.isDigit ((letter :: word) ++ rest) = 0%nat)
      by (simpl; by rewrite Hnd).
    rewrite Hspan. simpl andb. cbv iota.
    rewrite (LexerFacts.span_all Lexer.isIdentifierPart (letter :: word))
      by (simpl; by rewrite ?Hid, ?Hword).
    simpl Nat.ltb. cbv iota. rewrite take_app_length, Hkey.
    unfold Lexer.withCursor. simpl. do 3 f_equal; lia.
Qed.

(** [  12l)] is read as the number 12 and [ Nat.zero] as the word [Nat]. *)
Lemma scanNextToken_reads_lexemes_witness :
  Lexer._scanNextToken (Lexer.mk [32; 32; 49; 50; 108; 41] 0 [])
  = (Some (Lexer.mkToken Lexer.NUMBER [] (Some 12) 2 3),
     Lexer.mk [32; 32; 49; 50; 108; 41] 5 []) /\
  Lexer._scanNextToken (Lexer.mk [32; 78; 97; 116; 46; 122; 101; 114; 111] 0 [])
  = (Some (Lexer.mkToken Lexer.IDENTIFIER [78; 97; 116] None 1 3),
     Lexer.mk [32; 78; 97; 116; 46; 122; 101; 114; 111] 4 []).
Proof.
  split.
  - destruct (proj1 (scanNextToken_reads_lexemes [32; 32] [41] [] eq_refl)
                49 [50] eq_refl) as [Htoken Hvalue].
    rewrite Hvalue in Htoken by (vm_compute; discriminate). exact Htoken.
  - exact (proj2 (proj2 (scanNextToken_reads_lexemes [32] [46; 122; 101; 114; 111] []
                           eq_refl))
             78 [97; 116] eq_refl eq_refl eq_refl eq_refl).
Defined.

(** X28.  Look-ahead hangs on an unexpected character.  Once the
    scanner has answered [null] (it has met a character that starts no
    token) it answers [null] to every further call, leaving the cursor
    on that character and adding the same diagnostic once more.  So if
    the look-ahead queue is shorter than [count], the loop of
    [doLah(count)] never ends: no number of turns suffices. *)
Theorem doLah_never_returns_after_null count self lx :
  (length (Lexer.lah self) < count)%nat ->
  Lexer._scanNextToken (Lexer.lexer self) = (None, lx) ->
  (exists d,
     Lexer.diagnostics lx = Lexer.diagnostics (Lexer.lexer self) ++ [d] /\
     Lexer._scanNextToken lx
     = (None, Lexer.mk (Lexer.source lx) (Lexer.cursor lx) (Lexer.diagnostics lx ++ [d]))) /\
  forall fuel, Lexer.doLah fuel count self = Err OutOfFuel.
Proof.
  intros Hlt Hscan. split; [by apply ScanFacts.scan_null_again|].
  induction fuel as [|fuel _]; simpl.
  - apply Nat.ltb_lt in Hlt. by rewrite Hlt.
  - pose proof Hlt as Hlt'. apply Nat.ltb_lt in Hlt'. rewrite Hlt', Hscan.
    destruct (ScanFacts.scan_null_again _ _ Hscan) as (d & _ & Hagain).
    by apply (ScanFacts.doLah_null count fuel (Lexer.mkParser lx (Lexer.token self) (Lexer.lah self))
                _ Hlt Hagain).
Qed.

(** Look-ahead on [a #]: the first token is read, the second never. *)
Lemma doLah_never_returns_after_null_witness :
  let eof := Lexer.mkToken Lexer.EOF [] None 0 0 in
  let self := Lexer.mkParser (Lexer.mk [97; 32; 35] 1 []) eof
                [Lexer.mkToken Lexer.IDENTIFIER [97] None 0 1] in
  Lexer.doLah 1000 2 self = Err OutOfFuel.
Proof.
  intros eof self.
  refine (proj2 (doLah_never_returns_after_null 2 self _ _ _) 1000%nat).
  - simpl. lia.
  - vm_compute. reflexivity.
Defined.

(** X29.  Look-ahead is transparent.  When [doLah(count)] returns, the
    queue holds [count] tokens (or as many as it held, if more), and
    the tokens [nextToken] delivers afterwards are those it would have
    delivered without the look-ahead: after any number [k] of calls the
    current token is the same, and once the queue is used up the whole
    state of the parser is the same. *)
Theorem lookahead_is_transparent fuel count self self' :
  Lexer.doLah fuel count self = Ok self' ->
  length (Lexer.lah self') = Nat.max count (length (Lexer.lah self)) /\
  forall k,
    Lexer.token (Nat.iter k Lexer.nextToken self')
    = Lexer.token (Nat.iter k Lexer.nextToken self) /\
    ((length (Lexer.lah self') <= k)%nat ->
     Nat.iter k Lexer.nextToken self' = Nat.iter k Lexer.nextToken self).
Proof.
  intros H. apply ScanFacts.doLah_feeds in H as (Ht & Hlen & Hahead).
  split; [done|]. intros k.
  assert (Ha : ahead self self') by (by split).
  destruct (ScanFacts.ahead_iter self self' k Ha) as [Hk Hl].
  split; [apply Hk|]. intros Hle.
  apply (ScanFacts.ahead_empty _ _ Hk).
  apply length_zero_iff_nil. lia.
Qed.

(** Two tokens of look-ahead on [f(x)], then three calls of [nextToken]. *)
Lemma lookahead_is_transparent_witness :
  let eof := Lexer.mkToken Lexer.EOF [] None 0 0 in
  let self := Lexer.mkParser (Lexer.mk [102; 40; 120; 41] 0 []) eof [] in
  exists self',
    Lexer.doLah 10 2 self = Ok self' /\
    length (Lexer.lah self') = 2%nat /\
    Nat.iter 3 Lexer.nextToken self' = Nat.iter 3 Lexer.nextToken self.
Proof.
  intros eof self. eexists. split; [vm_compute; reflexivity|].
  match goal with
  | |- length (Lexer.lah ?s') = _ /\ _ =>
      pose proof (lookahead_is_transparent 10 2 self s' eq_refl) as [Hlen Hk]
  end.
  split; [exact Hlen|]. apply (Hk 3%nat). rewrite Hlen. simpl. lia.
Defined.

Module RangeFacts.

Import SourceRangeBuilder.

(** What a builder that has merged something keeps while ranges that
    do not start before it are merged. *)
Lemma mergeAll_from ranges : forall self,
  hasMerge self = true ->
  Forall (fun range => start self <= r_start range) ranges ->
  let self' := mergeAll ranges self in
  hasMerge self' = true /\ start self' = start self /\
  start self + length self <= start self' + length self' /\
  Forall (fun range => r_end range <= start self' + length self') ranges /\
  (start self' + length self' = start self + length self \/
   Exists (fun range => r_end range = start self' + length self') ranges).
Proof.
  induction ranges as [|range ranges IH]; intros self Hm Hall; simpl.
  - split_and!; try done; try lia; by left.
  - inversion Hall as [|? ? Hr Hrest]; subst.
    assert (Hs : (r_start range <? start self) = false) by (apply Z.ltb_ge; lia).
    set (self1 := merge range self).
    assert (H1 : hasMerge self1 = true /\ start self1 = start self /\
                 start self1 + length self1 = Z.max (start self + length self) (r_end range)).
    { unfold self1, merge, r_end. rewrite Hm, Hs. simpl.
      destruct (start self + length self <? r_start range + r_length range) eqn:Hlt;
        simpl; [apply Z.ltb_lt in Hlt|apply Z.ltb_ge in Hlt];
        split_and!; try done; lia. }
    destruct H1 as (Hm1 & Hs1 & He1). clearbody self1.
    destruct (IH self1 Hm1) as (Hm' & Hs' & Hle' & Hall' & Htight).
    { rewrite Hs1. done. }
    fold (mergeAll ranges self1) in *.
    split_and!; [done|congruence|lia| |].
    + constructor; [lia|done].
    + destruct Htight as [Heq|Hex]; [|right; by apply Exists_cons_tl].
      destruct (Z.max_spec (start self + length self) (r_end range)) as [[? Hmax]|[? Hmax]].
      * right. apply Exists_cons_hd. lia.
      * left. lia.
Qed.

End RangeFacts.

(** X30.  The range of a sequence of ranges.  After a fresh builder has
    merged a first range and then others, none of which starts before
    the first, [asSourceRange] returns their hull: it starts where the
    first range starts, reaches the end of every range and ends where
    one of them ends.  A range that starts before the builder's start
    moves the start but keeps the larger of the two lengths, so that
    the former end is no longer covered when it lies beyond; and a
    builder that has merged nothing panics. *)
Theorem merge_builds_the_hull first ranges :
  Forall (fun range => r_start first <= r_start range) ranges ->
  (exists hull,
     SourceRangeBuilder.asSourceRange
       (SourceRangeBuilder.mergeAll (first :: ranges) SourceRangeBuilder.create) = Ok hull /\
     r_start hull = r_start first /\
     Forall (fun range => r_end range <= r_end hull) (first :: ranges) /\
     Exists (fun range => r_end range = r_end hull) (first :: ranges)) /\
  (forall range self,
     SourceRangeBuilder.hasMerge self = true ->
     r_start range < SourceRangeBuilder.start self ->
     SourceRangeBuilder.asSourceRange (SourceRangeBuilder.merge range self)
     = Ok (mkRange (r_start range)
                   (Z.max (SourceRangeBuilder.length self) (r_length range)))) /\
  SourceRangeBuilder.asSourceRange SourceRangeBuilder.create = Err Panic.
Proof.
  intros Hall. split_and!; [|clear|done].
  - pose proof (RangeFacts.mergeAll_from ranges
                  (SourceRangeBuilder.mk (r_start first) (r_length first) true)
                  eq_refl Hall) as H.
    change (SourceRangeBuilder.mergeAll (first :: ranges) SourceRangeBuilder.create)
      with (SourceRangeBuilder.mergeAll ranges
              (SourceRangeBuilder.mk (r_start first) (r_length first) true)).
    cbv zeta in H.
    set (b := SourceRangeBuilder.mergeAll ranges _) in *. clearbody b.
    destruct H as (Hm & Hs & Hle & Hcov & Htight).
    cbn [SourceRangeBuilder.start SourceRangeBuilder.length] in Hs, Hle, Htight.
    unfold SourceRangeBuilder.asSourceRange. rewrite Hm. eexists. split; [done|].
    unfold r_end in *. cbn [r_start r_length]. split_and!; [done| |].
    + constructor; [lia|done].
    + destruct Htight as [Heq|Hex]; [|by apply Exists_cons_tl].
      apply Exists_cons_hd. lia.
  - intros range self Hm Hlt. unfold SourceRangeBuilder.asSourceRange, SourceRangeBuilder.merge.
    rewrite Hm. simpl. apply Z.ltb_lt in Hlt. rewrite Hlt.
    destruct (r_start range + SourceRangeBuilder.length self
              <? r_start range + r_length range) eqn:Hc;
      [apply Z.ltb_lt in Hc|apply Z.ltb_ge in Hc]; do 2 f_equal; lia.
Qed.

(** The ranges from 4 to 7, from 4 to 5 and from 9 to 12. *)
Lemma merge_builds_the_hull_witness :
  let ranges := [mkRange 4 1; mkRange 9 3] in
  exists hull,
    SourceRangeBuilder.asSourceRange
      (SourceRangeBuilder.mergeAll (mkRange 4 3 :: ranges) SourceRangeBuilder.create)
    = Ok hull /\
    r_start hull = 4 /\
    Forall (fun range => r_end range <= r_end hull) (mkRange 4 3 :: ranges) /\
    Exists (fun range => r_end range = r_end hull) (mkRange 4 3 :: ranges).
Proof.
  intros ranges.
  apply (proj1 (merge_builds_the_hull (mkRange 4 3) ranges
                  ltac:(repeat constructor; simpl; lia))).
Defined.
